(** * Session orchestration of the Deepgram voice agent scripts

    A shallow embedding of the two runners of the repository,
    [ScenarioRunner] (test_multilingual_cartesia.py) and [DemoRunner]
    (dg_cartesia_agent_e2e.py): their callbacks, the keep-alive loop, the
    turn-delivery threads and [run], as step functions over an explicit
    session state, interleaved by a schedule of events. *)

From Stdlib Require Import List String Ascii NArith ZArith Bool Lia.
From Stdlib Require Import Strings.Byte.
From Stdlib Require Import Floats.SpecFloat.
From Stdlib Require Import Sorting.Permutation.
Import ListNotations.
Local Open Scope string_scope.
Local Open Scope N_scope.

Set Implicit Arguments.
Set Warnings "-register-all".

(** ** Values produced by [json.loads] *)

Inductive json : Type :=
| JNone
| JBool (b : bool)
| JInt (z : Z)
| JFloat (f : spec_float)
| JStr (s : string)
| JList (l : list json)
| JDict (d : list (string * json)).

Fixpoint lookup (key : string) (d : list (string * json)) : option json :=
  match d with
  | [] => None
  | (k, v) :: rest => if String.eqb k key then Some v else lookup key rest
  end.

(** [v == "literal"] for a value [v] of any Python type. *)
Definition eq_str (v : json) (lit : string) : bool :=
  match v with
  | JStr s => String.eqb s lit
  | _ => false
  end.

(** [v in (lit1, lit2, ...)]. *)
Definition in_strs (v : json) (lits : list string) : bool :=
  existsb (eq_str v) lits.

(** ** Exceptions and the callback monad

    A callback runs on a state [S]; it returns normally or raises, and in
    both cases the mutations made so far stay. *)

Inductive exn : Type :=
| AttributeError
| WebSocketConnectionClosedException.

Inductive outcome (S A : Type) : Type :=
| Returned (a : A) (s : S)
| Raised (e : exn) (s : S).
Arguments Returned {S A} a s.
Arguments Raised {S A} e s.

Definition state_of {S A} (o : outcome S A) : S :=
  match o with
  | Returned _ s => s
  | Raised _ s => s
  end.

Definition raises {S A} (o : outcome S A) : bool :=
  match o with
  | Returned _ _ => false
  | Raised _ _ => true
  end.

Definition M (S A : Type) : Type := S -> outcome S A.

Definition ret {S A} (a : A) : M S A := fun s => Returned a s.

Definition bind {S A B} (c : M S A) (k : A -> M S B) : M S B :=
  fun s =>
    match c s with
    | Returned a s' => k a s'
    | Raised e s' => Raised e s'
    end.

Definition raise {S A} (e : exn) : M S A := fun s => Raised e s.

Definition modify {S} (f : S -> S) : M S unit := fun s => Returned tt (f s).

Definition gets {S A} (f : S -> A) : M S A := fun s => Returned (f s) s.

Definition pass {S} : M S unit := ret tt.

Declare Scope py_scope.
Delimit Scope py_scope with py.
Notation "x <- c ;; k" := (bind c (fun x => k))
  (at level 61, c at next level, right associativity) : py_scope.
Notation "c ;; k" := (bind c (fun _ => k))
  (at level 61, right associativity) : py_scope.

(** [event.get(key, default)]: an [AttributeError] unless [event] is a dict. *)
Definition get {S} (event : json) (key : string) (default : json) : M S json :=
  match event with
  | JDict d =>
      match lookup key d with
      | Some v => ret v
      | None => ret default
      end
  | _ => raise AttributeError
  end.

(** ** Text of the console and of file names

    An f-string is kept as the list of its pieces: the literal text and the
    interpolated values, whose rendering is Python's. *)

Inductive frag : Type :=
| FS (s : string)          (* literal text, or a str value *)
| FV (v : json)            (* [{v}] of a parsed value *)
| FN (n : nat)             (* [{n}] of an int *)
| FComma (n : nat)         (* [{n:,}] *)
| FUpper (s : string)      (* [s.upper()] *)
| FTime (t : N)            (* [datetime.now().strftime("%Y%m%d_%H%M%S")] at clock [t] *)
| FUuid4.                  (* [uuid.uuid4().hex[:4]] *)

Definition line : Type := list frag.

(** The newline character of a string literal. *)
Definition nl : string := String (ascii_of_N 10) EmptyString.

(** ** The connection, the console, the disk and the clock *)

Inductive conn_status : Type :=
| CInit          (* the WebSocketApp exists, run_forever not started *)
| CConnecting    (* run_forever is connecting *)
| COpen          (* the socket is open *)
| CClosing       (* ws.close() was called; on_close is still to run *)
| CClosed.       (* on_close has run and run_forever has returned *)

Definition conn_eqb (a b : conn_status) : bool :=
  match a, b with
  | CInit, CInit | CConnecting, CConnecting | COpen, COpen
  | CClosing, CClosing | CClosed, CClosed => true
  | _, _ => false
  end.

Inductive sender : Type :=
| ByCallback
| ByKeepalive (k : nat)
| ByTurns (k : nat).

Definition sender_eqb (a b : sender) : bool :=
  match a, b with
  | ByCallback, ByCallback => true
  | ByKeepalive i, ByKeepalive j => Nat.eqb i j
  | ByTurns i, ByTurns j => Nat.eqb i j
  | _, _ => false
  end.

(** A frame written to the socket: the value handed to [json.dumps], with
    the clock and the thread of the [ws.send] call. *)
Record sent : Type := Sent {
  sent_at : N;
  sent_by : sender;
  sent_msg : json
}.

Record sink : Type := Sink {
  sink_name : line;
  sink_data : list byte
}.

Record world : Type := World {
  conn : conn_status;
  outbox : list sent;
  console : list line;
  files : list sink;
  now : N;
  stdin : list (option string)
}.

Definition with_conn (c : conn_status) (w : world) : world :=
  World c (outbox w) (console w) (files w) (now w) (stdin w).

Definition with_outbox (o : list sent) (w : world) : world :=
  World (conn w) o (console w) (files w) (now w) (stdin w).

Definition with_console (c : list line) (w : world) : world :=
  World (conn w) (outbox w) c (files w) (now w) (stdin w).

Definition with_files (f : list sink) (w : world) : world :=
  World (conn w) (outbox w) (console w) f (now w) (stdin w).

Definition with_now (t : N) (w : world) : world :=
  World (conn w) (outbox w) (console w) (files w) t (stdin w).

Definition with_stdin (i : list (option string)) (w : world) : world :=
  World (conn w) (outbox w) (console w) (files w) (now w) i.

Definition world0 : world := World CInit [] [] [] 0 [].

(** [print(l)] *)
Definition w_print (l : line) (w : world) : world :=
  with_console (console w ++ [l]) w.

(** [with open(fpath, "wb") as f: f.write(data)] *)
Definition w_write (name : line) (data : list byte) (w : world) : world :=
  with_files (files w ++ [Sink name data]) w.

(** [ws.send(json.dumps(msg))]: the frame is written when the socket is
    open; otherwise websocket-client raises
    [WebSocketConnectionClosedException]. *)
Definition w_send (who : sender) (msg : json) (w : world) : option world :=
  match conn w with
  | COpen => Some (with_outbox (outbox w ++ [Sent (now w) who msg]) w)
  | _ => None
  end.

(** [ws.close()]: closes the socket; run_forever then calls on_close. *)
Definition w_close (w : world) : world :=
  match conn w with
  | CInit | CConnecting | COpen => with_conn CClosing w
  | CClosing | CClosed => w
  end.

(** Seconds of [time.sleep] and [Event.wait], in milliseconds of the clock. *)
Definition seconds (n : N) : N := 1000 * n.

Definition KEEPALIVE_INTERVAL : N := 7.

Definition KeepAlive : json := JDict [("type", JStr "KeepAlive")].

Definition InjectUserMessage (text : string) : json :=
  JDict [("type", JStr "InjectUserMessage"); ("content", JStr text)].

Definition is_keepalive (m : json) : bool :=
  match m with
  | JDict d => match lookup "type" d with
               | Some t => eq_str t "KeepAlive"
               | None => false
               end
  | _ => false
  end.

Definition is_user_turn (m : json) : bool :=
  match m with
  | JDict d => match lookup "type" d with
               | Some t => eq_str t "InjectUserMessage"
               | None => false
               end
  | _ => false
  end.

(** ** A frame delivered by the socket

    A text frame is given by what [json.loads] yields on its text ([None]
    when it raises); a binary frame by its bytes. run_forever hands a frame
    to [on_data] with opcode [OPCODE_TEXT] for the first kind and
    [OPCODE_BINARY] for the second, then to [on_message]. *)
Inductive message : Type :=
| MText (parsed : option json)
| MBinary (data : list byte).

(** ** [_keepalive_loop] (identical in the two runners)

<<
    while not self._keepalive_stop.is_set():          KLoop
        self._keepalive_stop.wait(KEEPALIVE_INTERVAL) KWaitCall, KWaiting
        if self._keepalive_stop.is_set(): break       KCheck
        try: ws.send(json.dumps({"type": "KeepAlive"}))   KSend
        except Exception: break
>>
    One step is one evaluation of the flag, one call or one return.
    [ws] tells whether the loop's socket reference is bound: it is the
    argument [ws] in ScenarioRunner and [self._ws] in DemoRunner, where a
    [None] makes the [send] raise inside the [try]. *)

Inductive ka_pc : Type :=
| KLoop
| KWaitCall
| KWaiting (deadline : N)
| KCheck
| KSend
| KExit.

Definition keepalive_step (k : nat) (ws stop : bool) (pc : ka_pc) (w : world)
  : ka_pc * world :=
  match pc with
  | KLoop => if stop then (KExit, w) else (KWaitCall, w)
  | KWaitCall => (KWaiting (now w + seconds KEEPALIVE_INTERVAL), w)
  | KWaiting deadline =>
      if stop || (deadline <=? now w) then (KCheck, w) else (pc, w)
  | KCheck => if stop then (KExit, w) else (KSend, w)
  | KSend =>
      if ws then
        match w_send (ByKeepalive k) KeepAlive w with
        | Some w' => (KLoop, w')
        | None => (KExit, w)
        end
      else (KExit, w)
  | KExit => (KExit, w)
  end.

(** Update of the [k]-th element of a thread pool. *)
Fixpoint set_nth {A} (k : nat) (a : A) (l : list A) : list A :=
  match l, k with
  | [], _ => []
  | _ :: t, O => a :: t
  | x :: t, S k' => x :: set_nth k' a t
  end.

(** ** The schedule

    What can happen next in a session: the socket opens, delivers a frame
    or closes (all on the thread of run_forever, one callback at a time),
    the clock advances, a line is typed, or one of the threads takes its
    next step.  Python may switch threads between any two statements, so a
    step of a thread is one statement; a callback is one step, since the
    callbacks all run on one thread and the other threads meet them only
    through the flags, the socket and the transcript.  An event that cannot
    happen in a state (a frame on a closed socket, a step of a sleeping
    thread) leaves the state as it is. *)
Inductive event : Type :=
| EvMain
| EvOpen
| EvFrame (m : message)
| EvClose
| EvTick (d : N)
| EvStdin (l : option string)
| EvKeepalive (k : nat)
| EvTurns (k : nat).

(** The environment variables read at import. *)
Record environ : Type := Environ {
  DEEPGRAM_API_KEY : string;
  CARTESIA_API_KEY : string;
  CARTESIA_VOICE_ID : string
}.

(** Truth value of [s.get(key)] for an optional string entry. *)
Definition truthy (o : option string) : bool :=
  match o with
  | Some s => negb (String.eqb s "")
  | None => false
  end.

Definition of_opt (o : option string) : json :=
  match o with
  | Some s => JStr s
  | None => JNone
  end.

Definition nilb {A} (l : list A) : bool :=
  match l with
  | [] => true
  | _ :: _ => false
  end.

(** The frames of a log sent by one thread, and their kinds. *)
Definition sent_from (who : sender) (o : list sent) : list sent :=
  filter (fun m => sender_eqb (sent_by m) who) o.

Definition user_turns (o : list sent) : list sent :=
  filter (fun m => is_user_turn (sent_msg m)) o.

Definition keepalives_of (o : list sent) : list sent :=
  filter (fun m => is_keepalive (sent_msg m)) o.

(** * Python's [str.strip] and [str.lower]

    A character of a [string] stands for one code point below 256. *)

(** [c.isspace()] *)
Definition isspace (c : ascii) : bool :=
  let n := N_of_ascii c in
  ((9 <=? n) && (n <=? 13)) || ((28 <=? n) && (n <=? 32))
  || (n =? 133) || (n =? 160).

Fixpoint lstrip (s : string) : string :=
  match s with
  | EmptyString => EmptyString
  | String c rest => if isspace c then lstrip rest else s
  end.

Fixpoint rstrip (s : string) : string :=
  match s with
  | EmptyString => EmptyString
  | String c rest =>
      match rstrip rest with
      | EmptyString => if isspace c then EmptyString else String c EmptyString
      | r => String c r
      end
  end.

Definition strip (s : string) : string := rstrip (lstrip s).

Definition lower_char (c : ascii) : ascii :=
  let n := N_of_ascii c in
  if ((65 <=? n) && (n <=? 90))
     || ((192 <=? n) && (n <=? 222) && negb (n =? 215))
  then ascii_of_N (n + 32) else c.

Fixpoint lower (s : string) : string :=
  match s with
  | EmptyString => EmptyString
  | String c rest => String (lower_char c) (lower rest)
  end.

(** * Vocabulary of the properties *)

(** [event.get(key, "")] on a dict. *)
Definition field (key : string) (d : list (string * json)) : json :=
  match lookup key d with
  | Some v => v
  | None => JStr ""
  end.

(** The type tags of the remote events: configuration acknowledged,
    transcript line, audio segment complete, error, warning. *)
Definition event_types : list string :=
  ["SettingsApplied"; "ConversationText"; "AgentAudioDone"; "Error"; "Warning"].

(** The fatal codes: configuration rejected, malformed client message. *)
Definition fatal_codes : list string :=
  ["INVALID_SETTINGS"; "UNPARSABLE_CLIENT_MESSAGE"].

Definition idle_timeout : string := "CLIENT_MESSAGE_TIMEOUT".

(** A text frame that is not JSON, or a JSON object whose type tag is none
    of the event types. *)
Definition unrecognized (parsed : option json) : Prop :=
  parsed = None \/
  exists d, parsed = Some (JDict d) /\ in_strs (field "type" d) event_types = false.

(** A JSON object of a given type tag. *)
Definition tagged (tag : string) (d : list (string * json)) : Prop :=
  eq_str (field "type" d) tag = true.

(** The entry recorded for an error or a warning by ScenarioRunner. *)
Definition code_entry (code desc : json) : json :=
  JDict [("code", code); ("description", desc)].

Local Open Scope list_scope.

(** ** Timing of the frames of a thread *)

(** Every two of the times are at least [d] apart. *)
Fixpoint apart (d : N) (times : list N) : Prop :=
  match times with
  | [] => True
  | t :: rest => Forall (fun u => t + d <= u) rest /\ apart d rest
  end.

(** Each time comes at least [later] after the one before it, and the
    first at least [first] after [start]. *)
Fixpoint settled (start first later : N) (times : list N) : Prop :=
  match times with
  | [] => True
  | t :: rest => start + first <= t /\ settled t later later rest
  end.

(** The earliest time allowed for one more frame after [times]. *)
Fixpoint ready (start first later : N) (times : list N) : N :=
  match times with
  | [] => start + first
  | t :: rest => ready t later later rest
  end.

Definition by_keepalive (who : sender) : bool :=
  match who with
  | ByKeepalive _ => true
  | _ => false
  end.

Definition by_turns (who : sender) : bool :=
  match who with
  | ByTurns _ => true
  | _ => false
  end.

Definition sent_times (who : sender) (o : list sent) : list N :=
  map sent_at (sent_from who o).

(** ** The keep-alive loops of a session

    What the loops see of a session: the stop flag, the socket, the clock
    and the log, and the loops themselves. *)
Record kview : Type := KView {
  kv_ws : bool;
  kv_stop : bool;
  kv_w : world;
  kv_pool : list ka_pc
}.

(** One step of the [k]-th loop. *)
Definition kthread (k : nat) (v : kview) : kview :=
  match nth_error (kv_pool v) k with
  | Some pc =>
      let (pc', w') := keepalive_step k (kv_ws v) (kv_stop v) pc (kv_w v) in
      KView (kv_ws v) (kv_stop v) w' (set_nth k pc' (kv_pool v))
  | None => v
  end.

(** One step of anything else: the clock does not go back, the flag is not
    cleared, the frames written are not liveness frames, the loops started
    are at their first statement. *)
Definition kenv (v v' : kview) : Prop :=
  now (kv_w v) <= now (kv_w v') /\
  (kv_stop v = true -> kv_stop v' = true) /\
  (exists extra,
      outbox (kv_w v') = outbox (kv_w v) ++ extra /\
      Forall (fun m => by_keepalive (sent_by m) = false /\
                       is_keepalive (sent_msg m) = false) extra) /\
  (exists n, kv_pool v' = kv_pool v ++ repeat KLoop n).

Inductive kstep : kview -> kview -> Prop :=
| kstep_thread v k : kstep v (kthread k v)
| kstep_env v v' : kenv v v' -> kstep v v'.

(** What a loop at [pc] knows of the times of its own frames. *)
Definition kok (stop : bool) (t : N) (times : list N) (pc : ka_pc) : Prop :=
  apart (seconds KEEPALIVE_INTERVAL) times /\
  match pc with
  | KLoop | KWaitCall => Forall (fun u => u <= t) times
  | KWaiting deadline =>
      Forall (fun u => u + seconds KEEPALIVE_INTERVAL <= deadline) times
  | KCheck =>
      stop = true \/ Forall (fun u => u + seconds KEEPALIVE_INTERVAL <= t) times
  | KSend => Forall (fun u => u + seconds KEEPALIVE_INTERVAL <= t) times
  | KExit => True
  end.

Definition KInv (v : kview) : Prop :=
  Forall (fun m => is_keepalive (sent_msg m) = by_keepalive (sent_by m))
         (outbox (kv_w v)) /\
  forall k,
    match nth_error (kv_pool v) k with
    | Some pc => kok (kv_stop v) (now (kv_w v))
                     (sent_times (ByKeepalive k) (outbox (kv_w v))) pc
    | None => sent_from (ByKeepalive k) (outbox (kv_w v)) = []
    end.

(** The liveness frames a loop has sent, and the one it is about to send. *)
Definition kcount (k : nat) (v : kview) : nat :=
  List.length (sent_from (ByKeepalive k) (outbox (kv_w v))).

Definition kpending (k : nat) (v : kview) : nat :=
  match nth_error (kv_pool v) k with
  | Some KSend => 1
  | _ => 0
  end.

(** ** Scripted turn delivery

    What a scripted turn thread has done, whatever the runner: [i] turns are
    behind it and it is at the head of the loop, asleep before turn [i],
    awake with turn [i] still to send, or has just sent it; or it is past
    the loop, or was ended by a [send] that raised.  [PInter] stands for the
    interactive thread of DemoRunner. *)
Inductive phase : Type :=
| PAt (i : nat)
| PWait (i : nat) (text : string) (wake : N)
| PGo (i : nat) (text : string)
| PSent (i : nat)
| PTail
| PDead
| PInter.

(** The user-turn frames of the first [n] turns. *)
Definition expected (turns : list (string * string)) (n : nat) : list json :=
  map (fun t => InjectUserMessage (snd t)) (firstn n turns).

(** Seconds between two turns. *)
Definition BETWEEN_TURNS : N := 6.

(** [first if i == 0 else 6], in milliseconds. *)
Definition delay (first : N) (i : nat) : N :=
  seconds (if Nat.eqb i 0 then first else BETWEEN_TURNS).

(** A step of a scripted thread at clock [t], with the text it sends. *)
Inductive pstep (first : N) (turns : list (string * string)) (t : N)
  : phase -> option string -> phase -> Prop :=
| ps_stay ph : pstep first turns t ph None ph
| ps_enter i label text :
    nth_error turns i = Some (label, text) ->
    pstep first turns t (PAt i) None (PWait i text (t + delay first i))
| ps_leave i :
    nth_error turns i = None -> pstep first turns t (PAt i) None PTail
| ps_wake i text wake :
    wake <= t -> pstep first turns t (PWait i text wake) None (PGo i text)
| ps_send i text : pstep first turns t (PGo i text) (Some text) (PSent i)
| ps_next i : pstep first turns t (PSent i) None (PAt (S i))
| ps_die ph : pstep first turns t ph None PDead
| ps_inter m ph : pstep first turns t PInter m ph.

(** The frame written by a step that sends [m]. *)
Definition turn_frame (t : N) (k : nat) (m : option string) : list sent :=
  match m with
  | Some text => [Sent t (ByTurns k) (InjectUserMessage text)]
  | None => []
  end.

Record tview : Type := TView {
  tv_now : N;
  tv_outbox : list sent;
  tv_pool : list (N * phase)
}.

Definition tthread (first : N) (turns : list (string * string)) (k : nat)
  (v v' : tview) : Prop :=
  exists born ph m ph',
    nth_error (tv_pool v) k = Some (born, ph) /\
    pstep first turns (tv_now v) ph m ph' /\
    v' = TView (tv_now v)
           (tv_outbox v ++ turn_frame (tv_now v) k m)
           (set_nth k (born, ph') (tv_pool v)).

Definition tenv (v v' : tview) : Prop :=
  tv_now v <= tv_now v' /\
  (exists extra,
      tv_outbox v' = tv_outbox v ++ extra /\
      Forall (fun m => by_turns (sent_by m) = false /\
                       is_user_turn (sent_msg m) = false) extra) /\
  (exists n, tv_pool v' = tv_pool v ++ repeat (tv_now v', PAt 0) n).

Inductive tstep (first : N) (turns : list (string * string))
  : tview -> tview -> Prop :=
| tstep_thread v k v' : tthread first turns k v v' -> tstep first turns v v'
| tstep_env v v' : tenv v v' -> tstep first turns v v'.

(** What a scripted thread born at [born] has sent by clock [t]. *)
Definition tok (first : N) (turns : list (string * string)) (born t : N)
  (frames : list sent) (ph : phase) : Prop :=
  let times := map sent_at frames in
  let msgs := map sent_msg frames in
  born <= t /\
  Forall (fun u => u <= t) times /\
  settled born (seconds first) (seconds BETWEEN_TURNS) times /\
  match ph with
  | PAt i => msgs = expected turns i
  | PWait i text wake =>
      msgs = expected turns i /\
      (exists label, nth_error turns i = Some (label, text)) /\
      ready born (seconds first) (seconds BETWEEN_TURNS) times <= wake
  | PGo i text =>
      msgs = expected turns i /\
      (exists label, nth_error turns i = Some (label, text)) /\
      ready born (seconds first) (seconds BETWEEN_TURNS) times <= t
  | PSent i => msgs = expected turns (S i)
  | PTail => msgs = expected turns (List.length turns)
  | PDead => exists n, msgs = expected turns n
  | PInter => False
  end.

Definition TInv (first : N) (turns : list (string * string)) (v : tview) : Prop :=
  Forall (fun m => is_user_turn (sent_msg m) = by_turns (sent_by m)) (tv_outbox v) /\
  forall k,
    match nth_error (tv_pool v) k with
    | Some (born, ph) =>
        tok first turns born (tv_now v) (sent_from (ByTurns k) (tv_outbox v)) ph
    | None => sent_from (ByTurns k) (tv_outbox v) = []
    end.

(** The socket is closed, or being closed. *)
Definition closed (c : conn_status) : bool :=
  match c with
  | CClosing | CClosed => true
  | _ => false
  end.

(** A schedule on which the [k]-th turn thread, at the head of its loop,
    delivers the turns left and runs to its end: each sleep is followed by
    a tick of its length. *)
Fixpoint deliver (k : nat) (first : N) (turns : list (string * string))
  : list event :=
  match turns with
  | [] => [EvTurns k; EvTick (seconds 8); EvTurns k; EvTurns k; EvTurns k]
  | _ :: rest =>
      [EvTurns k; EvTick (seconds first); EvTurns k; EvTurns k; EvTurns k;
       EvTurns k]
      ++ deliver k BETWEEN_TURNS rest
  end.

(** The bytes an event brings: those of a binary frame on an open socket. *)
Definition chunk (c : conn_status) (e : event) : list byte :=
  match c, e with
  | COpen, EvFrame (MBinary bytes) => bytes
  | _, _ => []
  end.

(** ** The audio on disk and the entries of a transcript *)

(** The bytes of the files written, in the order of writing. *)
Definition on_disk (w : world) : list byte :=
  List.concat (map sink_data (files w)).

(** [msg.get("label")] is there: the entry was appended by a turn thread. *)
Definition labelled (entry : json) : bool :=
  match entry with
  | JDict d => match lookup "label" d with
               | Some _ => true
               | None => false
               end
  | _ => false
  end.

(** [msg["content"]] of a frame or of a transcript entry. *)
Definition content_of (m : json) : json :=
  match m with
  | JDict d => field "content" d
  | _ => JNone
  end.

(** The entry appended for a turn by the turn threads. *)
Definition turn_entry (label text : string) : json :=
  JDict [("role", JStr "user"); ("label", JStr label); ("content", JStr text)].

(** The entry appended for a transcript event. *)
Definition text_entry (role content : json) : json :=
  JDict [("role", role); ("content", content)].

(** A frame written by a thread: a liveness frame of a keep-alive loop or
    a user turn of a turn thread. *)
Definition thread_frame (m : sent) : Prop :=
  match sent_by m with
  | ByCallback => False
  | ByKeepalive _ => sent_msg m = KeepAlive
  | ByTurns _ => exists text, sent_msg m = InjectUserMessage text
  end.

(** ** Strings and entries, continued *)

(** [sub in s] for two strings. *)
Fixpoint contains (sub s : string) : bool :=
  String.prefix sub s ||
  match s with
  | EmptyString => false
  | String _ rest => contains sub rest
  end.

(** [s * n] *)
Fixpoint times (s : string) (n : nat) : string :=
  match n with
  | O => EmptyString
  | S n' => String.append s (times s n')
  end.

(** The double quote character. *)
Definition dq : string := String (ascii_of_N 34) EmptyString.

(** [os.getenv(name, "")] *)
Definition getenv_or_empty (getenv : string -> option string) (name : string)
  : string :=
  match getenv name with
  | Some v => v
  | None => EmptyString
  end.

(** [entry[key]]: [None] when it raises (a [KeyError], or a [TypeError] on
    a value that is no dict). *)
Definition item (key : string) (entry : json) : option json :=
  match entry with
  | JDict d => lookup key d
  | _ => None
  end.

(** [entry.get(key, "")]: [None] when it raises. *)
Definition item_or_empty (key : string) (entry : json) : option json :=
  match entry with
  | JDict d => Some (field key d)
  | _ => None
  end.

(** The lines printed by a loop whose body prints one line or raises. *)
Fixpoint each {A} (body : A -> option (list line)) (l : list A)
  : option (list line) :=
  match l with
  | [] => Some []
  | x :: rest =>
      match body x, each body rest with
      | Some a, Some b => Some (a ++ b)
      | _, _ => None
      end
  end.

(** [j[k1][k2]...]: [None] when a subscript raises. *)
Fixpoint at_path (path : list string) (j : json) : option json :=
  match path with
  | [] => Some j
  | key :: rest =>
      match item key j with
      | Some v => at_path rest v
      | None => None
      end
  end.

(** The time that passes on a schedule. *)
Fixpoint elapsed (schedule : list event) : N :=
  match schedule with
  | [] => 0
  | EvTick d :: rest => d + elapsed rest
  | _ :: rest => elapsed rest
  end.

(** [l'] is [l] with entries added at its end. *)
Definition extends {A} (l l' : list A) : Prop := exists added, l' = l ++ added.

(** Every character of [s] is white space: [s.isspace()], or [s] is
    empty. *)
Fixpoint blank (s : string) : bool :=
  match s with
  | EmptyString => true
  | String c rest => isspace c && blank rest
  end.
(** * ScenarioRunner (test_multilingual_cartesia.py) *)

Module Harness.

Record scenario_dict : Type := Scenario {
  id : string;
  name : string;
  description : string;
  agent_language : option string;      (* [None]: the key is absent *)
  listen_language : option string;
  cartesia_language : option string;
  prompt : string;
  greeting : option string;
  turns : list (string * string)       (* (label, text) *)
}.

Record audio_file : Type := AudioFile {
  file : line;
  size_bytes : nat;
  turn : nat
}.

Record results_dict : Type := Results {
  scenario_id : string;
  scenario_name : string;
  results_description : string;
  config : option string * option string * option string;
  settings_applied : bool;
  errors : list json;
  warnings : list json;
  conversation : list json;
  audio_files : list audio_file
}.

Record ScenarioRunner : Type := Runner {
  scenario : scenario_dict;
  results : results_dict;
  audio_buffer : list byte;
  audio_turn : nat;
  done_event : bool;
  _keepalive_stop : bool;
  _ws_ref : bool                       (* [false]: still [None] *)
}.

(** [_send_turns]
<<
    turns = self.scenario["turns"]
    for i, (label, text) in enumerate(turns):     TLoop i
        wait = 3 if i == 0 else 6
        time.sleep(wait)                          TSleeping i wake
        print(...)                                TPrint i
        ws.send(json.dumps({...}))                TSend i
        self.results["conversation"].append(...)  TAppend i
    time.sleep(8)                                 TFinalSleeping wake
    self._keepalive_stop.set()                    TSetStop
    ws.close()                                    TClose
>>
    [TDead i]: the [ws.send] of turn [i] raised and ended the thread. *)
Inductive turn_pc : Type :=
| TLoop (i : nat)
| TSleeping (i : nat) (label text : string) (wake : N)
| TPrint (i : nat) (label text : string)
| TSend (i : nat) (label text : string)
| TAppend (i : nat) (label text : string)
| TFinalSleeping (wake : N)
| TSetStop
| TClose
| TExit
| TDead (i : nat).

Record turn_thread : Type := TurnThread {
  t_born : N;                          (* clock at [Thread.start()] *)
  t_pc : turn_pc
}.

(** [run]
<<
    ws = websocket.WebSocketApp(...); ws_thread.start()   MStart
    timeout = 20 + len(self.scenario["turns"]) * 10
    self.done_event.wait(timeout=timeout)                 MWaitCall, MWaiting
    if ws_thread.is_alive():                              MIsAlive
        self._keepalive_stop.set()                        MSetStop
        try: ws.close()                                   MClose
        except Exception: pass
        ws_thread.join(timeout=5)                         MJoinCall, MJoining
    return self.results                                   MReturned
>>
    The socket thread is taken to end with its close callback, which the
    session runs in one step: [is_alive()] answers whether the socket has
    not closed.  In the source the thread lives a moment longer, so that
    [run] may still take its closing branch after the callback; on a
    closed socket the statements of that branch change nothing. *)
Inductive main_pc : Type :=
| MStart
| MWaitCall
| MWaiting (deadline : N)
| MIsAlive
| MSetStop
| MClose
| MJoinCall
| MJoining (deadline : N)
| MReturned.

Record sys : Type := Sys {
  self : ScenarioRunner;
  env : environ;
  w : world;
  keepalive_threads : list ka_pc;
  turn_threads : list turn_thread;
  main : main_pc
}.

(** *** Field updates *)

Definition on_self (f : ScenarioRunner -> ScenarioRunner) (s : sys) : sys :=
  Sys (f (self s)) (env s) (w s) (keepalive_threads s) (turn_threads s) (main s).

Definition on_world (f : world -> world) (s : sys) : sys :=
  Sys (self s) (env s) (f (w s)) (keepalive_threads s) (turn_threads s) (main s).

Definition with_keepalive_threads (l : list ka_pc) (s : sys) : sys :=
  Sys (self s) (env s) (w s) l (turn_threads s) (main s).

Definition with_turn_threads (l : list turn_thread) (s : sys) : sys :=
  Sys (self s) (env s) (w s) (keepalive_threads s) l (main s).

Definition with_main (pc : main_pc) (s : sys) : sys :=
  Sys (self s) (env s) (w s) (keepalive_threads s) (turn_threads s) pc.

Definition on_results (f : results_dict -> results_dict) (r : ScenarioRunner)
  : ScenarioRunner :=
  Runner (scenario r) (f (results r)) (audio_buffer r) (audio_turn r)
         (done_event r) (_keepalive_stop r) (_ws_ref r).

Definition with_audio_buffer (b : list byte) (r : ScenarioRunner) : ScenarioRunner :=
  Runner (scenario r) (results r) b (audio_turn r)
         (done_event r) (_keepalive_stop r) (_ws_ref r).

Definition with_audio_turn (n : nat) (r : ScenarioRunner) : ScenarioRunner :=
  Runner (scenario r) (results r) (audio_buffer r) n
         (done_event r) (_keepalive_stop r) (_ws_ref r).

Definition with_done_event (b : bool) (r : ScenarioRunner) : ScenarioRunner :=
  Runner (scenario r) (results r) (audio_buffer r) (audio_turn r)
         b (_keepalive_stop r) (_ws_ref r).

Definition with_keepalive_stop (b : bool) (r : ScenarioRunner) : ScenarioRunner :=
  Runner (scenario r) (results r) (audio_buffer r) (audio_turn r)
         (done_event r) b (_ws_ref r).

Definition with_ws_ref (b : bool) (r : ScenarioRunner) : ScenarioRunner :=
  Runner (scenario r) (results r) (audio_buffer r) (audio_turn r)
         (done_event r) (_keepalive_stop r) b.

Definition with_settings_applied (b : bool) (r : results_dict) : results_dict :=
  Results (scenario_id r) (scenario_name r) (results_description r) (config r)
          b (errors r) (warnings r) (conversation r) (audio_files r).

Definition with_errors (l : list json) (r : results_dict) : results_dict :=
  Results (scenario_id r) (scenario_name r) (results_description r) (config r)
          (settings_applied r) l (warnings r) (conversation r) (audio_files r).

Definition with_warnings (l : list json) (r : results_dict) : results_dict :=
  Results (scenario_id r) (scenario_name r) (results_description r) (config r)
          (settings_applied r) (errors r) l (conversation r) (audio_files r).

Definition with_conversation (l : list json) (r : results_dict) : results_dict :=
  Results (scenario_id r) (scenario_name r) (results_description r) (config r)
          (settings_applied r) (errors r) (warnings r) l (audio_files r).

Definition with_audio_files (l : list audio_file) (r : results_dict) : results_dict :=
  Results (scenario_id r) (scenario_name r) (results_description r) (config r)
          (settings_applied r) (errors r) (warnings r) (conversation r) l.

(** *** [__init__] *)

Definition __init__ (scenario : scenario_dict) : ScenarioRunner :=
  Runner scenario
         (Results (id scenario) (name scenario) (description scenario)
                  (agent_language scenario, listen_language scenario,
                   cartesia_language scenario)
                  false [] [] [] [])
         [] 0%nat false false false.

Definition boot (e : environ) (scenario : scenario_dict) : sys :=
  Sys (__init__ scenario) e world0 [] [] MStart.

(** *** Statements on the state *)

Definition print (l : line) : M sys unit := modify (on_world (w_print l)).

Definition ws_send (who : sender) (msg : json) : M sys unit :=
  fun s =>
    match w_send who msg (w s) with
    | Some w' => Returned tt (on_world (fun _ => w') s)
    | None => Raised WebSocketConnectionClosedException s
    end.

Definition _ts : M sys frag := gets (fun s => FTime (now (w s))).

(** [role.upper()] *)
Definition upper (v : json) : M sys frag :=
  match v with
  | JStr r => ret (FUpper r)
  | _ => raise AttributeError
  end.

Definition conversation_append (entry : json) : M sys unit :=
  modify (on_self (on_results
    (fun r => with_conversation (conversation r ++ [entry]) r))).

Local Open Scope py_scope.

Definition _save_audio (label : string) : M sys unit :=
  buffer <- gets (fun s => audio_buffer (self s)) ;;
  if nilb buffer then ret tt else
  modify (on_self (fun r => with_audio_turn (S (audio_turn r)) r)) ;;
  sid <- gets (fun s => id (scenario (self s))) ;;
  audio_turn <- gets (fun s => audio_turn (self s)) ;;
  ts <- _ts ;;
  let fname := [FS sid; FS "_turn"; FN audio_turn; FS "_"; ts; FS ".pcm"] in
  modify (on_world (w_write fname buffer)) ;;
  let size := List.length buffer in
  modify (on_self (with_audio_buffer [])) ;;
  modify (on_self (on_results (fun r =>
    with_audio_files (audio_files r ++ [AudioFile fname size audio_turn]) r))).

Definition build_settings (e : environ) (s : scenario_dict) : json :=
  let listen_provider :=
    ([("type", JStr "deepgram"); ("model", JStr "nova-3")]
     ++ (if truthy (listen_language s)
         then [("language", of_opt (listen_language s))] else []))%list in
  let speak_provider :=
    ([("type", JStr "cartesia"); ("model_id", JStr "sonic-multilingual");
      ("voice", JDict [("mode", JStr "id"); ("id", JStr (CARTESIA_VOICE_ID e))])]
     ++ (if truthy (cartesia_language s)
         then [("language", of_opt (cartesia_language s))] else []))%list in
  let agent :=
   ([("language", match agent_language s with
                  | Some l => JStr l
                  | None => JStr "en"
                  end);
     ("listen", JDict [("provider", JDict listen_provider)]);
     ("think", JDict [("provider", JDict [("type", JStr "open_ai");
                                          ("model", JStr "gpt-4o-mini")]);
                      ("prompt", JStr (prompt s))]);
     ("speak", JDict [("provider", JDict speak_provider);
                      ("endpoint", JDict
                         [("url", JStr "https://api.cartesia.ai/tts/bytes");
                          ("headers", JDict
                             [("X-API-Key", JStr (CARTESIA_API_KEY e));
                              ("Cartesia-Version", JStr "2024-06-10")])])])]
    ++ (if truthy (greeting s) then [("greeting", of_opt (greeting s))] else []))%list in
  JDict [("type", JStr "Settings");
         ("audio", JDict
            [("input", JDict [("encoding", JStr "linear16");
                              ("sample_rate", JInt 16000)]);
             ("output", JDict [("encoding", JStr "linear16");
                               ("sample_rate", JInt 24000);
                               ("container", JStr "none")])]);
         ("agent", JDict agent)].

Definition _on_open : M sys unit :=
  modify (on_self (with_ws_ref true)) ;;
  settings <- gets (fun s => build_settings (env s) (scenario (self s))) ;;
  ws_send ByCallback settings ;;
  lang <- gets (fun s => agent_language (scenario (self s))) ;;
  listen_lang <- gets (fun s => listen_language (scenario (self s))) ;;
  print [FS "    [WS] Settings sent (agent.language="; FV (of_opt lang);
         FS ", listen.language="; FV (of_opt listen_lang); FS ")"].

(** [threading.Thread(target=..., daemon=True).start()] *)
Definition start_keepalive_loop : M sys unit :=
  modify (fun s => with_keepalive_threads (keepalive_threads s ++ [KLoop]) s).

Definition start_send_turns : M sys unit :=
  modify (fun s =>
    with_turn_threads (turn_threads s ++ [TurnThread (now (w s)) (TLoop 0)]) s).

Definition _on_message (message : message) : M sys unit :=
  match message with
  | MBinary _ => ret tt             (* isinstance(message, bytes) *)
  | MText None => ret tt            (* json.loads raised *)
  | MText (Some event) =>
    etype <- get event "type" (JStr "") ;;
    if eq_str etype "SettingsApplied" then
      modify (on_self (on_results (with_settings_applied true))) ;;
      print [FS "    [OK] SettingsApplied — config accepted!"] ;;
      start_keepalive_loop ;;
      start_send_turns
    else if eq_str etype "ConversationText" then
      role <- get event "role" (JStr "") ;;
      content <- get event "content" (JStr "") ;;
      conversation_append (JDict [("role", role); ("content", content)]) ;;
      tag <- (if eq_str role "assistant" then ret (FS "AGENT") else upper role) ;;
      print [FS "    ["; tag; FS "]: "; FV content]
    else if eq_str etype "AgentAudioDone" then
      _save_audio "agent"
    else if eq_str etype "Error" then
      desc <- get event "description" (JStr "") ;;
      code <- get event "code" (JStr "") ;;
      modify (on_self (on_results (fun r =>
        with_errors (errors r ++ [JDict [("code", code); ("description", desc)]]) r))) ;;
      (if negb (eq_str code "CLIENT_MESSAGE_TIMEOUT")
       then print [FS "    [ERROR] "; FV code; FS ": "; FV desc]
       else ret tt) ;;
      if in_strs code ["INVALID_SETTINGS"; "UNPARSABLE_CLIENT_MESSAGE"] then
        modify (on_self (with_keepalive_stop true)) ;;
        modify (on_self (with_done_event true))
      else ret tt
    else if eq_str etype "Warning" then
      desc <- get event "description" (JStr "") ;;
      code <- get event "code" (JStr "") ;;
      modify (on_self (on_results (fun r =>
        with_warnings (warnings r ++ [JDict [("code", code); ("description", desc)]]) r))) ;;
      print [FS "    [WARN] "; FV code; FS ": "; FV desc]
    else ret tt
  end.

(** [if data_type == OPCODE_BINARY and len(data) > 0] *)
Definition _on_data (data : message) : M sys unit :=
  match data with
  | MBinary bytes =>
      if (0 <? List.length bytes)%nat
      then modify (on_self (fun r => with_audio_buffer (audio_buffer r ++ bytes) r))
      else ret tt
  | MText _ => ret tt
  end.

Definition _on_error : M sys unit := pass.

Definition _on_close : M sys unit :=
  modify (on_self (with_keepalive_stop true)) ;;
  _save_audio "final" ;;
  modify (on_self (with_done_event true)).

Local Close Scope py_scope.

(** *** The threads *)

Definition wait (i : nat) : N := if Nat.eqb i 0 then 3 else 6.

Definition _send_turns_step (k : nat) (pc : turn_pc) (s : sys) : turn_pc * sys :=
  let turns := turns (scenario (self s)) in
  match pc with
  | TLoop i =>
      match nth_error turns i with
      | Some (label, text) => (TSleeping i label text (now (w s) + seconds (wait i)), s)
      | None => (TFinalSleeping (now (w s) + seconds 8), s)
      end
  | TSleeping i label text wake =>
      if wake <=? now (w s) then (TPrint i label text, s) else (pc, s)
  | TPrint i label text =>
      (TSend i label text,
       on_world (w_print [FS "    >> Turn "; FN (i + 1); FS "/";
                          FN (List.length turns); FS " ["; FS label; FS "]: ";
                          FS (substring 0 70 text); FS "..."]) s)
  | TSend i label text =>
      match w_send (ByTurns k) (InjectUserMessage text) (w s) with
      | Some w' => (TAppend i label text, on_world (fun _ => w') s)
      | None => (TDead i, s)
      end
  | TAppend i label text =>
      (TLoop (S i),
       on_self (on_results (fun r =>
         with_conversation
           (conversation r ++ [JDict [("role", JStr "user"); ("label", JStr label);
                                      ("content", JStr text)]]) r)) s)
  | TFinalSleeping wake =>
      if wake <=? now (w s) then (TSetStop, s) else (pc, s)
  | TSetStop => (TClose, on_self (with_keepalive_stop true) s)
  | TClose => (TExit, on_world w_close s)
  | TExit => (TExit, s)
  | TDead i => (TDead i, s)
  end.

Definition run_step (s : sys) : sys :=
  match main s with
  | MStart =>
      with_main MWaitCall
        (on_world (fun w0 => match conn w0 with
                             | CInit => with_conn CConnecting w0
                             | _ => w0
                             end) s)
  | MWaitCall =>
      let timeout := 20 + N.of_nat (List.length (turns (scenario (self s)))) * 10 in
      with_main (MWaiting (now (w s) + seconds timeout)) s
  | MWaiting deadline =>
      if done_event (self s) || (deadline <=? now (w s))
      then with_main MIsAlive s else s
  | MIsAlive =>
      if conn_eqb (conn (w s)) CClosed
      then with_main MReturned s else with_main MSetStop s
  | MSetStop => with_main MClose (on_self (with_keepalive_stop true) s)
  | MClose => with_main MJoinCall (on_world w_close s)
  | MJoinCall => with_main (MJoining (now (w s) + seconds 5)) s
  | MJoining deadline =>
      if conn_eqb (conn (w s)) CClosed || (deadline <=? now (w s))
      then with_main MReturned s else s
  | MReturned => s
  end.

(** *** The session

    [callback]: websocket-client runs every callback inside [_callback],
    which catches what it raises and reports it to [on_error]. *)
Definition callback (c : M sys unit) (s : sys) : sys :=
  match c s with
  | Returned _ s' => s'
  | Raised _ s' => state_of (_on_error s')
  end.

Definition step (s : sys) (e : event) : sys :=
  match e with
  | EvMain => run_step s
  | EvOpen =>
      match conn (w s) with
      | CConnecting => callback _on_open (on_world (with_conn COpen) s)
      | _ => s
      end
  | EvFrame m =>
      match conn (w s) with
      | COpen => callback (_on_message m) (callback (_on_data m) s)
      | _ => s
      end
  | EvClose =>
      match conn (w s) with
      | CConnecting | COpen | CClosing =>
          callback _on_close (on_world (with_conn CClosed) s)
      | _ => s
      end
  | EvTick d => on_world (fun w0 => with_now (now w0 + d) w0) s
  | EvStdin l => on_world (fun w0 => with_stdin (stdin w0 ++ [l]) w0) s
  | EvKeepalive k =>
      match nth_error (keepalive_threads s) k with
      | Some pc =>
          let (pc', w') := keepalive_step k true (_keepalive_stop (self s)) pc (w s) in
          with_keepalive_threads (set_nth k pc' (keepalive_threads s))
            (on_world (fun _ => w') s)
      | None => s
      end
  | EvTurns k =>
      match nth_error (turn_threads s) k with
      | Some t =>
          let (pc', s') := _send_turns_step k (t_pc t) s in
          with_turn_threads (set_nth k (TurnThread (t_born t) pc') (turn_threads s')) s'
      | None => s
      end
  end.

Definition run (s : sys) (schedule : list event) : sys :=
  fold_left step schedule s.

(** *** States reached by the callbacks *)

(** The state after an error event. *)
Definition after_error (code desc : json) (s : sys) : sys :=
  let s1 := on_self (on_results (fun r =>
              with_errors (errors r ++ [code_entry code desc]) r)) s in
  let s2 := if eq_str code idle_timeout then s1
            else on_world (w_print [FS "    [ERROR] "; FV code; FS ": "; FV desc]) s1 in
  if in_strs code fatal_codes
  then on_self (with_done_event true) (on_self (with_keepalive_stop true) s2)
  else s2.

(** The state after a warning event. *)
Definition after_warning (code desc : json) (s : sys) : sys :=
  on_world (w_print [FS "    [WARN] "; FV code; FS ": "; FV desc])
    (on_self (on_results (fun r =>
       with_warnings (warnings r ++ [code_entry code desc]) r)) s).

(** The state after a flush of a non-empty buffer. *)
Definition flushed (s : sys) : sys :=
  let n := S (audio_turn (self s)) in
  let fname := [FS (id (scenario (self s))); FS "_turn"; FN n; FS "_";
                FTime (now (w s)); FS ".pcm"] in
  on_self (on_results (fun r =>
      with_audio_files
        (audio_files r ++ [AudioFile fname (List.length (audio_buffer (self s))) n]) r))
    (on_self (with_audio_buffer [])
      (on_world (w_write fname (audio_buffer (self s)))
        (on_self (with_audio_turn n) s))).


(** *** Views of a session *)

Definition kview_of (s : sys) : kview :=
  KView true (_keepalive_stop (self s)) (w s) (keepalive_threads s).

Definition phase_of (pc : turn_pc) : phase :=
  match pc with
  | TLoop i => PAt i
  | TSleeping i _ text wake => PWait i text wake
  | TPrint i _ text | TSend i _ text => PGo i text
  | TAppend i _ _ => PSent i
  | TFinalSleeping _ | TSetStop | TClose | TExit => PTail
  | TDead _ => PDead
  end.

Definition tview_of (s : sys) : tview :=
  TView (now (w s)) (outbox (w s))
        (map (fun t => (t_born t, phase_of (t_pc t))) (turn_threads s)).

(** What a step other than a step of a keep-alive loop or of a turn thread
    may do to what these threads see. *)
Definition env_like (s s' : sys) : Prop :=
  scenario (self s') = scenario (self s) /\
  now (w s) <= now (w s') /\
  (_keepalive_stop (self s) = true -> _keepalive_stop (self s') = true) /\
  (outbox (w s') = outbox (w s) \/
   exists msg,
     outbox (w s') = outbox (w s) ++ [Sent (now (w s)) ByCallback msg] /\
     is_keepalive msg = false /\ is_user_turn msg = false) /\
  ((keepalive_threads s' = keepalive_threads s /\
    turn_threads s' = turn_threads s) \/
   (keepalive_threads s' = keepalive_threads s ++ [KLoop] /\
    turn_threads s' = turn_threads s ++ [TurnThread (now (w s')) (TLoop 0)])) /\
  (closed (conn (w s)) = true ->
   closed (conn (w s')) = true /\ outbox (w s') = outbox (w s)).

(** What a step does to the audio buffer: it appends the bytes [bytes] and
    writes no sink, or it flushes a buffer that is not empty to one sink. *)
Definition buffer_like (bytes : list byte) (s s' : sys) : Prop :=
  (audio_buffer (self s') = audio_buffer (self s) ++ bytes /\
   files (w s') = files (w s) /\
   audio_turn (self s') = audio_turn (self s)) \/
  (bytes = [] /\
   audio_buffer (self s) <> [] /\
   audio_buffer (self s') = [] /\
   (exists name, files (w s') = files (w s) ++ [Sink name (audio_buffer (self s))]) /\
   audio_turn (self s') = S (audio_turn (self s))).

(** *** States reached by the callbacks, continued *)

(** The state after the acknowledgement of the configuration. *)
Definition after_settings_applied (s : sys) : sys :=
  with_turn_threads (turn_threads s ++ [TurnThread (now (w s)) (TLoop 0)])
    (with_keepalive_threads (keepalive_threads s ++ [KLoop])
      (on_world (w_print [FS "    [OK] SettingsApplied — config accepted!"])
        (on_self (on_results (with_settings_applied true)) s))).

(** The state after a transcript event: the entry is appended, then the
    line is printed unless [role.upper()] raises. *)
Definition after_conversation_text (role content : json) (s : sys) : sys :=
  let s1 := on_self (on_results (fun r =>
              with_conversation (conversation r ++ [text_entry role content]) r)) s in
  match role with
  | JStr r =>
      on_world (w_print [FS "    [";
                         if String.eqb r "assistant" then FS "AGENT" else FUpper r;
                         FS "]: "; FV content]) s1
  | _ => s1
  end.

(** The state after [_on_open] on a socket that has just opened. *)
Definition opened (s : sys) : sys :=
  on_world (w_print [FS "    [WS] Settings sent (agent.language=";
                     FV (of_opt (agent_language (scenario (self s))));
                     FS ", listen.language=";
                     FV (of_opt (listen_language (scenario (self s)))); FS ")"])
    (on_world (fun w0 =>
       with_outbox (outbox w0
                    ++ [Sent (now w0) ByCallback
                          (build_settings (env s) (scenario (self s)))])
                   (with_conn COpen w0))
       (on_self (with_ws_ref true) s)).

(** The state after [_on_close] on a socket that has just closed. *)
Definition shut (s : sys) : sys :=
  let s1 := on_self (with_keepalive_stop true) (on_world (with_conn CClosed) s) in
  on_self (with_done_event true)
    (if nilb (audio_buffer (self s)) then s1 else flushed s1).

(** *** The audio received in a session *)

(** The bytes of the binary frames that a schedule delivers on the open
    socket. *)
Fixpoint heard (s : sys) (schedule : list event) : list byte :=
  match schedule with
  | [] => []
  | e :: rest => chunk (conn (w s)) e ++ heard (step s e) rest
  end.

(** The text a turn thread has sent and not yet put in the transcript. *)
Definition appending (t : turn_thread) : list json :=
  match t_pc t with
  | TAppend _ _ text => [JStr text]
  | _ => []
  end.

(** *** What holds of every state of a session *)

(** The socket, the reference to it, the acknowledgement and the threads. *)
Definition wired (s : sys) : Prop :=
  (_ws_ref (self s) = false ->
   outbox (w s) = [] /\ settings_applied (results (self s)) = false) /\
  (_ws_ref (self s) = true -> conn (w s) = COpen \/ closed (conn (w s)) = true) /\
  (conn (w s) = COpen -> _ws_ref (self s) = true) /\
  (settings_applied (results (self s)) = false ->
   List.length (keepalive_threads s) = 0%nat) /\
  (settings_applied (results (self s)) = true ->
   (0 < List.length (keepalive_threads s))%nat) /\
  List.length (keepalive_threads s) = List.length (turn_threads s).

(** The log of the socket: the configuration first, then frames of the
    threads. *)
Definition configured (s : sys) : Prop :=
  _ws_ref (self s) = true ->
  exists t rest,
    outbox (w s)
    = Sent t ByCallback (build_settings (env s) (scenario (self s))) :: rest /\
    Forall thread_frame rest.

(** A turn thread inside the loop holds the turn of its index. *)
Definition scripted (turns : list (string * string)) (t : turn_thread) : Prop :=
  match t_pc t with
  | TSleeping i label text _ | TPrint i label text | TSend i label text
  | TAppend i label text => nth_error turns i = Some (label, text)
  | _ => True
  end.

(** The number of turns a thread has put in the transcript, of [n]. *)
Definition progress (n : nat) (pc : turn_pc) : nat :=
  match pc with
  | TLoop i | TSleeping i _ _ _ | TPrint i _ _ | TSend i _ _ | TAppend i _ _
  | TDead i => i
  | TFinalSleeping _ | TSetStop | TClose | TExit => n
  end.

(** *** The environment read at import
<<
    DEEPGRAM_API_KEY = os.getenv("DEEPGRAM_API_KEY")
    CARTESIA_API_KEY = os.getenv("CARTESIA_API_KEY")
    CARTESIA_VOICE_ID = os.getenv("CARTESIA_VOICE_ID", "").strip()
    for name, val in [...]:
        if not val:
            raise SystemExit(f"Missing {name} env var.")
>>
    [inl message] stands for [SystemExit(message)]. *)

(** The first name of the list whose value is [None] or empty. *)
Fixpoint missing (vars : list (string * option string)) : option string :=
  match vars with
  | [] => None
  | (name, val) :: rest => if truthy val then missing rest else Some name
  end.

Definition read_environment (getenv : string -> option string) : line + environ :=
  let deepgram_api_key := getenv "DEEPGRAM_API_KEY" in
  let cartesia_api_key := getenv "CARTESIA_API_KEY" in
  let cartesia_voice_id := strip (getenv_or_empty getenv "CARTESIA_VOICE_ID") in
  match missing [("DEEPGRAM_API_KEY", deepgram_api_key);
                 ("CARTESIA_API_KEY", cartesia_api_key);
                 ("CARTESIA_VOICE_ID", Some cartesia_voice_id)] with
  | Some name => inl [FS "Missing "; FS name; FS " env var."]
  | None =>
      inr (Environ (match deepgram_api_key with Some v => v | None => "" end)
                   (match cartesia_api_key with Some v => v | None => "" end)
                   cartesia_voice_id)
  end.

(** *** The scenarios chosen by [main]
<<
    if len(sys.argv) > 1:
        test_ids = sys.argv[1:]
        scenarios = [s for s in SCENARIOS
                     if any(tid in s["id"] for tid in test_ids)]
        if not scenarios:
            print(f"No matching scenarios for: {test_ids}")
            print(f"Available: {[s['id'] for s in SCENARIOS]}")
            return
    else:
        scenarios = SCENARIOS
>>
    [inl printed]: [main] returns after these lines; [inr scenarios]: the
    scenarios that [main] goes on to run, in this order. *)
Definition matches (test_ids : list string) (s : scenario_dict) : bool :=
  existsb (fun tid => contains tid (id s)) test_ids.

Definition main_scenarios (SCENARIOS : list scenario_dict) (argv : list string)
  : list line + list scenario_dict :=
  if (1 <? List.length argv)%nat then
    let test_ids := tl argv in
    let scenarios := filter (matches test_ids) SCENARIOS in
    if nilb scenarios
    then inl [[FS "No matching scenarios for: "; FV (JList (map JStr test_ids))];
              [FS "Available: ";
               FV (JList (map (fun s => JStr (id s)) SCENARIOS))]]
    else inr scenarios
  else inr SCENARIOS.

(** *** The report of one result: the body of the loop of [print_report]
<<
    print(f"\n{thin}")
    print(f"  {r['scenario_name']}")
    print(f"  Config: agent.language=..., listen.language=..., cartesia.language=...")
    print(f"{thin}")
    status = "ACCEPTED" if r["settings_applied"] else "REJECTED"
    print(f"  Settings: {status}")
    real_errors = [e for e in r["errors"] if e["code"] != "CLIENT_MESSAGE_TIMEOUT"]
    if real_errors:
        print("  Errors:")
        for e in real_errors:
            print(f"    [{e['code']}] {e['description']}")
    if r["warnings"]:
        print("  Warnings:")
        for w in r["warnings"]:
            print(f"    [{w.get('code','')}] {w['description']}")
    print("  Conversation:")
    for msg in r["conversation"]:
        ...
    if r["audio_files"]:
        total_bytes = sum(af["size_bytes"] for af in r["audio_files"])
        print(f"  Audio: {len(r['audio_files'])} files, {total_bytes:,} bytes total")
    else:
        print("  Audio: NONE — TTS may have failed")
    print()
>>
    [None]: a subscript raised. *)








(** What a session keeps: every list of its records and of the world only
    grows at its end, and the flags, once set, stay set. *)
Definition grown (s s' : sys) : Prop :=
  extends (conversation (results (self s))) (conversation (results (self s'))) /\
  extends (errors (results (self s))) (errors (results (self s'))) /\
  extends (warnings (results (self s))) (warnings (results (self s'))) /\
  extends (audio_files (results (self s))) (audio_files (results (self s'))) /\
  extends (files (w s)) (files (w s')) /\
  extends (outbox (w s)) (outbox (w s')) /\
  extends (console (w s)) (console (w s')) /\
  (_keepalive_stop (self s) = true -> _keepalive_stop (self s') = true) /\
  (done_event (self s) = true -> done_event (self s') = true) /\
  (settings_applied (results (self s)) = true ->
   settings_applied (results (self s')) = true) /\
  (_ws_ref (self s) = true -> _ws_ref (self s') = true) /\
  now (w s) <= now (w s') /\
  (audio_turn (self s) <= audio_turn (self s'))%nat.

End Harness.

(** * DemoRunner (dg_cartesia_agent_e2e.py) *)

Module Demo.

Record scenario_dict : Type := Scenario {
  name : string;
  subtitle : string;
  agent_language : option string;      (* [None]: the key is absent *)
  listen_language : option string;
  prompt : string;
  greeting : option string;
  turns : option (list (string * string))   (* [None]: interactive mode *)
}.

Record DemoRunner : Type := Runner {
  scenario : scenario_dict;
  audio_buffer : list byte;
  audio_turn : nat;
  conversation : list json;
  done : bool;
  _keepalive_stop : bool;
  _ws : bool;                          (* [false]: still [None] *)
  _settings_applied : bool;
  _ready_for_input : bool;
  _errors : list line
}.

(** [_send_scripted_turns]
<<
    turns = self.scenario["turns"]
    for i, (label, text) in enumerate(turns):     TLoop i
        time.sleep(4 if i == 0 else 6)            TSleeping i wake
        print(...)                                TPrint i
        self._ws.send(json.dumps({...}))          TSend i
        self.conversation.append(...)             TAppend i
    time.sleep(8)                                 TFinalSleeping wake
    self._keepalive_stop.set()                    TSetStop
    self._ws.close()                              TClose
>>
    [_send_interactive_turns]
<<
    print(...)                                    IStart
    self._ready_for_input.set()                   ISetReady
    while not self.done.is_set():                 ILoop
        self._ready_for_input.wait()              IWaitReady
        self._ready_for_input.clear()             IClear
        try:
            text = input("  YOU: ").strip()       IPrompt, IInput
        except (EOFError, KeyboardInterrupt):
            break
        if not text or text.lower() in ("quit", "exit", "q"):   IDecide text
            break
        self._ws.send(json.dumps({...}))          ISend text
        self.conversation.append(...)             IAppend text
        time.sleep(0.5)                           ISleepCall, ISleeping wake
    self._keepalive_stop.set()                    TSetStop
    self._ws.close()                              TClose
>>
    [TDead]: a [send] raised and ended the thread. *)
Inductive turn_pc : Type :=
| TLoop (i : nat)
| TSleeping (i : nat) (label text : string) (wake : N)
| TPrint (i : nat) (label text : string)
| TSend (i : nat) (label text : string)
| TAppend (i : nat) (label text : string)
| TFinalSleeping (wake : N)
| IStart
| ISetReady
| ILoop
| IWaitReady
| IClear
| IPrompt
| IInput
| IDecide (text : string)
| ISend (text : string)
| IAppend (text : string)
| ISleepCall
| ISleeping (wake : N)
| TSetStop
| TClose
| TExit
| TDead.

Record turn_thread : Type := TurnThread {
  t_born : N;                          (* clock at [Thread.start()] *)
  t_pc : turn_pc
}.

(** [run]
<<
    ws = websocket.WebSocketApp(...); ws_thread.start()   MStart
    if self.scenario["turns"] is not None:                MWaitCall
        timeout = 30 + len(self.scenario["turns"]) * 10
        self.done.wait(timeout=timeout)                   MWaiting (Some deadline)
    else:
        self.done.wait()                                  MWaiting None
    if ws_thread.is_alive():                              MIsAlive
        self._keepalive_stop.set()                        MSetStop
        try: ws.close()                                   MClose
        except Exception: pass
        ws_thread.join(timeout=3)                         MJoinCall, MJoining
    return self.conversation, self._errors                MReturned
>>
    The socket thread is taken to end with its close callback, which the
    session runs in one step: [is_alive()] answers whether the socket has
    not closed.  In the source the thread lives a moment longer, so that
    [run] may still take its closing branch after the callback; on a
    closed socket the statements of that branch change nothing. *)
Inductive main_pc : Type :=
| MStart
| MWaitCall
| MWaiting (deadline : option N)
| MIsAlive
| MSetStop
| MClose
| MJoinCall
| MJoining (deadline : N)
| MReturned.

Record sys : Type := Sys {
  self : DemoRunner;
  env : environ;
  w : world;
  keepalive_threads : list ka_pc;
  turn_threads : list turn_thread;
  main : main_pc
}.

(** *** Field updates *)

Definition on_self (f : DemoRunner -> DemoRunner) (s : sys) : sys :=
  Sys (f (self s)) (env s) (w s) (keepalive_threads s) (turn_threads s) (main s).

Definition on_world (f : world -> world) (s : sys) : sys :=
  Sys (self s) (env s) (f (w s)) (keepalive_threads s) (turn_threads s) (main s).

Definition with_keepalive_threads (l : list ka_pc) (s : sys) : sys :=
  Sys (self s) (env s) (w s) l (turn_threads s) (main s).

Definition with_turn_threads (l : list turn_thread) (s : sys) : sys :=
  Sys (self s) (env s) (w s) (keepalive_threads s) l (main s).

Definition with_main (pc : main_pc) (s : sys) : sys :=
  Sys (self s) (env s) (w s) (keepalive_threads s) (turn_threads s) pc.

Definition with_audio_buffer (b : list byte) (r : DemoRunner) : DemoRunner :=
  Runner (scenario r) b (audio_turn r) (conversation r) (done r)
         (_keepalive_stop r) (_ws r) (_settings_applied r) (_ready_for_input r)
         (_errors r).

Definition with_audio_turn (n : nat) (r : DemoRunner) : DemoRunner :=
  Runner (scenario r) (audio_buffer r) n (conversation r) (done r)
         (_keepalive_stop r) (_ws r) (_settings_applied r) (_ready_for_input r)
         (_errors r).

Definition with_conversation (l : list json) (r : DemoRunner) : DemoRunner :=
  Runner (scenario r) (audio_buffer r) (audio_turn r) l (done r)
         (_keepalive_stop r) (_ws r) (_settings_applied r) (_ready_for_input r)
         (_errors r).

Definition with_done (b : bool) (r : DemoRunner) : DemoRunner :=
  Runner (scenario r) (audio_buffer r) (audio_turn r) (conversation r) b
         (_keepalive_stop r) (_ws r) (_settings_applied r) (_ready_for_input r)
         (_errors r).

Definition with_keepalive_stop (b : bool) (r : DemoRunner) : DemoRunner :=
  Runner (scenario r) (audio_buffer r) (audio_turn r) (conversation r) (done r)
         b (_ws r) (_settings_applied r) (_ready_for_input r) (_errors r).

Definition with_ws (b : bool) (r : DemoRunner) : DemoRunner :=
  Runner (scenario r) (audio_buffer r) (audio_turn r) (conversation r) (done r)
         (_keepalive_stop r) b (_settings_applied r) (_ready_for_input r)
         (_errors r).

Definition with_settings_applied (b : bool) (r : DemoRunner) : DemoRunner :=
  Runner (scenario r) (audio_buffer r) (audio_turn r) (conversation r) (done r)
         (_keepalive_stop r) (_ws r) b (_ready_for_input r) (_errors r).

Definition with_ready_for_input (b : bool) (r : DemoRunner) : DemoRunner :=
  Runner (scenario r) (audio_buffer r) (audio_turn r) (conversation r) (done r)
         (_keepalive_stop r) (_ws r) (_settings_applied r) b (_errors r).

Definition with_errors (l : list line) (r : DemoRunner) : DemoRunner :=
  Runner (scenario r) (audio_buffer r) (audio_turn r) (conversation r) (done r)
         (_keepalive_stop r) (_ws r) (_settings_applied r) (_ready_for_input r) l.

(** *** [__init__] *)

Definition __init__ (scenario : scenario_dict) : DemoRunner :=
  Runner scenario [] 0%nat [] false false false false false [].

Definition boot (e : environ) (scenario : scenario_dict) : sys :=
  Sys (__init__ scenario) e world0 [] [] MStart.

(** *** Statements on the state *)

Definition print (l : line) : M sys unit := modify (on_world (w_print l)).

(** [self._ws.send(...)]: an [AttributeError] while [self._ws] is [None]. *)
Definition ws_send (who : sender) (msg : json) : M sys unit :=
  fun s =>
    if _ws (self s) then
      match w_send who msg (w s) with
      | Some w' => Returned tt (on_world (fun _ => w') s)
      | None => Raised WebSocketConnectionClosedException s
      end
    else Raised AttributeError s.

Definition conversation_append (entry : json) : M sys unit :=
  modify (on_self (fun r => with_conversation (conversation r ++ [entry]) r)).

Definition is_interactive (s : sys) : bool :=
  match turns (scenario (self s)) with
  | None => true
  | Some _ => false
  end.

Local Open Scope py_scope.

Definition _save_audio : M sys unit :=
  buffer <- gets (fun s => audio_buffer (self s)) ;;
  if nilb buffer then ret tt else
  modify (on_self (fun r => with_audio_turn (S (audio_turn r)) r)) ;;
  ts <- gets (fun s => FTime (now (w s))) ;;
  audio_turn <- gets (fun s => audio_turn (self s)) ;;
  let fname := [FS "demo_turn"; FN audio_turn; FS "_"; ts; FS "_"; FUuid4; FS ".pcm"] in
  modify (on_world (w_write fname buffer)) ;;
  let size := List.length buffer in
  modify (on_self (with_audio_buffer [])) ;;
  print ([FS "       audio saved: "] ++ fname ++ [FS " ("; FComma size; FS " bytes)"])%list.

Definition _build_settings (e : environ) (s : scenario_dict) : json :=
  let listen :=
    ([("type", JStr "deepgram"); ("model", JStr "nova-3")]
     ++ (if truthy (listen_language s)
         then [("language", of_opt (listen_language s))] else []))%list in
  let speak :=
    [("type", JStr "cartesia"); ("model_id", JStr "sonic-multilingual");
     ("voice", JDict [("mode", JStr "id"); ("id", JStr (CARTESIA_VOICE_ID e))])] in
  let agent :=
   ([("language", match agent_language s with
                  | Some l => JStr l
                  | None => JStr "multi"
                  end);
     ("listen", JDict [("provider", JDict listen)]);
     ("think", JDict [("provider", JDict [("type", JStr "open_ai");
                                          ("model", JStr "gpt-4o-mini")]);
                      ("prompt", JStr (prompt s))]);
     ("speak", JDict [("provider", JDict speak);
                      ("endpoint", JDict
                         [("url", JStr "https://api.cartesia.ai/tts/bytes");
                          ("headers", JDict
                             [("X-API-Key", JStr (CARTESIA_API_KEY e));
                              ("Cartesia-Version", JStr "2024-06-10")])])])]
    ++ (if truthy (greeting s) then [("greeting", of_opt (greeting s))] else []))%list in
  JDict [("type", JStr "Settings");
         ("audio", JDict
            [("input", JDict [("encoding", JStr "linear16");
                              ("sample_rate", JInt 16000)]);
             ("output", JDict [("encoding", JStr "linear16");
                               ("sample_rate", JInt 24000);
                               ("container", JStr "none")])]);
         ("agent", JDict agent)].

Definition _on_open : M sys unit :=
  modify (on_self (with_ws true)) ;;
  settings <- gets (fun s => _build_settings (env s) (scenario (self s))) ;;
  ws_send ByCallback settings.

(** [threading.Thread(target=..., daemon=True).start()] *)
Definition start_keepalive_loop : M sys unit :=
  modify (fun s => with_keepalive_threads (keepalive_threads s ++ [KLoop]) s).

Definition start_turns (entry : turn_pc) : M sys unit :=
  modify (fun s =>
    with_turn_threads (turn_threads s ++ [TurnThread (now (w s)) entry]) s).

Definition _on_message (message : message) : M sys unit :=
  match message with
  | MBinary _ => ret tt             (* isinstance(message, bytes) *)
  | MText None => ret tt            (* json.loads raised *)
  | MText (Some event) =>
    etype <- get event "type" (JStr "") ;;
    if eq_str etype "SettingsApplied" then
      print [FS "  Connected and configured."; FS nl] ;;
      modify (on_self (with_settings_applied true)) ;;
      start_keepalive_loop ;;
      interactive <- gets is_interactive ;;
      if negb interactive
      then start_turns (TLoop 0)
      else start_turns IStart
    else if eq_str etype "ConversationText" then
      role <- get event "role" (JStr "") ;;
      content <- get event "content" (JStr "") ;;
      conversation_append (JDict [("role", role); ("content", content)]) ;;
      if eq_str role "assistant"
      then print [FS "  AGENT: "; FV content]
      else ret tt
    else if eq_str etype "AgentAudioDone" then
      _save_audio ;;
      interactive <- gets is_interactive ;;
      if interactive
      then modify (on_self (with_ready_for_input true))
      else ret tt
    else if eq_str etype "Error" then
      code <- get event "code" (JStr "") ;;
      desc <- get event "description" (JStr "") ;;
      if negb (eq_str code "CLIENT_MESSAGE_TIMEOUT") then
        modify (on_self (fun r =>
          with_errors (_errors r ++ [[FS "["; FV code; FS "] "; FV desc]]) r)) ;;
        print [FS nl; FS "  ERROR: "; FV desc]
      else ret tt
    else ret tt
  end.

(** [if data_type == OPCODE_BINARY and len(data) > 0] *)
Definition _on_data (data : message) : M sys unit :=
  match data with
  | MBinary bytes =>
      if (0 <? List.length bytes)%nat
      then modify (on_self (fun r => with_audio_buffer (audio_buffer r ++ bytes) r))
      else ret tt
  | MText _ => ret tt
  end.

Definition _on_error : M sys unit := pass.

Definition _on_close : M sys unit :=
  modify (on_self (with_keepalive_stop true)) ;;
  _save_audio ;;
  modify (on_self (with_done true)) ;;
  modify (on_self (with_ready_for_input true)).

Local Close Scope py_scope.

(** *** The threads *)

Definition wait (i : nat) : N := if Nat.eqb i 0 then 4 else 6.

Definition quit_tokens : list string := ["quit"; "exit"; "q"].

(** [not text or text.lower() in ("quit", "exit", "q")] *)
Definition quits (text : string) : bool :=
  String.eqb text "" || existsb (String.eqb (lower text)) quit_tokens.

Definition _send_turns_step (k : nat) (pc : turn_pc) (s : sys) : turn_pc * sys :=
  match pc with
  (* _send_scripted_turns *)
  | TLoop i =>
      match turns (scenario (self s)) with
      | Some turns =>
          match nth_error turns i with
          | Some (label, text) =>
              (TSleeping i label text (now (w s) + seconds (wait i)), s)
          | None => (TFinalSleeping (now (w s) + seconds 8), s)
          end
      | None => (TDead, s)         (* enumerate(None) raises *)
      end
  | TSleeping i label text wake =>
      if wake <=? now (w s) then (TPrint i label text, s) else (pc, s)
  | TPrint i label text =>
      (TSend i label text,
       on_world (w_print [FS nl; FS "  YOU ["; FS label; FS "]: "; FS text]) s)
  | TSend i label text =>
      match ws_send (ByTurns k) (InjectUserMessage text) s with
      | Returned _ s' => (TAppend i label text, s')
      | Raised _ s' => (TDead, s')
      end
  | TAppend i label text =>
      (TLoop (S i),
       state_of (conversation_append
                   (JDict [("role", JStr "user"); ("label", JStr label);
                           ("content", JStr text)]) s))
  | TFinalSleeping wake =>
      if wake <=? now (w s) then (TSetStop, s) else (pc, s)
  (* _send_interactive_turns *)
  | IStart =>
      (ISetReady,
       on_world (w_print
         [FS nl;
          FS "  Type messages below. Press Enter to send. Type 'quit' to exit.";
          FS nl]) s)
  | ISetReady => (ILoop, on_self (with_ready_for_input true) s)
  | ILoop => if done (self s) then (TSetStop, s) else (IWaitReady, s)
  | IWaitReady => if _ready_for_input (self s) then (IClear, s) else (pc, s)
  | IClear => (IPrompt, on_self (with_ready_for_input false) s)
  | IPrompt => (IInput, on_world (w_print [FS "  YOU: "]) s)
  | IInput =>
      match stdin (w s) with
      | [] => (pc, s)
      | Some typed :: rest =>
          (IDecide (strip typed), on_world (with_stdin rest) s)
      | None :: rest => (TSetStop, on_world (with_stdin rest) s)
      end
  | IDecide text => if quits text then (TSetStop, s) else (ISend text, s)
  | ISend text =>
      match ws_send (ByTurns k) (InjectUserMessage text) s with
      | Returned _ s' => (IAppend text, s')
      | Raised _ s' => (TDead, s')
      end
  | IAppend text =>
      (ISleepCall,
       state_of (conversation_append
                   (JDict [("role", JStr "user"); ("label", JStr "custom");
                           ("content", JStr text)]) s))
  | ISleepCall => (ISleeping (now (w s) + 500), s)
  | ISleeping wake => if wake <=? now (w s) then (ILoop, s) else (pc, s)
  (* the end of both *)
  | TSetStop => (TClose, on_self (with_keepalive_stop true) s)
  | TClose =>
      if _ws (self s) then (TExit, on_world w_close s) else (TDead, s)
  | TExit => (TExit, s)
  | TDead => (TDead, s)
  end.

Definition run_step (s : sys) : sys :=
  match main s with
  | MStart =>
      with_main MWaitCall
        (on_world (fun w0 => match conn w0 with
                             | CInit => with_conn CConnecting w0
                             | _ => w0
                             end) s)
  | MWaitCall =>
      match turns (scenario (self s)) with
      | Some turns =>
          let timeout := 30 + N.of_nat (List.length turns) * 10 in
          with_main (MWaiting (Some (now (w s) + seconds timeout))) s
      | None => with_main (MWaiting None) s
      end
  | MWaiting deadline =>
      if done (self s)
         || match deadline with
            | Some d => d <=? now (w s)
            | None => false
            end
      then with_main MIsAlive s else s
  | MIsAlive =>
      if conn_eqb (conn (w s)) CClosed
      then with_main MReturned s else with_main MSetStop s
  | MSetStop => with_main MClose (on_self (with_keepalive_stop true) s)
  | MClose => with_main MJoinCall (on_world w_close s)
  | MJoinCall => with_main (MJoining (now (w s) + seconds 3)) s
  | MJoining deadline =>
      if conn_eqb (conn (w s)) CClosed || (deadline <=? now (w s))
      then with_main MReturned s else s
  | MReturned => s
  end.

(** *** The session *)

Definition callback (c : M sys unit) (s : sys) : sys :=
  match c s with
  | Returned _ s' => s'
  | Raised _ s' => state_of (_on_error s')
  end.

Definition step (s : sys) (e : event) : sys :=
  match e with
  | EvMain => run_step s
  | EvOpen =>
      match conn (w s) with
      | CConnecting => callback _on_open (on_world (with_conn COpen) s)
      | _ => s
      end
  | EvFrame m =>
      match conn (w s) with
      | COpen => callback (_on_message m) (callback (_on_data m) s)
      | _ => s
      end
  | EvClose =>
      match conn (w s) with
      | CConnecting | COpen | CClosing =>
          callback _on_close (on_world (with_conn CClosed) s)
      | _ => s
      end
  | EvTick d => on_world (fun w0 => with_now (now w0 + d) w0) s
  | EvStdin l => on_world (fun w0 => with_stdin (stdin w0 ++ [l]) w0) s
  | EvKeepalive k =>
      match nth_error (keepalive_threads s) k with
      | Some pc =>
          let (pc', w') := keepalive_step k (_ws (self s)) (_keepalive_stop (self s)) pc (w s) in
          with_keepalive_threads (set_nth k pc' (keepalive_threads s))
            (on_world (fun _ => w') s)
      | None => s
      end
  | EvTurns k =>
      match nth_error (turn_threads s) k with
      | Some t =>
          let (pc', s') := _send_turns_step k (t_pc t) s in
          with_turn_threads (set_nth k (TurnThread (t_born t) pc') (turn_threads s')) s'
      | None => s
      end
  end.

Definition run (s : sys) (schedule : list event) : sys :=
  fold_left step schedule s.

(** *** States reached by the callbacks *)

(** The state after an error event. *)
Definition after_error (code desc : json) (s : sys) : sys :=
  if eq_str code idle_timeout then s
  else on_world (w_print [FS nl; FS "  ERROR: "; FV desc])
         (on_self (fun r =>
            with_errors (_errors r ++ [[FS "["; FV code; FS "] "; FV desc]]) r) s).

(** The state after a flush of a non-empty buffer. *)
Definition flushed (s : sys) : sys :=
  let n := S (audio_turn (self s)) in
  let fname := [FS "demo_turn"; FN n; FS "_"; FTime (now (w s)); FS "_";
                FUuid4; FS ".pcm"] in
  on_world (w_print ([FS "       audio saved: "] ++ fname
                     ++ [FS " ("; FComma (List.length (audio_buffer (self s)));
                         FS " bytes)"])%list)
    (on_self (with_audio_buffer [])
      (on_world (w_write fname (audio_buffer (self s)))
        (on_self (with_audio_turn n) s))).


(** *** Views of a session *)

Definition kview_of (s : sys) : kview :=
  KView (_ws (self s)) (_keepalive_stop (self s)) (w s) (keepalive_threads s).

Definition phase_of (pc : turn_pc) : phase :=
  match pc with
  | TLoop i => PAt i
  | TSleeping i _ text wake => PWait i text wake
  | TPrint i _ text | TSend i _ text => PGo i text
  | TAppend i _ _ => PSent i
  | TFinalSleeping _ | TSetStop | TClose | TExit => PTail
  | TDead => PDead
  | IStart | ISetReady | ILoop | IWaitReady | IClear | IPrompt | IInput
  | IDecide _ | ISend _ | IAppend _ | ISleepCall | ISleeping _ => PInter
  end.

Definition tview_of (s : sys) : tview :=
  TView (now (w s)) (outbox (w s))
        (map (fun t => (t_born t, phase_of (t_pc t))) (turn_threads s)).

(** The configured turns, none in interactive mode. *)
Definition scripted_turns (s : sys) : list (string * string) :=
  match turns (scenario (self s)) with
  | Some l => l
  | None => []
  end.

(** What a step other than a step of a keep-alive loop or of a turn thread
    may do to what these threads see. *)
Definition env_like (s s' : sys) : Prop :=
  scenario (self s') = scenario (self s) /\
  now (w s) <= now (w s') /\
  (_keepalive_stop (self s) = true -> _keepalive_stop (self s') = true) /\
  (outbox (w s') = outbox (w s) \/
   exists msg,
     outbox (w s') = outbox (w s) ++ [Sent (now (w s)) ByCallback msg] /\
     is_keepalive msg = false /\ is_user_turn msg = false) /\
  ((keepalive_threads s' = keepalive_threads s /\
    turn_threads s' = turn_threads s) \/
   (keepalive_threads s' = keepalive_threads s ++ [KLoop] /\
    turn_threads s'
    = turn_threads s
      ++ [TurnThread (now (w s')) (if is_interactive s then IStart else TLoop 0)])) /\
  (closed (conn (w s)) = true ->
   closed (conn (w s')) = true /\ outbox (w s') = outbox (w s)).

(** What a step does to the audio buffer: it appends the bytes [bytes] and
    writes no sink, or it flushes a buffer that is not empty to one sink. *)
Definition buffer_like (bytes : list byte) (s s' : sys) : Prop :=
  (audio_buffer (self s') = audio_buffer (self s) ++ bytes /\
   files (w s') = files (w s) /\
   audio_turn (self s') = audio_turn (self s)) \/
  (bytes = [] /\
   audio_buffer (self s) <> [] /\
   audio_buffer (self s') = [] /\
   (exists name, files (w s') = files (w s) ++ [Sink name (audio_buffer (self s))]) /\
   audio_turn (self s') = S (audio_turn (self s))).

(** *** States reached by the callbacks, continued *)

(** The state after the acknowledgement of the configuration. *)
Definition after_settings_applied (s : sys) : sys :=
  with_turn_threads
    (turn_threads s
     ++ [TurnThread (now (w s)) (if is_interactive s then IStart else TLoop 0)])
    (with_keepalive_threads (keepalive_threads s ++ [KLoop])
      (on_self (with_settings_applied true)
        (on_world (w_print [FS "  Connected and configured."; FS nl]) s))).

(** The state after a transcript event: the entry is appended, and the
    line is printed when the role is the assistant's. *)
Definition after_conversation_text (role content : json) (s : sys) : sys :=
  let s1 := on_self (fun r =>
              with_conversation (conversation r ++ [text_entry role content]) r) s in
  if eq_str role "assistant"
  then on_world (w_print [FS "  AGENT: "; FV content]) s1
  else s1.

(** The state after the end of an audio segment. *)
Definition audio_done (s : sys) : sys :=
  let s1 := if nilb (audio_buffer (self s)) then s else flushed s in
  if is_interactive s then on_self (with_ready_for_input true) s1 else s1.

(** The state after [_on_open] on a socket that has just opened. *)
Definition opened (s : sys) : sys :=
  on_world (fun w0 =>
     with_outbox (outbox w0
                  ++ [Sent (now w0) ByCallback
                        (_build_settings (env s) (scenario (self s)))])
                 (with_conn COpen w0))
    (on_self (with_ws true) s).

(** The state after [_on_close] on a socket that has just closed. *)
Definition shut (s : sys) : sys :=
  let s1 := on_self (with_keepalive_stop true) (on_world (with_conn CClosed) s) in
  on_self (with_ready_for_input true)
    (on_self (with_done true)
      (if nilb (audio_buffer (self s)) then s1 else flushed s1)).

(** *** The audio received in a session *)

(** The bytes of the binary frames that a schedule delivers on the open
    socket. *)
Fixpoint heard (s : sys) (schedule : list event) : list byte :=
  match schedule with
  | [] => []
  | e :: rest => chunk (conn (w s)) e ++ heard (step s e) rest
  end.

(** The text a turn thread has sent and not yet put in the transcript. *)
Definition appending (t : turn_thread) : list json :=
  match t_pc t with
  | TAppend _ _ text | IAppend text => [JStr text]
  | _ => []
  end.

(** *** What holds of every state of a session *)

(** The socket, the reference to it, the acknowledgement and the threads. *)
Definition wired (s : sys) : Prop :=
  (_ws (self s) = false ->
   outbox (w s) = [] /\ _settings_applied (self s) = false) /\
  (_ws (self s) = true -> conn (w s) = COpen \/ closed (conn (w s)) = true) /\
  (conn (w s) = COpen -> _ws (self s) = true) /\
  (_settings_applied (self s) = false ->
   List.length (keepalive_threads s) = 0%nat) /\
  (_settings_applied (self s) = true ->
   (0 < List.length (keepalive_threads s))%nat) /\
  List.length (keepalive_threads s) = List.length (turn_threads s).

(** The log of the socket: the configuration first, then frames of the
    threads. *)
Definition configured (s : sys) : Prop :=
  _ws (self s) = true ->
  exists t rest,
    outbox (w s)
    = Sent t ByCallback (_build_settings (env s) (scenario (self s))) :: rest /\
    Forall thread_frame rest.

(** A scripted thread inside the loop holds the turn of its index; an
    interactive thread about to send holds a text that does not quit. *)
Definition scripted (turns : list (string * string)) (t : turn_thread) : Prop :=
  match t_pc t with
  | TSleeping i label text _ | TPrint i label text | TSend i label text
  | TAppend i label text => nth_error turns i = Some (label, text)
  | ISend text | IAppend text => quits text = false
  | _ => True
  end.

(** The threads of a session are all scripted or all interactive. *)
Definition of_mode (interactive : bool) (t : turn_thread) : Prop :=
  match t_pc t with
  | TLoop _ | TSleeping _ _ _ _ | TPrint _ _ _ | TSend _ _ _ | TAppend _ _ _
  | TFinalSleeping _ => interactive = false
  | IStart | ISetReady | ILoop | IWaitReady | IClear | IPrompt | IInput
  | IDecide _ | ISend _ | IAppend _ | ISleepCall | ISleeping _ => interactive = true
  | TSetStop | TClose | TExit | TDead => True
  end.

(** The number of turns a scripted thread has put in the transcript, of
    [n]. *)
Definition progress (n : nat) (pc : turn_pc) : option nat :=
  match pc with
  | TLoop i | TSleeping i _ _ _ | TPrint i _ _ | TSend i _ _ | TAppend i _ _ =>
      Some i
  | TFinalSleeping _ | TSetStop | TClose | TExit => Some n
  | _ => None
  end.

(** *** The environment read at import
<<
    DEEPGRAM_API_KEY = os.getenv("DEEPGRAM_API_KEY", "").strip()
    CARTESIA_API_KEY = os.getenv("CARTESIA_API_KEY", "").strip()
    CARTESIA_VOICE_ID = os.getenv("CARTESIA_VOICE_ID", "").strip()
    for name, val in [...]:
        if not val:
            raise SystemExit(f"\n  Missing env var: {name}\n"
                             f"  Set it with: export {name}=\"your-value\"\n")
>>
    [inl message] stands for [SystemExit(message)]. *)

(** The first name of the list whose value is empty. *)
Fixpoint missing (vars : list (string * string)) : option string :=
  match vars with
  | [] => None
  | (name, val) :: rest => if String.eqb val "" then Some name else missing rest
  end.

Definition read_environment (getenv : string -> option string) : line + environ :=
  let deepgram_api_key := strip (getenv_or_empty getenv "DEEPGRAM_API_KEY") in
  let cartesia_api_key := strip (getenv_or_empty getenv "CARTESIA_API_KEY") in
  let cartesia_voice_id := strip (getenv_or_empty getenv "CARTESIA_VOICE_ID") in
  match missing [("DEEPGRAM_API_KEY", deepgram_api_key);
                 ("CARTESIA_API_KEY", cartesia_api_key);
                 ("CARTESIA_VOICE_ID", cartesia_voice_id)] with
  | Some name =>
      inl [FS nl; FS "  Missing env var: "; FS name; FS nl;
           FS "  Set it with: export "; FS name; FS "="; FS dq; FS "your-value";
           FS dq; FS nl]
  | None => inr (Environ deepgram_api_key cartesia_api_key cartesia_voice_id)
  end.

(** *** [print_summary]
<<
    print(f"\n  {'─' * 60}")
    print("  CONVERSATION SUMMARY")
    print(f"  {'─' * 60}")
    for msg in conversation:
        role = msg["role"]
        content = msg["content"]
        label = msg.get("label", "")
        if role == "user":
            print(f"    YOU [{label}]: {content}")
        elif role == "assistant":
            print(f"    AGENT: {content}")
    if errors:
        print(f"\n  Errors: {errors}")
    print()
>>
    A printed line is a line of pieces, or the line of the list of errors,
    which Python renders as the list of their texts.  [None]: a subscript
    raised. *)
Inductive printed : Type :=
| Line (l : line)
| ErrorsLine (errors : list line).

Definition summary_message (msg : json) : option (list line) :=
  match item "role" msg, item "content" msg, item_or_empty "label" msg with
  | Some role, Some content, Some label =>
      Some (if eq_str role "user"
            then [[FS "    YOU ["; FV label; FS "]: "; FV content]]
            else if eq_str role "assistant"
            then [[FS "    AGENT: "; FV content]]
            else [])
  | _, _, _ => None
  end.

Definition print_summary (conversation : list json) (errors : list line)
  : option (list printed) :=
  match each summary_message conversation with
  | Some msgs =>
      Some ([Line [FS nl; FS "  "; FS (times "─" 60)];
             Line [FS "  CONVERSATION SUMMARY"];
             Line [FS "  "; FS (times "─" 60)]]
            ++ map Line msgs
            ++ (if nilb errors then [] else [ErrorsLine errors])
            ++ [Line []])
  | None => None
  end.

(** *** The scenario chosen by [main]
<<
    choice = None
    if len(sys.argv) > 1:
        choice = sys.argv[1]
        if choice not in SCENARIOS:
            print(f"  Unknown scenario: {choice}")
            print(f"  Available: {', '.join(sorted(SCENARIOS.keys()))}")
            return
    if choice is None:
        show_menu()
        try:
            choice = input("  Enter scenario number (1-5): ").strip()
        except (EOFError, KeyboardInterrupt):
            print("\n  Bye!")
            return
    if choice not in SCENARIOS:
        print(f"  Unknown scenario: {choice}")
        return
    scenario = SCENARIOS[choice]
>>
    [SCENARIOS] is the dict of the scenarios by key; [typed] is what
    [input] returns, [None] when it raises. *)
Inductive chosen : Type :=
| Unknown (choice : string) (by_argument : bool)
| Bye
| Chosen (choice : string) (scenario : scenario_dict).

Fixpoint scenario_of (SCENARIOS : list (string * scenario_dict)) (choice : string)
  : option scenario_dict :=
  match SCENARIOS with
  | [] => None
  | (k, v) :: rest => if String.eqb k choice then Some v else scenario_of rest choice
  end.

Definition main_choice (SCENARIOS : list (string * scenario_dict))
  (argv : list string) (typed : option string) : chosen :=
  match tl argv with
  | choice :: _ =>
      match scenario_of SCENARIOS choice with
      | Some scenario => Chosen choice scenario
      | None => Unknown choice true
      end
  | [] =>
      match typed with
      | None => Bye
      | Some answer =>
          let choice := strip answer in
          match scenario_of SCENARIOS choice with
          | Some scenario => Chosen choice scenario
          | None => Unknown choice false
          end
      end
  end.

(** What a session keeps: every list of its records and of the world only
    grows at its end, and the flags, once set, stay set (the readiness
    flag apart, which the interactive thread clears). *)
Definition grown (s s' : sys) : Prop :=
  extends (conversation (self s)) (conversation (self s')) /\
  extends (_errors (self s)) (_errors (self s')) /\
  extends (files (w s)) (files (w s')) /\
  extends (outbox (w s)) (outbox (w s')) /\
  extends (console (w s)) (console (w s')) /\
  (_keepalive_stop (self s) = true -> _keepalive_stop (self s') = true) /\
  (done (self s) = true -> done (self s') = true) /\
  (_settings_applied (self s) = true -> _settings_applied (self s') = true) /\
  (_ws (self s) = true -> _ws (self s') = true) /\
  now (w s) <= now (w s') /\
  (audio_turn (self s) <= audio_turn (self s'))%nat.

(** *** Taking turns with the agent *)

(** The events that set [_ready_for_input], or start a thread that sets it:
    the close of the socket and the text frames whose type is
    SettingsApplied or AgentAudioDone. *)
Definition wakes (e : event) : bool :=
  match e with
  | EvClose => true
  | EvFrame (MText (Some (JDict d))) =>
      eq_str (field "type" d) "SettingsApplied"
      || eq_str (field "type" d) "AgentAudioDone"
  | _ => false
  end.

(** A thread suspended in [self._ready_for_input.wait()]. *)
Definition waits (t : turn_thread) : Prop := t_pc t = IWaitReady.
End Demo.

(** ** Sample sessions *)

Definition env0 : environ := Environ "dg-key" "cartesia-key" "voice-id".

Definition scenario_h : Harness.scenario_dict :=
  Harness.Scenario "T0_two_turns" "Two turns" "English then Spanish"
    (Some "multi") (Some "multi") None "You are a helpful assistant." None
    [("English", "Hello"); ("Spanish", "Hola")].

Definition scenario_d : Demo.scenario_dict :=
  Demo.Scenario "Two turns" "English then Spanish"
    (Some "multi") (Some "multi") "You are a helpful assistant." None
    (Some [("English", "Hello"); ("Spanish", "Hola")]).

Definition scenario_i : Demo.scenario_dict :=
  Demo.Scenario "Custom Conversation" "Type your own messages"
    (Some "multi") (Some "multi") "You are a helpful assistant." None None.

Definition SettingsApplied : message :=
  MText (Some (JDict [("type", JStr "SettingsApplied")])).

Definition AgentAudioDone : message :=
  MText (Some (JDict [("type", JStr "AgentAudioDone")])).

Definition error_dict (code desc : string) : list (string * json) :=
  [("type", JStr "Error"); ("code", JStr code); ("description", JStr desc)].

Definition Error (code desc : string) : message :=
  MText (Some (JDict (error_dict code desc))).

Definition warning_dict (code desc : string) : list (string * json) :=
  [("type", JStr "Warning"); ("code", JStr code); ("description", JStr desc)].

Definition Warning (code desc : string) : message :=
  MText (Some (JDict (warning_dict code desc))).

(** The handshake: [run] starts the socket thread, the socket opens, the
    configuration is acknowledged. *)
Definition handshake : list event := [EvMain; EvOpen; EvFrame SettingsApplied].



(** * Basic facts *)

Lemma get_dict S (d : list (string * json)) key default (s : S) :
  get (JDict d) key default s
  = Returned (match lookup key d with Some v => v | None => default end) s.
Proof. unfold get. destruct (lookup key d); reflexivity. Qed.

Lemma get_field S (d : list (string * json)) key (s : S) :
  get (JDict d) key (JStr "") s = Returned (field key d) s.
Proof. apply get_dict. Qed.

Lemma eq_str_true v lit : eq_str v lit = true -> v = JStr lit.
Proof.
  destruct v; simpl; try discriminate.
  intros H. apply String.eqb_eq in H. now subst.
Qed.

Lemma eq_str_other v a b : eq_str v a = true -> a <> b -> eq_str v b = false.
Proof.
  intros H Hab. apply eq_str_true in H. subst v. simpl.
  now apply String.eqb_neq.
Qed.

Lemma in_strs_cons v a l : in_strs v (a :: l) = eq_str v a || in_strs v l.
Proof. reflexivity. Qed.

Lemma unrecognized_tags d :
  in_strs (field "type" d) event_types = false ->
  eq_str (field "type" d) "SettingsApplied" = false /\
  eq_str (field "type" d) "ConversationText" = false /\
  eq_str (field "type" d) "AgentAudioDone" = false /\
  eq_str (field "type" d) "Error" = false /\
  eq_str (field "type" d) "Warning" = false.
Proof.
  unfold event_types. rewrite !in_strs_cons. intros H.
  repeat (apply orb_false_elim in H; destruct H as [? H]). auto.
Qed.

Ltac by_tag H :=
  repeat match goal with
    | |- context [eq_str (field "type" ?d) ?lit] =>
        first [ rewrite H
              | rewrite (@eq_str_other _ _ lit H) by discriminate ]
    end.

Lemma in_strs_false_cons v a l :
  in_strs v (a :: l) = false -> eq_str v a = false /\ in_strs v l = false.
Proof. rewrite in_strs_cons. apply orb_false_elim. Qed.

Lemma fatal_is_not_idle code :
  in_strs code fatal_codes = true -> eq_str code idle_timeout = false.
Proof.
  unfold fatal_codes. rewrite !in_strs_cons. simpl in_strs.
  rewrite orb_false_r. intros H. apply orb_prop in H.
  destruct H as [H | H]; apply (@eq_str_other _ _ _ H); discriminate.
Qed.

(** ** ScenarioRunner: what each callback does *)

Module HarnessFacts.
Import Harness.

Lemma h_run_nil s : run s [] = s.
Proof. reflexivity. Qed.

Lemma h_run_cons s e l : run s (e :: l) = run (step s e) l.
Proof. reflexivity. Qed.

Lemma h_run_app s l1 l2 : run s (l1 ++ l2) = run (run s l1) l2.
Proof. apply fold_left_app. Qed.

Lemma h_unrecognized_on_message parsed s :
  unrecognized parsed -> _on_message (MText parsed) s = Returned tt s.
Proof.
  intros [-> | (d & -> & H)]; [reflexivity|].
  apply unrecognized_tags in H. destruct H as (H1 & H2 & H3 & H4 & H5).
  unfold _on_message, bind. rewrite get_field.
  rewrite H1, H2, H3, H4, H5. reflexivity.
Qed.

Lemma h_text_step parsed s s' :
  _on_message (MText parsed) s = Returned tt s' ->
  conn (w s) = COpen ->
  step s (EvFrame (MText parsed)) = s'.
Proof.
  intros H Hc. unfold step. rewrite Hc. unfold callback at 2. simpl _on_data.
  unfold ret. unfold callback. now rewrite H.
Qed.

Lemma h_unrecognized_step parsed s :
  unrecognized parsed -> step s (EvFrame (MText parsed)) = s.
Proof.
  intros H. destruct (conn (w s)) eqn:Hc;
    try (unfold step; rewrite Hc; reflexivity).
  apply h_text_step; auto using h_unrecognized_on_message.
Qed.

Lemma h_on_error_event d s :
  tagged "Error" d ->
  _on_message (MText (Some (JDict d))) s
  = Returned tt (after_error (field "code" d) (field "description" d) s).
Proof.
  intros H. unfold tagged in H. unfold _on_message, bind.
  rewrite get_field. by_tag H. rewrite !get_field.
  unfold after_error, modify, print, code_entry, idle_timeout, fatal_codes.
  destruct (eq_str (field "code" d) "CLIENT_MESSAGE_TIMEOUT");
    destruct (in_strs (field "code" d) ["INVALID_SETTINGS"; "UNPARSABLE_CLIENT_MESSAGE"]);
    reflexivity.
Qed.

Lemma h_on_warning_event d s :
  tagged "Warning" d ->
  _on_message (MText (Some (JDict d))) s
  = Returned tt (after_warning (field "code" d) (field "description" d) s).
Proof.
  intros H. unfold tagged in H. unfold _on_message, bind.
  rewrite get_field. by_tag H. rewrite !get_field. reflexivity.
Qed.

Lemma h_save_audio_empty label s :
  audio_buffer (self s) = [] -> _save_audio label s = Returned tt s.
Proof. intros H. unfold _save_audio, bind, gets. now rewrite H. Qed.

Lemma h_save_audio_flush label s :
  audio_buffer (self s) <> [] -> _save_audio label s = Returned tt (flushed s).
Proof.
  intros H. unfold _save_audio, bind, gets.
  destruct (audio_buffer (self s)) eqn:E; [contradiction|]. simpl nilb. cbv iota.
  unfold modify, _ts, gets, flushed. simpl. rewrite E. reflexivity.
Qed.

Lemma h_save_audio_returns label s :
  exists s', _save_audio label s = Returned tt s' /\
             audio_buffer (self s') = [] /\
             done_event (self s') = done_event (self s) /\
             _keepalive_stop (self s') = _keepalive_stop (self s).
Proof.
  destruct (audio_buffer (self s)) eqn:E.
  - exists s. rewrite h_save_audio_empty; auto.
  - exists (flushed s). rewrite h_save_audio_flush by (rewrite E; discriminate).
    repeat split.
Qed.

Lemma h_on_close_twice s :
  callback _on_close (callback _on_close s) = callback _on_close s.
Proof.
  destruct s as [[sc r buf n dn st wr] e wd ka tt mn].
  destruct buf; reflexivity.
Qed.

End HarnessFacts.

(** ** DemoRunner: what each callback does *)

Module DemoFacts.
Import Demo.

Lemma d_run_nil s : run s [] = s.
Proof. reflexivity. Qed.

Lemma d_run_cons s e l : run s (e :: l) = run (step s e) l.
Proof. reflexivity. Qed.

Lemma d_run_app s l1 l2 : run s (l1 ++ l2) = run (run s l1) l2.
Proof. apply fold_left_app. Qed.

Lemma d_unrecognized_on_message parsed s :
  unrecognized parsed -> _on_message (MText parsed) s = Returned tt s.
Proof.
  intros [-> | (d & -> & H)]; [reflexivity|].
  apply unrecognized_tags in H. destruct H as (H1 & H2 & H3 & H4 & H5).
  unfold _on_message, bind. rewrite get_field.
  rewrite H1, H2, H3, H4. reflexivity.
Qed.

Lemma d_text_step parsed s s' :
  _on_message (MText parsed) s = Returned tt s' ->
  conn (w s) = COpen ->
  step s (EvFrame (MText parsed)) = s'.
Proof.
  intros H Hc. unfold step. rewrite Hc. unfold callback at 2. simpl _on_data.
  unfold ret. unfold callback. now rewrite H.
Qed.

Lemma d_unrecognized_step parsed s :
  unrecognized parsed -> step s (EvFrame (MText parsed)) = s.
Proof.
  intros H. destruct (conn (w s)) eqn:Hc;
    try (unfold step; rewrite Hc; reflexivity).
  apply d_text_step; auto using d_unrecognized_on_message.
Qed.

Lemma d_on_error_event d s :
  tagged "Error" d ->
  _on_message (MText (Some (JDict d))) s
  = Returned tt (after_error (field "code" d) (field "description" d) s).
Proof.
  intros H. unfold tagged in H. unfold _on_message, bind.
  rewrite get_field. by_tag H. rewrite !get_field.
  unfold after_error, idle_timeout.
  destruct (eq_str (field "code" d) "CLIENT_MESSAGE_TIMEOUT"); reflexivity.
Qed.

Lemma d_on_warning_event d s :
  tagged "Warning" d -> _on_message (MText (Some (JDict d))) s = Returned tt s.
Proof.
  intros H. unfold tagged in H. unfold _on_message, bind.
  rewrite get_field. by_tag H. reflexivity.
Qed.

Lemma d_save_audio_empty s :
  audio_buffer (self s) = [] -> _save_audio s = Returned tt s.
Proof. intros H. unfold _save_audio, bind, gets. now rewrite H. Qed.

Lemma d_save_audio_flush s :
  audio_buffer (self s) <> [] -> _save_audio s = Returned tt (flushed s).
Proof.
  intros H. unfold _save_audio, bind, gets.
  destruct (audio_buffer (self s)) eqn:E; [contradiction|]. simpl nilb. cbv iota.
  unfold modify, print, modify, flushed. simpl. rewrite E. reflexivity.
Qed.

Lemma d_on_close_twice s :
  callback _on_close (callback _on_close s) = callback _on_close s.
Proof.
  destruct s as [[sc buf n cv dn st wr ap rd er] e wd ka tt mn].
  destruct buf; reflexivity.
Qed.

End DemoFacts.

(** ** Thread pools *)

Lemma nth_error_set_nth_same A (l : list A) k a x :
  nth_error l k = Some x -> nth_error (set_nth k a l) k = Some a.
Proof.
  revert k. induction l as [|y l IH]; intros [|k] H; simpl in *;
    try discriminate; auto.
Qed.

Lemma nth_error_set_nth_other A (l : list A) k j a :
  j <> k -> nth_error (set_nth k a l) j = nth_error l j.
Proof.
  revert k j. induction l as [|y l IH]; intros [|k] [|j] H; simpl; auto.
  congruence.
Qed.

Lemma length_set_nth A (l : list A) k a :
  List.length (set_nth k a l) = List.length l.
Proof. revert k. induction l; intros [|k]; simpl; auto. Qed.

Lemma set_nth_set_nth A (l : list A) k a b :
  set_nth k a (set_nth k b l) = set_nth k a l.
Proof.
  revert k. induction l as [|y l IH]; intros [|k]; simpl; auto.
  now rewrite IH.
Qed.

Lemma quits_blank : Demo.quits "" = true.
Proof. reflexivity. Qed.

Lemma quits_token text :
  In (lower text) Demo.quit_tokens -> Demo.quits text = true.
Proof.
  intros H. unfold Demo.quits. apply orb_true_iff. right.
  apply existsb_exists. exists (lower text). split; [exact H|].
  apply String.eqb_refl.
Qed.

Lemma outbox_w_close w0 : outbox (w_close w0) = outbox w0.
Proof. unfold w_close. destruct (conn w0); reflexivity. Qed.

Lemma now_w_close w0 : now (w_close w0) = now w0.
Proof. unfold w_close. destruct (conn w0); reflexivity. Qed.

(** ** Times *)

Lemma apart_snoc d l t :
  apart d (l ++ [t]) <-> apart d l /\ Forall (fun u => u + d <= t) l.
Proof.
  induction l as [|x l IH]; simpl.
  - intuition.
  - rewrite IH, Forall_app. split.
    + intros ((H1 & H2) & H3 & H4). repeat split; auto.
      constructor; auto. now inversion H2.
    + intros ((H1 & H2) & H3). inversion H3; subst. repeat split; auto.
Qed.

Lemma settled_snoc start first later l t :
  settled start first later (l ++ [t])
  <-> settled start first later l /\ ready start first later l <= t.
Proof.
  revert start first. induction l as [|x l IH]; intros start first; simpl.
  - intuition.
  - rewrite IH. intuition.
Qed.

Lemma Forall_le_trans (l : list N) a b :
  Forall (fun u => u <= a) l -> a <= b -> Forall (fun u => u <= b) l.
Proof. intros H Hab. eapply Forall_impl; [|exact H]. simpl. intros. lia. Qed.

(** ** Logs *)

Lemma sent_from_app who o1 o2 :
  sent_from who (o1 ++ o2) = sent_from who o1 ++ sent_from who o2.
Proof. apply filter_app. Qed.

Lemma sent_times_app who o1 o2 :
  sent_times who (o1 ++ o2) = sent_times who o1 ++ sent_times who o2.
Proof. unfold sent_times. now rewrite sent_from_app, map_app. Qed.

Lemma sender_eqb_eq a b : sender_eqb a b = true <-> a = b.
Proof.
  destruct a, b; simpl; try (split; [discriminate | congruence]);
    try tauto; rewrite Nat.eqb_eq; split; congruence.
Qed.

Lemma sender_eqb_refl a : sender_eqb a a = true.
Proof. now apply sender_eqb_eq. Qed.

Lemma sent_from_none who o :
  Forall (fun m => sender_eqb (sent_by m) who = false) o -> sent_from who o = [].
Proof.
  induction 1 as [|m o Hm _ IH]; simpl; auto. now rewrite Hm.
Qed.

Lemma sent_from_nil_in who o m :
  sent_from who o = [] -> In m o -> sent_by m <> who.
Proof.
  intros H Hin Heq.
  assert (Hm : In m (sent_from who o)).
  { apply filter_In. split; auto. now apply sender_eqb_eq. }
  rewrite H in Hm. contradiction.
Qed.

(** ** The keep-alive loops *)

Lemma kok_mono stop stop' t t' times pc :
  kok stop t times pc -> t <= t' -> (stop = true -> stop' = true) ->
  kok stop' t' times pc.
Proof.
  intros [Ha H] Ht Hs. split; auto.
  destruct pc; auto; try (eapply Forall_le_trans; eauto).
  - destruct H as [H | H]; [left; auto | right].
    eapply Forall_impl; [|exact H]. simpl. intros. lia.
  - eapply Forall_impl; [|exact H]. simpl. intros. lia.
Qed.

Lemma not_by_keepalive who k :
  by_keepalive who = false -> sender_eqb who (ByKeepalive k) = false.
Proof. destruct who; simpl; congruence. Qed.

Lemma sent_from_other_keepalive k extra :
  Forall (fun m => by_keepalive (sent_by m) = false /\
                   is_keepalive (sent_msg m) = false) extra ->
  sent_from (ByKeepalive k) extra = [].
Proof.
  intros H. apply sent_from_none. eapply Forall_impl; [|exact H].
  intros m [H1 _]. now apply not_by_keepalive.
Qed.

Lemma KInv_kenv v v' : KInv v -> kenv v v' -> KInv v'.
Proof.
  intros [Hc Hk] (Hn & Hs & (extra & Ho & Hx) & (n & Hp)). split.
  - rewrite Ho. apply Forall_app. split; auto.
    eapply Forall_impl; [|exact Hx]. intros m [H1 H2]. congruence.
  - intros k. specialize (Hk k).
    assert (Hsf : sent_from (ByKeepalive k) (outbox (kv_w v'))
                  = sent_from (ByKeepalive k) (outbox (kv_w v))).
    { rewrite Ho, sent_from_app, (sent_from_other_keepalive k Hx).
      apply app_nil_r. }
    unfold sent_times. rewrite Hsf, Hp.
    destruct (nth_error (kv_pool v) k) as [pc|] eqn:E.
    + rewrite nth_error_app1 by (apply nth_error_Some; congruence).
      rewrite E. eapply kok_mono; eauto.
    + rewrite nth_error_app2 by (now apply nth_error_None).
      destruct (nth_error (repeat KLoop n) _) as [pc|] eqn:E2; [|exact Hk].
      apply nth_error_In, repeat_spec in E2. subst pc. rewrite Hk.
      split; simpl; auto.
Qed.

Lemma KInv_set ws stop w pool k pc pc' :
  KInv (KView ws stop w pool) ->
  nth_error pool k = Some pc ->
  kok stop (now w) (sent_times (ByKeepalive k) (outbox w)) pc' ->
  KInv (KView ws stop w (set_nth k pc' pool)).
Proof.
  intros [Hc Hk] E H. split; auto. intros j. simpl in *.
  destruct (Nat.eq_dec j k) as [-> | Hj].
  - now rewrite (@nth_error_set_nth_same _ _ _ _ _ E).
  - rewrite nth_error_set_nth_other by auto. apply Hk.
Qed.

Lemma KInv_sent ws stop w pool k :
  KInv (KView ws stop w pool) ->
  nth_error pool k = Some KSend ->
  KInv (KView ws stop
          (with_outbox (outbox w ++ [Sent (now w) (ByKeepalive k) KeepAlive]) w)
          (set_nth k KLoop pool)).
Proof.
  intros [Hc Hk] E. simpl in *. split; simpl.
  - apply Forall_app. split; auto.
  - intros j. unfold sent_times. rewrite sent_from_app. simpl.
    destruct (Nat.eq_dec j k) as [-> | Hj].
    + rewrite (@nth_error_set_nth_same _ _ _ _ _ E), Nat.eqb_refl.
      specialize (Hk k). rewrite E in Hk. destruct Hk as [Ha Hf].
      rewrite map_app. simpl. split.
      * apply apart_snoc. split; assumption.
      * apply Forall_app. split.
        -- eapply Forall_impl; [|exact Hf]. simpl. intros. lia.
        -- repeat constructor. lia.
    + rewrite nth_error_set_nth_other by auto.
      replace (Nat.eqb k j) with false
        by (symmetry; apply Nat.eqb_neq; congruence).
      rewrite app_nil_r. apply Hk.
Qed.

Lemma KInv_kthread v k : KInv v -> KInv (kthread k v).
Proof.
  destruct v as [ws stop w pool]. intros HI. unfold kthread. simpl.
  destruct (nth_error pool k) as [pc|] eqn:E; [|exact HI].
  pose proof (proj2 HI k) as Hk. simpl in Hk. rewrite E in Hk.
  destruct Hk as [Ha Hk].
  destruct pc; simpl.
  - destruct stop; apply (KInv_set _ HI E); split; auto.
  - apply (KInv_set _ HI E). split; auto.
    eapply Forall_impl; [|exact Hk]. simpl. intros. lia.
  - destruct stop; simpl.
    + apply (KInv_set _ HI E). split; auto.
    + destruct (deadline <=? now w) eqn:Hd.
      * apply (KInv_set _ HI E). split; auto. right.
        apply N.leb_le in Hd.
        eapply Forall_impl; [|exact Hk]. simpl. intros. lia.
      * apply (KInv_set _ HI E). split; auto.
  - destruct stop; apply (KInv_set _ HI E); split; auto.
    destruct Hk as [Hk | Hk]; [discriminate | exact Hk].
  - destruct ws; [|apply (KInv_set _ HI E); split; simpl; auto].
    unfold w_send. destruct (conn w) eqn:Hc;
      try (apply (KInv_set _ HI E); split; simpl; auto).
    now apply KInv_sent.
  - apply (KInv_set _ HI E). split; auto.
Qed.

Lemma KInv_kstep v v' : KInv v -> kstep v v' -> KInv v'.
Proof.
  intros HI Hs. destruct Hs as [v0 k | v0 v1 He].
  - now apply KInv_kthread.
  - eapply KInv_kenv; eauto.
Qed.

Lemma kbudget_kthread v j k :
  kv_stop v = true ->
  kv_stop (kthread j v) = true /\
  (kcount k (kthread j v) + kpending k (kthread j v)
   <= kcount k v + kpending k v)%nat.
Proof.
  destruct v as [ws stop w pool]. simpl. intros ->.
  unfold kthread, kcount, kpending. simpl.
  destruct (nth_error pool j) as [pc|] eqn:E; [|simpl; split; auto].
  destruct (Nat.eq_dec k j) as [-> | Hkj].
  - rewrite E.
    destruct pc; simpl; rewrite ?(@nth_error_set_nth_same _ _ _ _ _ E);
      try (split; [reflexivity | lia]).
    destruct ws; simpl; rewrite ?(@nth_error_set_nth_same _ _ _ _ _ E);
      try (split; [reflexivity | lia]).
    unfold w_send. destruct (conn w); simpl;
      rewrite ?(@nth_error_set_nth_same _ _ _ _ _ E);
      try (split; [reflexivity | lia]).
    rewrite sent_from_app, length_app. simpl. rewrite Nat.eqb_refl. simpl.
    split; [reflexivity | lia].
  - assert (Hw : forall pc' w',
               keepalive_step j ws true pc w = (pc', w') ->
               sent_from (ByKeepalive k) (outbox w')
               = sent_from (ByKeepalive k) (outbox w)).
    { intros pc' w'. destruct pc; simpl;
        try (intros [= <- <-]; reflexivity).
      destruct ws; [|intros [= <- <-]; reflexivity].
        unfold w_send. destruct (conn w); intros [= <- <-]; try reflexivity.
        simpl. rewrite sent_from_app. simpl.
        replace (Nat.eqb j k) with false
          by (symmetry; apply Nat.eqb_neq; congruence).
        apply app_nil_r. }
    destruct (keepalive_step j ws true pc w) as [pc' w'] eqn:Es. simpl.
    rewrite (Hw _ _ eq_refl), nth_error_set_nth_other by auto.
    split; [reflexivity | lia].
Qed.

Lemma kbudget_kenv v v' k :
  kv_stop v = true -> kenv v v' ->
  kv_stop v' = true /\
  (kcount k v' + kpending k v' <= kcount k v + kpending k v)%nat.
Proof.
  intros Hs (Hn & Hst & (extra & Ho & Hx) & (n & Hp)). split; auto.
  unfold kcount, kpending.
  rewrite Ho, sent_from_app, (sent_from_other_keepalive k Hx), app_nil_r, Hp.
  destruct (nth_error (kv_pool v) k) as [pc|] eqn:E.
  - rewrite nth_error_app1 by (apply nth_error_Some; congruence).
    rewrite E. lia.
  - rewrite nth_error_app2 by (now apply nth_error_None).
    destruct (nth_error (repeat KLoop n) _) as [pc|] eqn:E2; [|lia].
    apply nth_error_In, repeat_spec in E2. subst pc. lia.
Qed.

Lemma kbudget_kstep v v' k :
  kv_stop v = true -> kstep v v' ->
  kv_stop v' = true /\
  (kcount k v' + kpending k v' <= kcount k v + kpending k v)%nat.
Proof.
  intros Hs Hst. destruct Hst as [v0 j | v0 v1 He].
  - now apply kbudget_kthread.
  - now apply kbudget_kenv.
Qed.

(** ** Scripted turn delivery *)

Lemma ready_bound start first later times t :
  start <= t -> Forall (fun u => u <= t) times ->
  ready start first later times
  <= t + match times with [] => first | _ => later end.
Proof.
  revert start first. induction times as [|x l IH]; intros start first Hs Hf.
  - simpl. lia.
  - simpl. inversion Hf; subst.
    specialize (IH x later H1 H2). destruct l; simpl in *; lia.
Qed.

Lemma firstn_S_nth A (l : list A) i x :
  nth_error l i = Some x -> firstn (S i) l = firstn i l ++ [x].
Proof.
  revert i. induction l as [|y l IH]; intros [|i] H; simpl in *;
    try discriminate.
  - now inversion H.
  - f_equal. now apply IH.
Qed.

Lemma expected_S turns i label text :
  nth_error turns i = Some (label, text) ->
  expected turns (S i) = expected turns i ++ [InjectUserMessage text].
Proof.
  intros H. unfold expected. rewrite (firstn_S_nth _ _ H), map_app. reflexivity.
Qed.

Lemma expected_all turns i :
  nth_error turns i = None -> expected turns i = expected turns (List.length turns).
Proof.
  intros H. apply nth_error_None in H. unfold expected.
  now rewrite firstn_all, firstn_all2.
Qed.

Lemma expected_length turns i label text :
  nth_error turns i = Some (label, text) -> List.length (expected turns i) = i.
Proof.
  intros H. unfold expected. rewrite length_map, length_firstn.
  assert (i < List.length turns)%nat by (apply nth_error_Some; congruence).
  lia.
Qed.

Lemma tok_mono first turns born t t' frames ph :
  tok first turns born t frames ph -> t <= t' -> tok first turns born t' frames ph.
Proof.
  unfold tok. intros (Hb & Hf & Hs & H) Ht. repeat split; auto; try lia.
  - eapply Forall_le_trans; eauto.
  - destruct ph; auto. destruct H as (H1 & H2 & H3). repeat split; auto. lia.
Qed.

Lemma tok_dead first turns born t frames ph :
  tok first turns born t frames ph -> tok first turns born t frames PDead.
Proof.
  unfold tok. intros (Hb & Hf & Hs & H). repeat split; auto.
  destruct ph; try contradiction; try (eexists; exact H); auto.
  - destruct H as (H & _). eexists; exact H.
  - destruct H as (H & _). eexists; exact H.
Qed.

Lemma tok_pstep first turns born t frames ph m ph' k :
  tok first turns born t frames ph ->
  pstep first turns t ph m ph' ->
  tok first turns born t (frames ++ turn_frame t k m) ph'.
Proof.
  intros Hok Hst. unfold turn_frame. destruct Hst; rewrite ?app_nil_r; auto.
  - (* enter the sleep *)
    destruct Hok as (Hb & Hf & Hs & Hm). repeat split; eauto.
    pose proof (ready_bound (seconds first) (seconds BETWEEN_TURNS) Hb Hf) as Hr.
    pose proof (expected_length _ _ H) as Hl. rewrite <- Hm in Hl.
    rewrite length_map, <- (length_map sent_at) in Hl.
    unfold delay. destruct (map sent_at frames), i; simpl in *;
      try discriminate; lia.
  - (* leave the loop *)
    destruct Hok as (Hb & Hf & Hs & Hm). repeat split; auto.
    rewrite Hm. now apply expected_all.
  - (* wake *)
    destruct Hok as (Hb & Hf & Hs & Hm & Hn & Hr). repeat split; auto. lia.
  - (* send *)
    destruct Hok as (Hb & Hf & Hs & Hm & (label & Hn) & Hr).
    unfold tok. rewrite !map_app. simpl. repeat split; auto.
    + apply Forall_app. split; auto. repeat constructor. lia.
    + apply settled_snoc. split; auto.
    + rewrite Hm. symmetry. eapply expected_S; eauto.
  - (* the thread is ended *)
    eapply tok_dead; eauto.
  - (* interactive *)
    destruct Hok as (_ & _ & _ & []).
Qed.

Lemma not_by_turns who k :
  by_turns who = false -> sender_eqb who (ByTurns k) = false.
Proof. destruct who; simpl; congruence. Qed.

Lemma sent_from_other_turns k extra :
  Forall (fun m => by_turns (sent_by m) = false /\
                   is_user_turn (sent_msg m) = false) extra ->
  sent_from (ByTurns k) extra = [].
Proof.
  intros H. apply sent_from_none. eapply Forall_impl; [|exact H].
  intros m [H1 _]. now apply not_by_turns.
Qed.

Lemma TInv_tenv first turns v v' :
  TInv first turns v -> tenv v v' -> TInv first turns v'.
Proof.
  intros [Hc Hk] (Hn & (extra & Ho & Hx) & (n & Hp)). split.
  - rewrite Ho. apply Forall_app. split; auto.
    eapply Forall_impl; [|exact Hx]. intros m [H1 H2]. congruence.
  - intros k. specialize (Hk k).
    rewrite Ho, sent_from_app, (sent_from_other_turns k Hx), app_nil_r, Hp.
    destruct (nth_error (tv_pool v) k) as [[born ph]|] eqn:E.
    + rewrite nth_error_app1 by (apply nth_error_Some; congruence).
      rewrite E. eapply tok_mono; eauto.
    + rewrite nth_error_app2 by (now apply nth_error_None).
      destruct (nth_error (repeat _ n) _) as [[born ph]|] eqn:E2; [|exact Hk].
      apply nth_error_In, repeat_spec in E2. inversion E2; subst. rewrite Hk.
      unfold tok. simpl. repeat split; auto. lia.
Qed.

Lemma sent_from_turn_frame j k t m :
  sent_from (ByTurns j) (turn_frame t k m)
  = if Nat.eqb k j then turn_frame t k m else [].
Proof.
  destruct m; simpl; [|now destruct (Nat.eqb k j)].
  destruct (Nat.eqb k j); reflexivity.
Qed.

Lemma TInv_tthread first turns k v v' :
  TInv first turns v -> tthread first turns k v v' -> TInv first turns v'.
Proof.
  intros [Hc Hk] (born & ph & m & ph' & E & Hst & ->).
  split; simpl.
  - apply Forall_app. split; auto. destruct m; repeat constructor.
  - intros j. rewrite sent_from_app, sent_from_turn_frame.
    destruct (Nat.eq_dec j k) as [-> | Hj].
    + rewrite (@nth_error_set_nth_same _ _ _ _ _ E), Nat.eqb_refl.
      specialize (Hk k). rewrite E in Hk.
      eapply tok_pstep; eauto.
    + rewrite nth_error_set_nth_other by auto.
      replace (Nat.eqb k j) with false
        by (symmetry; apply Nat.eqb_neq; congruence).
      rewrite app_nil_r. apply Hk.
Qed.

Lemma TInv_tstep first turns v v' :
  TInv first turns v -> tstep first turns v v' -> TInv first turns v'.
Proof.
  intros HI Hs. destruct Hs as [v0 k v1 Ht | v0 v1 He].
  - eapply TInv_tthread; eauto.
  - eapply TInv_tenv; eauto.
Qed.

(** When only one thread delivers turns, the user-turn frames of the
    session are its frames. *)
Lemma user_turns_single first turns v born ph :
  TInv first turns v ->
  tv_pool v = [(born, ph)] ->
  user_turns (tv_outbox v) = sent_from (ByTurns 0) (tv_outbox v).
Proof.
  intros [Hc Hk] Hp. unfold user_turns, sent_from.
  apply filter_ext_in. intros m Hin.
  rewrite Forall_forall in Hc. rewrite (Hc m Hin).
  destruct (sent_by m) as [| j | j] eqn:Es; simpl; auto.
  destruct j; auto. exfalso.
  specialize (Hk (S j)). rewrite Hp in Hk. simpl in Hk.
  rewrite nth_error_nil in Hk.
  now apply (sent_from_nil_in _ _ Hk Hin).
Qed.

Lemma closed_w_close w0 : closed (conn (w_close w0)) = true.
Proof. destruct w0 as [c o cs f t i]. destruct c; reflexivity. Qed.

Lemma w_close_closed w0 : closed (conn w0) = true -> w_close w0 = w0.
Proof.
  destruct w0 as [c o cs f t i]. destruct c; simpl; intros H;
    try discriminate; reflexivity.
Qed.

#[local] Arguments w_close : simpl never.

Lemma map_set_nth A B (f : A -> B) (l : list A) k a :
  map f (set_nth k a l) = set_nth k (f a) (map f l).
Proof.
  revert k. induction l as [|y l IH]; intros [|k]; simpl; auto.
  now rewrite IH.
Qed.

Lemma set_nth_same A (l : list A) k a :
  nth_error l k = Some a -> set_nth k a l = l.
Proof.
  revert k. induction l as [|y l IH]; intros [|k] H; simpl in *;
    try discriminate; auto.
  - now inversion H.
  - now rewrite IH.
Qed.

Lemma kenv_refl v : kenv v v.
Proof.
  unfold kenv. repeat split; auto; try lia.
  - exists []. rewrite app_nil_r. auto.
  - exists 0%nat. simpl. now rewrite app_nil_r.
Qed.

Lemma tenv_refl v : tenv v v.
Proof.
  unfold tenv. repeat split; auto; try lia.
  - exists []. rewrite app_nil_r. auto.
  - exists 0%nat. simpl. now rewrite app_nil_r.
Qed.

(** The world after a step of a keep-alive loop. *)
Lemma keepalive_step_world k ws stop pc w0 :
  snd (keepalive_step k ws stop pc w0) = w0 \/
  (conn w0 = COpen /\ pc = KSend /\
   snd (keepalive_step k ws stop pc w0)
   = with_outbox (outbox w0 ++ [Sent (now w0) (ByKeepalive k) KeepAlive]) w0).
Proof.
  destruct pc; simpl; auto.
  - destruct stop; auto.
  - destruct (stop || (deadline <=? now w0)); auto.
  - destruct stop; auto.
  - destruct ws; auto. unfold w_send. destruct (conn w0); auto.
Qed.

(** ** ScenarioRunner: what a step does to what the threads see *)

Module HarnessSteps.
Import Harness.

Lemma h_env_like_refl s : env_like s s.
Proof. unfold env_like. repeat split; auto. lia. Qed.

Ltac env_tac :=
  unfold env_like; cbn;
  repeat match goal with
    | |- _ /\ _ => split
    end;
  try reflexivity; try lia; auto;
  try (left; reflexivity);
  try (left; split; reflexivity);
  try (right; split; reflexivity);
  try discriminate;
  rewrite ?now_w_close, ?outbox_w_close, ?closed_w_close;
  try reflexivity; try lia; auto.

Lemma h_on_message_env m s : env_like s (callback (_on_message m) s).
Proof.
  destruct m as [[ev|]|bytes]; try apply h_env_like_refl.
  destruct ev; try apply h_env_like_refl.
  unfold callback, _on_message, bind. rewrite get_field.
  destruct (eq_str (field "type" d) "SettingsApplied"); [env_tac|].
  destruct (eq_str (field "type" d) "ConversationText").
  { rewrite !get_field. unfold conversation_append, modify.
    destruct (eq_str (field "role" d) "assistant"); [env_tac|].
    destruct (field "role" d); env_tac. }
  destruct (eq_str (field "type" d) "AgentAudioDone").
  { unfold _save_audio, bind, gets. destruct (audio_buffer (self s)); env_tac. }
  destruct (eq_str (field "type" d) "Error").
  { rewrite !get_field. unfold modify.
    destruct (negb (eq_str (field "code" d) "CLIENT_MESSAGE_TIMEOUT"));
      destruct (in_strs (field "code" d) ["INVALID_SETTINGS"; "UNPARSABLE_CLIENT_MESSAGE"]);
      env_tac. }
  destruct (eq_str (field "type" d) "Warning"); [|apply h_env_like_refl].
  rewrite !get_field. env_tac.
Qed.

Lemma h_on_data_env m s : env_like s (callback (_on_data m) s).
Proof.
  destruct m as [p|bytes]; [apply h_env_like_refl|].
  unfold callback, _on_data. destruct (0 <? List.length bytes)%nat; env_tac.
Qed.

Lemma h_on_close_env s : env_like s (callback _on_close s).
Proof.
  unfold callback, _on_close, bind, modify, _save_audio, bind, gets. cbn.
  destruct (audio_buffer (self s)); env_tac.
Qed.

Lemma h_env_like_trans s1 s2 s3 :
  env_like s1 s2 -> now (w s2) = now (w s1) ->
  keepalive_threads s2 = keepalive_threads s1 ->
  turn_threads s2 = turn_threads s1 ->
  outbox (w s2) = outbox (w s1) ->
  conn (w s2) = conn (w s1) ->
  env_like s2 s3 -> env_like s1 s3.
Proof.
  unfold env_like.
  intros (A1 & A2 & A3 & A4 & A5 & A6) Hn Hk Ht Ho Hc (B1 & B2 & B3 & B4 & B5 & B6).
  rewrite Hn in B2, B4. rewrite Ho in B4, B6. rewrite Hk, Ht in B5.
  rewrite Hc in B6.
  repeat split; auto; try congruence; try apply B6; auto.
Qed.

Lemma h_env_like s e :
  match e with
  | EvKeepalive _ | EvTurns _ => False
  | _ => True
  end ->
  env_like s (step s e).
Proof.
  destruct e; intros He; try contradiction; unfold step.
  - unfold run_step. destruct (main s); try solve [env_tac].
    + env_tac; destruct (conn (w s)) eqn:Hc; cbn; rewrite ?Hc; auto; try lia;
        discriminate.
    + destruct (done_event (self s) || (deadline <=? now (w s))); env_tac.
    + destruct (conn_eqb (conn (w s)) CClosed); env_tac.
    + destruct (conn_eqb (conn (w s)) CClosed || (deadline <=? now (w s))); env_tac.
  - destruct (conn (w s)) eqn:Hc; try apply h_env_like_refl.
    unfold callback, _on_open, bind, modify, gets, ws_send, w_send. cbn.
    unfold env_like. cbn. rewrite Hc. repeat split; auto; try lia; try discriminate.
    right. eexists. repeat split.
  - destruct (conn (w s)) eqn:Hc; try apply h_env_like_refl.
    eapply h_env_like_trans; [apply h_on_data_env | | | | | | apply h_on_message_env].
    all: destruct m as [p|bytes]; try reflexivity;
      unfold callback, _on_data; destruct (0 <? List.length bytes)%nat; reflexivity.
  - destruct (conn (w s)) eqn:Hc; try apply h_env_like_refl.
    all: unfold callback, _on_close, bind, modify, _save_audio, bind, gets; cbn;
      destruct (audio_buffer (self s)); env_tac; rewrite Hc; discriminate.
  - env_tac.
  - env_tac.
Qed.


Lemma h_kview_env s s' : env_like s s' -> kenv (kview_of s) (kview_of s').
Proof.
  intros (A1 & A2 & A3 & A4 & A5 & A6). unfold kenv, kview_of. simpl.
  repeat split; auto.
  - destruct A4 as [-> | (msg & -> & Hk & Hu)].
    + exists []. rewrite app_nil_r. auto.
    + eexists. split; [reflexivity|]. repeat constructor; auto.
  - destruct A5 as [[-> _] | [-> _]].
    + exists 0%nat. simpl. now rewrite app_nil_r.
    + now exists 1%nat.
Qed.

Lemma h_tview_env s s' : env_like s s' -> tenv (tview_of s) (tview_of s').
Proof.
  intros (A1 & A2 & A3 & A4 & A5 & A6). unfold tenv, tview_of. simpl.
  repeat split; auto.
  - destruct A4 as [-> | (msg & -> & Hk & Hu)].
    + exists []. rewrite app_nil_r. auto.
    + eexists. split; [reflexivity|]. repeat constructor; auto.
  - destruct A5 as [[_ ->] | [_ ->]].
    + exists 0%nat. simpl. now rewrite app_nil_r.
    + exists 1%nat. now rewrite map_app.
Qed.

(** A step of a turn thread, seen from outside the thread. *)
Lemma h_turns_step_frame k pc s :
  let s' := snd (_send_turns_step k pc s) in
  scenario (self s') = scenario (self s) /\
  now (w s') = now (w s) /\
  (_keepalive_stop (self s) = true -> _keepalive_stop (self s') = true) /\
  keepalive_threads s' = keepalive_threads s /\
  turn_threads s' = turn_threads s /\
  (outbox (w s') = outbox (w s) \/
   exists text,
     conn (w s) = COpen /\
     outbox (w s') = outbox (w s) ++ [Sent (now (w s)) (ByTurns k) (InjectUserMessage text)]) /\
  (closed (conn (w s)) = true ->
   closed (conn (w s')) = true /\ outbox (w s') = outbox (w s)).
Proof.
  destruct pc; cbn.
  - destruct (nth_error (turns (scenario (self s))) i) as [[label text]|];
      cbn; repeat split; auto.
  - destruct (wake <=? now (w s)); cbn; repeat split; auto.
  - repeat split; auto.
  - unfold w_send. destruct (conn (w s)) eqn:Hc; cbn; rewrite ?Hc;
      repeat split; auto; try discriminate.
    right. eexists. split; reflexivity.
  - repeat split; auto.
  - destruct (wake <=? now (w s)); cbn; repeat split; auto.
  - repeat split; auto.
  - rewrite now_w_close, outbox_w_close, closed_w_close. repeat split; auto.
  - repeat split; auto.
  - repeat split; auto.
Qed.

Lemma h_kview_step s e : kstep (kview_of s) (kview_of (step s e)).
Proof.
  destruct e; try (apply kstep_env, h_kview_env, h_env_like; exact I).
  - (* a keep-alive loop *)
    replace (kview_of (step s (EvKeepalive k))) with (kthread k (kview_of s));
      [apply kstep_thread|].
    unfold step, kthread, kview_of. simpl.
    destruct (nth_error (keepalive_threads s) k); [|reflexivity].
    now destruct (keepalive_step k true (_keepalive_stop (self s)) k0 (w s)).
  - (* a turn thread *)
    apply kstep_env. unfold step.
    destruct (nth_error (turn_threads s) k) as [t|]; [|apply kenv_refl].
    pose proof (h_turns_step_frame k (t_pc t) s) as H.
    destruct (_send_turns_step k (t_pc t) s) as [pc' s']. simpl in H.
    destruct H as (H1 & H2 & H3 & H4 & H5 & H6 & H7).
    unfold kenv, kview_of. simpl. repeat split; auto; try lia.
    + destruct H6 as [-> | (text & _ & ->)].
      * exists []. rewrite app_nil_r. auto.
      * eexists. split; [reflexivity|]. repeat constructor.
    + exists 0%nat. simpl. now rewrite app_nil_r.
Qed.

Lemma h_tview_step s e :
  tstep 3 (turns (scenario (self s))) (tview_of s) (tview_of (step s e)).
Proof.
  destruct e; try (apply tstep_env, h_tview_env, h_env_like; exact I).
  - (* a keep-alive loop *)
    apply tstep_env. unfold step.
    destruct (nth_error (keepalive_threads s) k) as [pc|]; [|apply tenv_refl].
    pose proof (keepalive_step_world k true (_keepalive_stop (self s)) pc (w s)) as H.
    destruct (keepalive_step k true (_keepalive_stop (self s)) pc (w s)) as [pc' w'].
    simpl in H. unfold tenv, tview_of. simpl.
    destruct H as [-> | (_ & _ & ->)]; simpl; repeat split; try lia.
    + exists []. rewrite app_nil_r. auto.
    + exists 0%nat. simpl. now rewrite app_nil_r.
    + eexists. split; [reflexivity|]. repeat constructor.
    + exists 0%nat. simpl. now rewrite app_nil_r.
  - (* a turn thread *)
    unfold step.
    destruct (nth_error (turn_threads s) k) as [[born pc]|] eqn:E;
      [|apply tstep_env, tenv_refl].
    apply tstep_thread with (k := k). unfold tthread, tview_of.
    assert (Ek : nth_error (map (fun t => (t_born t, phase_of (t_pc t)))
                              (turn_threads s)) k
                 = Some (born, phase_of pc))
      by (rewrite nth_error_map, E; reflexivity).
    exists born, (phase_of pc). simpl t_pc. simpl t_born.
    destruct pc; cbn.
    + destruct (nth_error (turns (scenario (self s))) i) as [[label text]|] eqn:En;
        cbn; exists None; eexists; (split; [exact Ek|]);
        (split; [econstructor; eauto|]); cbn;
        rewrite map_set_nth, app_nil_r; reflexivity.
    + destruct (wake <=? now (w s)) eqn:Hw; cbn; exists None; eexists;
        (split; [exact Ek|]).
      * split; [apply ps_wake; now apply N.leb_le|].
        cbn. rewrite map_set_nth, app_nil_r. reflexivity.
      * split; [apply ps_stay|].
        cbn. rewrite map_set_nth, app_nil_r. reflexivity.
    + exists None; eexists; (split; [exact Ek|]); split; [apply ps_stay|].
      cbn. rewrite map_set_nth, app_nil_r. reflexivity.
    + unfold w_send. destruct (conn (w s)); cbn;
        try (exists None; eexists; (split; [exact Ek|]); split; [apply ps_die|];
             cbn; rewrite map_set_nth, app_nil_r; reflexivity).
      exists (Some text); eexists; (split; [exact Ek|]); split; [apply ps_send|].
      cbn. rewrite map_set_nth. reflexivity.
    + exists None; eexists; (split; [exact Ek|]); split; [apply ps_next|].
      cbn. rewrite map_set_nth, app_nil_r. reflexivity.
    + destruct (wake <=? now (w s)); cbn; exists None; eexists;
        (split; [exact Ek|]); (split; [apply ps_stay|]);
        cbn; rewrite map_set_nth, app_nil_r; reflexivity.
    + exists None; eexists; (split; [exact Ek|]); split; [apply ps_stay|].
      cbn. rewrite map_set_nth, app_nil_r. reflexivity.
    + exists None; eexists; (split; [exact Ek|]); split; [apply ps_stay|].
      cbn. rewrite map_set_nth, app_nil_r, now_w_close, outbox_w_close.
      reflexivity.
    + exists None; eexists; (split; [exact Ek|]); split; [apply ps_stay|].
      cbn. rewrite map_set_nth, app_nil_r. reflexivity.
    + exists None; eexists; (split; [exact Ek|]); split; [apply ps_stay|].
      cbn. rewrite map_set_nth, app_nil_r. reflexivity.
Qed.

End HarnessSteps.

(** ** ScenarioRunner: what holds of every reachable state *)

Module HarnessRuns.
Import Harness HarnessFacts HarnessSteps.

Lemma h_step_scenario s e : scenario (self (step s e)) = scenario (self s).
Proof.
  destruct e; try (apply (h_env_like s); exact I).
  - unfold step. destruct (nth_error (keepalive_threads s) k); auto.
    now destruct (keepalive_step k true (_keepalive_stop (self s)) k0 (w s)).
  - unfold step. destruct (nth_error (turn_threads s) k) as [t|]; auto.
    pose proof (h_turns_step_frame k (t_pc t) s) as H.
    destruct (_send_turns_step k (t_pc t) s) as [pc' s']. apply H.
Qed.

Lemma h_run_scenario s sch : scenario (self (run s sch)) = scenario (self s).
Proof.
  revert s. induction sch as [|e sch IH]; intros s; [reflexivity|].
  rewrite h_run_cons, IH. apply h_step_scenario.
Qed.

Lemma h_boot_KInv e sc : KInv (kview_of (boot e sc)).
Proof. split; [constructor|]. intros k. simpl. now rewrite nth_error_nil. Qed.

Lemma h_boot_TInv e sc : TInv 3 (turns sc) (tview_of (boot e sc)).
Proof. split; [constructor|]. intros k. simpl. now rewrite nth_error_nil. Qed.

Lemma h_run_KInv s sch : KInv (kview_of s) -> KInv (kview_of (run s sch)).
Proof.
  revert s. induction sch as [|e sch IH]; intros s H; [exact H|].
  rewrite h_run_cons. apply IH. eapply KInv_kstep; [exact H|apply h_kview_step].
Qed.

Lemma h_run_TInv s sch :
  TInv 3 (turns (scenario (self s))) (tview_of s) ->
  TInv 3 (turns (scenario (self s))) (tview_of (run s sch)).
Proof.
  revert s. induction sch as [|e sch IH]; intros s H; [exact H|].
  rewrite h_run_cons. rewrite <- (h_step_scenario s e). apply IH.
  rewrite h_step_scenario. eapply TInv_tstep; [exact H|apply h_tview_step].
Qed.

Lemma h_run_budget s sch k :
  _keepalive_stop (self s) = true ->
  _keepalive_stop (self (run s sch)) = true /\
  (kcount k (kview_of (run s sch)) + kpending k (kview_of (run s sch))
   <= kcount k (kview_of s) + kpending k (kview_of s))%nat.
Proof.
  revert s. induction sch as [|e sch IH]; intros s H; [split; auto|].
  rewrite h_run_cons.
  destruct (@kbudget_kstep (kview_of s) (kview_of (step s e)) k H
              (h_kview_step s e)) as [H1 H2].
  destruct (IH _ H1) as [H3 H4]. split; auto. lia.
Qed.

End HarnessRuns.

(** ** DemoRunner: what a step does to what the threads see *)

Module DemoSteps.
Import Demo.

Lemma d_env_like_refl s : env_like s s.
Proof. unfold env_like. repeat split; auto. lia. Qed.

Ltac env_tac :=
  unfold env_like; cbn;
  repeat match goal with
    | |- _ /\ _ => split
    end;
  try reflexivity; try lia; auto;
  try (left; reflexivity);
  try (left; split; reflexivity);
  try (right; split; reflexivity);
  try discriminate;
  rewrite ?now_w_close, ?outbox_w_close, ?closed_w_close;
  try reflexivity; try lia; auto.

Lemma d_on_message_env m s : env_like s (callback (_on_message m) s).
Proof.
  destruct m as [[ev|]|bytes]; try apply d_env_like_refl.
  destruct ev; try apply d_env_like_refl.
  unfold callback, _on_message, bind. rewrite get_field.
  destruct (eq_str (field "type" d) "SettingsApplied").
  { unfold gets, modify, print, modify, start_keepalive_loop, start_turns, modify.
    cbn. unfold is_interactive. cbn.
    destruct (turns (scenario (self s))) eqn:Et; env_tac;
      unfold is_interactive; rewrite Et; right; split; reflexivity. }
  destruct (eq_str (field "type" d) "ConversationText").
  { rewrite !get_field. unfold conversation_append, modify.
    destruct (eq_str (field "role" d) "assistant"); env_tac. }
  destruct (eq_str (field "type" d) "AgentAudioDone").
  { unfold _save_audio, bind, gets. unfold is_interactive.
    destruct (audio_buffer (self s)); cbn;
      destruct (turns (scenario (self s))); env_tac. }
  destruct (eq_str (field "type" d) "Error"); [|apply d_env_like_refl].
  rewrite !get_field.
  destruct (negb (eq_str (field "code" d) "CLIENT_MESSAGE_TIMEOUT")); env_tac.
Qed.


Lemma d_on_data_env m s : env_like s (callback (_on_data m) s).
Proof.
  destruct m as [p|bytes]; [apply d_env_like_refl|].
  unfold callback, _on_data. destruct (0 <? List.length bytes)%nat; env_tac.
Qed.

Lemma d_env_like_trans s1 s2 s3 :
  env_like s1 s2 -> now (w s2) = now (w s1) ->
  keepalive_threads s2 = keepalive_threads s1 ->
  turn_threads s2 = turn_threads s1 ->
  outbox (w s2) = outbox (w s1) ->
  conn (w s2) = conn (w s1) ->
  is_interactive s2 = is_interactive s1 ->
  env_like s2 s3 -> env_like s1 s3.
Proof.
  unfold env_like.
  intros (A1 & A2 & A3 & A4 & A5 & A6) Hn Hk Ht Ho Hc Hi
         (B1 & B2 & B3 & B4 & B5 & B6).
  rewrite Hn in B2, B4. rewrite Ho in B4, B6. rewrite Hk, Ht, Hi in B5.
  rewrite Hc in B6.
  repeat split; auto; try congruence; try apply B6; auto.
Qed.

Lemma d_env_like s e :
  match e with
  | EvKeepalive _ | EvTurns _ => False
  | _ => True
  end ->
  env_like s (step s e).
Proof.
  destruct e; intros He; try contradiction; unfold step.
  - unfold run_step. destruct (main s); try solve [env_tac].
    + env_tac; destruct (conn (w s)) eqn:Hc; cbn; rewrite ?Hc; auto; try lia;
        discriminate.
    + destruct (turns (scenario (self s))); env_tac.
    + destruct (done (self s) || match deadline with
                                 | Some d => d <=? now (w s)
                                 | None => false
                                 end); env_tac.
    + destruct (conn_eqb (conn (w s)) CClosed); env_tac.
    + destruct (conn_eqb (conn (w s)) CClosed || (deadline <=? now (w s))); env_tac.
  - destruct (conn (w s)) eqn:Hc; try apply d_env_like_refl.
    unfold callback, _on_open, bind, modify, gets, ws_send, w_send. cbn.
    unfold env_like. cbn. rewrite Hc. repeat split; auto; try lia; try discriminate.
    right. eexists. repeat split.
  - destruct (conn (w s)) eqn:Hc; try apply d_env_like_refl.
    eapply d_env_like_trans; [apply d_on_data_env | | | | | | | apply d_on_message_env].
    all: destruct m as [p|bytes]; try reflexivity;
      unfold callback, _on_data; destruct (0 <? List.length bytes)%nat; reflexivity.
  - destruct (conn (w s)) eqn:Hc; try apply d_env_like_refl.
    all: unfold callback, _on_close, bind, modify, _save_audio, bind, gets; cbn;
      destruct (audio_buffer (self s)); env_tac; rewrite Hc; discriminate.
  - env_tac.
  - env_tac.
Qed.

Lemma d_kview_env s s' : env_like s s' -> kenv (kview_of s) (kview_of s').
Proof.
  intros (A1 & A2 & A3 & A4 & A5 & A6). unfold kenv, kview_of. simpl.
  repeat split; auto.
  - destruct A4 as [-> | (msg & -> & Hk & Hu)].
    + exists []. rewrite app_nil_r. auto.
    + eexists. split; [reflexivity|]. repeat constructor; auto.
  - destruct A5 as [[-> _] | [-> _]].
    + exists 0%nat. simpl. now rewrite app_nil_r.
    + now exists 1%nat.
Qed.

Lemma d_tview_env s s' l :
  turns (scenario (self s)) = Some l ->
  env_like s s' -> tenv (tview_of s) (tview_of s').
Proof.
  intros Hl (A1 & A2 & A3 & A4 & A5 & A6). unfold tenv, tview_of. simpl.
  repeat split; auto.
  - destruct A4 as [-> | (msg & -> & Hk & Hu)].
    + exists []. rewrite app_nil_r. auto.
    + eexists. split; [reflexivity|]. repeat constructor; auto.
  - destruct A5 as [[_ ->] | [_ ->]].
    + exists 0%nat. simpl. now rewrite app_nil_r.
    + exists 1%nat. rewrite map_app. unfold is_interactive. now rewrite Hl.
Qed.

(** A step of a turn thread, seen from outside the thread. *)
Lemma d_turns_step_frame k pc s :
  let s' := snd (_send_turns_step k pc s) in
  scenario (self s') = scenario (self s) /\
  now (w s') = now (w s) /\
  (_keepalive_stop (self s) = true -> _keepalive_stop (self s') = true) /\
  _ws (self s') = _ws (self s) /\
  keepalive_threads s' = keepalive_threads s /\
  turn_threads s' = turn_threads s /\
  (outbox (w s') = outbox (w s) \/
   exists text,
     conn (w s) = COpen /\
     outbox (w s') = outbox (w s) ++ [Sent (now (w s)) (ByTurns k) (InjectUserMessage text)]) /\
  (closed (conn (w s)) = true ->
   closed (conn (w s')) = true /\ outbox (w s') = outbox (w s)).
Proof.
  destruct pc; cbn; try solve [repeat split; auto].
  - destruct (turns (scenario (self s))) as [l|]; [|cbn; repeat split; auto].
    destruct (nth_error l i) as [[label text]|]; cbn; repeat split; auto.
  - destruct (wake <=? now (w s)); cbn; repeat split; auto.
  - unfold ws_send, w_send.
    destruct (_ws (self s)) eqn:Hws; [|cbn; rewrite ?Hws; repeat split; auto].
    destruct (conn (w s)) eqn:Hc; cbn; rewrite ?Hc, ?Hws;
      repeat split; auto; try discriminate.
    right. eexists. split; reflexivity.
  - destruct (wake <=? now (w s)); cbn; repeat split; auto.
  - destruct (done (self s)); cbn; repeat split; auto.
  - destruct (_ready_for_input (self s)); cbn; repeat split; auto.
  - destruct (stdin (w s)) as [|[typed|] rest]; cbn; repeat split; auto.
  - destruct (quits text); cbn; repeat split; auto.
  - unfold ws_send, w_send.
    destruct (_ws (self s)) eqn:Hws; [|cbn; rewrite ?Hws; repeat split; auto].
    destruct (conn (w s)) eqn:Hc; cbn; rewrite ?Hc, ?Hws;
      repeat split; auto; try discriminate.
    right. eexists. split; reflexivity.
  - destruct (wake <=? now (w s)); cbn; repeat split; auto.
  - destruct (_ws (self s)) eqn:Hws; cbn;
      rewrite ?now_w_close, ?outbox_w_close, ?closed_w_close, ?Hws;
      repeat split; auto.
Qed.

Lemma d_kview_step s e : kstep (kview_of s) (kview_of (step s e)).
Proof.
  destruct e; try (apply kstep_env, d_kview_env, d_env_like; exact I).
  - (* a keep-alive loop *)
    replace (kview_of (step s (EvKeepalive k))) with (kthread k (kview_of s));
      [apply kstep_thread|].
    unfold step, kthread, kview_of. simpl.
    destruct (nth_error (keepalive_threads s) k); [|reflexivity].
    now destruct (keepalive_step k (_ws (self s)) (_keepalive_stop (self s)) k0 (w s)).
  - (* a turn thread *)
    apply kstep_env. unfold step.
    destruct (nth_error (turn_threads s) k) as [t|]; [|apply kenv_refl].
    pose proof (d_turns_step_frame k (t_pc t) s) as H.
    destruct (_send_turns_step k (t_pc t) s) as [pc' s']. simpl in H.
    destruct H as (H1 & H2 & H3 & H3' & H4 & H5 & H6 & H7).
    unfold kenv, kview_of. simpl. repeat split; auto; try lia.
    + destruct H6 as [-> | (text & _ & ->)].
      * exists []. rewrite app_nil_r. auto.
      * eexists. split; [reflexivity|]. repeat constructor.
    + exists 0%nat. simpl. now rewrite app_nil_r.
Qed.

Ltac quiet_case Ek c :=
  exists None; eexists; (split; [exact Ek|]); split; [c|]; cbn;
  rewrite ?map_set_nth, ?app_nil_r, ?now_w_close, ?outbox_w_close; reflexivity.

Lemma d_tview_step s e l :
  turns (scenario (self s)) = Some l ->
  tstep 4 l (tview_of s) (tview_of (step s e)).
Proof.
  intros Hl.
  destruct e; try (apply tstep_env, (d_tview_env Hl), d_env_like; exact I).
  - (* a keep-alive loop *)
    apply tstep_env. unfold step.
    destruct (nth_error (keepalive_threads s) k) as [pc|]; [|apply tenv_refl].
    pose proof (keepalive_step_world k (_ws (self s)) (_keepalive_stop (self s))
                  pc (w s)) as H.
    destruct (keepalive_step k (_ws (self s)) (_keepalive_stop (self s)) pc (w s))
      as [pc' w'].
    simpl in H. unfold tenv, tview_of. simpl.
    destruct H as [-> | (_ & _ & ->)]; simpl; repeat split; try lia.
    + exists []. rewrite app_nil_r. auto.
    + exists 0%nat. simpl. now rewrite app_nil_r.
    + eexists. split; [reflexivity|]. repeat constructor.
    + exists 0%nat. simpl. now rewrite app_nil_r.
  - (* a turn thread *)
    unfold step.
    destruct (nth_error (turn_threads s) k) as [[born pc]|] eqn:E;
      [|apply tstep_env, tenv_refl].
    apply tstep_thread with (k := k). unfold tthread, tview_of.
    assert (Ek : nth_error (map (fun t => (t_born t, phase_of (t_pc t)))
                              (turn_threads s)) k
                 = Some (born, phase_of pc))
      by (rewrite nth_error_map, E; reflexivity).
    exists born, (phase_of pc). simpl t_pc. simpl t_born.
    destruct pc; cbn;
      try (quiet_case Ek ltac:(apply ps_stay));
      try (quiet_case Ek ltac:(apply ps_inter)).
    + rewrite Hl.
      destruct (nth_error l i) as [[label text]|] eqn:En; cbn.
      * quiet_case Ek ltac:(econstructor; eauto).
      * quiet_case Ek ltac:(econstructor; eauto).
    + destruct (wake <=? now (w s)) eqn:Hw; cbn.
      * quiet_case Ek ltac:(apply ps_wake; now apply N.leb_le).
      * quiet_case Ek ltac:(apply ps_stay).
    + unfold ws_send, w_send. destruct (_ws (self s));
        [|quiet_case Ek ltac:(apply ps_die)].
      destruct (conn (w s)); cbn; try (quiet_case Ek ltac:(apply ps_die)).
      exists (Some text); eexists; (split; [exact Ek|]); split; [apply ps_send|].
      cbn. rewrite map_set_nth. reflexivity.
    + quiet_case Ek ltac:(apply ps_next).
    + destruct (wake <=? now (w s)); cbn; quiet_case Ek ltac:(apply ps_stay).
    + destruct (done (self s)); cbn; quiet_case Ek ltac:(apply ps_inter).
    + destruct (_ready_for_input (self s)); cbn; quiet_case Ek ltac:(apply ps_inter).
    + destruct (stdin (w s)) as [|[typed|] rest]; cbn;
        quiet_case Ek ltac:(apply ps_inter).
    + destruct (quits text); cbn; quiet_case Ek ltac:(apply ps_inter).
    + unfold ws_send, w_send. destruct (_ws (self s));
        [|quiet_case Ek ltac:(apply ps_inter)].
      destruct (conn (w s)); cbn; try (quiet_case Ek ltac:(apply ps_inter)).
      exists (Some text); eexists; (split; [exact Ek|]); split; [apply ps_inter|].
      cbn. rewrite map_set_nth. reflexivity.
    + destruct (wake <=? now (w s)); cbn; quiet_case Ek ltac:(apply ps_inter).
    + destruct (_ws (self s)); cbn.
      * quiet_case Ek ltac:(apply ps_stay).
      * quiet_case Ek ltac:(apply ps_die).
Qed.

End DemoSteps.

(** ** DemoRunner: what holds of every reachable state *)

Module DemoRuns.
Import Demo DemoFacts DemoSteps.

Lemma d_step_scenario s e : scenario (self (step s e)) = scenario (self s).
Proof.
  destruct e; try (apply (d_env_like s); exact I).
  - unfold step. destruct (nth_error (keepalive_threads s) k); auto.
    now destruct (keepalive_step k (_ws (self s)) (_keepalive_stop (self s)) k0 (w s)).
  - unfold step. destruct (nth_error (turn_threads s) k) as [t|]; auto.
    pose proof (d_turns_step_frame k (t_pc t) s) as H.
    destruct (_send_turns_step k (t_pc t) s) as [pc' s']. apply H.
Qed.

Lemma d_run_scenario s sch : scenario (self (run s sch)) = scenario (self s).
Proof.
  revert s. induction sch as [|e sch IH]; intros s; [reflexivity|].
  rewrite d_run_cons, IH. apply d_step_scenario.
Qed.

Lemma d_boot_KInv e sc : KInv (kview_of (boot e sc)).
Proof. split; [constructor|]. intros k. simpl. now rewrite nth_error_nil. Qed.

Lemma d_boot_TInv e sc l : TInv 4 l (tview_of (boot e sc)).
Proof. split; [constructor|]. intros k. simpl. now rewrite nth_error_nil. Qed.

Lemma d_run_KInv s sch : KInv (kview_of s) -> KInv (kview_of (run s sch)).
Proof.
  revert s. induction sch as [|e sch IH]; intros s H; [exact H|].
  rewrite d_run_cons. apply IH. eapply KInv_kstep; [exact H|apply d_kview_step].
Qed.

Lemma d_run_TInv s sch l :
  turns (scenario (self s)) = Some l ->
  TInv 4 l (tview_of s) -> TInv 4 l (tview_of (run s sch)).
Proof.
  revert s. induction sch as [|e sch IH]; intros s Hl H; [exact H|].
  rewrite d_run_cons. apply IH.
  - now rewrite d_step_scenario.
  - eapply TInv_tstep; [exact H|now apply d_tview_step].
Qed.

Lemma d_run_budget s sch k :
  _keepalive_stop (self s) = true ->
  _keepalive_stop (self (run s sch)) = true /\
  (kcount k (kview_of (run s sch)) + kpending k (kview_of (run s sch))
   <= kcount k (kview_of s) + kpending k (kview_of s))%nat.
Proof.
  revert s. induction sch as [|e sch IH]; intros s H; [split; auto|].
  rewrite d_run_cons.
  destruct (@kbudget_kstep (kview_of s) (kview_of (step s e)) k H
              (d_kview_step s e)) as [H1 H2].
  destruct (IH _ H1) as [H3 H4]. split; auto. lia.
Qed.

End DemoRuns.

(** ** Once the socket is closed *)

Lemma keepalive_step_closed k ws stop pc w0 :
  closed (conn w0) = true -> snd (keepalive_step k ws stop pc w0) = w0.
Proof.
  intros H. destruct (keepalive_step_world k ws stop pc w0) as [E | (Hc & _)]; auto.
  rewrite Hc in H. discriminate.
Qed.

Lemma h_closed_step s e :
  closed (conn (Harness.w s)) = true ->
  closed (conn (Harness.w (Harness.step s e))) = true /\
  outbox (Harness.w (Harness.step s e)) = outbox (Harness.w s).
Proof.
  intros H.
  destruct e; try (apply (HarnessSteps.h_env_like s); [exact I | exact H]).
  - unfold Harness.step.
    destruct (nth_error (Harness.keepalive_threads s) k) as [pc|]; auto.
    pose proof (keepalive_step_closed k true
                  (Harness._keepalive_stop (Harness.self s)) pc _ H) as E.
    destruct (keepalive_step k true _ pc (Harness.w s)) as [pc' w'].
    simpl in E. subst w'. auto.
  - unfold Harness.step.
    destruct (nth_error (Harness.turn_threads s) k) as [t|]; auto.
    pose proof (HarnessSteps.h_turns_step_frame k (Harness.t_pc t) s) as F.
    destruct (Harness._send_turns_step k (Harness.t_pc t) s) as [pc' s'].
    apply F, H.
Qed.

Lemma h_closed_run s sch :
  closed (conn (Harness.w s)) = true ->
  closed (conn (Harness.w (Harness.run s sch))) = true /\
  outbox (Harness.w (Harness.run s sch)) = outbox (Harness.w s).
Proof.
  revert s. induction sch as [|e sch IH]; intros s H; [auto|].
  rewrite HarnessFacts.h_run_cons.
  destruct (h_closed_step s e H) as [H1 H2].
  destruct (IH _ H1) as [H3 H4]. split; congruence.
Qed.

Lemma d_closed_step s e :
  closed (conn (Demo.w s)) = true ->
  closed (conn (Demo.w (Demo.step s e))) = true /\
  outbox (Demo.w (Demo.step s e)) = outbox (Demo.w s).
Proof.
  intros H.
  destruct e; try (apply (DemoSteps.d_env_like s); [exact I | exact H]).
  - unfold Demo.step.
    destruct (nth_error (Demo.keepalive_threads s) k) as [pc|]; auto.
    pose proof (keepalive_step_closed k (Demo._ws (Demo.self s))
                  (Demo._keepalive_stop (Demo.self s)) pc _ H) as E.
    destruct (keepalive_step k _ _ pc (Demo.w s)) as [pc' w'].
    simpl in E. subst w'. auto.
  - unfold Demo.step.
    destruct (nth_error (Demo.turn_threads s) k) as [t|]; auto.
    pose proof (DemoSteps.d_turns_step_frame k (Demo.t_pc t) s) as F.
    destruct (Demo._send_turns_step k (Demo.t_pc t) s) as [pc' s'].
    apply F, H.
Qed.

Lemma d_closed_run s sch :
  closed (conn (Demo.w s)) = true ->
  closed (conn (Demo.w (Demo.run s sch))) = true /\
  outbox (Demo.w (Demo.run s sch)) = outbox (Demo.w s).
Proof.
  revert s. induction sch as [|e sch IH]; intros s H; [auto|].
  rewrite DemoFacts.d_run_cons.
  destruct (d_closed_step s e H) as [H1 H2].
  destruct (IH _ H1) as [H3 H4]. split; congruence.
Qed.

(** ** The steps of [run] after the completion signal *)

Lemma h_run_closes s deadline :
  Harness.main s = Harness.MWaiting deadline ->
  Harness.done_event (Harness.self s) = true ->
  conn (Harness.w s) = COpen ->
  Harness.run s [EvMain; EvMain; EvMain; EvMain]
  = Harness.with_main Harness.MJoinCall
      (Harness.on_world w_close
         (Harness.on_self (Harness.with_keepalive_stop true) s)).
Proof.
  intros Hm Hd Hc.
  assert (E1 : Harness.step s EvMain = Harness.with_main Harness.MIsAlive s).
  { unfold Harness.step, Harness.run_step. now rewrite Hm, Hd. }
  assert (E2 : Harness.step (Harness.with_main Harness.MIsAlive s) EvMain
               = Harness.with_main Harness.MSetStop s).
  { unfold Harness.step, Harness.run_step. cbn. now rewrite Hc. }
  rewrite !HarnessFacts.h_run_cons, HarnessFacts.h_run_nil, E1, E2.
  reflexivity.
Qed.

(** When only one loop runs, the liveness frames of the session are its
    frames. *)
Lemma keepalives_single v pc :
  KInv v ->
  kv_pool v = [pc] ->
  keepalives_of (outbox (kv_w v)) = sent_from (ByKeepalive 0) (outbox (kv_w v)).
Proof.
  intros [Hc Hk] Hp. unfold keepalives_of, sent_from.
  apply filter_ext_in. intros m Hin.
  rewrite Forall_forall in Hc. rewrite (Hc m Hin).
  destruct (sent_by m) as [| j | j] eqn:Es; simpl; auto.
  destruct j; auto. exfalso.
  specialize (Hk (S j)). rewrite Hp in Hk. simpl in Hk.
  rewrite nth_error_nil in Hk.
  now apply (sent_from_nil_in _ _ Hk Hin).
Qed.

Lemma KInv_apart v k :
  KInv v ->
  apart (seconds KEEPALIVE_INTERVAL) (sent_times (ByKeepalive k) (outbox (kv_w v))).
Proof.
  intros [_ Hk]. specialize (Hk k).
  destruct (nth_error (kv_pool v) k).
  - apply Hk.
  - unfold sent_times. rewrite Hk. exact I.
Qed.

Lemma kpending_le v k : (kpending k v <= 1)%nat.
Proof.
  unfold kpending. destruct (nth_error (kv_pool v) k) as [[]|]; lia.
Qed.

Lemma kpending_zero v k :
  nth_error (kv_pool v) k <> Some KSend -> kpending k v = 0%nat.
Proof.
  unfold kpending. destruct (nth_error (kv_pool v) k) as [[]|]; congruence.
Qed.

(** ** ScenarioRunner: a scripted thread runs to its end *)

Module HarnessDelivery.
Import Harness HarnessFacts HarnessSteps.

#[local] Arguments seconds : simpl never.

Lemma h_focus_step k born pc s :
  nth_error (turn_threads s) k = Some (TurnThread born pc) ->
  let r := _send_turns_step k pc s in
  let s' := step s (EvTurns k) in
  nth_error (turn_threads s') k = Some (TurnThread born (fst r)) /\
  w s' = w (snd r) /\
  self s' = self (snd r) /\
  List.length (turn_threads s') = List.length (turn_threads s).
Proof.
  intros H r s'. subst r s'. unfold step. rewrite H. simpl t_pc. simpl t_born.
  pose proof (h_turns_step_frame k pc s) as F.
  destruct (_send_turns_step k pc s) as [pc' s1]. simpl in *.
  destruct F as (_ & _ & _ & _ & Ft & _). rewrite Ft.
  rewrite (@nth_error_set_nth_same _ _ _ _ _ H), length_set_nth. auto.
Qed.

Lemma h_focus_tick k t d s :
  nth_error (turn_threads s) k = Some t ->
  let s' := step s (EvTick d) in
  nth_error (turn_threads s') k = Some t /\
  conn (w s') = conn (w s) /\
  now (w s') = now (w s) + d /\
  self s' = self s /\
  List.length (turn_threads s') = List.length (turn_threads s).
Proof. intros H. cbn. auto. Qed.

Lemma h_deliver k born rest :
  forall i s,
    nth_error (turn_threads s) k = Some (TurnThread born (TLoop i)) ->
    skipn i (turns (scenario (self s))) = rest ->
    conn (w s) = COpen ->
    let s' := run s (deliver k (if Nat.eqb i 0 then 3 else 6) rest) in
    nth_error (turn_threads s') k = Some (TurnThread born TExit) /\
    List.length (turn_threads s') = List.length (turn_threads s).
Proof.
  induction rest as [|[label text] rest IH]; intros i s Hk Hs Hc.
  - (* no turn is left *)
    assert (Hn : nth_error (turns (scenario (self s))) i = None).
    { apply nth_error_None. 
      destruct (Nat.le_gt_cases (List.length (turns (scenario (self s)))) i) as [|Hlt]; auto.
      apply (f_equal (@List.length _)) in Hs. rewrite length_skipn in Hs.
      simpl in Hs. lia. }
    simpl deliver. cbv zeta. rewrite !h_run_cons, h_run_nil.
    destruct (@h_focus_step _ _ _ _ Hk) as (A1 & A2 & A3 & A4).
    remember (step s (EvTurns k)) as s1 eqn:Q; clear Q.
    cbn in A1, A2, A3. rewrite Hn in A1, A2, A3. cbn in A1, A2, A3.
    destruct (@h_focus_tick k _ (seconds 8) s1 A1) as (B1 & B2 & B3 & B4 & B5).
    remember (step s1 (EvTick (seconds 8))) as s2 eqn:Q; clear Q.
    destruct (@h_focus_step _ _ _ _ B1) as (C1 & C2 & C3 & C4).
    remember (step s2 (EvTurns k)) as s3 eqn:Q; clear Q.
    cbn in C1, C2, C3. rewrite B3, A2 in C1, C2, C3.
    rewrite N.leb_refl in C1, C2, C3. cbn in C1, C2, C3.
    destruct (@h_focus_step _ _ _ _ C1) as (D1 & D2 & D3 & D4).
    remember (step s3 (EvTurns k)) as s4 eqn:Q; clear Q.
    cbn in D1, D2, D3.
    destruct (@h_focus_step _ _ _ _ D1) as (E1 & E2 & E3 & E4).
    remember (step s4 (EvTurns k)) as s5 eqn:Q; clear Q.
    cbn in E1, E2, E3.
    split; [exact E1|]. congruence.
  - (* one more turn *)
    assert (Hn : nth_error (turns (scenario (self s))) i = Some (label, text)).
    { rewrite <- (firstn_skipn i (turns (scenario (self s)))) at 1.
      assert (Hl : (i <= List.length (turns (scenario (self s))))%nat).
      { apply (f_equal (@List.length _)) in Hs. rewrite length_skipn in Hs.
        simpl in Hs. lia. }
      rewrite nth_error_app2; rewrite length_firstn; try lia.
      replace (i - Nat.min i _)%nat with 0%nat by lia. now rewrite Hs. }
    assert (Hs' : skipn (S i) (turns (scenario (self s))) = rest).
    { replace (S i) with (1 + i)%nat by lia.
      rewrite <- skipn_skipn, Hs. reflexivity. }
    simpl deliver. cbv zeta. rewrite !h_run_cons.
    destruct (@h_focus_step _ _ _ _ Hk) as (A1 & A2 & A3 & A4).
    remember (step s (EvTurns k)) as s1 eqn:Q; clear Q.
    cbn in A1, A2, A3. rewrite Hn in A1, A2, A3. cbn in A1, A2, A3.
    unfold wait in A1.
    set (d := if Nat.eqb i 0 then 3 else 6) in *.
    destruct (@h_focus_tick k _ (seconds d) s1 A1) as (B1 & B2 & B3 & B4 & B5).
    remember (step s1 (EvTick (seconds d))) as s2 eqn:Q; clear Q.
    destruct (@h_focus_step _ _ _ _ B1) as (C1 & C2 & C3 & C4).
    remember (step s2 (EvTurns k)) as s3 eqn:Q; clear Q.
    cbn in C1, C2, C3. rewrite B3, A2 in C1, C2, C3.
    rewrite N.leb_refl in C1, C2, C3. cbn in C1, C2, C3.
    destruct (@h_focus_step _ _ _ _ C1) as (D1 & D2 & D3 & D4).
    remember (step s3 (EvTurns k)) as s4 eqn:Q; clear Q.
    cbn in D1, D2, D3.
    assert (Hc4 : conn (w s4) = COpen).
    { rewrite D2. cbn. rewrite C2, B2, A2. exact Hc. }
    destruct (@h_focus_step _ _ _ _ D1) as (E1 & E2 & E3 & E4).
    remember (step s4 (EvTurns k)) as s5 eqn:Q; clear Q.
    cbn in E1, E2, E3. unfold w_send in E1, E2, E3.
    rewrite Hc4 in E1, E2, E3. cbn in E1, E2, E3.
    destruct (@h_focus_step _ _ _ _ E1) as (F1 & F2 & F3 & F4).
    remember (step s5 (EvTurns k)) as s6 eqn:Q; clear Q.
    cbn in F1, F2, F3.
    assert (Hsc : scenario (self s6) = scenario (self s)).
    { rewrite F3. cbn. rewrite E3, D3. cbn. rewrite C3, B4, A3.
      reflexivity. }
    assert (Hc6 : conn (w s6) = COpen).
    { rewrite F2, E2. cbn. exact Hc4. }
    rewrite <- Hsc in Hs'.
    destruct (IH (S i) s6 F1 Hs' Hc6) as [G1 G2].
    split; [exact G1|]. etransitivity; [exact G2|]. congruence.
Qed.

End HarnessDelivery.

(** ** DemoRunner: a scripted thread runs to its end *)

Module DemoDelivery.
Import Demo DemoFacts DemoSteps.

#[local] Arguments seconds : simpl never.

Lemma d_focus_step k born pc s :
  nth_error (turn_threads s) k = Some (TurnThread born pc) ->
  let r := _send_turns_step k pc s in
  let s' := step s (EvTurns k) in
  nth_error (turn_threads s') k = Some (TurnThread born (fst r)) /\
  w s' = w (snd r) /\
  self s' = self (snd r) /\
  List.length (turn_threads s') = List.length (turn_threads s).
Proof.
  intros H r s'. subst r s'. unfold step. rewrite H. simpl t_pc. simpl t_born.
  pose proof (d_turns_step_frame k pc s) as F.
  destruct (_send_turns_step k pc s) as [pc' s1]. simpl in *.
  destruct F as (_ & _ & _ & _ & _ & Ft & _). rewrite Ft.
  rewrite (@nth_error_set_nth_same _ _ _ _ _ H), length_set_nth. auto.
Qed.

Lemma d_focus_tick k t d s :
  nth_error (turn_threads s) k = Some t ->
  let s' := step s (EvTick d) in
  nth_error (turn_threads s') k = Some t /\
  conn (w s') = conn (w s) /\
  now (w s') = now (w s) + d /\
  self s' = self s /\
  List.length (turn_threads s') = List.length (turn_threads s).
Proof. intros H. cbn. auto. Qed.

Lemma d_deliver k born l rest :
  forall i s,
    nth_error (turn_threads s) k = Some (TurnThread born (TLoop i)) ->
    turns (scenario (self s)) = Some l ->
    skipn i l = rest ->
    conn (w s) = COpen ->
    _ws (self s) = true ->
    let s' := run s (deliver k (if Nat.eqb i 0 then 4 else 6) rest) in
    nth_error (turn_threads s') k = Some (TurnThread born TExit) /\
    List.length (turn_threads s') = List.length (turn_threads s).
Proof.
  induction rest as [|[label text] rest IH]; intros i s Hk Hl Hs Hc Hw.
  - (* no turn is left *)
    assert (Hn : nth_error l i = None).
    { apply nth_error_None.
      destruct (Nat.le_gt_cases (List.length l) i) as [|Hlt]; auto.
      apply (f_equal (@List.length _)) in Hs. rewrite length_skipn in Hs.
      simpl in Hs. lia. }
    simpl deliver. cbv zeta. rewrite !d_run_cons, d_run_nil.
    destruct (@d_focus_step _ _ _ _ Hk) as (A1 & A2 & A3 & A4).
    remember (step s (EvTurns k)) as s1 eqn:Q; clear Q.
    cbn in A1, A2, A3. rewrite Hl in A1, A2, A3. rewrite Hn in A1, A2, A3.
    cbn in A1, A2, A3.
    destruct (@d_focus_tick k _ (seconds 8) s1 A1) as (B1 & B2 & B3 & B4 & B5).
    remember (step s1 (EvTick (seconds 8))) as s2 eqn:Q; clear Q.
    destruct (@d_focus_step _ _ _ _ B1) as (C1 & C2 & C3 & C4).
    remember (step s2 (EvTurns k)) as s3 eqn:Q; clear Q.
    cbn in C1, C2, C3. rewrite B3, A2 in C1, C2, C3.
    rewrite N.leb_refl in C1, C2, C3. cbn in C1, C2, C3.
    destruct (@d_focus_step _ _ _ _ C1) as (D1 & D2 & D3 & D4).
    remember (step s3 (EvTurns k)) as s4 eqn:Q; clear Q.
    cbn in D1, D2, D3.
    assert (Hw4 : _ws (self s4) = true).
    { rewrite D3. cbn. rewrite C3, B4, A3. exact Hw. }
    destruct (@d_focus_step _ _ _ _ D1) as (E1 & E2 & E3 & E4).
    remember (step s4 (EvTurns k)) as s5 eqn:Q; clear Q.
    cbn in E1, E2, E3. rewrite Hw4 in E1, E2, E3. cbn in E1, E2, E3.
    split; [exact E1|]. congruence.
  - (* one more turn *)
    assert (Hn : nth_error l i = Some (label, text)).
    { rewrite <- (firstn_skipn i l) at 1.
      assert (Hle : (i <= List.length l)%nat).
      { apply (f_equal (@List.length _)) in Hs. rewrite length_skipn in Hs.
        simpl in Hs. lia. }
      rewrite nth_error_app2; rewrite length_firstn; try lia.
      replace (i - Nat.min i _)%nat with 0%nat by lia. now rewrite Hs. }
    assert (Hs' : skipn (S i) l = rest).
    { replace (S i) with (1 + i)%nat by lia.
      rewrite <- skipn_skipn, Hs. reflexivity. }
    simpl deliver. cbv zeta. rewrite !d_run_cons.
    destruct (@d_focus_step _ _ _ _ Hk) as (A1 & A2 & A3 & A4).
    remember (step s (EvTurns k)) as s1 eqn:Q; clear Q.
    cbn in A1, A2, A3. rewrite Hl in A1, A2, A3. rewrite Hn in A1, A2, A3.
    cbn in A1, A2, A3.
    unfold wait in A1.
    set (d := if Nat.eqb i 0 then 4 else 6) in *.
    destruct (@d_focus_tick k _ (seconds d) s1 A1) as (B1 & B2 & B3 & B4 & B5).
    remember (step s1 (EvTick (seconds d))) as s2 eqn:Q; clear Q.
    destruct (@d_focus_step _ _ _ _ B1) as (C1 & C2 & C3 & C4).
    remember (step s2 (EvTurns k)) as s3 eqn:Q; clear Q.
    cbn in C1, C2, C3. rewrite B3, A2 in C1, C2, C3.
    rewrite N.leb_refl in C1, C2, C3. cbn in C1, C2, C3.
    destruct (@d_focus_step _ _ _ _ C1) as (D1 & D2 & D3 & D4).
    remember (step s3 (EvTurns k)) as s4 eqn:Q; clear Q.
    cbn in D1, D2, D3.
    assert (Hc4 : conn (w s4) = COpen).
    { rewrite D2. cbn. rewrite C2, B2, A2. exact Hc. }
    assert (Hw4 : _ws (self s4) = true).
    { rewrite D3. cbn. rewrite C3, B4, A3. exact Hw. }
    destruct (@d_focus_step _ _ _ _ D1) as (E1 & E2 & E3 & E4).
    remember (step s4 (EvTurns k)) as s5 eqn:Q; clear Q.
    cbn in E1, E2, E3. unfold ws_send, w_send in E1, E2, E3.
    rewrite Hw4, Hc4 in E1, E2, E3. cbn in E1, E2, E3.
    destruct (@d_focus_step _ _ _ _ E1) as (F1 & F2 & F3 & F4).
    remember (step s5 (EvTurns k)) as s6 eqn:Q; clear Q.
    cbn in F1, F2, F3.
    assert (Hsc : scenario (self s6) = scenario (self s)).
    { rewrite F3. cbn. rewrite E3, D3. cbn. rewrite C3, B4, A3.
      reflexivity. }
    assert (Hc6 : conn (w s6) = COpen).
    { rewrite F2, E2. cbn. exact Hc4. }
    assert (Hw6 : _ws (self s6) = true).
    { rewrite F3. cbn. rewrite E3. cbn. exact Hw4. }
    rewrite <- Hsc in Hl.
    destruct (IH (S i) s6 F1 Hl Hs' Hc6 Hw6) as [G1 G2].
    split; [exact G1|]. etransitivity; [exact G2|]. congruence.
Qed.

End DemoDelivery.


Lemma tok_tail first turns born t frames :
  tok first turns born t frames PTail ->
  map sent_msg frames = map (fun x => InjectUserMessage (snd x)) turns.
Proof.
  intros (_ & _ & _ & H). rewrite H. unfold expected. now rewrite firstn_all.
Qed.

Lemma singleton_nth A (l : list A) x :
  List.length l = 1%nat -> nth_error l 0 = Some x -> l = [x].
Proof.
  destruct l as [|y [|z l]]; simpl; try discriminate. now intros _ [= ->].
Qed.

(** ** The audio buffer *)

Module HarnessAudio.
Import Harness HarnessFacts.

Lemma h_buffer_refl s : buffer_like [] s s.
Proof. left. rewrite app_nil_r. auto. Qed.

Ltac same_tac :=
  left; cbn; rewrite ?app_nil_r; repeat split; reflexivity.

Ltac flush_tac :=
  right; cbn; repeat split; try discriminate; eauto.

Lemma h_on_message_buffer m s : buffer_like [] s (callback (_on_message m) s).
Proof.
  destruct m as [[ev|]|bytes]; try apply h_buffer_refl.
  destruct ev; try apply h_buffer_refl.
  unfold callback, _on_message, bind. rewrite get_field.
  destruct (eq_str (field "type" d) "SettingsApplied"); [same_tac|].
  destruct (eq_str (field "type" d) "ConversationText").
  { rewrite !get_field. unfold conversation_append, modify.
    destruct (eq_str (field "role" d) "assistant"); [same_tac|].
    destruct (field "role" d); same_tac. }
  destruct (eq_str (field "type" d) "AgentAudioDone").
  { unfold _save_audio, bind, gets.
    destruct (audio_buffer (self s)) eqn:E; [same_tac|].
    right. cbn. rewrite E. repeat split; try discriminate; eauto. }
  destruct (eq_str (field "type" d) "Error").
  { rewrite !get_field. unfold modify.
    destruct (negb (eq_str (field "code" d) "CLIENT_MESSAGE_TIMEOUT"));
      destruct (in_strs (field "code" d) ["INVALID_SETTINGS"; "UNPARSABLE_CLIENT_MESSAGE"]);
      same_tac. }
  destruct (eq_str (field "type" d) "Warning"); [|apply h_buffer_refl].
  rewrite !get_field. same_tac.
Qed.

Lemma h_turns_step_audio k pc s :
  let s' := snd (_send_turns_step k pc s) in
  audio_buffer (self s') = audio_buffer (self s) /\
  files (w s') = files (w s) /\
  audio_turn (self s') = audio_turn (self s).
Proof.
  destruct pc; cbn; auto.
  - destruct (nth_error (turns (scenario (self s))) i) as [[label text]|]; cbn; auto.
  - destruct (wake <=? now (w s)); cbn; auto.
  - unfold w_send. destruct (conn (w s)); cbn; auto.
  - destruct (wake <=? now (w s)); cbn; auto.
  - unfold w_close. destruct (conn (w s)); cbn; auto.
Qed.

Lemma h_buffer_step s e :
  buffer_like (chunk (conn (w s)) e) s (step s e).
Proof.
  destruct e; unfold step.
  - replace (chunk (conn (w s)) EvMain) with (@nil byte)
      by (now destruct (conn (w s))).
    unfold run_step. destruct (main s); try solve [same_tac].
    + left. cbn. rewrite app_nil_r. destruct (conn (w s)); auto.
    + destruct (done_event (self s) || (deadline <=? now (w s))); same_tac.
    + destruct (conn_eqb (conn (w s)) CClosed); same_tac.
    + left. cbn. rewrite app_nil_r. unfold w_close. destruct (conn (w s)); auto.
    + destruct (conn_eqb (conn (w s)) CClosed || (deadline <=? now (w s))); same_tac.
  - replace (chunk (conn (w s)) EvOpen) with (@nil byte)
      by (now destruct (conn (w s))).
    destruct (conn (w s)) eqn:Hc; try apply h_buffer_refl.
    unfold callback, _on_open, bind, modify, gets, ws_send, w_send. cbn.
    same_tac.
  - destruct (conn (w s)) eqn:Hc; try apply h_buffer_refl.
    destruct m as [p|bytes].
    + apply h_on_message_buffer.
    + unfold callback, _on_data, _on_message, chunk.
      destruct (0 <? List.length bytes)%nat eqn:Hl; left; cbn; auto.
      destruct bytes; [|discriminate]. rewrite app_nil_r. auto.
  - replace (chunk (conn (w s)) EvClose) with (@nil byte)
      by (now destruct (conn (w s))).
    destruct (conn (w s)) eqn:Hc; try apply h_buffer_refl.
    all: unfold callback, _on_close, bind, modify, _save_audio, bind, gets; cbn;
      destruct (audio_buffer (self s)) eqn:E; [same_tac|];
      right; cbn; rewrite E; repeat split; try discriminate; eauto.
  - replace (chunk (conn (w s)) (EvTick d)) with (@nil byte)
      by (now destruct (conn (w s))).
    same_tac.
  - replace (chunk (conn (w s)) (EvStdin l)) with (@nil byte)
      by (now destruct (conn (w s))).
    same_tac.
  - replace (chunk (conn (w s)) (EvKeepalive k)) with (@nil byte)
      by (now destruct (conn (w s))).
    destruct (nth_error (keepalive_threads s) k) as [pc|]; [|apply h_buffer_refl].
    pose proof (keepalive_step_world k true (_keepalive_stop (self s)) pc (w s)) as H.
    destruct (keepalive_step k true (_keepalive_stop (self s)) pc (w s)) as [pc' w'].
    simpl in H. left. cbn. rewrite app_nil_r.
    destruct H as [-> | (_ & _ & ->)]; auto.
  - replace (chunk (conn (w s)) (EvTurns k)) with (@nil byte)
      by (now destruct (conn (w s))).
    destruct (nth_error (turn_threads s) k) as [t|]; [|apply h_buffer_refl].
    pose proof (h_turns_step_audio k (t_pc t) s) as H.
    destruct (_send_turns_step k (t_pc t) s) as [pc' s']. simpl in H.
    left. cbn. rewrite app_nil_r. exact H.
Qed.

End HarnessAudio.

Module DemoAudio.
Import Demo DemoFacts.

Lemma d_buffer_refl s : buffer_like [] s s.
Proof. left. rewrite app_nil_r. auto. Qed.

Ltac same_tac :=
  left; cbn; rewrite ?app_nil_r; repeat split; reflexivity.

Lemma d_on_message_buffer m s : buffer_like [] s (callback (_on_message m) s).
Proof.
  destruct m as [[ev|]|bytes]; try apply d_buffer_refl.
  destruct ev; try apply d_buffer_refl.
  unfold callback, _on_message, bind. rewrite get_field.
  destruct (eq_str (field "type" d) "SettingsApplied").
  { unfold gets, modify, print, modify, start_keepalive_loop, start_turns, modify.
    cbn. unfold is_interactive. cbn.
    destruct (turns (scenario (self s))); same_tac. }
  destruct (eq_str (field "type" d) "ConversationText").
  { rewrite !get_field. unfold conversation_append, modify.
    destruct (eq_str (field "role" d) "assistant"); same_tac. }
  destruct (eq_str (field "type" d) "AgentAudioDone").
  { unfold _save_audio, bind, gets. unfold is_interactive.
    destruct (audio_buffer (self s)) eqn:E; cbn.
    - destruct (turns (scenario (self s))); left; cbn;
        rewrite E; repeat split; reflexivity.
    - destruct (turns (scenario (self s))); right; cbn; rewrite E;
        repeat split; try discriminate; eauto. }
  destruct (eq_str (field "type" d) "Error"); [|apply d_buffer_refl].
  rewrite !get_field.
  destruct (negb (eq_str (field "code" d) "CLIENT_MESSAGE_TIMEOUT")); same_tac.
Qed.

Lemma d_turns_step_audio k pc s :
  let s' := snd (_send_turns_step k pc s) in
  audio_buffer (self s') = audio_buffer (self s) /\
  files (w s') = files (w s) /\
  audio_turn (self s') = audio_turn (self s).
Proof.
  destruct pc; cbn; auto.
  - destruct (turns (scenario (self s))) as [l|]; [|cbn; auto].
    destruct (nth_error l i) as [[label text]|]; cbn; auto.
  - destruct (wake <=? now (w s)); cbn; auto.
  - unfold ws_send, w_send. destruct (_ws (self s)); [|cbn; auto].
    destruct (conn (w s)); cbn; auto.
  - destruct (wake <=? now (w s)); cbn; auto.
  - destruct (done (self s)); cbn; auto.
  - destruct (_ready_for_input (self s)); cbn; auto.
  - destruct (stdin (w s)) as [|[typed|] rest]; cbn; auto.
  - destruct (quits text); cbn; auto.
  - unfold ws_send, w_send. destruct (_ws (self s)); [|cbn; auto].
    destruct (conn (w s)); cbn; auto.
  - destruct (wake <=? now (w s)); cbn; auto.
  - destruct (_ws (self s)); cbn; auto.
    unfold w_close. destruct (conn (w s)); cbn; auto.
Qed.

Lemma d_buffer_step s e :
  buffer_like (chunk (conn (w s)) e) s (step s e).
Proof.
  destruct e; unfold step.
  - replace (chunk (conn (w s)) EvMain) with (@nil byte)
      by (now destruct (conn (w s))).
    unfold run_step. destruct (main s); try solve [same_tac].
    + left. cbn. rewrite app_nil_r. destruct (conn (w s)); auto.
    + destruct (turns (scenario (self s))); same_tac.
    + destruct (done (self s) || match deadline with
                                 | Some d => d <=? now (w s)
                                 | None => false
                                 end); same_tac.
    + destruct (conn_eqb (conn (w s)) CClosed); same_tac.
    + left. cbn. rewrite app_nil_r. unfold w_close. destruct (conn (w s)); auto.
    + destruct (conn_eqb (conn (w s)) CClosed || (deadline <=? now (w s))); same_tac.
  - replace (chunk (conn (w s)) EvOpen) with (@nil byte)
      by (now destruct (conn (w s))).
    destruct (conn (w s)) eqn:Hc; try apply d_buffer_refl.
    unfold callback, _on_open, bind, modify, gets, ws_send, w_send. cbn.
    same_tac.
  - destruct (conn (w s)) eqn:Hc; try apply d_buffer_refl.
    destruct m as [p|bytes].
    + apply d_on_message_buffer.
    + unfold callback, _on_data, _on_message, chunk.
      destruct (0 <? List.length bytes)%nat eqn:Hl; left; cbn; auto.
      destruct bytes; [|discriminate]. rewrite app_nil_r. auto.
  - replace (chunk (conn (w s)) EvClose) with (@nil byte)
      by (now destruct (conn (w s))).
    destruct (conn (w s)) eqn:Hc; try apply d_buffer_refl.
    all: unfold callback, _on_close, bind, modify, _save_audio, bind, gets; cbn;
      destruct (audio_buffer (self s)) eqn:E; [same_tac|];
      right; cbn; rewrite E; repeat split; try discriminate; eauto.
  - replace (chunk (conn (w s)) (EvTick d)) with (@nil byte)
      by (now destruct (conn (w s))).
    same_tac.
  - replace (chunk (conn (w s)) (EvStdin l)) with (@nil byte)
      by (now destruct (conn (w s))).
    same_tac.
  - replace (chunk (conn (w s)) (EvKeepalive k)) with (@nil byte)
      by (now destruct (conn (w s))).
    destruct (nth_error (keepalive_threads s) k) as [pc|]; [|apply d_buffer_refl].
    pose proof (keepalive_step_world k (_ws (self s)) (_keepalive_stop (self s))
                  pc (w s)) as H.
    destruct (keepalive_step k (_ws (self s)) (_keepalive_stop (self s)) pc (w s))
      as [pc' w'].
    simpl in H. left. cbn. rewrite app_nil_r.
    destruct H as [-> | (_ & _ & ->)]; auto.
  - replace (chunk (conn (w s)) (EvTurns k)) with (@nil byte)
      by (now destruct (conn (w s))).
    destruct (nth_error (turn_threads s) k) as [t|]; [|apply d_buffer_refl].
    pose proof (d_turns_step_audio k (t_pc t) s) as H.
    destruct (_send_turns_step k (t_pc t) s) as [pc' s']. simpl in H.
    left. cbn. rewrite app_nil_r. exact H.
Qed.

End DemoAudio.

(** ** Text frames that are JSON but no object

    [event.get] raises an [AttributeError], outside the [try] of the
    callback; websocket-client catches it and the state is as before. *)

Lemma h_not_an_object ev s :
  (forall d, ev <> JDict d) ->
  Harness._on_message (MText (Some ev)) s = Raised AttributeError s /\
  Harness.step s (EvFrame (MText (Some ev))) = s.
Proof.
  intros H. assert (E : Harness._on_message (MText (Some ev)) s = Raised AttributeError s).
  { destruct ev; try reflexivity. now destruct (H d). }
  split; [exact E|]. unfold Harness.step.
  destruct (conn (Harness.w s)); try reflexivity.
  unfold Harness.callback at 2. simpl Harness._on_data. unfold ret.
  unfold Harness.callback. now rewrite E.
Qed.

Lemma d_not_an_object ev s :
  (forall d, ev <> JDict d) ->
  Demo._on_message (MText (Some ev)) s = Raised AttributeError s /\
  Demo.step s (EvFrame (MText (Some ev))) = s.
Proof.
  intros H. assert (E : Demo._on_message (MText (Some ev)) s = Raised AttributeError s).
  { destruct ev; try reflexivity. now destruct (H d). }
  split; [exact E|]. unfold Demo.step.
  destruct (conn (Demo.w s)); try reflexivity.
  unfold Demo.callback at 2. simpl Demo._on_data. unfold ret.
  unfold Demo.callback. now rewrite E.
Qed.

(** * The properties of the specification *)

(** C10, as the code has it: a text frame that is not valid JSON, or a
    JSON object whose type tag is none of the recognized event types,
    makes [_on_message] return without raising and leaves the whole
    session state unchanged, in both runners; so does the delivery of the
    frame as a whole.  A frame that is valid JSON and no object (a list, a
    string, a number, a boolean, null) has no [get]: [_on_message] raises
    an [AttributeError] after the [try] around [json.loads], the state is
    as before, and so is the state after the delivery of the frame. *)
Theorem unrecognized_frame_leaves_state :
  (forall parsed,
      unrecognized parsed ->
      (forall s, Harness._on_message (MText parsed) s = Returned tt s) /\
      (forall s, Harness.step s (EvFrame (MText parsed)) = s) /\
      (forall s, Demo._on_message (MText parsed) s = Returned tt s) /\
      (forall s, Demo.step s (EvFrame (MText parsed)) = s)) /\
  (forall ev,
      (forall d, ev <> JDict d) ->
      (forall s, Harness._on_message (MText (Some ev)) s = Raised AttributeError s) /\
      (forall s, Harness.step s (EvFrame (MText (Some ev))) = s) /\
      (forall s, Demo._on_message (MText (Some ev)) s = Raised AttributeError s) /\
      (forall s, Demo.step s (EvFrame (MText (Some ev))) = s)).
Proof.
  split.
  - intros parsed H. repeat split; intros s.
    + now apply HarnessFacts.h_unrecognized_on_message.
    + now apply HarnessFacts.h_unrecognized_step.
    + now apply DemoFacts.d_unrecognized_on_message.
    + now apply DemoFacts.d_unrecognized_step.
  - intros ev H. repeat split; intros s.
    + now apply h_not_an_object.
    + now apply h_not_an_object.
    + now apply d_not_an_object.
    + now apply d_not_an_object.
Qed.

(** A frame that is no JSON, an event of an unknown type and the frame
    [null], after the handshake. *)
Lemma unrecognized_frame_witness :
  let s := Harness.run (Harness.boot env0 scenario_h) handshake in
  Harness.step s (EvFrame (MText None)) = s /\
  Harness.step s (EvFrame (MText (Some (JDict [("type", JStr "History")])))) = s /\
  Harness.step s (EvFrame (MText (Some JNone))) = s.
Proof.
  intros s. split; [|split].
  - apply (proj1 unrecognized_frame_leaves_state None).
    left. reflexivity.
  - apply (proj1 unrecognized_frame_leaves_state
             (Some (JDict [("type", JStr "History")]))).
    right. eexists. split; reflexivity.
  - apply (proj2 unrecognized_frame_leaves_state JNone).
    discriminate.
Defined.

(** C10 as stated fails on the frames that are valid JSON and no object:
    on the frames [[]] and [null], which carry no recognized type tag, the
    handler of each runner raises. *)
Lemma non_object_frame_raises :
  (let s := Harness.run (Harness.boot env0 scenario_h) handshake in
   Harness._on_message (MText (Some (JList []))) s = Raised AttributeError s /\
   Harness._on_message (MText (Some JNone)) s <> Returned tt s) /\
  (let s := Demo.run (Demo.boot env0 scenario_d) handshake in
   Demo._on_message (MText (Some (JList []))) s = Raised AttributeError s /\
   Demo._on_message (MText (Some JNone)) s <> Returned tt s).
Proof.
  split; cbv zeta.
  - set (s := Harness.run _ _). clearbody s.
    split; [reflexivity|]. cbn. discriminate.
  - set (s := Demo.run _ _). clearbody s.
    split; [reflexivity|]. cbn. discriminate.
Qed.

(** C2, as the code has it: in ScenarioRunner an error event with a fatal
    code sets the stop flag of the keep-alive loop and the completion
    signal; [run], waiting on the signal, goes on to close, and a
    keep-alive loop in its wait leaves without sending.  DemoRunner has no
    fatal codes: an error event changes neither flag. *)
Theorem fatal_error_ends_harness_session :
  forall d,
    tagged "Error" d ->
    in_strs (field "code" d) fatal_codes = true ->
    let m := MText (Some (JDict d)) in
    (forall s, exists s',
        Harness._on_message m s = Returned tt s' /\
        Harness._keepalive_stop (Harness.self s') = true /\
        Harness.done_event (Harness.self s') = true) /\
    (forall s deadline,
        conn (Harness.w s) = COpen ->
        Harness.main s = Harness.MWaiting deadline ->
        Harness.main (Harness.run s [EvFrame m; EvMain]) = Harness.MIsAlive) /\
    (forall s k deadline,
        conn (Harness.w s) = COpen ->
        nth_error (Harness.keepalive_threads s) k = Some (KWaiting deadline) ->
        let s' := Harness.run s [EvFrame m; EvKeepalive k; EvKeepalive k] in
        nth_error (Harness.keepalive_threads s') k = Some KExit /\
        outbox (Harness.w s') = outbox (Harness.w s)) /\
    (forall s, exists s',
        Demo._on_message m s = Returned tt s' /\
        Demo._keepalive_stop (Demo.self s') = Demo._keepalive_stop (Demo.self s) /\
        Demo.done (Demo.self s') = Demo.done (Demo.self s)).
Proof.
  intros d Ht Hf m.
  pose proof (fatal_is_not_idle _ Hf) as Hi.
  assert (Hs : forall s, Harness.step s (EvFrame m) =
               match conn (Harness.w s) with
               | COpen => Harness.after_error (field "code" d) (field "description" d) s
               | _ => s
               end).
  { intros s. destruct (conn (Harness.w s)) eqn:Hc;
      try (unfold Harness.step; rewrite Hc; reflexivity).
    apply HarnessFacts.h_text_step; auto using HarnessFacts.h_on_error_event. }
  split; [|split; [|split]].
  - intros s. eexists. split; [now apply HarnessFacts.h_on_error_event|].
    unfold Harness.after_error. rewrite Hf, Hi. split; reflexivity.
  - intros s dl Hc Hm.
    rewrite !HarnessFacts.h_run_cons, HarnessFacts.h_run_nil, Hs, Hc.
    unfold Harness.after_error. rewrite Hf, Hi.
    unfold Harness.step, Harness.run_step. simpl. rewrite Hm. reflexivity.
  - intros s k dl Hc Hk s'. subst s'.
    rewrite !HarnessFacts.h_run_cons, HarnessFacts.h_run_nil, Hs, Hc.
    unfold Harness.after_error. rewrite Hf, Hi.
    unfold Harness.step at 2. simpl. rewrite Hk. simpl.
    unfold Harness.step. simpl.
    rewrite (@nth_error_set_nth_same _ _ _ _ _ Hk). simpl.
    rewrite (@nth_error_set_nth_same _ _ _ _ _
               (@nth_error_set_nth_same _ _ _ KCheck _ Hk)).
    split; reflexivity.
  - intros s. eexists. split; [now apply DemoFacts.d_on_error_event|].
    unfold Demo.after_error. rewrite Hi. split; reflexivity.
Qed.

(** A configuration-rejected error wakes [run] from its wait. *)
Lemma fatal_error_witness :
  let s := Harness.run (Harness.boot env0 scenario_h) (handshake ++ [EvMain]) in
  Harness.main
    (Harness.run s [EvFrame (Error "INVALID_SETTINGS" "rejected"); EvMain])
  = Harness.MIsAlive.
Proof.
  intros s.
  refine (proj1 (proj2 (fatal_error_ends_harness_session
                          (d := error_dict "INVALID_SETTINGS" "rejected") _ _))
                s 40000 _ _); reflexivity.
Defined.

(** C2 as stated fails in DemoRunner: after a configuration-rejected error
    the stop flag and the completion signal are still clear. *)
Lemma demo_fatal_error_sets_no_flag :
  let s := Demo.run (Demo.boot env0 scenario_d)
             [EvMain; EvOpen; EvFrame (Error "INVALID_SETTINGS" "rejected")] in
  in_strs (JStr "INVALID_SETTINGS") fatal_codes = true /\
  Demo._keepalive_stop (Demo.self s) = false /\
  Demo.done (Demo.self s) = false.
Proof. vm_compute. repeat split. Qed.

(** C3, as the code has it: ScenarioRunner appends every error event to
    [results["errors"]], the idle-timeout code included, and prints all but
    the idle-timeout ones.  DemoRunner appends to [_errors] and prints every
    error event but the idle-timeout ones, which it neither records nor
    prints. *)
Theorem error_events_recorded :
  forall d,
    tagged "Error" d ->
    let code := field "code" d in
    let desc := field "description" d in
    let m := MText (Some (JDict d)) in
    (forall s, exists s',
        Harness._on_message m s = Returned tt s' /\
        Harness.errors (Harness.results (Harness.self s'))
        = Harness.errors (Harness.results (Harness.self s)) ++ [code_entry code desc] /\
        console (Harness.w s')
        = console (Harness.w s)
          ++ (if eq_str code idle_timeout then []
              else [[FS "    [ERROR] "; FV code; FS ": "; FV desc]])) /\
    (forall s, exists s',
        Demo._on_message m s = Returned tt s' /\
        if eq_str code idle_timeout then s' = s
        else Demo._errors (Demo.self s')
             = Demo._errors (Demo.self s) ++ [[FS "["; FV code; FS "] "; FV desc]] /\
             console (Demo.w s')
             = console (Demo.w s) ++ [[FS nl; FS "  ERROR: "; FV desc]]).
Proof.
  intros d Ht code desc m. split; intros s; eexists.
  - split; [now apply HarnessFacts.h_on_error_event|].
    unfold Harness.after_error. fold code desc.
    destruct (eq_str code idle_timeout), (in_strs code fatal_codes); simpl;
      rewrite ?app_nil_r; split; reflexivity.
  - split; [now apply DemoFacts.d_on_error_event|].
    unfold Demo.after_error. fold code desc.
    destruct (eq_str code idle_timeout); [reflexivity|]. split; reflexivity.
Qed.

(** An idle-timeout error is recorded by ScenarioRunner. *)
Lemma error_events_witness :
  exists s',
    Harness._on_message (Error idle_timeout "idle")
      (Harness.run (Harness.boot env0 scenario_h) handshake) = Returned tt s' /\
    Harness.errors (Harness.results (Harness.self s'))
    = [code_entry (JStr idle_timeout) (JStr "idle")].
Proof.
  destruct (proj1 (error_events_recorded (d := error_dict idle_timeout "idle")
                     eq_refl)
              (Harness.run (Harness.boot env0 scenario_h) handshake))
    as (s' & H1 & H2 & _).
  exists s'. split; [exact H1 | exact H2].
Defined.

(** C3 as stated fails in DemoRunner: an idle-timeout error event is not
    appended to the error list. *)
Lemma demo_idle_timeout_not_recorded :
  let s := Demo.run (Demo.boot env0 scenario_d) handshake in
  let s' := Demo.step s (EvFrame (Error idle_timeout "idle")) in
  conn (Demo.w s) = COpen /\ Demo._errors (Demo.self s') = [].
Proof. vm_compute. split; reflexivity. Qed.

(** C8, as the code has it: ScenarioRunner appends every warning event to
    [results["warnings"]] and prints it, and nothing else of the session
    changes, so that the session goes on.  DemoRunner has no warning record:
    a warning event leaves its whole state unchanged and prints nothing. *)
Theorem warning_events_recorded :
  forall d,
    tagged "Warning" d ->
    let code := field "code" d in
    let desc := field "description" d in
    let m := MText (Some (JDict d)) in
    (forall s, exists s',
        Harness._on_message m s = Returned tt s' /\
        Harness.warnings (Harness.results (Harness.self s'))
        = Harness.warnings (Harness.results (Harness.self s)) ++ [code_entry code desc] /\
        console (Harness.w s')
        = console (Harness.w s) ++ [[FS "    [WARN] "; FV code; FS ": "; FV desc]] /\
        Harness.done_event (Harness.self s') = Harness.done_event (Harness.self s) /\
        Harness._keepalive_stop (Harness.self s')
        = Harness._keepalive_stop (Harness.self s) /\
        conn (Harness.w s') = conn (Harness.w s) /\
        Harness.keepalive_threads s' = Harness.keepalive_threads s /\
        Harness.turn_threads s' = Harness.turn_threads s /\
        Harness.main s' = Harness.main s) /\
    (forall s, Demo._on_message m s = Returned tt s) /\
    (forall s, Demo.step s (EvFrame m) = s).
Proof.
  intros d Ht code desc m. repeat split.
  - intros s. eexists. split; [now apply HarnessFacts.h_on_warning_event|].
    repeat split.
  - intros s. now apply DemoFacts.d_on_warning_event.
  - intros s. destruct (conn (Demo.w s)) eqn:Hc;
      try (unfold Demo.step; rewrite Hc; reflexivity).
    apply DemoFacts.d_text_step; auto using DemoFacts.d_on_warning_event.
Qed.

(** A warning is recorded by ScenarioRunner. *)
Lemma warning_events_witness :
  exists s',
    Harness._on_message (Warning "SLOW" "thinking")
      (Harness.run (Harness.boot env0 scenario_h) handshake) = Returned tt s' /\
    Harness.warnings (Harness.results (Harness.self s'))
    = [code_entry (JStr "SLOW") (JStr "thinking")].
Proof.
  destruct (proj1 (warning_events_recorded (d := warning_dict "SLOW" "thinking")
                     eq_refl)
              (Harness.run (Harness.boot env0 scenario_h) handshake))
    as (s' & H1 & H2 & _).
  exists s'. split; [exact H1 | exact H2].
Defined.

(** C8 as stated fails in DemoRunner: a warning event is recorded nowhere
    and nothing is printed for it. *)
Lemma demo_warning_dropped :
  let s := Demo.run (Demo.boot env0 scenario_d) handshake in
  let s' := Demo.step s (EvFrame (Warning "SLOW" "thinking")) in
  conn (Demo.w s) = COpen /\
  console (Demo.w s') = console (Demo.w s) /\
  Demo.self s' = Demo.self s.
Proof. vm_compute. repeat split. Qed.

(** C6: the close path is idempotent in both runners.  The first
    [_on_close] sets the stop flag and the completion signal and makes the
    final flush: when the buffer holds audio it writes one sink, holding
    the whole buffer, and counts one more turn; when the buffer is empty it
    writes none; either way the buffer is then empty and what was in it is
    on disk.  A second [_on_close] leaves the state reached by the first
    unchanged, so the two together write that one sink and no other.  The
    same holds of the close event of the socket, and of [ws.close()]. *)
Theorem close_is_idempotent :
  (forall s,
      let s1 := Demo.callback Demo._on_close s in
      let s2 := Demo.callback Demo._on_close s1 in
      s2 = s1 /\
      Demo.done (Demo.self s1) = true /\
      Demo._keepalive_stop (Demo.self s1) = true /\
      Demo.audio_buffer (Demo.self s1) = [] /\
      (exists name,
          files (Demo.w s1)
          = files (Demo.w s)
            ++ (if nilb (Demo.audio_buffer (Demo.self s)) then []
                else [Sink name (Demo.audio_buffer (Demo.self s))])) /\
      List.length (files (Demo.w s2))
      = (List.length (files (Demo.w s))
         + (if nilb (Demo.audio_buffer (Demo.self s)) then 0 else 1))%nat /\
      Demo.audio_turn (Demo.self s2)
      = (Demo.audio_turn (Demo.self s)
         + (if nilb (Demo.audio_buffer (Demo.self s)) then 0 else 1))%nat /\
      on_disk (Demo.w s2) = (on_disk (Demo.w s) ++ Demo.audio_buffer (Demo.self s))%list) /\
  (forall s, Demo.step (Demo.step s EvClose) EvClose = Demo.step s EvClose) /\
  (forall s,
      let s1 := Harness.callback Harness._on_close s in
      let s2 := Harness.callback Harness._on_close s1 in
      s2 = s1 /\
      Harness.done_event (Harness.self s1) = true /\
      Harness._keepalive_stop (Harness.self s1) = true /\
      Harness.audio_buffer (Harness.self s1) = [] /\
      (exists name,
          files (Harness.w s1)
          = files (Harness.w s)
            ++ (if nilb (Harness.audio_buffer (Harness.self s)) then []
                else [Sink name (Harness.audio_buffer (Harness.self s))])) /\
      List.length (files (Harness.w s2))
      = (List.length (files (Harness.w s))
         + (if nilb (Harness.audio_buffer (Harness.self s)) then 0 else 1))%nat /\
      Harness.audio_turn (Harness.self s2)
      = (Harness.audio_turn (Harness.self s)
         + (if nilb (Harness.audio_buffer (Harness.self s)) then 0 else 1))%nat /\
      on_disk (Harness.w s2)
      = (on_disk (Harness.w s) ++ Harness.audio_buffer (Harness.self s))%list) /\
  (forall s, Harness.step (Harness.step s EvClose) EvClose = Harness.step s EvClose) /\
  (forall w0, w_close (w_close w0) = w_close w0).
Proof.
  repeat apply conj.
  - intros s s1 s2.
    assert (E : s2 = s1) by apply DemoFacts.d_on_close_twice.
    rewrite E. split; [reflexivity|]. subst s1. clear E s2.
    destruct s as [[sc buf n cv dn st wr ap rd er] e wd ka tt mn].
    destruct buf; unfold on_disk; simpl;
      rewrite ?app_nil_r, ?length_app, ?map_app, ?concat_app; simpl;
      rewrite ?app_nil_r, ?Nat.add_0_r;
      repeat match goal with |- _ /\ _ => split end; try reflexivity; try lia;
      try (exists []; reflexivity); try (eexists; reflexivity).
  - intros s. destruct s as [[sc buf n cv dn st wr ap rd er] e wd ka tt mn].
    destruct wd as [c o cs f t i]. destruct c, buf; reflexivity.
  - intros s s1 s2.
    assert (E : s2 = s1) by apply HarnessFacts.h_on_close_twice.
    rewrite E. split; [reflexivity|]. subst s1. clear E s2.
    destruct s as [[sc r buf n dn st wr] e wd ka tt mn].
    destruct buf; unfold on_disk; simpl;
      rewrite ?app_nil_r, ?length_app, ?map_app, ?concat_app; simpl;
      rewrite ?app_nil_r, ?Nat.add_0_r;
      repeat match goal with |- _ /\ _ => split end; try reflexivity; try lia;
      try (exists []; reflexivity); try (eexists; reflexivity).
  - intros s. destruct s as [[sc r buf n dn st wr] e wd ka tt mn].
    destruct wd as [c o cs f t i]. destruct c, buf; reflexivity.
  - intros [c o cs f t i]. destruct c; reflexivity.
Qed.

(** C9: in interactive mode a line that is empty once stripped ends turn
    delivery exactly as a quit token does: reading it leaves the thread at
    the statements after the loop, in the very state a quit line leads to;
    no frame is sent and nothing is added to the conversation; the next two
    steps set the stop flag and call [ws.close()]. *)
Theorem blank_line_ends_turn_delivery :
  forall typed quit_line rest s k born,
    strip typed = "" ->
    In (lower (strip quit_line)) Demo.quit_tokens ->
    nth_error (Demo.turn_threads s) k = Some (Demo.TurnThread born Demo.IInput) ->
    let feed l := Demo.on_world (with_stdin (Some l :: rest)) s in
    let s1 := Demo.run (feed typed) [EvTurns k; EvTurns k] in
    s1 = Demo.run (feed quit_line) [EvTurns k; EvTurns k] /\
    nth_error (Demo.turn_threads s1) k = Some (Demo.TurnThread born Demo.TSetStop) /\
    outbox (Demo.w s1) = outbox (Demo.w s) /\
    Demo.conversation (Demo.self s1) = Demo.conversation (Demo.self s) /\
    stdin (Demo.w s1) = rest /\
    let s2 := Demo.run s1 [EvTurns k; EvTurns k] in
    Demo._keepalive_stop (Demo.self s2) = true /\
    outbox (Demo.w s2) = outbox (Demo.w s) /\
    (Demo._ws (Demo.self s) = true ->
     nth_error (Demo.turn_threads s2) k = Some (Demo.TurnThread born Demo.TExit) /\
     Demo.w s2 = w_close (with_stdin rest (Demo.w s))).
Proof.
  intros typed quit_line rest s k born Hb Hq Hk feed s1.
  assert (Hrun : forall l, Demo.quits (strip l) = true ->
            Demo.run (feed l) [EvTurns k; EvTurns k]
            = Demo.with_turn_threads
                (set_nth k (Demo.TurnThread born Demo.TSetStop) (Demo.turn_threads s))
                (Demo.on_world (with_stdin rest) s)).
  { intros l Hl. rewrite !DemoFacts.d_run_cons, DemoFacts.d_run_nil.
    unfold Demo.step at 2. simpl. rewrite Hk. simpl.
    unfold Demo.step. simpl.
    rewrite (@nth_error_set_nth_same _ _ _ _ _ Hk). simpl. rewrite Hl. simpl.
    rewrite set_nth_set_nth. reflexivity. }
  assert (H1 : s1 = Demo.with_turn_threads
                (set_nth k (Demo.TurnThread born Demo.TSetStop) (Demo.turn_threads s))
                (Demo.on_world (with_stdin rest) s)).
  { apply Hrun. rewrite Hb. apply quits_blank. }
  split; [rewrite H1; symmetry; apply Hrun; now apply quits_token|].
  clearbody s1. subst s1.
  split; [simpl; now rewrite (@nth_error_set_nth_same _ _ _ _ _ Hk)|].
  do 3 (split; [reflexivity|]).
  rewrite !DemoFacts.d_run_cons, DemoFacts.d_run_nil.
  unfold Demo.step at 2. simpl.
  rewrite (@nth_error_set_nth_same _ _ _ _ _ Hk). simpl.
  unfold Demo.step. simpl. rewrite set_nth_set_nth.
  rewrite (@nth_error_set_nth_same _ _ _ _ _ Hk). simpl.
  destruct (Demo._ws (Demo.self s)) eqn:Hws; simpl.
  - split; [reflexivity|]. split; [now rewrite outbox_w_close|]. intros _.
    rewrite set_nth_set_nth.
    now rewrite (@nth_error_set_nth_same _ _ _ _ _ Hk).
  - split; [reflexivity|]. split; [reflexivity|]. discriminate.
Qed.

(** A line of blanks and the line " Quit", typed to the interactive thread
    as it waits for input. *)
Lemma blank_line_witness :
  let s := Demo.run (Demo.boot env0 scenario_i)
             (handshake ++ [EvTurns 0; EvTurns 0; EvTurns 0; EvTurns 0;
                            EvTurns 0; EvTurns 0]) in
  let feed l := Demo.on_world (with_stdin [Some l]) s in
  Demo.run (feed "   ") [EvTurns 0; EvTurns 0]
  = Demo.run (feed " Quit") [EvTurns 0; EvTurns 0].
Proof.
  intros s feed.
  refine (proj1 (@blank_line_ends_turn_delivery "   " " Quit" [] s 0%nat 0
                   _ _ _)).
  - reflexivity.
  - simpl. auto.
  - reflexivity.
Defined.


(** C1, as the code has it: in both runners no user-turn frame is written
    once the socket is closed or being closed.  In ScenarioRunner a fatal
    error sets the completion signal, on which [run] closes the socket in
    its next four steps; the turn thread itself never looks at the error,
    so that a turn whose delay runs out before [run] has closed the socket
    is still sent.  DemoRunner knows no fatal code. *)
Theorem no_turn_after_close :
  (forall s sch,
      closed (conn (Harness.w s)) = true ->
      user_turns (outbox (Harness.w (Harness.run s sch)))
      = user_turns (outbox (Harness.w s))) /\
  (forall d s deadline,
      tagged "Error" d ->
      in_strs (field "code" d) fatal_codes = true ->
      conn (Harness.w s) = COpen ->
      Harness.main s = Harness.MWaiting deadline ->
      let s' := Harness.run s [EvFrame (MText (Some (JDict d)));
                               EvMain; EvMain; EvMain; EvMain] in
      closed (conn (Harness.w s')) = true /\
      outbox (Harness.w s') = outbox (Harness.w s)) /\
  (forall s sch,
      closed (conn (Demo.w s)) = true ->
      user_turns (outbox (Demo.w (Demo.run s sch)))
      = user_turns (outbox (Demo.w s))).
Proof.
  repeat apply conj.
  - intros s sch H. now rewrite (proj2 (h_closed_run s sch H)).
  - intros d s deadline Ht Hf Hc Hm.
    pose proof (fatal_is_not_idle _ Hf) as Hi.
    rewrite HarnessFacts.h_run_cons.
    rewrite (@HarnessFacts.h_text_step _ s _ (HarnessFacts.h_on_error_event s Ht) Hc).
    assert (Ha : Harness.after_error (field "code" d) (field "description" d) s
                 = Harness.on_self (Harness.with_done_event true)
                     (Harness.on_self (Harness.with_keepalive_stop true)
                        (Harness.on_world
                           (w_print [FS "    [ERROR] "; FV (field "code" d);
                                     FS ": "; FV (field "description" d)])
                           (Harness.on_self (Harness.on_results (fun r =>
                              Harness.with_errors
                                (Harness.errors r
                                 ++ [code_entry (field "code" d)
                                                (field "description" d)]) r)) s))))
      by (unfold Harness.after_error; now rewrite Hf, Hi).
    rewrite Ha. erewrite h_run_closes; [| exact Hm | reflexivity | exact Hc].
    cbn. rewrite closed_w_close, outbox_w_close. split; reflexivity.
  - intros s sch H. now rewrite (proj2 (d_closed_run s sch H)).
Qed.

(** After a fatal error and the four steps of [run], the turn thread sends
    nothing. *)
Lemma no_turn_after_close_witness :
  let s := Harness.run (Harness.boot env0 scenario_h)
             (handshake ++ [EvMain; EvFrame (Error "INVALID_SETTINGS" "rejected");
                            EvMain; EvMain; EvMain; EvMain]) in
  user_turns (outbox (Harness.w
     (Harness.run s [EvTurns 0; EvTick 3000; EvTurns 0; EvTurns 0; EvTurns 0])))
  = user_turns (outbox (Harness.w s)).
Proof.
  intros s.
  refine (proj1 no_turn_after_close s _ _). vm_compute. reflexivity.
Defined.

(** C1 as stated fails.  In ScenarioRunner a turn thread that is past its
    sleep when the fatal error arrives sends its turn if it runs before
    [run] closes the socket; in DemoRunner the turns go on after a fatal
    error as if nothing had happened. *)
Lemma turn_sent_after_fatal_error :
  (let s1 := Harness.run (Harness.boot env0 scenario_h)
               (handshake ++ [EvMain; EvTurns 0; EvTick 3000; EvTurns 0; EvTurns 0;
                              EvFrame (Error "UNPARSABLE_CLIENT_MESSAGE" "bad")]) in
   let s2 := Harness.step s1 (EvTurns 0) in
   Harness.errors (Harness.results (Harness.self s1))
   = [code_entry (JStr "UNPARSABLE_CLIENT_MESSAGE") (JStr "bad")] /\
   Harness.done_event (Harness.self s1) = true /\
   map sent_msg (user_turns (outbox (Harness.w s1))) = [] /\
   map sent_msg (user_turns (outbox (Harness.w s2))) = [InjectUserMessage "Hello"]) /\
  (let s1 := Demo.run (Demo.boot env0 scenario_d)
               (handshake ++ [EvFrame (Error "UNPARSABLE_CLIENT_MESSAGE" "bad")]) in
   let s2 := Demo.run s1 [EvTurns 0; EvTick 4000; EvTurns 0; EvTurns 0; EvTurns 0;
                          EvTurns 0; EvTurns 0; EvTick 6000; EvTurns 0; EvTurns 0;
                          EvTurns 0] in
   Demo._errors (Demo.self s1)
   = [[FS "["; FV (JStr "UNPARSABLE_CLIENT_MESSAGE"); FS "] "; FV (JStr "bad")]] /\
   map sent_msg (user_turns (outbox (Demo.w s1))) = [] /\
   map sent_msg (user_turns (outbox (Demo.w s2)))
   = [InjectUserMessage "Hello"; InjectUserMessage "Hola"]).
Proof. vm_compute. repeat split. Qed.

(** C7, as the code has it: in both runners every two liveness frames of a
    keep-alive loop are at least the interval of 7 seconds apart, and so are
    all liveness frames of a session in which one loop runs.  Once the stop
    flag is set it stays set and a loop sends at most one more liveness
    frame, the one whose check of the flag came before the flag was set; a
    loop that is not between that check and its [send] sends none. *)
Theorem keepalive_loops_paced :
  (forall e sc sch k,
      let s := Harness.run (Harness.boot e sc) sch in
      apart (seconds KEEPALIVE_INTERVAL)
            (sent_times (ByKeepalive k) (outbox (Harness.w s))) /\
      (forall pc, Harness.keepalive_threads s = [pc] ->
                  apart (seconds KEEPALIVE_INTERVAL)
                        (map sent_at (keepalives_of (outbox (Harness.w s)))))) /\
  (forall s sch k,
      Harness._keepalive_stop (Harness.self s) = true ->
      let s' := Harness.run s sch in
      let sent_by_loop x := List.length (sent_from (ByKeepalive k) (outbox (Harness.w x))) in
      Harness._keepalive_stop (Harness.self s') = true /\
      (sent_by_loop s' <= sent_by_loop s + 1)%nat /\
      (nth_error (Harness.keepalive_threads s) k <> Some KSend ->
       (sent_by_loop s' <= sent_by_loop s)%nat)) /\
  (forall e sc sch k,
      let s := Demo.run (Demo.boot e sc) sch in
      apart (seconds KEEPALIVE_INTERVAL)
            (sent_times (ByKeepalive k) (outbox (Demo.w s))) /\
      (forall pc, Demo.keepalive_threads s = [pc] ->
                  apart (seconds KEEPALIVE_INTERVAL)
                        (map sent_at (keepalives_of (outbox (Demo.w s)))))) /\
  (forall s sch k,
      Demo._keepalive_stop (Demo.self s) = true ->
      let s' := Demo.run s sch in
      let sent_by_loop x := List.length (sent_from (ByKeepalive k) (outbox (Demo.w x))) in
      Demo._keepalive_stop (Demo.self s') = true /\
      (sent_by_loop s' <= sent_by_loop s + 1)%nat /\
      (nth_error (Demo.keepalive_threads s) k <> Some KSend ->
       (sent_by_loop s' <= sent_by_loop s)%nat)).
Proof.
  repeat apply conj.
  - intros e sc sch k s.
    assert (HI : KInv (Harness.kview_of s))
      by apply HarnessRuns.h_run_KInv, HarnessRuns.h_boot_KInv.
    split; [apply (KInv_apart k HI)|].
    intros pc Hp.
    pose proof (@keepalives_single (Harness.kview_of s) pc HI Hp) as E.
    simpl in E. rewrite E. apply (KInv_apart 0 HI).
  - intros s sch k Hs s' sent_by_loop.
    destruct (HarnessRuns.h_run_budget s sch k Hs) as [H1 H2].
    unfold kcount in H2. simpl in H2. fold s' in H1, H2.
    pose proof (kpending_le (Harness.kview_of s) k) as Hp.
    unfold sent_by_loop. repeat split; auto; try lia.
    intros Hn. rewrite (@kpending_zero (Harness.kview_of s) k Hn) in H2. lia.
  - intros e sc sch k s.
    assert (HI : KInv (Demo.kview_of s))
      by apply DemoRuns.d_run_KInv, DemoRuns.d_boot_KInv.
    split; [apply (KInv_apart k HI)|].
    intros pc Hp.
    pose proof (@keepalives_single (Demo.kview_of s) pc HI Hp) as E.
    simpl in E. rewrite E. apply (KInv_apart 0 HI).
  - intros s sch k Hs s' sent_by_loop.
    destruct (DemoRuns.d_run_budget s sch k Hs) as [H1 H2].
    unfold kcount in H2. simpl in H2. fold s' in H1, H2.
    pose proof (kpending_le (Demo.kview_of s) k) as Hp.
    unfold sent_by_loop. repeat split; auto; try lia.
    intros Hn. rewrite (@kpending_zero (Demo.kview_of s) k Hn) in H2. lia.
Qed.

(** A loop in its wait when the flag is set sends nothing any more. *)
Lemma keepalive_loops_witness :
  let s := Harness.run (Harness.boot env0 scenario_h)
             (handshake ++ [EvKeepalive 0; EvKeepalive 0; EvTick 7000;
                            EvFrame (Error "INVALID_SETTINGS" "rejected")]) in
  let s' := Harness.run s [EvKeepalive 0; EvKeepalive 0; EvKeepalive 0;
                           EvTick 7000; EvKeepalive 0] in
  (List.length (sent_from (ByKeepalive 0) (outbox (Harness.w s')))
   <= List.length (sent_from (ByKeepalive 0) (outbox (Harness.w s))))%nat.
Proof.
  intros s s'.
  refine (proj2 (proj2 (proj1 (proj2 keepalive_loops_paced) s _ 0%nat _)) _).
  - vm_compute. reflexivity.
  - vm_compute. discriminate.
Defined.

(** C7 as stated fails: a loop that has checked the flag and is about to
    [send] when the flag is set still sends its liveness frame. *)
Lemma keepalive_sent_after_stop :
  let s1 := Harness.run (Harness.boot env0 scenario_h)
              (handshake ++ [EvKeepalive 0; EvKeepalive 0; EvTick 7000;
                             EvKeepalive 0; EvKeepalive 0;
                             EvFrame (Error "INVALID_SETTINGS" "rejected")]) in
  let s2 := Harness.step s1 (EvKeepalive 0) in
  Harness._keepalive_stop (Harness.self s1) = true /\
  map sent_msg (keepalives_of (outbox (Harness.w s1))) = [] /\
  map sent_msg (keepalives_of (outbox (Harness.w s2))) = [KeepAlive].
Proof. vm_compute. repeat split. Qed.




(** C5: in both runners a flush of a buffer that is not empty writes one
    sink holding the buffer, leaves the buffer empty and counts one more
    turn; a flush of an empty buffer returns the state as it is, with no
    sink written and the turn counter unchanged; a binary chunk that is not
    empty is appended to the buffer, which grows by its length; and no step
    of a session changes the buffer in another way: every step either
    appends the bytes of the binary frame it delivers (none for any other
    event) and writes no sink, or flushes a buffer that is not empty. *)
Theorem audio_buffer_flushes :
  (forall label s,
      Harness.audio_buffer (Harness.self s) <> [] ->
      exists s' name,
        Harness._save_audio label s = Returned tt s' /\
        Harness.audio_buffer (Harness.self s') = [] /\
        files (Harness.w s')
        = files (Harness.w s) ++ [Sink name (Harness.audio_buffer (Harness.self s))] /\
        Harness.audio_turn (Harness.self s') = S (Harness.audio_turn (Harness.self s))) /\
  (forall label s,
      Harness.audio_buffer (Harness.self s) = [] ->
      Harness._save_audio label s = Returned tt s) /\
  (forall bytes s,
      bytes <> [] ->
      exists s',
        Harness._on_data (MBinary bytes) s = Returned tt s' /\
        Harness.audio_buffer (Harness.self s')
        = Harness.audio_buffer (Harness.self s) ++ bytes /\
        List.length (Harness.audio_buffer (Harness.self s'))
        = (List.length (Harness.audio_buffer (Harness.self s)) + List.length bytes)%nat) /\
  (forall s e,
      Harness.buffer_like (chunk (conn (Harness.w s)) e) s (Harness.step s e)) /\
  (forall s,
      Demo.audio_buffer (Demo.self s) <> [] ->
      exists s' name,
        Demo._save_audio s = Returned tt s' /\
        Demo.audio_buffer (Demo.self s') = [] /\
        files (Demo.w s')
        = files (Demo.w s) ++ [Sink name (Demo.audio_buffer (Demo.self s))] /\
        Demo.audio_turn (Demo.self s') = S (Demo.audio_turn (Demo.self s))) /\
  (forall s,
      Demo.audio_buffer (Demo.self s) = [] -> Demo._save_audio s = Returned tt s) /\
  (forall bytes s,
      bytes <> [] ->
      exists s',
        Demo._on_data (MBinary bytes) s = Returned tt s' /\
        Demo.audio_buffer (Demo.self s') = Demo.audio_buffer (Demo.self s) ++ bytes /\
        List.length (Demo.audio_buffer (Demo.self s'))
        = (List.length (Demo.audio_buffer (Demo.self s)) + List.length bytes)%nat) /\
  (forall s e,
      Demo.buffer_like (chunk (conn (Demo.w s)) e) s (Demo.step s e)).
Proof.
  repeat apply conj.
  - intros label s H. eexists. eexists.
    split; [now apply HarnessFacts.h_save_audio_flush|]. repeat split.
  - intros label s H. now apply HarnessFacts.h_save_audio_empty.
  - intros bytes s H. destruct bytes as [|b bytes]; [contradiction|].
    eexists. split; [reflexivity|]. cbn. split; [reflexivity|].
    now rewrite length_app.
  - apply HarnessAudio.h_buffer_step.
  - intros s H. eexists. eexists.
    split; [now apply DemoFacts.d_save_audio_flush|]. repeat split.
  - intros s H. now apply DemoFacts.d_save_audio_empty.
  - intros bytes s H. destruct bytes as [|b bytes]; [contradiction|].
    eexists. split; [reflexivity|]. cbn. split; [reflexivity|].
    now rewrite length_app.
  - apply DemoAudio.d_buffer_step.
Qed.

(** Two chunks, then a flush. *)
Lemma audio_buffer_witness :
  let s := Demo.run (Demo.boot env0 scenario_d)
             (handshake ++ [EvFrame (MBinary [x01; x02]); EvFrame (MBinary [x03])]) in
  exists s' name,
    Demo._save_audio s = Returned tt s' /\
    Demo.audio_buffer (Demo.self s') = [] /\
    files (Demo.w s') = [Sink name [x01; x02; x03]].
Proof.
  intros s.
  destruct (proj1 (proj2 (proj2 (proj2 (proj2 audio_buffer_flushes)))) s)
    as (s' & name & H1 & H2 & H3 & _).
  - vm_compute. discriminate.
  - exists s', name. repeat split; assumption.
Defined.
Module HarnessCases.
Import Harness HarnessFacts.

Lemma h_step_open s :
  conn (w s) = CConnecting -> step s EvOpen = opened s.
Proof. intros H. unfold step. rewrite H. reflexivity. Qed.

Lemma h_step_open_other s :
  conn (w s) <> CConnecting -> step s EvOpen = s.
Proof. intros H. unfold step. destruct (conn (w s)); congruence. Qed.

Lemma h_step_close s :
  conn (w s) = CConnecting \/ conn (w s) = COpen \/ conn (w s) = CClosing ->
  step s EvClose = shut s.
Proof.
  intros H. unfold step, shut.
  assert (E : callback _on_close (on_world (with_conn CClosed) s)
              = on_self (with_done_event true)
                  (if nilb (audio_buffer (self s))
                   then on_self (with_keepalive_stop true) (on_world (with_conn CClosed) s)
                   else flushed (on_self (with_keepalive_stop true)
                                   (on_world (with_conn CClosed) s)))).
  { unfold callback, _on_close, bind, modify.
    destruct (audio_buffer (self s)) eqn:Eb.
    - rewrite h_save_audio_empty by exact Eb. reflexivity.
    - rewrite h_save_audio_flush by (cbn; congruence). reflexivity. }
  destruct H as [H | [H | H]]; rewrite H; exact E.
Qed.

Lemma h_step_close_other s :
  conn (w s) = CInit \/ conn (w s) = CClosed -> step s EvClose = s.
Proof. intros [H | H]; unfold step; rewrite H; reflexivity. Qed.

(** What a frame does on the open socket. *)
Lemma h_step_frame s m :
  conn (w s) = COpen ->
  step s (EvFrame m) = s \/
  (exists bytes, m = MBinary bytes /\
     step s (EvFrame m)
     = on_self (fun r => with_audio_buffer (audio_buffer r ++ bytes) r) s) \/
  step s (EvFrame m) = after_settings_applied s \/
  (exists role content, step s (EvFrame m) = after_conversation_text role content s) \/
  (audio_buffer (self s) <> [] /\ step s (EvFrame m) = flushed s) \/
  (exists code desc, step s (EvFrame m) = after_error code desc s) \/
  (exists code desc, step s (EvFrame m) = after_warning code desc s).
Proof.
  intros Hc. unfold step. rewrite Hc.
  destruct m as [[ev|]|bytes].
  - unfold callback at 2. simpl _on_data. unfold ret.
    destruct ev; try (left; reflexivity).
    unfold callback, _on_message, bind. rewrite get_field.
    destruct (eq_str (field "type" d) "SettingsApplied").
    { right. right. left. reflexivity. }
    destruct (eq_str (field "type" d) "ConversationText").
    { right. right. right. left. exists (field "role" d), (field "content" d).
      rewrite !get_field. unfold conversation_append, modify, after_conversation_text.
      destruct (eq_str (field "role" d) "assistant") eqn:Er.
      - apply eq_str_true in Er. rewrite Er. reflexivity.
      - destruct (field "role" d); try reflexivity.
        simpl in Er. rewrite Er. reflexivity. }
    destruct (eq_str (field "type" d) "AgentAudioDone").
    { destruct (audio_buffer (self s)) eqn:Eb.
      - left. now rewrite h_save_audio_empty.
      - right. right. right. right. left. split; [congruence|].
        rewrite h_save_audio_flush by congruence. reflexivity. }
    destruct (eq_str (field "type" d) "Error") eqn:Ee.
    { right. right. right. right. right. left.
      exists (field "code" d), (field "description" d).
      rewrite !get_field. unfold modify, after_error, code_entry, idle_timeout, fatal_codes.
      destruct (eq_str (field "code" d) "CLIENT_MESSAGE_TIMEOUT");
        destruct (in_strs (field "code" d) ["INVALID_SETTINGS"; "UNPARSABLE_CLIENT_MESSAGE"]);
        reflexivity. }
    destruct (eq_str (field "type" d) "Warning").
    { right. right. right. right. right. right.
      exists (field "code" d), (field "description" d).
      rewrite !get_field. reflexivity. }
    left. reflexivity.
  - left. reflexivity.
  - unfold callback, _on_data, _on_message.
    destruct (0 <? List.length bytes)%nat eqn:Hl.
    + right. left. exists bytes. split; reflexivity.
    + left. reflexivity.
Qed.

Lemma h_step_frame_other s m : conn (w s) <> COpen -> step s (EvFrame m) = s.
Proof. intros H. unfold step. destruct (conn (w s)); congruence. Qed.

End HarnessCases.
Lemma conn_w_close_CClosed w0 : conn (w_close w0) = CClosed -> conn w0 = CClosed.
Proof. unfold w_close. destruct (conn w0) eqn:E; cbn; congruence. Qed.

Lemma conn_w_close_not_open w0 : conn (w_close w0) <> COpen.
Proof. unfold w_close. destruct (conn w0) eqn:E; cbn; congruence. Qed.

Module HarnessInv.
Import Harness HarnessFacts HarnessCases.

(** The case analysis of a step: one goal for each way a step can go. *)
Ltac h_main_cases s :=
  unfold step, run_step;
  destruct (main s) eqn:?Em;
  [ destruct (conn (w s)) eqn:?Ec | |
    match goal with |- context [done_event (self s) || ?b] =>
      destruct (done_event (self s)) eqn:?Ed; [|destruct b eqn:?Et]; cbn [orb]
    end
  | destruct (conn_eqb (conn (w s)) CClosed) eqn:?Eq
  | | | |
    match goal with |- context [conn_eqb (conn (w s)) CClosed || ?b] =>
      destruct (conn_eqb (conn (w s)) CClosed) eqn:?Eq; [|destruct b eqn:?Et]; cbn [orb]
    end
  | ].

Ltac h_open_cases s :=
  destruct (conn (w s)) eqn:?Ec;
  first [ rewrite (@h_step_open s) by assumption
        | rewrite (@h_step_open_other s) by congruence ].

Ltac h_close_cases s :=
  destruct (conn (w s)) eqn:?Ec;
  first [ rewrite (@h_step_close_other s) by (auto; fail)
        | rewrite (@h_step_close s) by (auto; fail) ].

Ltac h_frame_cases s m :=
  destruct (conn (w s)) eqn:?Ec;
  first [ rewrite (@h_step_frame_other s m) by congruence
        | let E := fresh "E" in
          let Hb := fresh "Hb" in
          let Em := fresh "Em" in
          match goal with Hc : conn (w s) = COpen |- _ =>
            destruct (@h_step_frame s m Hc)
              as [E|[(?bytes & Em & E)|[E|[(?role & ?content & E)
                 |[(Hb & E)|[(?code & ?desc & E)|(?code & ?desc & E)]]]]]];
            rewrite E; clear E
          end ].

Ltac h_keepalive_cases s k :=
  unfold step;
  destruct (nth_error (keepalive_threads s) k) as [?pc|] eqn:?Ek;
  [ match goal with
    | |- context [keepalive_step k true ?st ?pc (w s)] =>
        let Hw := fresh "Hw" in
        pose proof (keepalive_step_world k true st pc (w s)) as Hw;
        destruct (keepalive_step k true st pc (w s)) as [?pc' ?w'];
        simpl in Hw; destruct Hw as [-> | (?Hc & ?Hp & ->)]
    end
  | ].

Ltac h_turns_cases s k :=
  unfold step;
  destruct (nth_error (turn_threads s) k) as [[?born ?pc]|] eqn:?Ek;
  [ match goal with
    | |- context [_send_turns_step k (t_pc {| t_born := ?b; t_pc := ?pc |}) s] =>
        cbn [t_pc t_born]; destruct pc; cbn [_send_turns_step];
        [ destruct (nth_error (turns (scenario (self s))) _) as [[?label ?text]|] eqn:?En
        | match goal with |- context [?a <=? now (w s)] =>
            destruct (a <=? now (w s)) eqn:?Et end
        |
        | unfold w_send; destruct (conn (w s)) eqn:?Ec
        |
        | match goal with |- context [?a <=? now (w s)] =>
            destruct (a <=? now (w s)) eqn:?Et end
        | | | | ]
    end
  | ].

Ltac h_cases s e :=
  destruct e as [| |?m| |?d|?l|?k|?k];
  [ h_main_cases s
  | h_open_cases s
  | match goal with |- context [step s (EvFrame ?m)] => h_frame_cases s m end
  | h_close_cases s
  | unfold step
  | unfold step
  | match goal with |- context [step s (EvKeepalive ?k)] => h_keepalive_cases s k end
  | match goal with |- context [step s (EvTurns ?k)] => h_turns_cases s k end ].

(** The states of the case analysis, unfolded. *)
Ltac h_unfold :=
  unfold after_conversation_text, after_error, after_warning,
    after_settings_applied, opened, shut;
  repeat match goal with
    | |- context [match ?r with JStr _ => _ | _ => _ end] => destruct r
    | |- context [if eq_str ?c idle_timeout then _ else _] =>
        destruct (eq_str c idle_timeout) eqn:?Ei
    | |- context [if in_strs ?c fatal_codes then _ else _] =>
        destruct (in_strs c fatal_codes) eqn:?Ef
    | |- context [if nilb (audio_buffer (self ?s)) then _ else _] =>
        destruct (audio_buffer (self s)) eqn:?Eb; cbn [nilb]
    end;
  unfold flushed; cbn;
  repeat match goal with
    | Hc : conn (w ?s) = _ |- context [conn (w ?s)] => rewrite Hc
    end;
  cbn.

(** Once the socket has closed the completion signal and the stop flag are
    set and the buffer is empty. *)
Lemma h_closed_flags_step s e :
  (conn (w s) = CClosed ->
   done_event (self s) = true /\ _keepalive_stop (self s) = true /\
   audio_buffer (self s) = []) ->
  conn (w (step s e)) = CClosed ->
  done_event (self (step s e)) = true /\ _keepalive_stop (self (step s e)) = true /\
  audio_buffer (self (step s e)) = [].
Proof.
  intros H. h_cases s e; h_unfold.
  all: try (intros Hx; apply conn_w_close_CClosed in Hx; revert Hx).
  all: try solve [intuition congruence].
Qed.

Lemma h_reach (P : sys -> Prop) s0 :
  P s0 -> (forall s e, P s -> P (step s e)) -> forall sch, P (run s0 sch).
Proof.
  intros H0 Hs sch. revert s0 H0.
  induction sch as [|e sch IH]; intros s0 H0; [exact H0|].
  rewrite h_run_cons. apply IH, Hs, H0.
Qed.

Lemma h_step_env s e : env (step s e) = env s.
Proof. h_cases s e; h_unfold; reflexivity. Qed.

Lemma h_run_env s sch : env (run s sch) = env s.
Proof.
  revert s. induction sch as [|e sch IH]; intros s; [reflexivity|].
  rewrite h_run_cons, IH. apply h_step_env.
Qed.

Lemma h_wired_step s e : wired s -> wired (step s e).
Proof.
  unfold wired. intros H. h_cases s e; h_unfold;
    rewrite ?length_set_nth, ?outbox_w_close, ?closed_w_close, ?length_app;
    cbn [List.length].
  all: try solve [intuition (try congruence; try lia)].
  all: intuition (try congruence; try lia).
  all: exfalso; eapply conn_w_close_not_open; eassumption.
Qed.

Lemma h_wired e sc sch : wired (run (boot e sc) sch).
Proof.
  apply h_reach; [|apply h_wired_step].
  unfold wired. cbn. intuition (try congruence; try lia).
Qed.

Lemma h_closed_flags e sc sch :
  let s := run (boot e sc) sch in
  conn (w s) = CClosed ->
  done_event (self s) = true /\ _keepalive_stop (self s) = true /\
  audio_buffer (self s) = [].
Proof.
  cbv zeta.
  apply (@h_reach (fun s => conn (w s) = CClosed ->
                     done_event (self s) = true /\ _keepalive_stop (self s) = true /\
                     audio_buffer (self s) = [])).
  - cbn. discriminate.
  - intros s ev. apply h_closed_flags_step.
Qed.

Lemma configured_snoc (o : list sent) x rest f :
  o = x :: rest -> Forall thread_frame rest -> thread_frame f ->
  exists t' rest', o ++ [f] = Sent t' (sent_by x) (sent_msg x) :: rest'
                   /\ Forall thread_frame rest'.
Proof.
  intros -> Hr Hf. exists (sent_at x), (rest ++ [f]). split.
  - now destruct x.
  - apply Forall_app. split; auto.
Qed.

Lemma h_configured_step s e : wired s -> configured s -> configured (step s e).
Proof.
  unfold configured. intros Hw H. h_cases s e; h_unfold;
    rewrite ?outbox_w_close.
  all: try exact H.
  all: try (intros _; exact (H eq_refl)).
  - intros _. destruct Hw as (W1 & W2 & _).
    destruct (_ws_ref (self s)) eqn:Er.
    + destruct (W2 eq_refl) as [W | W]; rewrite Ec in W; discriminate.
    + destruct (W1 eq_refl) as [-> _]. exists (now (w s)), []. split; auto.
  - intros Hr. destruct (H Hr) as (t & rest & Ho & Hf).
    apply (@configured_snoc _ _ _ _ Ho Hf). cbn. reflexivity.
  - intros Hr. destruct (H Hr) as (t & rest & Ho & Hf).
    apply (@configured_snoc _ _ _ _ Ho Hf). cbn. eauto.
Qed.

Lemma h_configured e sc sch : configured (run (boot e sc) sch).
Proof.
  apply (@h_reach (fun s => wired s /\ configured s)).
  - split; [apply (h_wired e sc [])|]. unfold configured. cbn. discriminate.
  - intros s ev [Hw Hc]. split; [now apply h_wired_step | now apply h_configured_step].
Qed.
End HarnessInv.
Lemma files_w_close w0 : files (w_close w0) = files w0.
Proof. unfold w_close. now destruct (conn w0). Qed.

Module HarnessAudioInv.
Import Harness HarnessFacts HarnessCases HarnessInv.

(** The audio heard is on disk or in the buffer. *)
Lemma h_audio_step s e :
  on_disk (w (step s e)) ++ audio_buffer (self (step s e))
  = (on_disk (w s) ++ audio_buffer (self s)) ++ chunk (conn (w s)) e.
Proof.
  destruct (HarnessAudio.h_buffer_step s e)
    as [(Hb & Hf & _) | (Hc & _ & Hb & (name & Hf) & _)]; unfold on_disk.
  - rewrite Hb, Hf. now rewrite app_assoc.
  - rewrite Hb, Hf, Hc, map_app, concat_app. cbn. now rewrite !app_nil_r.
Qed.

Lemma h_audio_run s sch :
  on_disk (w (run s sch)) ++ audio_buffer (self (run s sch))
  = (on_disk (w s) ++ audio_buffer (self s)) ++ heard s sch.
Proof.
  revert s. induction sch as [|e sch IH]; intros s.
  - cbn. now rewrite app_nil_r.
  - rewrite h_run_cons, IH, h_audio_step. cbn [heard]. now rewrite !app_assoc.
Qed.

Lemma h_sinks_step s e :
  Forall (fun f => sink_data f <> []) (files (w s)) /\
  audio_turn (self s) = List.length (files (w s)) ->
  Forall (fun f => sink_data f <> []) (files (w (step s e))) /\
  audio_turn (self (step s e)) = List.length (files (w (step s e))).
Proof.
  intros [H1 H2].
  destruct (HarnessAudio.h_buffer_step s e)
    as [(Hb & Hf & Ht) | (Hc & Hn & Hb & (name & Hf) & Ht)].
  - rewrite Hf, Ht. auto.
  - rewrite Hf, Ht, length_app. cbn. split; [|lia].
    apply Forall_app. split; auto.
Qed.

(** The list of audio files in the results describes the files written. *)
Lemma h_audio_files_step s e :
  audio_turn (self s) = List.length (files (w s)) ->
  map (fun a => (file a, size_bytes a)) (audio_files (results (self s)))
  = map (fun f => (sink_name f, List.length (sink_data f))) (files (w s)) ->
  map turn (audio_files (results (self s))) = seq 1 (List.length (files (w s))) ->
  map (fun a => (file a, size_bytes a)) (audio_files (results (self (step s e))))
  = map (fun f => (sink_name f, List.length (sink_data f))) (files (w (step s e))) /\
  map turn (audio_files (results (self (step s e))))
  = seq 1 (List.length (files (w (step s e)))).
Proof.
  intros Ht H1 H2. h_cases s e; h_unfold.
  all: rewrite ?files_w_close.
  all: try (split; assumption).
  all: unfold w_write; cbn; rewrite ?map_app, ?length_app, ?seq_app; cbn.
  all: rewrite H1, H2, Ht; split; reflexivity.
Qed.

(** The names of the files written count the turns from 1. *)
Lemma h_names_step s e :
  audio_turn (self s) = List.length (files (w s)) ->
  Forall2 (fun n f => exists t,
             sink_name f = [FS (id (scenario (self s))); FS "_turn"; FN n; FS "_";
                            FTime t; FS ".pcm"])
          (seq 1 (List.length (files (w s)))) (files (w s)) ->
  Forall2 (fun n f => exists t,
             sink_name f = [FS (id (scenario (self (step s e)))); FS "_turn"; FN n;
                            FS "_"; FTime t; FS ".pcm"])
          (seq 1 (List.length (files (w (step s e))))) (files (w (step s e))).
Proof.
  intros Ht H. h_cases s e; h_unfold.
  all: rewrite ?files_w_close.
  all: try assumption.
  all: unfold w_write; cbn; rewrite ?length_app, ?seq_app; cbn.
  all: apply Forall2_app; [assumption|]; constructor; [|constructor].
  all: rewrite Ht; eexists; reflexivity.
Qed.

Lemma h_audio_files e sc sch :
  let s := run (boot e sc) sch in
  (Forall (fun f => sink_data f <> []) (files (w s)) /\
   audio_turn (self s) = List.length (files (w s))) /\
  (map (fun a => (file a, size_bytes a)) (audio_files (results (self s)))
   = map (fun f => (sink_name f, List.length (sink_data f))) (files (w s)) /\
   map turn (audio_files (results (self s))) = seq 1 (List.length (files (w s)))) /\
  Forall2 (fun n f => exists t,
             sink_name f = [FS (id (scenario (self s))); FS "_turn"; FN n; FS "_";
                            FTime t; FS ".pcm"])
          (seq 1 (List.length (files (w s)))) (files (w s)).
Proof.
  cbv zeta. apply h_reach.
  - cbn. repeat split; constructor.
  - intros s ev (H1 & H2 & H3). split; [now apply h_sinks_step|].
    split; [apply h_audio_files_step; tauto | apply h_names_step; tauto].
Qed.
End HarnessAudioInv.
Lemma set_nth_split A (l : list A) k t t' :
  nth_error l k = Some t ->
  exists l1 l2, l = l1 ++ t :: l2 /\ set_nth k t' l = l1 ++ t' :: l2.
Proof.
  revert k. induction l as [|x l IH]; intros [|k] H; try discriminate.
  - injection H as ->. exists [], l. auto.
  - destruct (IH k H) as (l1 & l2 & -> & E). exists (x :: l1), l2.
    cbn. now rewrite E.
Qed.

Lemma flat_map_set_nth A B (f : A -> list B) (l : list A) k t t' :
  nth_error l k = Some t ->
  Permutation (f t ++ flat_map f (set_nth k t' l)) (f t' ++ flat_map f l).
Proof.
  intros H. destruct (@set_nth_split _ _ _ _ t' H) as (l1 & l2 & -> & ->).
  rewrite !flat_map_app. cbn.
  rewrite !app_assoc.
  apply Permutation_app_tail.
  rewrite <- !app_assoc.
  etransitivity; [apply Permutation_app_swap_app|].
  etransitivity; [|apply Permutation_app_swap_app].
  apply Permutation_app_head. apply Permutation_app_comm.
Qed.

Lemma flat_map_set_nth_same A B (f : A -> list B) (l : list A) k t t' :
  nth_error l k = Some t -> f t' = f t ->
  flat_map f (set_nth k t' l) = flat_map f l.
Proof.
  intros H E. destruct (@set_nth_split _ _ _ _ t' H) as (l1 & l2 & -> & ->).
  rewrite !flat_map_app. cbn. now rewrite E.
Qed.

Lemma Forall_set_nth A (P : A -> Prop) (l : list A) k a :
  Forall P l -> P a -> Forall P (set_nth k a l).
Proof.
  intros H Ha. revert k. induction H as [|x l Hx Hl IH]; intros [|k]; cbn;
    constructor; auto.
Qed.

Lemma Forall_nth_error A (P : A -> Prop) (l : list A) k a :
  Forall P l -> nth_error l k = Some a -> P a.
Proof.
  intros H E. rewrite Forall_forall in H. apply H. eapply nth_error_In; eauto.
Qed.

Module HarnessTranscript.
Import Harness HarnessFacts HarnessCases HarnessInv.

Lemma h_scripted_step s e :
  Forall (scripted (turns (scenario (self s)))) (turn_threads s) ->
  Forall (scripted (turns (scenario (self (step s e))))) (turn_threads (step s e)).
Proof.
  intros H. h_cases s e; h_unfold.
  all: try assumption.
  all: try (apply Forall_app; split; [assumption|repeat constructor]).
  all: try (apply Forall_set_nth; [assumption|]; unfold scripted; cbn; try exact I).
  all: try assumption.
  all: match goal with Ek : nth_error (turn_threads _) _ = Some _ |- _ =>
         exact (@Forall_nth_error _ _ _ _ _ H Ek) end.
Qed.

(** The labelled entries of the transcript are turns of the scenario. *)
Lemma h_labelled_step s e :
  Forall (scripted (turns (scenario (self s)))) (turn_threads s) ->
  Forall (fun x => exists label text,
            x = turn_entry label text /\
            In (label, text) (turns (scenario (self s))))
         (filter labelled (conversation (results (self s)))) ->
  Forall (fun x => exists label text,
            x = turn_entry label text /\
            In (label, text) (turns (scenario (self (step s e)))))
         (filter labelled (conversation (results (self (step s e))))).
Proof.
  intros Hs H. h_cases s e; h_unfold; rewrite ?filter_app; cbn;
    rewrite ?app_nil_r.
  all: try assumption.
  apply Forall_app. split; [assumption|]. constructor; [|constructor].
  pose proof (@Forall_nth_error _ _ _ _ _ Hs Ek) as Hk. unfold scripted in Hk. cbn in Hk.
  eexists _, _. split; [reflexivity|]. eapply nth_error_In; eauto.
Qed.

(** The user turns sent are those of the labelled entries and of the
    threads about to append. *)
Lemma h_transcript_step s e :
  Permutation
    (map (fun m => content_of (sent_msg m)) (user_turns (outbox (w s))))
    (map content_of (filter labelled (conversation (results (self s))))
     ++ flat_map appending (turn_threads s)) ->
  Permutation
    (map (fun m => content_of (sent_msg m)) (user_turns (outbox (w (step s e)))))
    (map content_of (filter labelled (conversation (results (self (step s e)))))
     ++ flat_map appending (turn_threads (step s e))).
Proof.
  intros H. h_cases s e; h_unfold; rewrite ?outbox_w_close; unfold user_turns;
    rewrite ?filter_app, ?map_app, ?flat_map_app; cbn; rewrite ?app_nil_r.
  all: try assumption.
  all: try (rewrite (@flat_map_set_nth_same _ _ appending _ _ _ _ Ek) by reflexivity;
            assumption).
  - pose proof (@flat_map_set_nth _ _ appending _ _ _
                  {| t_born := born; t_pc := TAppend i label text |} Ek) as P.
    cbn in P. rewrite P.
    etransitivity; [apply Permutation_app_tail, H|].
    rewrite <- app_assoc. apply Permutation_app_head.
    symmetry. apply Permutation_cons_append.
  - pose proof (@flat_map_set_nth _ _ appending _ _ _
                  {| t_born := born; t_pc := TLoop (S i) |} Ek) as P.
    cbn in P. rewrite <- app_assoc. cbn. rewrite P. exact H.
Qed.

(** With one turn thread the labelled entries are the first turns, in
    their order. *)
Lemma one_thread A (Q Q' : A -> Prop) (R R' : Prop) (l : list A) k t t' :
  nth_error l k = Some t ->
  match l with [] => R | [x] => Q x | _ => True end ->
  (Q t -> Q' t') ->
  match set_nth k t' l with [] => R' | [x] => Q' x | _ => True end.
Proof.
  destruct l as [|x [|y r]]; destruct k as [|[|k]]; cbn; try discriminate; auto.
  all: try (intros [= ->]; auto).
Qed.

Lemma h_single_step s e :
  Forall (scripted (turns (scenario (self s)))) (turn_threads s) ->
  match turn_threads s with
  | [] => filter labelled (conversation (results (self s))) = []
  | [t] =>
      filter labelled (conversation (results (self s)))
      = map (fun x => turn_entry (fst x) (snd x))
            (firstn (progress (List.length (turns (scenario (self s)))) (t_pc t))
                    (turns (scenario (self s))))
  | _ => True
  end ->
  match turn_threads (step s e) with
  | [] => filter labelled (conversation (results (self (step s e)))) = []
  | [t] =>
      filter labelled (conversation (results (self (step s e))))
      = map (fun x => turn_entry (fst x) (snd x))
            (firstn (progress (List.length (turns (scenario (self (step s e)))))
                              (t_pc t))
                    (turns (scenario (self (step s e)))))
  | _ => True
  end.
Proof.
  intros Hs H. h_cases s e; h_unfold; rewrite ?filter_app; cbn;
    rewrite ?app_nil_r.
  all: try assumption.
  all: try (match goal with Ek : nth_error (turn_threads _) _ = Some _ |- _ =>
              refine (@one_thread _ _ _ _ _ _ _ _ _ Ek H _); cbn; intros Hq;
              pose proof (@Forall_nth_error _ _ _ _ _ Hs Ek) as Hk;
              unfold scripted in Hk; cbn in Hk
            end).
  all: try assumption.
  - destruct (turn_threads s) as [|x [|y r]]; cbn; auto.
  - rewrite Hq, firstn_all. rewrite firstn_all2; [reflexivity|].
    now apply nth_error_None.
  - change (match turns (scenario (self s)) with
            | [] => []
            | a :: l => a :: firstn i l
            end) with (firstn (S i) (turns (scenario (self s)))).
    rewrite (@firstn_S_nth _ _ _ _ Hk), map_app, <- Hq. reflexivity.
Qed.

Lemma h_transcript e sc sch :
  let s := run (boot e sc) sch in
  Forall (scripted (turns sc)) (turn_threads s) /\
  Forall (fun x => exists label text,
            x = turn_entry label text /\ In (label, text) (turns sc))
         (filter labelled (conversation (results (self s)))) /\
  Permutation
    (map (fun m => content_of (sent_msg m)) (user_turns (outbox (w s))))
    (map content_of (filter labelled (conversation (results (self s))))
     ++ flat_map appending (turn_threads s)) /\
  match turn_threads s with
  | [] => filter labelled (conversation (results (self s))) = []
  | [t] =>
      filter labelled (conversation (results (self s)))
      = map (fun x => turn_entry (fst x) (snd x))
            (firstn (progress (List.length (turns sc)) (t_pc t)) (turns sc))
  | _ => True
  end.
Proof.
  cbv zeta.
  assert (H : (fun s =>
    Forall (scripted (turns (scenario (self s)))) (turn_threads s) /\
    Forall (fun x => exists label text,
              x = turn_entry label text /\
              In (label, text) (turns (scenario (self s))))
           (filter labelled (conversation (results (self s)))) /\
    Permutation
      (map (fun m => content_of (sent_msg m)) (user_turns (outbox (w s))))
      (map content_of (filter labelled (conversation (results (self s))))
       ++ flat_map appending (turn_threads s)) /\
    match turn_threads s with
    | [] => filter labelled (conversation (results (self s))) = []
    | [t] =>
        filter labelled (conversation (results (self s)))
        = map (fun x => turn_entry (fst x) (snd x))
              (firstn (progress (List.length (turns (scenario (self s)))) (t_pc t))
                      (turns (scenario (self s))))
    | _ => True
    end) (run (boot e sc) sch)).
  { apply h_reach.
    - cbn. repeat split; constructor.
    - intros s ev (H1 & H2 & H3 & H4).
      split; [now apply h_scripted_step|].
      split; [now apply h_labelled_step|].
      split; [now apply h_transcript_step | now apply h_single_step]. }
  cbv beta in H. rewrite HarnessRuns.h_run_scenario in H. exact H.
Qed.
End HarnessTranscript.
Lemma conn_eqb_eq a b : conn_eqb a b = true -> a = b.
Proof. destruct a, b; cbn; congruence. Qed.

Module HarnessThreads.
Import Harness HarnessFacts HarnessCases HarnessInv.

#[local] Arguments seconds : simpl never.
#[local] Arguments N.add : simpl never.
#[local] Arguments N.mul : simpl never.


(** When [run] returns the stop flag is set and the socket is closed or
    being closed. *)
Lemma h_returned_step s e :
  (conn (w s) = CClosed -> _keepalive_stop (self s) = true) ->
  match main s with
  | MClose => _keepalive_stop (self s) = true
  | MJoinCall | MJoining _ | MReturned =>
      _keepalive_stop (self s) = true /\ closed (conn (w s)) = true
  | _ => True
  end ->
  match main (step s e) with
  | MClose => _keepalive_stop (self (step s e)) = true
  | MJoinCall | MJoining _ | MReturned =>
      _keepalive_stop (self (step s e)) = true /\ closed (conn (w (step s e))) = true
  | _ => True
  end.
Proof.
  intros Hc H. h_cases s e; h_unfold; rewrite ?closed_w_close.
  all: try exact I.
  all: try assumption.
  all: try (split; [assumption|reflexivity]).
  all: try solve [intuition congruence].
  all: try solve [match goal with |- context [main ?s] => destruct (main s) end;
                  cbn in *; intuition congruence].
  - split; [apply Hc|]; apply conn_eqb_eq in Eq; rewrite Eq; reflexivity.
  - rewrite Hc0 in H. destruct (main s); cbn in *; intuition congruence.
Qed.

Lemma h_stop_mono_step s e :
  _keepalive_stop (self s) = true -> _keepalive_stop (self (step s e)) = true.
Proof. intros H. h_cases s e; h_unfold; auto; congruence. Qed.

Lemma h_done_mono_step s e :
  done_event (self s) = true -> done_event (self (step s e)) = true.
Proof. intros H. h_cases s e; h_unfold; auto; congruence. Qed.

(** The case analysis of a step of a keep-alive loop, with its next
    statement. *)
Ltac h_keepalive_pcs s k :=
  unfold step;
  destruct (nth_error (keepalive_threads s) k) as [?pc|] eqn:?Ek;
  [ match goal with
    | |- context [keepalive_step k true ?st ?pc (w s)] =>
        destruct pc; cbn [keepalive_step];
        [ destruct st eqn:?Es
        |
        | match goal with |- context [st || ?b] =>
            destruct st eqn:?Es; [|destruct b eqn:?Et]; cbn [orb] end
        | destruct st eqn:?Es
        | unfold w_send; destruct (conn (w s)) eqn:?Ec
        | ]
    end
  | ].

Ltac h_cases' s e :=
  destruct e as [| |?m| |?d|?l|?k|?k];
  [ h_main_cases s
  | h_open_cases s
  | match goal with |- context [step s (EvFrame ?m)] => h_frame_cases s m end
  | h_close_cases s
  | unfold step
  | unfold step
  | match goal with |- context [step s (EvKeepalive ?k)] => h_keepalive_pcs s k end
  | match goal with |- context [step s (EvTurns ?k)] => h_turns_cases s k end ].

Lemma h_wired_pool s :
  wired s ->
  (0 < List.length (keepalive_threads s))%nat ->
  conn (w s) = COpen \/ closed (conn (w s)) = true.
Proof.
  intros (W1 & W2 & W3 & W4 & W5 & W6) Hl.
  destruct (settings_applied (results (self s))) eqn:Ea.
  - destruct (_ws_ref (self s)) eqn:Er; [auto|].
    destruct (W1 eq_refl). congruence.
  - specialize (W4 eq_refl). lia.
Qed.

Lemma h_wired_keepalive s k pc :
  wired s -> nth_error (keepalive_threads s) k = Some pc ->
  conn (w s) = COpen \/ closed (conn (w s)) = true.
Proof.
  intros Hw Hk. apply h_wired_pool; auto.
  destruct (keepalive_threads s); [destruct k; discriminate|cbn; lia].
Qed.

Lemma h_wired_turns s k t :
  wired s -> nth_error (turn_threads s) k = Some t ->
  conn (w s) = COpen \/ closed (conn (w s)) = true.
Proof.
  intros Hw Hk. apply h_wired_pool; auto.
  destruct Hw as (_ & _ & _ & _ & _ & ->).
  destruct (turn_threads s); [destruct k; discriminate|cbn; lia].
Qed.

(** A thread ends before its time only on a closed socket, and a
    keep-alive loop only when told to stop or on a closed socket. *)
Lemma h_cause_step s e :
  wired s ->
  (closed (conn (w s)) = false ->
   Forall (fun t => forall i, t_pc t <> TDead i) (turn_threads s) /\
   (_keepalive_stop (self s) = false ->
    Forall (fun pc => pc <> KExit) (keepalive_threads s))) ->
  closed (conn (w (step s e))) = false ->
  Forall (fun t => forall i, t_pc t <> TDead i) (turn_threads (step s e)) /\
  (_keepalive_stop (self (step s e)) = false ->
   Forall (fun pc => pc <> KExit) (keepalive_threads (step s e))).
Proof.
  intros Hw H. h_cases' s e; h_unfold; rewrite ?closed_w_close.
  all: try discriminate.
  all: try assumption.
  all: intros Hcl;
    (destruct H as [H1 H2]; [first [exact Hcl | reflexivity | cbn; congruence]|]).
  all: split;
    [ first [ assumption
            | apply Forall_app; split; [assumption|repeat constructor; discriminate]
            | apply Forall_set_nth; [assumption|cbn; discriminate]
            | idtac ]
    | intros Hs;
      first [ discriminate
            | exact (H2 Hs)
            | apply Forall_app; split; [exact (H2 Hs)|repeat constructor; discriminate]
            | apply Forall_set_nth; [exact (H2 Hs)|discriminate]
            | congruence
            | idtac ] ].
  all: try (apply Forall_set_nth; [auto|discriminate]).
  all: try (exfalso; apply (@Forall_nth_error _ _ _ _ _ (H2 Hs)) in Ek; congruence).
  all: try (exfalso; destruct (@h_wired_keepalive _ _ _ Hw Ek) as [Hx|Hx];
            revert Hx;
            match goal with Hc : conn (w _) = _ |- _ => rewrite Hc end;
            discriminate).
  all: try (exfalso; destruct (@h_wired_turns _ _ _ Hw Ek) as [Hx|Hx];
            revert Hx;
            match goal with Hc : conn (w _) = _ |- _ => rewrite Hc end;
            discriminate).
  all: exfalso; pose proof (@Forall_nth_error _ _ _ _ _ H1 Ek) as Hd;
            cbn in Hd; exact (Hd _ eq_refl).
Qed.

Lemma h_cause e sc sch :
  let s := run (boot e sc) sch in
  closed (conn (w s)) = false ->
  Forall (fun t => forall i, t_pc t <> TDead i) (turn_threads s) /\
  (_keepalive_stop (self s) = false ->
   Forall (fun pc => pc <> KExit) (keepalive_threads s)).
Proof.
  cbv zeta.
  apply (@h_reach (fun s => wired s /\
    (closed (conn (w s)) = false ->
     Forall (fun t => forall i, t_pc t <> TDead i) (turn_threads s) /\
     (_keepalive_stop (self s) = false ->
      Forall (fun pc => pc <> KExit) (keepalive_threads s))))).
  - split; [apply (h_wired e sc [])|]. cbn. intros _. split; constructor.
  - intros s ev [Hw H]. split; [now apply h_wired_step | now apply h_cause_step].
Qed.


Lemma h_returned e sc sch :
  let s := run (boot e sc) sch in
  match main s with
  | MClose => _keepalive_stop (self s) = true
  | MJoinCall | MJoining _ | MReturned =>
      _keepalive_stop (self s) = true /\ closed (conn (w s)) = true
  | _ => True
  end.
Proof.
  cbv zeta.
  apply (@h_reach (fun s =>
    (conn (w s) = CClosed ->
     done_event (self s) = true /\ _keepalive_stop (self s) = true /\
     audio_buffer (self s) = []) /\
    match main s with
    | MClose => _keepalive_stop (self s) = true
    | MJoinCall | MJoining _ | MReturned =>
        _keepalive_stop (self s) = true /\ closed (conn (w s)) = true
    | _ => True
    end)).
  - cbn. split; [discriminate|exact I].
  - intros s ev [Hc H]. split; [now apply h_closed_flags_step|].
    apply h_returned_step; [|exact H]. intros Hx. now apply Hc.
Qed.
End HarnessThreads.


Module DemoCases.
Import Demo DemoFacts.

Lemma d_step_open s :
  conn (w s) = CConnecting -> step s EvOpen = opened s.
Proof.
  intros H. unfold step. rewrite H.
  unfold callback, _on_open, bind, modify, gets, ws_send, w_send. cbn.
  reflexivity.
Qed.

Lemma d_step_open_other s :
  conn (w s) <> CConnecting -> step s EvOpen = s.
Proof. intros H. unfold step. destruct (conn (w s)); congruence. Qed.

Lemma d_step_close s :
  conn (w s) = CConnecting \/ conn (w s) = COpen \/ conn (w s) = CClosing ->
  step s EvClose = shut s.
Proof.
  intros H. unfold step, shut.
  assert (E : callback _on_close (on_world (with_conn CClosed) s)
              = on_self (with_ready_for_input true)
                  (on_self (with_done true)
                    (if nilb (audio_buffer (self s))
                     then on_self (with_keepalive_stop true)
                            (on_world (with_conn CClosed) s)
                     else flushed (on_self (with_keepalive_stop true)
                                     (on_world (with_conn CClosed) s))))).
  { unfold callback, _on_close, bind, modify.
    destruct (audio_buffer (self s)) eqn:Eb.
    - rewrite d_save_audio_empty by exact Eb. reflexivity.
    - rewrite d_save_audio_flush by (cbn; congruence). reflexivity. }
  destruct H as [H | [H | H]]; rewrite H; exact E.
Qed.

Lemma d_step_close_other s :
  conn (w s) = CInit \/ conn (w s) = CClosed -> step s EvClose = s.
Proof. intros [H | H]; unfold step; rewrite H; reflexivity. Qed.

(** What a frame does on the open socket. *)
Lemma d_step_frame s m :
  conn (w s) = COpen ->
  step s (EvFrame m) = s \/
  (exists bytes, m = MBinary bytes /\
     step s (EvFrame m)
     = on_self (fun r => with_audio_buffer (audio_buffer r ++ bytes) r) s) \/
  step s (EvFrame m) = after_settings_applied s \/
  (exists role content, step s (EvFrame m) = after_conversation_text role content s) \/
  step s (EvFrame m) = audio_done s \/
  (exists code desc, step s (EvFrame m) = after_error code desc s).
Proof.
  intros Hc. unfold step. rewrite Hc.
  destruct m as [[ev|]|bytes].
  - unfold callback at 2. simpl _on_data. unfold ret.
    destruct ev; try (left; reflexivity).
    unfold callback, _on_message, bind. rewrite get_field.
    destruct (eq_str (field "type" d) "SettingsApplied").
    { right. right. left. unfold after_settings_applied, is_interactive.
      cbn. destruct (turns (scenario (self s))); reflexivity. }
    destruct (eq_str (field "type" d) "ConversationText").
    { right. right. right. left. exists (field "role" d), (field "content" d).
      rewrite !get_field. unfold conversation_append, modify, after_conversation_text.
      destruct (eq_str (field "role" d) "assistant"); reflexivity. }
    destruct (eq_str (field "type" d) "AgentAudioDone").
    { right. right. right. right. left. unfold audio_done.
      destruct (audio_buffer (self s)) eqn:Eb.
      - rewrite d_save_audio_empty by exact Eb. cbn.
        unfold gets. destruct (is_interactive s); reflexivity.
      - rewrite d_save_audio_flush by congruence. cbn [nilb].
        unfold gets.
        replace (is_interactive (flushed s)) with (is_interactive s) by reflexivity.
        destruct (is_interactive s); reflexivity. }
    destruct (eq_str (field "type" d) "Error") eqn:Ee.
    { right. right. right. right. right.
      exists (field "code" d), (field "description" d).
      rewrite !get_field. unfold modify, after_error, idle_timeout.
      destruct (eq_str (field "code" d) "CLIENT_MESSAGE_TIMEOUT"); reflexivity. }
    left. reflexivity.
  - left. reflexivity.
  - unfold callback, _on_data, _on_message.
    destruct (0 <? List.length bytes)%nat eqn:Hl.
    + right. left. exists bytes. split; reflexivity.
    + left. reflexivity.
Qed.

Lemma d_step_frame_other s m : conn (w s) <> COpen -> step s (EvFrame m) = s.
Proof. intros H. unfold step. destruct (conn (w s)); congruence. Qed.

End DemoCases.

Module DemoInv.
Import Demo DemoFacts DemoCases.

(** The case analysis of a step: one goal for each way a step can go. *)
Ltac d_main_cases s :=
  unfold step, run_step;
  destruct (main s) as [| |[?deadline|]| | | | | |] eqn:?Em;
  [ destruct (conn (w s)) eqn:?Ec
  | destruct (turns (scenario (self s))) as [?l|] eqn:?El
  | match goal with |- context [done (self s) || ?b] =>
      destruct (done (self s)) eqn:?Ed; [|destruct b eqn:?Et]; cbn [orb]
    end
  | destruct (done (self s)) eqn:?Ed; cbn [orb]
  | destruct (conn_eqb (conn (w s)) CClosed) eqn:?Eq
  | | | |
    match goal with |- context [conn_eqb (conn (w s)) CClosed || ?b] =>
      destruct (conn_eqb (conn (w s)) CClosed) eqn:?Eq; [|destruct b eqn:?Et]; cbn [orb]
    end
  | ].

Ltac d_open_cases s :=
  destruct (conn (w s)) eqn:?Ec;
  first [ rewrite (@d_step_open s) by assumption
        | rewrite (@d_step_open_other s) by congruence ].

Ltac d_close_cases s :=
  destruct (conn (w s)) eqn:?Ec;
  first [ rewrite (@d_step_close_other s) by (auto; fail)
        | rewrite (@d_step_close s) by (auto; fail) ].

Ltac d_frame_cases s m :=
  destruct (conn (w s)) eqn:?Ec;
  first [ rewrite (@d_step_frame_other s m) by congruence
        | let E := fresh "E" in
          let Em := fresh "Em" in
          match goal with Hc : conn (w s) = COpen |- _ =>
            destruct (@d_step_frame s m Hc)
              as [E|[(?bytes & Em & E)|[E|[(?role & ?content & E)
                 |[E|(?code & ?desc & E)]]]]];
            rewrite E; clear E
          end ].

Ltac d_keepalive_cases s k :=
  unfold step;
  destruct (nth_error (keepalive_threads s) k) as [?pc|] eqn:?Ek;
  [ match goal with
    | |- context [keepalive_step k ?ws ?st ?pc (w s)] =>
        let Hw := fresh "Hw" in
        pose proof (keepalive_step_world k ws st pc (w s)) as Hw;
        destruct (keepalive_step k ws st pc (w s)) as [?pc' ?w'];
        simpl in Hw; destruct Hw as [-> | (?Hc & ?Hp & ->)]
    end
  | ].

Ltac d_send_cases s :=
  unfold ws_send, w_send;
  destruct (_ws (self s)) eqn:?Ew; [destruct (conn (w s)) eqn:?Ec|].

Ltac d_leb_cases s :=
  match goal with |- context [?a <=? now (w s)] =>
    destruct (a <=? now (w s)) eqn:?Et end.

Ltac d_turns_cases s k :=
  unfold step;
  destruct (nth_error (turn_threads s) k) as [[?born ?pc]|] eqn:?Ek;
  [ match goal with
    | |- context [_send_turns_step k (t_pc {| t_born := ?b; t_pc := ?pc |}) s] =>
        cbn [t_pc t_born]; destruct pc; cbn [_send_turns_step];
        [ destruct (turns (scenario (self s))) as [?l|] eqn:?El;
          [ match goal with |- context [nth_error ?l ?i] =>
              destruct (nth_error l i) as [[?label ?text]|] eqn:?En end | ]
        | d_leb_cases s
        |
        | d_send_cases s
        |
        | d_leb_cases s
        | |
        | destruct (done (self s)) eqn:?Ed
        | destruct (_ready_for_input (self s)) eqn:?Er
        | |
        | destruct (stdin (w s)) as [|[?typed|] ?rest] eqn:?Ei
        | match goal with |- context [quits ?t] => destruct (quits t) eqn:?Eq end
        | d_send_cases s
        | |
        | d_leb_cases s
        |
        | destruct (_ws (self s)) eqn:?Ew
        | | ]
    end
  | ].

Ltac d_cases s e :=
  destruct e as [| |?m| |?d|?l|?k|?k];
  [ d_main_cases s
  | d_open_cases s
  | match goal with |- context [step s (EvFrame ?m)] => d_frame_cases s m end
  | d_close_cases s
  | unfold step
  | unfold step
  | match goal with |- context [step s (EvKeepalive ?k)] => d_keepalive_cases s k end
  | match goal with |- context [step s (EvTurns ?k)] => d_turns_cases s k end ].

(** The states of the case analysis, unfolded. *)
Ltac d_unfold :=
  unfold after_conversation_text, after_error, audio_done,
    after_settings_applied, opened, shut;
  repeat match goal with
    | |- context [if eq_str ?c idle_timeout then _ else _] =>
        destruct (eq_str c idle_timeout) eqn:?Ei
    | |- context [if eq_str ?c "assistant" then _ else _] =>
        destruct (eq_str c "assistant") eqn:?Ea
    | |- context [if nilb (audio_buffer (self ?s)) then _ else _] =>
        destruct (audio_buffer (self s)) eqn:?Eb; cbn [nilb]
    | |- context [if is_interactive ?s then _ else _] =>
        destruct (is_interactive s) eqn:?Ev
    end;
  unfold flushed, conversation_append, modify; cbn;
  repeat match goal with
    | Hc : conn (w ?s) = _ |- context [conn (w ?s)] => rewrite Hc
    end;
  cbn.

Lemma d_reach (P : sys -> Prop) s0 :
  P s0 -> (forall s e, P s -> P (step s e)) -> forall sch, P (run s0 sch).
Proof.
  intros H0 Hs sch. revert s0 H0.
  induction sch as [|e sch IH]; intros s0 H0; [exact H0|].
  rewrite d_run_cons. apply IH, Hs, H0.
Qed.

Lemma d_step_env s e : env (step s e) = env s.
Proof. d_cases s e; d_unfold; reflexivity. Qed.

Lemma d_run_env s sch : env (run s sch) = env s.
Proof.
  revert s. induction sch as [|e sch IH]; intros s; [reflexivity|].
  rewrite d_run_cons, IH. apply d_step_env.
Qed.

(** The socket has closed exactly when the completion signal is set; the
    stop flag and the readiness flag are then set and the buffer is
    empty. *)
Lemma d_closed_flags_step s e :
  ((conn (w s) = CClosed ->
    done (self s) = true /\ _keepalive_stop (self s) = true /\
    audio_buffer (self s) = []) /\
   (done (self s) = true -> conn (w s) = CClosed)) ->
  (conn (w (step s e)) = CClosed ->
   done (self (step s e)) = true /\ _keepalive_stop (self (step s e)) = true /\
   audio_buffer (self (step s e)) = []) /\
  (done (self (step s e)) = true -> conn (w (step s e)) = CClosed).
Proof.
  intros H. d_cases s e; d_unfold.
  all: try assumption.
  all: try solve [intuition congruence].
  all: destruct H as [H1 H2]; split;
    [ intros Hx; apply conn_w_close_CClosed in Hx; auto
    | intros Hd; rewrite w_close_closed; [auto|rewrite (H2 Hd); reflexivity] ].
Qed.

Lemma d_closed_flags e sc sch :
  let s := run (boot e sc) sch in
  (conn (w s) = CClosed ->
   done (self s) = true /\ _keepalive_stop (self s) = true /\
   audio_buffer (self s) = []) /\
  (done (self s) = true -> conn (w s) = CClosed).
Proof.
  cbv zeta.
  apply (@d_reach (fun s =>
    (conn (w s) = CClosed ->
     done (self s) = true /\ _keepalive_stop (self s) = true /\
     audio_buffer (self s) = []) /\
    (done (self s) = true -> conn (w s) = CClosed))).
  - cbn. split; discriminate.
  - intros s ev. apply d_closed_flags_step.
Qed.

Lemma d_wired_step s e : wired s -> wired (step s e).
Proof.
  unfold wired. intros H. d_cases s e; d_unfold;
    rewrite ?length_set_nth, ?outbox_w_close, ?closed_w_close, ?length_app;
    cbn [List.length].
  all: try solve [intuition (try congruence; try lia)].
  all: intuition (try congruence; try lia).
  all: exfalso; eapply conn_w_close_not_open; eassumption.
Qed.

Lemma d_wired e sc sch : wired (run (boot e sc) sch).
Proof.
  apply d_reach; [|apply d_wired_step].
  unfold wired. cbn. intuition (try congruence; try lia).
Qed.

Lemma d_configured_step s e : wired s -> configured s -> configured (step s e).
Proof.
  unfold configured. intros Hw H. d_cases s e; d_unfold;
    rewrite ?outbox_w_close.
  all: try exact H.
  all: try (intros _; exact (H eq_refl)).
  all: try (intros Hr; exfalso; congruence).
  - intros _. destruct Hw as (W1 & W2 & _).
    destruct (_ws (self s)) eqn:Er.
    + destruct (W2 eq_refl) as [W | W]; rewrite Ec in W; discriminate.
    + destruct (W1 eq_refl) as [-> _]. exists (now (w s)), []. split; auto.
  - intros Hr. destruct (H Hr) as (t & rest & Ho & Hf).
    apply (@HarnessInv.configured_snoc _ _ _ _ Ho Hf). cbn. reflexivity.
  - intros Hr. destruct (H eq_refl) as (t & rest & Ho & Hf).
    apply (@HarnessInv.configured_snoc _ _ _ _ Ho Hf). cbn. eauto.
  - intros Hr. destruct (H eq_refl) as (t & rest & Ho & Hf).
    apply (@HarnessInv.configured_snoc _ _ _ _ Ho Hf). cbn. eauto.
Qed.

Lemma d_configured e sc sch : configured (run (boot e sc) sch).
Proof.
  apply (@d_reach (fun s => wired s /\ configured s)).
  - split; [apply (d_wired e sc [])|]. unfold configured. cbn. discriminate.
  - intros s ev [Hw Hc]. split; [now apply d_wired_step | now apply d_configured_step].
Qed.
End DemoInv.

Module DemoAudioInv.
Import Demo DemoFacts DemoCases DemoInv.

(** The audio heard is on disk or in the buffer. *)
Lemma d_audio_step s e :
  on_disk (w (step s e)) ++ audio_buffer (self (step s e))
  = (on_disk (w s) ++ audio_buffer (self s)) ++ chunk (conn (w s)) e.
Proof.
  destruct (DemoAudio.d_buffer_step s e)
    as [(Hb & Hf & _) | (Hc & _ & Hb & (name & Hf) & _)]; unfold on_disk.
  - rewrite Hb, Hf. now rewrite app_assoc.
  - rewrite Hb, Hf, Hc, map_app, concat_app. cbn. now rewrite !app_nil_r.
Qed.

Lemma d_audio_run s sch :
  on_disk (w (run s sch)) ++ audio_buffer (self (run s sch))
  = (on_disk (w s) ++ audio_buffer (self s)) ++ heard s sch.
Proof.
  revert s. induction sch as [|e sch IH]; intros s.
  - cbn. now rewrite app_nil_r.
  - rewrite d_run_cons, IH, d_audio_step. cbn [heard]. now rewrite !app_assoc.
Qed.

Lemma d_sinks_step s e :
  Forall (fun f => sink_data f <> []) (files (w s)) /\
  audio_turn (self s) = List.length (files (w s)) ->
  Forall (fun f => sink_data f <> []) (files (w (step s e))) /\
  audio_turn (self (step s e)) = List.length (files (w (step s e))).
Proof.
  intros [H1 H2].
  destruct (DemoAudio.d_buffer_step s e)
    as [(Hb & Hf & Ht) | (Hc & Hn & Hb & (name & Hf) & Ht)].
  - rewrite Hf, Ht. auto.
  - rewrite Hf, Ht, length_app. cbn. split; [|lia].
    apply Forall_app. split; auto.
Qed.

(** The names of the files written count the turns from 1. *)
Lemma d_names_step s e :
  audio_turn (self s) = List.length (files (w s)) ->
  Forall2 (fun n f => exists t,
             sink_name f = [FS "demo_turn"; FN n; FS "_"; FTime t; FS "_";
                            FUuid4; FS ".pcm"])
          (seq 1 (List.length (files (w s)))) (files (w s)) ->
  Forall2 (fun n f => exists t,
             sink_name f = [FS "demo_turn"; FN n; FS "_"; FTime t; FS "_";
                            FUuid4; FS ".pcm"])
          (seq 1 (List.length (files (w (step s e))))) (files (w (step s e))).
Proof.
  intros Ht H. d_cases s e; d_unfold.
  all: rewrite ?files_w_close.
  all: try assumption.
  all: unfold w_write; cbn; rewrite ?length_app, ?seq_app; cbn.
  all: apply Forall2_app; [assumption|]; constructor; [|constructor].
  all: rewrite Ht; eexists; reflexivity.
Qed.

Lemma d_audio_files e sc sch :
  let s := run (boot e sc) sch in
  (Forall (fun f => sink_data f <> []) (files (w s)) /\
   audio_turn (self s) = List.length (files (w s))) /\
  Forall2 (fun n f => exists t,
             sink_name f = [FS "demo_turn"; FN n; FS "_"; FTime t; FS "_";
                            FUuid4; FS ".pcm"])
          (seq 1 (List.length (files (w s)))) (files (w s)).
Proof.
  cbv zeta. apply d_reach.
  - cbn. repeat split; constructor.
  - intros s ev (H1 & H2). split; [now apply d_sinks_step|].
    apply d_names_step; tauto.
Qed.
End DemoAudioInv.

Module DemoTranscript.
Import Demo DemoFacts DemoCases DemoInv.

Lemma d_step_scripted_turns s e : scripted_turns (step s e) = scripted_turns s.
Proof. unfold scripted_turns. now rewrite DemoRuns.d_step_scenario. Qed.

Lemma d_scripted_step s e :
  Forall (scripted (scripted_turns s)) (turn_threads s) ->
  Forall (scripted (scripted_turns (step s e))) (turn_threads (step s e)).
Proof.
  rewrite d_step_scripted_turns.
  intros H. d_cases s e; d_unfold.
  all: try assumption.
  all: try (apply Forall_app; split; [assumption|repeat constructor]).
  all: try (apply Forall_set_nth; [assumption|]; unfold scripted; cbn; try exact I).
  all: try assumption.
  all: try (unfold scripted_turns; rewrite El; assumption).
  all: match goal with Ek : nth_error (turn_threads _) _ = Some _ |- _ =>
         exact (@Forall_nth_error _ _ _ _ _ H Ek) end.
Qed.

(** The labelled entries of the transcript are turns of the scenario, or
    typed lines that do not quit. *)
Lemma d_labelled_step s e :
  Forall (scripted (scripted_turns s)) (turn_threads s) ->
  Forall (fun x => exists label text,
            x = turn_entry label text /\
            (In (label, text) (scripted_turns s) \/
             label = "custom" /\ quits text = false))
         (filter labelled (conversation (self s))) ->
  Forall (fun x => exists label text,
            x = turn_entry label text /\
            (In (label, text) (scripted_turns (step s e)) \/
             label = "custom" /\ quits text = false))
         (filter labelled (conversation (self (step s e)))).
Proof.
  rewrite d_step_scripted_turns.
  intros Hs H. d_cases s e; d_unfold; rewrite ?filter_app; cbn;
    rewrite ?app_nil_r.
  all: try assumption.
  all: apply Forall_app; (split; [assumption|]); (constructor; [|constructor]).
  all: pose proof (@Forall_nth_error _ _ _ _ _ Hs Ek) as Hk;
       unfold scripted in Hk; cbn in Hk.
  all: eexists _, _; (split; [reflexivity|]).
  - left. eapply nth_error_In; eauto.
  - right. auto.
Qed.

(** The user turns sent are those of the labelled entries and of the
    threads about to append. *)
Lemma d_transcript_step s e :
  Permutation
    (map (fun m => content_of (sent_msg m)) (user_turns (outbox (w s))))
    (map content_of (filter labelled (conversation (self s)))
     ++ flat_map appending (turn_threads s)) ->
  Permutation
    (map (fun m => content_of (sent_msg m)) (user_turns (outbox (w (step s e)))))
    (map content_of (filter labelled (conversation (self (step s e))))
     ++ flat_map appending (turn_threads (step s e))).
Proof.
  intros H. d_cases s e; d_unfold; rewrite ?outbox_w_close; unfold user_turns;
    rewrite ?filter_app, ?map_app, ?flat_map_app; cbn; rewrite ?app_nil_r.
  all: try assumption.
  all: try (rewrite (@flat_map_set_nth_same _ _ appending _ _ _ _ Ek) by reflexivity;
            assumption).
  - pose proof (@flat_map_set_nth _ _ appending _ _ _
                  {| t_born := born; t_pc := TAppend i label text |} Ek) as P.
    cbn in P. rewrite P.
    etransitivity; [apply Permutation_app_tail, H|].
    rewrite <- app_assoc. apply Permutation_app_head.
    symmetry. apply Permutation_cons_append.
  - pose proof (@flat_map_set_nth _ _ appending _ _ _
                  {| t_born := born; t_pc := TLoop (S i) |} Ek) as P.
    cbn in P. rewrite <- app_assoc. cbn. rewrite P. exact H.
  - pose proof (@flat_map_set_nth _ _ appending _ _ _
                  {| t_born := born; t_pc := IAppend text |} Ek) as P.
    cbn in P. rewrite P.
    etransitivity; [apply Permutation_app_tail, H|].
    rewrite <- app_assoc. apply Permutation_app_head.
    symmetry. apply Permutation_cons_append.
  - pose proof (@flat_map_set_nth _ _ appending _ _ _
                  {| t_born := born; t_pc := ISleepCall |} Ek) as P.
    cbn in P. rewrite <- app_assoc. cbn. rewrite P. exact H.
Qed.

Lemma d_step_interactive s e : is_interactive (step s e) = is_interactive s.
Proof. unfold is_interactive. now rewrite DemoRuns.d_step_scenario. Qed.

Lemma d_of_mode_step s e :
  Forall (of_mode (is_interactive s)) (turn_threads s) ->
  Forall (of_mode (is_interactive (step s e))) (turn_threads (step s e)).
Proof.
  rewrite d_step_interactive.
  intros H. d_cases s e; d_unfold.
  all: try assumption.
  all: try (apply Forall_app; split; [assumption|repeat constructor; assumption]).
  all: try (apply Forall_set_nth; [assumption|]; unfold of_mode; cbn; try exact I).
  all: try (unfold is_interactive; rewrite El; reflexivity).
  all: match goal with Ek : nth_error (turn_threads _) _ = Some _ |- _ =>
         exact (@Forall_nth_error _ _ _ _ _ H Ek) end.
Qed.

(** With one scripted thread the labelled entries are the first turns, in
    their order. *)
Lemma d_single_step s e :
  Forall (scripted (scripted_turns s)) (turn_threads s) ->
  Forall (of_mode (is_interactive s)) (turn_threads s) ->
  is_interactive s = false ->
  match turn_threads s with
  | [] => filter labelled (conversation (self s)) = []
  | [t] =>
      match progress (List.length (scripted_turns s)) (t_pc t) with
      | Some i =>
          filter labelled (conversation (self s))
          = map (fun x => turn_entry (fst x) (snd x)) (firstn i (scripted_turns s))
      | None => True
      end
  | _ => True
  end ->
  match turn_threads (step s e) with
  | [] => filter labelled (conversation (self (step s e))) = []
  | [t] =>
      match progress (List.length (scripted_turns (step s e))) (t_pc t) with
      | Some i =>
          filter labelled (conversation (self (step s e)))
          = map (fun x => turn_entry (fst x) (snd x))
                (firstn i (scripted_turns (step s e)))
      | None => True
      end
  | _ => True
  end.
Proof.
  rewrite d_step_scripted_turns.
  intros Hs Hm Hi H. d_cases s e; d_unfold; rewrite ?filter_app; cbn;
    rewrite ?app_nil_r.
  all: try assumption.
  all: try congruence.
  all: try (match goal with Ek : nth_error (turn_threads _) _ = Some _ |- _ =>
              refine (@HarnessTranscript.one_thread _ _ _ _ _ _ _ _ _ Ek H _);
              cbn; intros Hq;
              pose proof (@Forall_nth_error _ _ _ _ _ Hs Ek) as Hk;
              unfold scripted in Hk; cbn in Hk;
              pose proof (@Forall_nth_error _ _ _ _ _ Hm Ek) as Hd;
              unfold of_mode in Hd; cbn in Hd
            end).
  all: try assumption.
  all: try exact I.
  all: try congruence.
  - destruct (turn_threads s) as [|x [|y r]]; cbn; auto.
  - rewrite Hq, firstn_all. rewrite firstn_all2; [reflexivity|].
    unfold scripted_turns. rewrite El. now apply nth_error_None.
  - change (match scripted_turns s with
            | [] => []
            | a :: l => a :: firstn i l
            end) with (firstn (S i) (scripted_turns s)).
    rewrite (@firstn_S_nth _ _ _ _ Hk), map_app, <- Hq. reflexivity.
Qed.

Lemma d_transcript e sc sch :
  let s := run (boot e sc) sch in
  (Forall (scripted (scripted_turns s)) (turn_threads s) /\
   Forall (of_mode (is_interactive s)) (turn_threads s)) /\
  Forall (fun x => exists label text,
            x = turn_entry label text /\
            (In (label, text) (scripted_turns s) \/
             label = "custom" /\ quits text = false))
         (filter labelled (conversation (self s))) /\
  Permutation
    (map (fun m => content_of (sent_msg m)) (user_turns (outbox (w s))))
    (map content_of (filter labelled (conversation (self s)))
     ++ flat_map appending (turn_threads s)) /\
  (is_interactive s = false ->
   match turn_threads s with
   | [] => filter labelled (conversation (self s)) = []
   | [t] =>
       match progress (List.length (scripted_turns s)) (t_pc t) with
       | Some i =>
           filter labelled (conversation (self s))
           = map (fun x => turn_entry (fst x) (snd x)) (firstn i (scripted_turns s))
       | None => True
       end
   | _ => True
   end).
Proof.
  cbv zeta. apply d_reach.
  - cbn. repeat split; try constructor.
  - intros s ev ((H1 & H1') & H2 & H3 & H4).
    split; [split; [now apply d_scripted_step | now apply d_of_mode_step]|].
    split; [now apply d_labelled_step|].
    split; [now apply d_transcript_step|].
    intros Hi. rewrite d_step_interactive in Hi.
    apply d_single_step; [assumption|assumption|assumption|apply H4; assumption].
Qed.
End DemoTranscript.

Module DemoThreads.
Import Demo DemoFacts DemoCases DemoInv.

#[local] Arguments seconds : simpl never.
#[local] Arguments N.add : simpl never.
#[local] Arguments N.mul : simpl never.

(** Every user turn sent is a turn of the scenario, or in interactive mode
    a typed line that does not quit. *)
Lemma d_frames_step s e :
  Forall (scripted (scripted_turns s)) (turn_threads s) ->
  Forall (of_mode (is_interactive s)) (turn_threads s) ->
  Forall (fun m => forall text,
            sent_msg m = InjectUserMessage text ->
            if is_interactive s then quits text = false
            else exists label, In (label, text) (scripted_turns s))
         (outbox (w s)) ->
  Forall (fun m => forall text,
            sent_msg m = InjectUserMessage text ->
            if is_interactive (step s e) then quits text = false
            else exists label, In (label, text) (scripted_turns (step s e)))
         (outbox (w (step s e))).
Proof.
  rewrite DemoTranscript.d_step_scripted_turns, DemoTranscript.d_step_interactive.
  intros Hs Hm H. d_cases s e; d_unfold; rewrite ?outbox_w_close.
  all: try assumption.
  all: apply Forall_app; (split; [assumption|]); (constructor; [|constructor]);
       cbn; intros text' Hx; try discriminate Hx.
  all: injection Hx as <-.
  all: pose proof (@Forall_nth_error _ _ _ _ _ Hs Ek) as Hk;
       unfold scripted in Hk; cbn in Hk;
       pose proof (@Forall_nth_error _ _ _ _ _ Hm Ek) as Hd;
       unfold of_mode in Hd; cbn in Hd; try discriminate Hd;
       try (rewrite Hd).
  all: first [ exact Hk | exists label; eapply nth_error_In; eauto ].
Qed.

(** [run] waits for the completion signal, until its timeout when the
    turns are scripted. *)
Lemma d_patience_step s e :
  match main s with
  | MStart | MWaitCall => True
  | MWaiting (Some d) =>
      seconds (30 + N.of_nat (List.length (scripted_turns s)) * 10) <= d /\
      is_interactive s = false
  | MWaiting None => is_interactive s = true
  | _ =>
      done (self s) = true \/
      (is_interactive s = false /\
       seconds (30 + N.of_nat (List.length (scripted_turns s)) * 10) <= now (w s))
  end ->
  match main (step s e) with
  | MStart | MWaitCall => True
  | MWaiting (Some d) =>
      seconds (30 + N.of_nat (List.length (scripted_turns (step s e))) * 10) <= d /\
      is_interactive (step s e) = false
  | MWaiting None => is_interactive (step s e) = true
  | _ =>
      done (self (step s e)) = true \/
      (is_interactive (step s e) = false /\
       seconds (30 + N.of_nat (List.length (scripted_turns (step s e))) * 10)
       <= now (w (step s e)))
  end.
Proof.
  rewrite DemoTranscript.d_step_scripted_turns, DemoTranscript.d_step_interactive.
  intros H. d_cases s e; d_unfold; rewrite ?now_w_close.
  all: try exact I.
  all: try assumption.
  all: try (unfold scripted_turns, is_interactive; rewrite El; split; [lia|reflexivity]).
  all: try (unfold is_interactive; rewrite El; reflexivity).
  all: try (left; reflexivity).
  all: try (apply N.leb_le in Et; right; split; [tauto|lia]).
  all: try (left; assumption).
  all: try (rewrite Em; assumption).
  all: try solve [match goal with |- context [main ?s] =>
                    destruct (main s) as [| |[?|]| | | | | |] end;
                  intuition (try congruence; try lia)].
Qed.

(** When [run] returns the stop flag is set and the socket is closed or
    being closed; [run] closes the socket itself only when the turns are
    scripted. *)
Lemma d_returned_step s e :
  (conn (w s) = CClosed -> _keepalive_stop (self s) = true) ->
  (done (self s) = true -> conn (w s) = CClosed) ->
  (main s = MIsAlive -> done (self s) = true \/ is_interactive s = false) ->
  match main s with
  | MSetStop => is_interactive s = false
  | MClose => _keepalive_stop (self s) = true /\ is_interactive s = false
  | MJoinCall | MJoining _ =>
      _keepalive_stop (self s) = true /\ closed (conn (w s)) = true /\
      is_interactive s = false
  | MReturned =>
      _keepalive_stop (self s) = true /\ closed (conn (w s)) = true /\
      (is_interactive s = true -> conn (w s) = CClosed)
  | _ => True
  end ->
  match main (step s e) with
  | MSetStop => is_interactive (step s e) = false
  | MClose =>
      _keepalive_stop (self (step s e)) = true /\ is_interactive (step s e) = false
  | MJoinCall | MJoining _ =>
      _keepalive_stop (self (step s e)) = true /\
      closed (conn (w (step s e))) = true /\
      is_interactive (step s e) = false
  | MReturned =>
      _keepalive_stop (self (step s e)) = true /\
      closed (conn (w (step s e))) = true /\
      (is_interactive (step s e) = true -> conn (w (step s e)) = CClosed)
  | _ => True
  end.
Proof.
  rewrite DemoTranscript.d_step_interactive.
  intros Hc Hd Hp H. d_cases s e; d_unfold; rewrite ?closed_w_close.
  all: try exact I.
  all: try assumption.
  all: try solve [intuition congruence].
  all: try solve [match goal with |- context [main ?s] =>
                    destruct (main s) as [| |[?|]| | | | | |] end;
                  cbn in *; intuition congruence].
  - apply conn_eqb_eq in Eq. rewrite Eq. auto.
  - destruct (Hp eq_refl) as [Hx | Hx]; [|exact Hx].
    rewrite (Hd Hx) in Eq. discriminate.
  - rewrite Hc0 in H.
    destruct (main s) as [| |[?|]| | | | | |]; cbn in *; intuition congruence.
  - destruct (main s) as [| |[?|]| | | | | |]; cbn in *; try tauto.
    destruct H as (H1 & H2 & H3). repeat split; auto.
    intros Hi. rewrite w_close_closed; auto.
Qed.

Lemma d_patience e sc sch :
  let s := run (boot e sc) sch in
  match main s with
  | MStart | MWaitCall => True
  | MWaiting (Some d) =>
      seconds (30 + N.of_nat (List.length (scripted_turns s)) * 10) <= d /\
      is_interactive s = false
  | MWaiting None => is_interactive s = true
  | _ =>
      done (self s) = true \/
      (is_interactive s = false /\
       seconds (30 + N.of_nat (List.length (scripted_turns s)) * 10) <= now (w s))
  end.
Proof. cbv zeta. apply d_reach; [exact I|]. intros s ev. apply d_patience_step. Qed.

Lemma d_returned e sc sch :
  let s := run (boot e sc) sch in
  match main s with
  | MSetStop => is_interactive s = false
  | MClose => _keepalive_stop (self s) = true /\ is_interactive s = false
  | MJoinCall | MJoining _ =>
      _keepalive_stop (self s) = true /\ closed (conn (w s)) = true /\
      is_interactive s = false
  | MReturned =>
      _keepalive_stop (self s) = true /\ closed (conn (w s)) = true /\
      (is_interactive s = true -> conn (w s) = CClosed)
  | _ => True
  end.
Proof.
  cbv zeta.
  assert (G : forall s0, s0 = run (boot e sc) sch ->
    match main s0 with
    | MSetStop => is_interactive s0 = false
    | MClose => _keepalive_stop (self s0) = true /\ is_interactive s0 = false
    | MJoinCall | MJoining _ =>
        _keepalive_stop (self s0) = true /\ closed (conn (w s0)) = true /\
        is_interactive s0 = false
    | MReturned =>
        _keepalive_stop (self s0) = true /\ closed (conn (w s0)) = true /\
        (is_interactive s0 = true -> conn (w s0) = CClosed)
    | _ => True
    end); [|now apply G].
  revert sch.
  apply (rev_ind (fun sch => forall s0, s0 = run (boot e sc) sch -> _)).
  - intros s0 ->. exact I.
  - intros ev sch IH s0 ->. rewrite d_run_app. cbn [run fold_left].
    destruct (d_closed_flags e sc sch) as [C1 C2].
    pose proof (d_patience e sc sch) as P. cbv zeta in P.
    apply d_returned_step.
    + intros Hx. now apply C1.
    + exact C2.
    + intros Hm. rewrite Hm in P. tauto.
    + now apply IH.
Qed.

(** The case analysis of a step of a keep-alive loop, with its next
    statement. *)
Ltac d_keepalive_pcs s k :=
  unfold step;
  destruct (nth_error (keepalive_threads s) k) as [?pc|] eqn:?Ek;
  [ match goal with
    | |- context [keepalive_step k ?ws ?st ?pc (w s)] =>
        destruct pc; cbn [keepalive_step];
        [ destruct st eqn:?Es
        |
        | match goal with |- context [st || ?b] =>
            destruct st eqn:?Es; [|destruct b eqn:?Et]; cbn [orb] end
        | destruct st eqn:?Es
        | destruct ws eqn:?Ew; [unfold w_send; destruct (conn (w s)) eqn:?Ec|]
        | ]
    end
  | ].

Ltac d_cases' s e :=
  destruct e as [| |?m| |?d|?l|?k|?k];
  [ d_main_cases s
  | d_open_cases s
  | match goal with |- context [step s (EvFrame ?m)] => d_frame_cases s m end
  | d_close_cases s
  | unfold step
  | unfold step
  | match goal with |- context [step s (EvKeepalive ?k)] => d_keepalive_pcs s k end
  | match goal with |- context [step s (EvTurns ?k)] => d_turns_cases s k end ].

Lemma d_wired_pool s :
  wired s ->
  (0 < List.length (keepalive_threads s))%nat ->
  _ws (self s) = true /\ (conn (w s) = COpen \/ closed (conn (w s)) = true).
Proof.
  intros (W1 & W2 & W3 & W4 & W5 & W6) Hl.
  destruct (_settings_applied (self s)) eqn:Ea.
  - destruct (_ws (self s)) eqn:Er; [auto|].
    destruct (W1 eq_refl). congruence.
  - specialize (W4 eq_refl). lia.
Qed.

Lemma d_wired_keepalive s k pc :
  wired s -> nth_error (keepalive_threads s) k = Some pc ->
  _ws (self s) = true /\ (conn (w s) = COpen \/ closed (conn (w s)) = true).
Proof.
  intros Hw Hk. apply d_wired_pool; auto.
  destruct (keepalive_threads s); [destruct k; discriminate|cbn; lia].
Qed.

Lemma d_wired_turns s k t :
  wired s -> nth_error (turn_threads s) k = Some t ->
  _ws (self s) = true /\ (conn (w s) = COpen \/ closed (conn (w s)) = true).
Proof.
  intros Hw Hk. apply d_wired_pool; auto.
  destruct Hw as (_ & _ & _ & _ & _ & ->).
  destruct (turn_threads s); [destruct k; discriminate|cbn; lia].
Qed.

(** A thread ends before its time only on a closed socket, and a
    keep-alive loop only when told to stop or on a closed socket. *)
Lemma d_cause_step s e :
  wired s ->
  Forall (of_mode (is_interactive s)) (turn_threads s) ->
  (closed (conn (w s)) = false ->
   Forall (fun t => t_pc t <> TDead) (turn_threads s) /\
   (_keepalive_stop (self s) = false ->
    Forall (fun pc => pc <> KExit) (keepalive_threads s))) ->
  closed (conn (w (step s e))) = false ->
  Forall (fun t => t_pc t <> TDead) (turn_threads (step s e)) /\
  (_keepalive_stop (self (step s e)) = false ->
   Forall (fun pc => pc <> KExit) (keepalive_threads (step s e))).
Proof.
  intros Hw Hm H. d_cases' s e; d_unfold; rewrite ?closed_w_close.
  all: try discriminate.
  all: try assumption.
  all: intros Hcl;
    (destruct H as [H1 H2]; [first [exact Hcl | reflexivity | cbn; congruence]|]).
  all: split;
    [ first [ assumption
            | apply Forall_app; split; [assumption|repeat constructor; discriminate]
            | apply Forall_set_nth; [assumption|cbn; discriminate]
            | idtac ]
    | intros Hs;
      first [ discriminate
            | exact (H2 Hs)
            | apply Forall_app; split; [exact (H2 Hs)|repeat constructor; discriminate]
            | apply Forall_set_nth; [exact (H2 Hs)|discriminate]
            | congruence
            | idtac ] ].
  all: try (apply Forall_set_nth; [auto|discriminate]).
  all: try (exfalso; apply (@Forall_nth_error _ _ _ _ _ (H2 Hs)) in Ek; congruence).
  all: try (exfalso; destruct (@d_wired_keepalive _ _ _ Hw Ek) as [Hy [Hx|Hx]];
            first [ congruence
                  | revert Hx;
                    match goal with Hc : conn (w _) = _ |- _ => rewrite Hc end;
                    discriminate ]).
  all: try (exfalso; destruct (@d_wired_turns _ _ _ Hw Ek) as [Hy [Hx|Hx]];
            first [ congruence
                  | revert Hx;
                    match goal with Hc : conn (w _) = _ |- _ => rewrite Hc end;
                    discriminate ]).
  - exfalso. pose proof (@Forall_nth_error _ _ _ _ _ Hm Ek) as Hd.
    unfold of_mode, is_interactive in Hd. cbn in Hd. rewrite El in Hd.
    discriminate.
  - exfalso. pose proof (@Forall_nth_error _ _ _ _ _ H1 Ek) as Hd.
    cbn in Hd. congruence.
Qed.

Lemma d_cause e sc sch :
  let s := run (boot e sc) sch in
  closed (conn (w s)) = false ->
  Forall (fun t => t_pc t <> TDead) (turn_threads s) /\
  (_keepalive_stop (self s) = false ->
   Forall (fun pc => pc <> KExit) (keepalive_threads s)).
Proof.
  cbv zeta.
  apply (@d_reach (fun s => (wired s /\
    Forall (of_mode (is_interactive s)) (turn_threads s)) /\
    (closed (conn (w s)) = false ->
     Forall (fun t => t_pc t <> TDead) (turn_threads s) /\
     (_keepalive_stop (self s) = false ->
      Forall (fun pc => pc <> KExit) (keepalive_threads s))))).
  - split; [split; [apply (d_wired e sc [])|constructor]|].
    cbn. intros _. split; constructor.
  - intros s ev [[Hw Hm] H].
    split; [split; [now apply d_wired_step | now apply DemoTranscript.d_of_mode_step]|].
    now apply d_cause_step.
Qed.

Lemma d_frames e sc sch :
  let s := run (boot e sc) sch in
  Forall (fun m => forall text,
            sent_msg m = InjectUserMessage text ->
            if is_interactive s then quits text = false
            else exists label, In (label, text) (scripted_turns s))
         (outbox (w s)).
Proof.
  cbv zeta.
  apply (@d_reach (fun s =>
    (Forall (scripted (scripted_turns s)) (turn_threads s) /\
     Forall (of_mode (is_interactive s)) (turn_threads s)) /\
    Forall (fun m => forall text,
              sent_msg m = InjectUserMessage text ->
              if is_interactive s then quits text = false
              else exists label, In (label, text) (scripted_turns s))
           (outbox (w s)))).
  - repeat split; constructor.
  - intros s ev [[H1 H1'] H2].
    split; [split; [now apply DemoTranscript.d_scripted_step
                   | now apply DemoTranscript.d_of_mode_step]|].
    now apply d_frames_step.
Qed.
End DemoThreads.

Module HarnessMore.
Import Harness HarnessFacts HarnessCases HarnessInv.

(** Before the acknowledgement the log holds the configuration at most. *)
Lemma h_quiet_step s e :
  wired s ->
  (settings_applied (results (self s)) = false ->
   (List.length (outbox (w s)) <= 1)%nat) ->
  settings_applied (results (self (step s e))) = false ->
  (List.length (outbox (w (step s e))) <= 1)%nat.
Proof.
  intros Hw H. h_cases s e; h_unfold; rewrite ?outbox_w_close, ?length_app;
    cbn [List.length].
  all: try assumption.
  all: try discriminate.
  all: intros Ha.
  - destruct Hw as (W1 & W2 & _). destruct (_ws_ref (self s)) eqn:Er.
    + destruct (W2 eq_refl) as [W | W]; rewrite Ec in W; discriminate.
    + destruct (W1 eq_refl) as [-> _]. cbn. lia.
  - exfalso. destruct Hw as (_ & _ & _ & W4 & _).
    specialize (W4 Ha). destruct (keepalive_threads s); [destruct k|]; discriminate.
  - exfalso. destruct Hw as (_ & _ & _ & W4 & _ & W6).
    specialize (W4 Ha). rewrite W6 in W4.
    destruct (turn_threads s); [destruct k|]; discriminate.
Qed.

Lemma h_quiet e sc sch :
  let s := run (boot e sc) sch in
  settings_applied (results (self s)) = false ->
  (List.length (outbox (w s)) <= 1)%nat.
Proof.
  cbv zeta.
  apply (@h_reach (fun s => wired s /\
    (settings_applied (results (self s)) = false ->
     (List.length (outbox (w s)) <= 1)%nat))).
  - split; [apply (h_wired e sc [])|]. cbn. lia.
  - intros s ev [Hw H]. split; [now apply h_wired_step | now apply h_quiet_step].
Qed.

(** The completion signal is set by the close of the socket or by a fatal
    error. *)
Lemma h_done_cause_step (F : json -> Prop) s e :
  (forall code, in_strs code fatal_codes = true -> F code) ->
  (done_event (self s) = true ->
   conn (w s) = CClosed \/
   exists code desc, In (code_entry code desc) (errors (results (self s))) /\ F code) ->
  done_event (self (step s e)) = true ->
  conn (w (step s e)) = CClosed \/
  exists code desc,
    In (code_entry code desc) (errors (results (self (step s e)))) /\ F code.
Proof.
  intros HF H. h_cases s e; h_unfold.
  all: try assumption.
  all: try (left; reflexivity).
  all: try (intros _; right; exists code, desc; split;
            [apply in_or_app; right; left; reflexivity | apply HF; assumption]).
  all: intros Hd;
    (destruct H as [Hx|(c & d' & Hi & Hf)];
     [ first [exact Hd | reflexivity | congruence]
     | first [ discriminate Hx
             | left; first [exact Hx | rewrite w_close_closed; [exact Hx|rewrite Hx; reflexivity]]
             | idtac ]
     | right; exists c, d'; split;
       [ first [exact Hi | apply in_or_app; left; exact Hi] | exact Hf ] ]).
  congruence.
Qed.

Lemma h_done_cause e sc sch :
  let s := run (boot e sc) sch in
  done_event (self s) = true ->
  conn (w s) = CClosed \/
  exists code desc,
    In (code_entry code desc) (errors (results (self s))) /\
    in_strs code fatal_codes = true.
Proof.
  cbv zeta. apply h_reach.
  - cbn. discriminate.
  - intros s ev. apply h_done_cause_step. auto.
Qed.
End HarnessMore.

Module DemoMore.
Import Demo DemoFacts DemoCases DemoInv.

(** Before the acknowledgement the log holds the configuration at most. *)
Lemma d_quiet_step s e :
  wired s ->
  (_settings_applied (self s) = false ->
   (List.length (outbox (w s)) <= 1)%nat) ->
  _settings_applied (self (step s e)) = false ->
  (List.length (outbox (w (step s e))) <= 1)%nat.
Proof.
  intros Hw H. d_cases s e; d_unfold; rewrite ?outbox_w_close, ?length_app;
    cbn [List.length].
  all: try assumption.
  all: try discriminate.
  all: intros Ha.
  - destruct Hw as (W1 & W2 & _). destruct (_ws (self s)) eqn:Er.
    + destruct (W2 eq_refl) as [W | W]; rewrite Ec in W; discriminate.
    + destruct (W1 eq_refl) as [-> _]. cbn. lia.
  - exfalso. destruct Hw as (_ & _ & _ & W4 & _).
    specialize (W4 Ha). destruct (keepalive_threads s); [destruct k|]; discriminate.
  - exfalso. destruct Hw as (_ & _ & _ & W4 & _ & W6).
    specialize (W4 Ha). rewrite W6 in W4.
    destruct (turn_threads s); [destruct k|]; discriminate.
  - exfalso. destruct Hw as (_ & _ & _ & W4 & _ & W6).
    specialize (W4 Ha). rewrite W6 in W4.
    destruct (turn_threads s); [destruct k|]; discriminate.
Qed.

Lemma d_quiet e sc sch :
  let s := run (boot e sc) sch in
  _settings_applied (self s) = false ->
  (List.length (outbox (w s)) <= 1)%nat.
Proof.
  cbv zeta.
  apply (@d_reach (fun s => wired s /\
    (_settings_applied (self s) = false ->
     (List.length (outbox (w s)) <= 1)%nat))).
  - split; [apply (d_wired e sc [])|]. cbn. lia.
  - intros s ev [Hw H]. split; [now apply d_wired_step | now apply d_quiet_step].
Qed.
End DemoMore.

(** * Further properties of the sessions *)

(** X1: the audio received is never lost and never reordered.  In both
    runners, after any schedule of events from any state, the bytes of the
    files written followed by the bytes of the buffer are what they were
    before, followed by the bytes of the binary frames delivered on the
    open socket, in the order of delivery. *)
Theorem received_audio_is_kept :
  (forall s sch,
      on_disk (Harness.w (Harness.run s sch))
      ++ Harness.audio_buffer (Harness.self (Harness.run s sch))
      = (on_disk (Harness.w s) ++ Harness.audio_buffer (Harness.self s))
        ++ Harness.heard s sch) /\
  (forall s sch,
      on_disk (Demo.w (Demo.run s sch))
      ++ Demo.audio_buffer (Demo.self (Demo.run s sch))
      = (on_disk (Demo.w s) ++ Demo.audio_buffer (Demo.self s))
        ++ Demo.heard s sch).
Proof.
  split.
  - apply HarnessAudioInv.h_audio_run.
  - apply DemoAudioInv.d_audio_run.
Qed.

(** X2: once the socket of a session has closed, the buffer is empty and
    all the audio received is on disk; the stop flag and the completion
    signal are set. *)
Theorem closed_session_has_flushed :
  (forall e sc sch,
      let s := Harness.run (Harness.boot e sc) sch in
      conn (Harness.w s) = CClosed ->
      Harness.audio_buffer (Harness.self s) = [] /\
      on_disk (Harness.w s) = Harness.heard (Harness.boot e sc) sch /\
      Harness.done_event (Harness.self s) = true /\
      Harness._keepalive_stop (Harness.self s) = true) /\
  (forall e sc sch,
      let s := Demo.run (Demo.boot e sc) sch in
      conn (Demo.w s) = CClosed ->
      Demo.audio_buffer (Demo.self s) = [] /\
      on_disk (Demo.w s) = Demo.heard (Demo.boot e sc) sch /\
      Demo.done (Demo.self s) = true /\
      Demo._keepalive_stop (Demo.self s) = true).
Proof.
  split; intros e sc sch s Hc.
  - destruct (HarnessInv.h_closed_flags e sc sch Hc) as (H1 & H2 & H3).
    fold s in H1, H2, H3. repeat split; auto.
    pose proof (HarnessAudioInv.h_audio_run (Harness.boot e sc) sch) as A.
    fold s in A. rewrite H3, app_nil_r in A. exact A.
  - destruct (proj1 (DemoInv.d_closed_flags e sc sch) Hc) as (H1 & H2 & H3).
    fold s in H1, H2, H3. repeat split; auto.
    pose proof (DemoAudioInv.d_audio_run (Demo.boot e sc) sch) as A.
    fold s in A. rewrite H3, app_nil_r in A. exact A.
Qed.

(** Two chunks and the close of the socket: both chunks are on disk. *)
Lemma closed_session_witness :
  let s := Harness.run (Harness.boot env0 scenario_h)
             (handshake ++ [EvFrame (MBinary [x01; x02]); EvFrame (MBinary [x03]);
                            EvClose]) in
  Harness.audio_buffer (Harness.self s) = [] /\
  on_disk (Harness.w s)
  = Harness.heard (Harness.boot env0 scenario_h)
      (handshake ++ [EvFrame (MBinary [x01; x02]); EvFrame (MBinary [x03]); EvClose]).
Proof.
  intros s.
  destruct (proj1 closed_session_has_flushed env0 scenario_h
              (handshake ++ [EvFrame (MBinary [x01; x02]); EvFrame (MBinary [x03]);
                             EvClose]))
    as (H1 & H2 & _).
  - vm_compute. reflexivity.
  - split; assumption.
Defined.

(** X3: the files of a session are numbered.  In both runners the turn
    counter is the number of files written, no file is empty, and the name
    of the [n]-th file written carries the turn number [n], counted from
    1. *)
Theorem saved_audio_is_numbered :
  (forall e sc sch,
      let s := Harness.run (Harness.boot e sc) sch in
      Harness.audio_turn (Harness.self s) = List.length (files (Harness.w s)) /\
      Forall (fun f => sink_data f <> []) (files (Harness.w s)) /\
      Forall2 (fun n f => exists t,
                 sink_name f = [FS (Harness.id sc); FS "_turn"; FN n; FS "_";
                                FTime t; FS ".pcm"])
              (seq 1 (List.length (files (Harness.w s)))) (files (Harness.w s))) /\
  (forall e sc sch,
      let s := Demo.run (Demo.boot e sc) sch in
      Demo.audio_turn (Demo.self s) = List.length (files (Demo.w s)) /\
      Forall (fun f => sink_data f <> []) (files (Demo.w s)) /\
      Forall2 (fun n f => exists t,
                 sink_name f = [FS "demo_turn"; FN n; FS "_"; FTime t; FS "_";
                                FUuid4; FS ".pcm"])
              (seq 1 (List.length (files (Demo.w s)))) (files (Demo.w s))).
Proof.
  split; intros e sc sch s.
  - destruct (HarnessAudioInv.h_audio_files e sc sch) as ((H1 & H2) & _ & H3).
    rewrite (HarnessRuns.h_run_scenario (Harness.boot e sc) sch) in H3.
    repeat split; assumption.
  - destruct (DemoAudioInv.d_audio_files e sc sch) as ((H1 & H2) & H3).
    repeat split; assumption.
Qed.

(** X4: the list of audio files in the results of ScenarioRunner describes
    the files written: entry by entry the name and the size of the file,
    with the turn numbers 1, 2, ...; so the sizes add up to the number of
    bytes on disk. *)
Theorem results_list_the_audio_files :
  forall e sc sch,
    let s := Harness.run (Harness.boot e sc) sch in
    let listed := Harness.audio_files (Harness.results (Harness.self s)) in
    map (fun a => (Harness.file a, Harness.size_bytes a)) listed
    = map (fun f => (sink_name f, List.length (sink_data f))) (files (Harness.w s)) /\
    map Harness.turn listed = seq 1 (List.length (files (Harness.w s))) /\
    list_sum (map Harness.size_bytes listed) = List.length (on_disk (Harness.w s)).
Proof.
  intros e sc sch s listed.
  destruct (HarnessAudioInv.h_audio_files e sc sch) as (_ & (H1 & H2) & _).
  fold s in H1, H2. fold listed in H1, H2. repeat split; auto.
  apply (f_equal (map snd)) in H1. rewrite !map_map in H1. cbn in H1.
  assert (E : map Harness.size_bytes listed
              = map (fun f => List.length (sink_data f)) (files (Harness.w s)))
    by exact H1.
  rewrite E. unfold on_disk. now rewrite length_concat, map_map.
Qed.

Lemma h_log e sc sch :
  let s := Harness.run (Harness.boot e sc) sch in
  outbox (Harness.w s) = [] \/
  exists t rest,
    outbox (Harness.w s)
    = Sent t ByCallback (Harness.build_settings e sc) :: rest /\
    Forall thread_frame rest.
Proof.
  intros s. destruct (Harness._ws_ref (Harness.self s)) eqn:Er.
  - right. pose proof (HarnessInv.h_configured e sc sch Er) as H.
    rewrite HarnessInv.h_run_env, HarnessRuns.h_run_scenario in H. exact H.
  - left. now apply (HarnessInv.h_wired e sc sch).
Qed.

Lemma d_log e sc sch :
  let s := Demo.run (Demo.boot e sc) sch in
  outbox (Demo.w s) = [] \/
  exists t rest,
    outbox (Demo.w s)
    = Sent t ByCallback (Demo._build_settings e sc) :: rest /\
    Forall thread_frame rest.
Proof.
  intros s. destruct (Demo._ws (Demo.self s)) eqn:Er.
  - right. pose proof (DemoInv.d_configured e sc sch Er) as H.
    rewrite DemoInv.d_run_env, DemoRuns.d_run_scenario in H. exact H.
  - left. now apply (DemoInv.d_wired e sc sch).
Qed.

(** X5: the configuration is sent once, and first.  In both runners the
    log of the socket is empty, or it starts with the one frame written by
    the open callback, which is the settings built from the scenario and
    the environment; every frame after it was written by a thread and is a
    liveness frame of a keep-alive loop or a user turn of a turn thread. *)
Theorem settings_sent_first_and_once :
  (forall e sc sch,
      let s := Harness.run (Harness.boot e sc) sch in
      outbox (Harness.w s) = [] \/
      exists t rest,
        outbox (Harness.w s)
        = Sent t ByCallback (Harness.build_settings e sc) :: rest /\
        Forall thread_frame rest) /\
  (forall e sc sch,
      let s := Demo.run (Demo.boot e sc) sch in
      outbox (Demo.w s) = [] \/
      exists t rest,
        outbox (Demo.w s)
        = Sent t ByCallback (Demo._build_settings e sc) :: rest /\
        Forall thread_frame rest).
Proof. split; [exact h_log | exact d_log]. Qed.

(** X6: nothing but the configuration is sent before it is acknowledged.
    In both runners, as long as no acknowledgement was received there is
    no keep-alive loop and no turn thread, and the log of the socket is
    empty or holds the settings alone; and at any time there are as many
    keep-alive loops as turn threads, at least one of each once the
    acknowledgement was received. *)
Theorem nothing_sent_before_acknowledgement :
  (forall e sc sch,
      let s := Harness.run (Harness.boot e sc) sch in
      (Harness.settings_applied (Harness.results (Harness.self s)) = false ->
       Harness.keepalive_threads s = [] /\ Harness.turn_threads s = [] /\
       (outbox (Harness.w s) = [] \/
        exists t, outbox (Harness.w s)
                  = [Sent t ByCallback (Harness.build_settings e sc)])) /\
      (Harness.settings_applied (Harness.results (Harness.self s)) = true ->
       Harness.keepalive_threads s <> []) /\
      List.length (Harness.keepalive_threads s)
      = List.length (Harness.turn_threads s)) /\
  (forall e sc sch,
      let s := Demo.run (Demo.boot e sc) sch in
      (Demo._settings_applied (Demo.self s) = false ->
       Demo.keepalive_threads s = [] /\ Demo.turn_threads s = [] /\
       (outbox (Demo.w s) = [] \/
        exists t, outbox (Demo.w s)
                  = [Sent t ByCallback (Demo._build_settings e sc)])) /\
      (Demo._settings_applied (Demo.self s) = true ->
       Demo.keepalive_threads s <> []) /\
      List.length (Demo.keepalive_threads s) = List.length (Demo.turn_threads s)).
Proof.
  split; intros e sc sch s.
  - destruct (HarnessInv.h_wired e sc sch) as (W1 & W2 & W3 & W4 & W5 & W6).
    fold s in W1, W2, W3, W4, W5, W6. split; [|split; [|exact W6]].
    + intros H. split; [|split].
      * apply length_zero_iff_nil. auto.
      * apply length_zero_iff_nil. rewrite <- W6. auto.
      * destruct (h_log e sc sch) as [Ho | (t & rest & Ho & _)];
          fold s in Ho; [auto|].
        right. exists t. pose proof (HarnessMore.h_quiet e sc sch H) as Hq.
        fold s in Hq. rewrite Ho in Hq. destruct rest; [exact Ho|cbn in Hq; lia].
    + intros H Hn. specialize (W5 H). rewrite Hn in W5. cbn in W5. lia.
  - destruct (DemoInv.d_wired e sc sch) as (W1 & W2 & W3 & W4 & W5 & W6).
    fold s in W1, W2, W3, W4, W5, W6. split; [|split; [|exact W6]].
    + intros H. split; [|split].
      * apply length_zero_iff_nil. auto.
      * apply length_zero_iff_nil. rewrite <- W6. auto.
      * destruct (d_log e sc sch) as [Ho | (t & rest & Ho & _)];
          fold s in Ho; [auto|].
        right. exists t. pose proof (DemoMore.d_quiet e sc sch H) as Hq.
        fold s in Hq. rewrite Ho in Hq. destruct rest; [exact Ho|cbn in Hq; lia].
    + intros H Hn. specialize (W5 H). rewrite Hn in W5. cbn in W5. lia.
Qed.

(** A session whose socket has opened and that waits for the
    acknowledgement: the settings are the one frame of the log. *)
Lemma nothing_sent_witness :
  let s := Demo.run (Demo.boot env0 scenario_d)
             [EvMain; EvOpen; EvTick 9000; EvMain; EvKeepalive 0; EvTurns 0] in
  Demo.keepalive_threads s = [] /\ Demo.turn_threads s = [] /\
  (outbox (Demo.w s) = [] \/
   exists t, outbox (Demo.w s)
             = [Sent t ByCallback (Demo._build_settings env0 scenario_d)]).
Proof.
  intros s.
  refine (proj1 (proj2 nothing_sent_before_acknowledgement env0 scenario_d _) _).
  vm_compute. reflexivity.
Defined.

(** X7: the transcript holds the user turns that were sent.  In both
    runners, at any time, the contents of the user-turn frames of the log
    are, up to their order, the contents of the labelled entries of the
    transcript together with the texts of the threads that have sent a
    turn and are about to append it; and every labelled entry is a user
    entry for a turn of the scenario or, in DemoRunner, for a typed line
    labelled "custom" that does not quit.  The entries of transcript
    events carry no label. *)
Theorem transcript_holds_the_turns_sent :
  (forall e sc sch,
      let s := Harness.run (Harness.boot e sc) sch in
      let entries := filter labelled
                       (Harness.conversation (Harness.results (Harness.self s))) in
      Permutation
        (map (fun m => content_of (sent_msg m)) (user_turns (outbox (Harness.w s))))
        (map content_of entries
         ++ flat_map Harness.appending (Harness.turn_threads s)) /\
      Forall (fun x => exists label text,
                x = turn_entry label text /\ In (label, text) (Harness.turns sc))
             entries) /\
  (forall e sc sch,
      let s := Demo.run (Demo.boot e sc) sch in
      let entries := filter labelled (Demo.conversation (Demo.self s)) in
      Permutation
        (map (fun m => content_of (sent_msg m)) (user_turns (outbox (Demo.w s))))
        (map content_of entries ++ flat_map Demo.appending (Demo.turn_threads s)) /\
      Forall (fun x => exists label text,
                x = turn_entry label text /\
                ((exists l, Demo.turns sc = Some l /\ In (label, text) l) \/
                 label = "custom" /\ Demo.quits text = false))
             entries) /\
  (forall role content, labelled (text_entry role content) = false).
Proof.
  split; [|split].
  - intros e sc sch s entries.
    destruct (HarnessTranscript.h_transcript e sc sch) as (_ & H2 & H3 & _).
    split; assumption.
  - intros e sc sch s entries.
    destruct (DemoTranscript.d_transcript e sc sch) as (_ & H2 & H3 & _).
    split; [assumption|].
    eapply Forall_impl; [|exact H2]. cbn beta.
    intros x (label & text & -> & H). exists label, text. split; [reflexivity|].
    destruct H as [H | H]; [left | right; exact H].
    unfold Demo.scripted_turns in H.
    rewrite DemoRuns.d_run_scenario in H. cbn in H.
    destruct (Demo.turns sc) as [l|]; [eauto|contradiction].
  - reflexivity.
Qed.

(** X8: with one turn thread the transcript follows the script.  In
    ScenarioRunner, and in DemoRunner with scripted turns, when one turn
    thread was started the labelled entries of the transcript are the
    entries of the first turns of the scenario, in their order, as many as
    the thread has appended; they are the entries of all the turns once
    the thread is past its loop. *)
Theorem transcript_follows_the_script :
  (forall e sc sch t,
      let s := Harness.run (Harness.boot e sc) sch in
      Harness.turn_threads s = [t] ->
      filter labelled (Harness.conversation (Harness.results (Harness.self s)))
      = map (fun x => turn_entry (fst x) (snd x))
            (firstn (Harness.progress (List.length (Harness.turns sc)) (Harness.t_pc t))
                    (Harness.turns sc))) /\
  (forall e sc sch t,
      let s := Harness.run (Harness.boot e sc) sch in
      Harness.turn_threads s = [t] ->
      Harness.t_pc t = Harness.TExit ->
      filter labelled (Harness.conversation (Harness.results (Harness.self s)))
      = map (fun x => turn_entry (fst x) (snd x)) (Harness.turns sc)) /\
  (forall e sc l sch t i,
      Demo.turns sc = Some l ->
      let s := Demo.run (Demo.boot e sc) sch in
      Demo.turn_threads s = [t] ->
      Demo.progress (List.length l) (Demo.t_pc t) = Some i ->
      filter labelled (Demo.conversation (Demo.self s))
      = map (fun x => turn_entry (fst x) (snd x)) (firstn i l)) /\
  (forall e sc l sch t,
      Demo.turns sc = Some l ->
      let s := Demo.run (Demo.boot e sc) sch in
      Demo.turn_threads s = [t] ->
      Demo.t_pc t = Demo.TExit ->
      filter labelled (Demo.conversation (Demo.self s))
      = map (fun x => turn_entry (fst x) (snd x)) l).
Proof.
  assert (HH : forall e sc sch t,
    Harness.turn_threads (Harness.run (Harness.boot e sc) sch) = [t] ->
    filter labelled (Harness.conversation (Harness.results (Harness.self
                       (Harness.run (Harness.boot e sc) sch))))
    = map (fun x => turn_entry (fst x) (snd x))
          (firstn (Harness.progress (List.length (Harness.turns sc)) (Harness.t_pc t))
                  (Harness.turns sc))).
  { intros e sc sch t Ht.
    destruct (HarnessTranscript.h_transcript e sc sch) as (_ & _ & _ & H4).
    rewrite Ht in H4. exact H4. }
  assert (HD : forall e sc l sch t i,
    Demo.turns sc = Some l ->
    Demo.turn_threads (Demo.run (Demo.boot e sc) sch) = [t] ->
    Demo.progress (List.length l) (Demo.t_pc t) = Some i ->
    filter labelled (Demo.conversation (Demo.self (Demo.run (Demo.boot e sc) sch)))
    = map (fun x => turn_entry (fst x) (snd x)) (firstn i l)).
  { intros e sc l sch t i Hl Ht Hp.
    destruct (DemoTranscript.d_transcript e sc sch) as (_ & _ & _ & H4).
    unfold Demo.is_interactive, Demo.scripted_turns in H4.
    rewrite DemoRuns.d_run_scenario in H4. cbn in H4. rewrite Hl in H4.
    specialize (H4 eq_refl). rewrite Ht, Hp in H4. exact H4. }
  repeat apply conj.
  - intros e sc sch t s Ht. now apply HH.
  - intros e sc sch t s Ht Hp. unfold s. rewrite (HH e sc sch t Ht), Hp.
    cbn. now rewrite firstn_all.
  - intros e sc l sch t i Hl s Ht Hp. now apply (HD e sc l sch t i).
  - intros e sc l sch t Hl s Ht Hp. unfold s.
    rewrite (HD e sc l sch t (List.length l) Hl Ht); [now rewrite firstn_all|].
    rewrite Hp. reflexivity.
Qed.

(** The two turns of the sample scenario, delivered by the one thread. *)
Lemma transcript_script_witness :
  let s := Harness.run (Harness.boot env0 scenario_h)
             (handshake ++ deliver 0 3 (Harness.turns scenario_h)) in
  filter labelled (Harness.conversation (Harness.results (Harness.self s)))
  = [turn_entry "English" "Hello"; turn_entry "Spanish" "Hola"].
Proof.
  intros s.
  refine (proj1 (proj2 transcript_follows_the_script) env0 scenario_h _
            (Harness.TurnThread 0 Harness.TExit) _ _).
  - vm_compute. reflexivity.
  - reflexivity.
Defined.



(** X10: when [run] returns, the stop flag is set and the socket is closed
    or being closed, in both runners; in interactive mode, where the wait
    of DemoRunner's [run] has no timeout, the socket has closed.  Once the
    close callback has run, the closing branch of [run], which is taken
    when the socket thread is still found alive, changes nothing: from the
    first statement of the branch [run] returns in four steps with the
    runner, the world and the threads as they were. *)
Theorem run_returns_with_the_socket_closing :
  (forall e sc sch,
      let s := Harness.run (Harness.boot e sc) sch in
      Harness.main s = Harness.MReturned ->
      Harness._keepalive_stop (Harness.self s) = true /\
      closed (conn (Harness.w s)) = true) /\
  (forall e sc sch,
      let s := Demo.run (Demo.boot e sc) sch in
      Demo.main s = Demo.MReturned ->
      Demo._keepalive_stop (Demo.self s) = true /\
      closed (conn (Demo.w s)) = true) /\
  (forall e sc sch,
      Demo.turns sc = None ->
      let s := Demo.run (Demo.boot e sc) sch in
      Demo.main s = Demo.MReturned -> conn (Demo.w s) = CClosed) /\
  (forall e sc sch,
      let s := Harness.run (Harness.boot e sc) sch in
      conn (Harness.w s) = CClosed ->
      let s' := Harness.run (Harness.with_main Harness.MSetStop s)
                            [EvMain; EvMain; EvMain; EvMain] in
      Harness.main s' = Harness.MReturned /\
      Harness.self s' = Harness.self s /\ Harness.w s' = Harness.w s /\
      Harness.keepalive_threads s' = Harness.keepalive_threads s /\
      Harness.turn_threads s' = Harness.turn_threads s) /\
  (forall e sc sch,
      let s := Demo.run (Demo.boot e sc) sch in
      conn (Demo.w s) = CClosed ->
      let s' := Demo.run (Demo.with_main Demo.MSetStop s)
                         [EvMain; EvMain; EvMain; EvMain] in
      Demo.main s' = Demo.MReturned /\
      Demo.self s' = Demo.self s /\ Demo.w s' = Demo.w s /\
      Demo.keepalive_threads s' = Demo.keepalive_threads s /\
      Demo.turn_threads s' = Demo.turn_threads s).
Proof.
  repeat apply conj.
  - intros e sc sch s Hm.
    pose proof (HarnessThreads.h_returned e sc sch) as R. cbv zeta in R. fold s in R.
    rewrite Hm in R. exact R.
  - intros e sc sch s Hm.
    pose proof (DemoThreads.d_returned e sc sch) as R. cbv zeta in R. fold s in R.
    rewrite Hm in R. tauto.
  - intros e sc sch Hl s Hm.
    pose proof (DemoThreads.d_returned e sc sch) as R. cbv zeta in R.
    unfold Demo.is_interactive in R.
    rewrite DemoRuns.d_run_scenario in R. cbn in R. rewrite Hl in R. fold s in R.
    rewrite Hm in R. now apply R.
  - intros e sc sch s Hc s'.
    destruct (HarnessInv.h_closed_flags e sc sch Hc) as (_ & Hs & _). fold s in Hs.
    subst s'. clearbody s.
    destruct s as [[sc0 r buf n dn st wr] e0 wd ka tt mn]. cbn in Hc, Hs. subst st.
    destruct wd as [c o cs f t i]. cbn in Hc. subst c.
    cbn. repeat split.
  - intros e sc sch s Hc s'.
    destruct (proj1 (DemoInv.d_closed_flags e sc sch) Hc) as (_ & Hs & _). fold s in Hs.
    subst s'. clearbody s.
    destruct s as [[sc0 buf n cv dn st wr ap rd er] e0 wd ka tt mn]. cbn in Hc, Hs. subst st.
    destruct wd as [c o cs f t i]. cbn in Hc. subst c.
    cbn. repeat split.
Qed.

(** After a fatal error and six steps of [run], with the close of the
    socket between them, [run] has returned; and so it would have, had it
    gone through its closing branch after the close. *)
Lemma run_returns_witness :
  let s := Harness.run (Harness.boot env0 scenario_h)
             (handshake ++ [EvMain; EvFrame (Error "INVALID_SETTINGS" "bad");
                            EvMain; EvMain; EvMain; EvMain; EvMain; EvClose; EvMain]) in
  (Harness._keepalive_stop (Harness.self s) = true /\
   closed (conn (Harness.w s)) = true) /\
  Harness.w (Harness.run (Harness.with_main Harness.MSetStop s)
                         [EvMain; EvMain; EvMain; EvMain])
  = Harness.w s.
Proof.
  intros s. split.
  - refine (proj1 run_returns_with_the_socket_closing env0 scenario_h _ _).
    vm_compute. reflexivity.
  - refine (proj1 (proj2 (proj2 (proj1 (proj2 (proj2 (proj2
              run_returns_with_the_socket_closing))) env0 scenario_h _ _)))).
    vm_compute. reflexivity.
Defined.

(** X11: the threads end for a cause.  In both runners a turn thread is
    ended by a [send] that raised only when the socket is closed or being
    closed, and a keep-alive loop has left its loop only when the stop
    flag is set or the socket is closed or being closed. *)
Theorem threads_end_for_a_cause :
  (forall e sc sch k t i,
      let s := Harness.run (Harness.boot e sc) sch in
      nth_error (Harness.turn_threads s) k = Some t ->
      Harness.t_pc t = Harness.TDead i ->
      closed (conn (Harness.w s)) = true) /\
  (forall e sc sch k,
      let s := Harness.run (Harness.boot e sc) sch in
      nth_error (Harness.keepalive_threads s) k = Some KExit ->
      Harness._keepalive_stop (Harness.self s) = true \/
      closed (conn (Harness.w s)) = true) /\
  (forall e sc sch k t,
      let s := Demo.run (Demo.boot e sc) sch in
      nth_error (Demo.turn_threads s) k = Some t ->
      Demo.t_pc t = Demo.TDead ->
      closed (conn (Demo.w s)) = true) /\
  (forall e sc sch k,
      let s := Demo.run (Demo.boot e sc) sch in
      nth_error (Demo.keepalive_threads s) k = Some KExit ->
      Demo._keepalive_stop (Demo.self s) = true \/
      closed (conn (Demo.w s)) = true).
Proof.
  repeat apply conj.
  - intros e sc sch k t i s Hk Hp.
    destruct (closed (conn (Harness.w s))) eqn:Hc; [reflexivity|exfalso].
    destruct (HarnessThreads.h_cause e sc sch Hc) as [H _].
    exact (@Forall_nth_error _ _ _ _ _ H Hk i Hp).
  - intros e sc sch k s Hk.
    destruct (closed (conn (Harness.w s))) eqn:Hc; [now right|left].
    destruct (Harness._keepalive_stop (Harness.self s)) eqn:Hs; [reflexivity|exfalso].
    destruct (HarnessThreads.h_cause e sc sch Hc) as [_ H].
    exact (@Forall_nth_error _ _ _ _ _ (H Hs) Hk eq_refl).
  - intros e sc sch k t s Hk Hp.
    destruct (closed (conn (Demo.w s))) eqn:Hc; [reflexivity|exfalso].
    destruct (DemoThreads.d_cause e sc sch Hc) as [H _].
    exact (@Forall_nth_error _ _ _ _ _ H Hk Hp).
  - intros e sc sch k s Hk.
    destruct (closed (conn (Demo.w s))) eqn:Hc; [now right|left].
    destruct (Demo._keepalive_stop (Demo.self s)) eqn:Hs; [reflexivity|exfalso].
    destruct (DemoThreads.d_cause e sc sch Hc) as [_ H].
    exact (@Forall_nth_error _ _ _ _ _ (H Hs) Hk eq_refl).
Qed.

(** A turn thread that wakes after the socket has closed is ended by its
    [send]. *)
Lemma threads_end_witness :
  let s := Harness.run (Harness.boot env0 scenario_h)
             (handshake ++ [EvTurns 0; EvTick 3000; EvTurns 0; EvTurns 0; EvClose;
                            EvTurns 0]) in
  closed (conn (Harness.w s)) = true.
Proof.
  intros s.
  refine (proj1 threads_end_for_a_cause env0 scenario_h _ 0%nat
            (Harness.TurnThread 0 (Harness.TDead 0)) 0%nat _ _).
  - vm_compute. reflexivity.
  - reflexivity.
Defined.

(** X12: the completion signal has a cause.  In ScenarioRunner the signal
    is set only when the socket has closed or an error with a fatal code
    is in the list of errors; in DemoRunner the signal is set exactly when
    the socket has closed. *)
Theorem completion_signal_has_a_cause :
  (forall e sc sch,
      let s := Harness.run (Harness.boot e sc) sch in
      Harness.done_event (Harness.self s) = true ->
      conn (Harness.w s) = CClosed \/
      exists code desc,
        In (code_entry code desc) (Harness.errors (Harness.results (Harness.self s))) /\
        in_strs code fatal_codes = true) /\
  (forall e sc sch,
      let s := Demo.run (Demo.boot e sc) sch in
      Demo.done (Demo.self s) = true <-> conn (Demo.w s) = CClosed).
Proof.
  split.
  - intros e sc sch. apply HarnessMore.h_done_cause.
  - intros e sc sch s. destruct (DemoInv.d_closed_flags e sc sch) as [H1 H2].
    split; [exact H2|]. intros Hc. now apply H1.
Qed.

(** The signal set by a fatal error, on an open socket. *)
Lemma completion_signal_witness :
  let s := Harness.run (Harness.boot env0 scenario_h)
             (handshake ++ [EvFrame (Error "INVALID_SETTINGS" "bad")]) in
  conn (Harness.w s) = CClosed \/
  exists code desc,
    In (code_entry code desc) (Harness.errors (Harness.results (Harness.self s))) /\
    in_strs code fatal_codes = true.
Proof.
  intros s.
  refine (proj1 completion_signal_has_a_cause env0 scenario_h _ _).
  vm_compute. reflexivity.
Defined.

(** X13: DemoRunner sends no turn that it did not get.  Every user-turn
    frame of a scripted session carries the text of a turn of the
    scenario; every user-turn frame of an interactive session carries a
    text that does not quit: it is not empty and, in lower case, none of
    "quit", "exit" and "q". *)
Theorem demo_sends_what_it_was_given :
  (forall e sc l sch m text,
      Demo.turns sc = Some l ->
      In m (outbox (Demo.w (Demo.run (Demo.boot e sc) sch))) ->
      sent_msg m = InjectUserMessage text ->
      exists label, In (label, text) l) /\
  (forall e sc sch m text,
      Demo.turns sc = None ->
      In m (outbox (Demo.w (Demo.run (Demo.boot e sc) sch))) ->
      sent_msg m = InjectUserMessage text ->
      Demo.quits text = false /\ text <> "" /\
      ~ In (lower text) Demo.quit_tokens).
Proof.
  split.
  - intros e sc l sch m text Hl Hin Hm.
    pose proof (DemoThreads.d_frames e sc sch) as F. cbv zeta in F.
    rewrite Forall_forall in F. specialize (F m Hin text Hm).
    unfold Demo.scripted_turns, Demo.is_interactive in F.
    rewrite DemoRuns.d_run_scenario in F. cbn in F. rewrite Hl in F. exact F.
  - intros e sc sch m text Hl Hin Hm.
    pose proof (DemoThreads.d_frames e sc sch) as F. cbv zeta in F.
    rewrite Forall_forall in F. specialize (F m Hin text Hm).
    unfold Demo.scripted_turns, Demo.is_interactive in F.
    rewrite DemoRuns.d_run_scenario in F. cbn in F. rewrite Hl in F.
    split; [exact F|]. unfold Demo.quits in F.
    apply orb_false_elim in F. destruct F as [F1 F2]. split.
    + intros ->. discriminate F1.
    + intros Hi. assert (existsb (String.eqb (lower text)) Demo.quit_tokens = true).
      { apply existsb_exists. exists (lower text). split; [exact Hi|].
        apply String.eqb_refl. }
      congruence.
Qed.

(** The line typed in an interactive session is sent stripped, and does
    not quit. *)
Lemma demo_sends_witness :
  let sch := handshake ++ [EvStdin (Some " hello "); EvTurns 0; EvTurns 0; EvTurns 0;
                           EvTurns 0; EvTurns 0; EvTurns 0; EvTurns 0; EvTurns 0;
                           EvTurns 0] in
  let s := Demo.run (Demo.boot env0 scenario_i) sch in
  In (Sent 0 (ByTurns 0) (InjectUserMessage "hello")) (outbox (Demo.w s)) /\
  Demo.quits "hello" = false.
Proof.
  intros sch s.
  assert (Hin : In (Sent 0 (ByTurns 0) (InjectUserMessage "hello")) (outbox (Demo.w s)))
    by (vm_compute; right; left; reflexivity).
  split; [exact Hin|].
  exact (proj1 (proj2 demo_sends_what_it_was_given env0 scenario_i sch
                  (Sent 0 (ByTurns 0) (InjectUserMessage "hello")) "hello"
                  eq_refl Hin eq_refl)).
Defined.

(** X14: transcript events.  On a ConversationText event both runners
    append the entry of its role and content to the transcript, an absent
    field counting as the empty string.  ScenarioRunner then prints the
    line with the tag AGENT for the role "assistant" and the role in upper
    case otherwise; when the role is no string, [role.upper()] raises an
    AttributeError after the entry was appended, and nothing is printed.
    DemoRunner prints the line for the role "assistant" alone and never
    raises. *)
Theorem conversation_text_is_recorded :
  (forall d s,
      tagged "ConversationText" d ->
      let role := field "role" d in
      let content := field "content" d in
      let s1 := Harness.on_self (Harness.on_results (fun r =>
                  Harness.with_conversation
                    (Harness.conversation r ++ [text_entry role content]) r)) s in
      (forall r, role = JStr r ->
         Harness._on_message (MText (Some (JDict d))) s
         = Returned tt
             (Harness.on_world
                (w_print [FS "    [";
                          if String.eqb r "assistant" then FS "AGENT" else FUpper r;
                          FS "]: "; FV content]) s1)) /\
      ((forall r, role <> JStr r) ->
         Harness._on_message (MText (Some (JDict d))) s = Raised AttributeError s1) /\
      (conn (Harness.w s) = COpen ->
         let s' := Harness.step s (EvFrame (MText (Some (JDict d)))) in
         Harness.conversation (Harness.results (Harness.self s'))
         = Harness.conversation (Harness.results (Harness.self s))
           ++ [text_entry role content] /\
         ((forall r, role <> JStr r) -> s' = s1))) /\
  (forall d s,
      tagged "ConversationText" d ->
      let role := field "role" d in
      let content := field "content" d in
      let s1 := Demo.on_self (fun r =>
                  Demo.with_conversation
                    (Demo.conversation r ++ [text_entry role content]) r) s in
      Demo._on_message (MText (Some (JDict d))) s
      = Returned tt (if eq_str role "assistant"
                     then Demo.on_world (w_print [FS "  AGENT: "; FV content]) s1
                     else s1) /\
      (conn (Demo.w s) = COpen ->
         let s' := Demo.step s (EvFrame (MText (Some (JDict d)))) in
         Demo.conversation (Demo.self s')
         = Demo.conversation (Demo.self s) ++ [text_entry role content])).
Proof.
  split.
  - intros d s H role content s1.
    assert (E : Harness._on_message (MText (Some (JDict d))) s
                = match role with
                  | JStr r =>
                      Returned tt
                        (Harness.on_world
                           (w_print [FS "    [";
                                     if String.eqb r "assistant" then FS "AGENT"
                                     else FUpper r;
                                     FS "]: "; FV content]) s1)
                  | _ => Raised AttributeError s1
                  end).
    { unfold tagged in H. unfold Harness._on_message, bind.
      rewrite get_field. by_tag H. rewrite !get_field.
      unfold Harness.conversation_append, modify. subst s1 role content.
      destruct (eq_str (field "role" d) "assistant") eqn:Er.
      - apply eq_str_true in Er. rewrite Er. reflexivity.
      - destruct (field "role" d); try reflexivity.
        simpl in Er. rewrite Er. reflexivity. }
    repeat apply conj.
    + intros r Hr. rewrite E, Hr. reflexivity.
    + intros Hn. rewrite E. destruct role; try reflexivity. now destruct (Hn s0).
    + intros Hc s'. unfold s', Harness.step. rewrite Hc.
      unfold Harness.callback at 2. simpl Harness._on_data. unfold ret.
      unfold Harness.callback. rewrite E.
      split.
      * destruct role; reflexivity.
      * intros Hn. destruct role; try reflexivity. now destruct (Hn s0).
  - intros d s H role content s1.
    assert (E : Demo._on_message (MText (Some (JDict d))) s
                = Returned tt
                    (if eq_str role "assistant"
                     then Demo.on_world (w_print [FS "  AGENT: "; FV content]) s1
                     else s1)).
    { unfold tagged in H. unfold Demo._on_message, bind.
      rewrite get_field. by_tag H. rewrite !get_field.
      unfold Demo.conversation_append, modify. subst s1 role content.
      destruct (eq_str (field "role" d) "assistant"); reflexivity. }
    split; [exact E|].
    intros Hc s'. unfold s', Demo.step. rewrite Hc.
    unfold Demo.callback at 2. simpl Demo._on_data. unfold ret.
    unfold Demo.callback. rewrite E.
    destruct (eq_str role "assistant"); reflexivity.
Qed.

(** A transcript event whose role is JSON null: the entry is appended and
    nothing is printed. *)
Lemma conversation_text_witness :
  let d := [("type", JStr "ConversationText"); ("role", JNone);
            ("content", JStr "hi")] in
  let s := Harness.run (Harness.boot env0 scenario_h) handshake in
  let s' := Harness.step s (EvFrame (MText (Some (JDict d)))) in
  Harness.conversation (Harness.results (Harness.self s'))
  = Harness.conversation (Harness.results (Harness.self s))
    ++ [text_entry JNone (JStr "hi")] /\
  console (Harness.w s') = console (Harness.w s).
Proof.
  intros d s s'.
  destruct (proj1 conversation_text_is_recorded d s) as (_ & _ & H).
  - reflexivity.
  - destruct H as [H1 H2]; [reflexivity|]. split; [exact H1|].
    unfold s'. rewrite H2; [reflexivity|]. intros r. discriminate.
Defined.




Lemma prefix_app sub s :
  String.prefix sub s = true <-> exists post, s = (sub ++ post)%string.
Proof.
  revert s. induction sub as [|c sub IH]; intros s; cbn.
  - split; [|intros _; destruct s; reflexivity]. intros _. exists s. reflexivity.
  - destruct s as [|c' s].
    + split; [discriminate|]. intros (post & H). discriminate.
    + cbn [String.prefix]. destruct (Ascii.ascii_dec c c') as [->|Hn].
      * rewrite IH. split.
        -- intros (post & ->). exists post. reflexivity.
        -- intros (post & [= ->]). exists post. reflexivity.
      * split; [discriminate|]. intros (post & [= -> _]). now destruct Hn.
Qed.

Lemma contains_app sub s :
  contains sub s = true <-> exists pre post, s = (pre ++ sub ++ post)%string.
Proof.
  induction s as [|c s IH]; cbn [contains].
  - rewrite orb_false_r, prefix_app. split.
    + intros (post & H). exists EmptyString, post. exact H.
    + intros (pre & post & H). destruct pre; [exists post; exact H|discriminate].
  - rewrite orb_true_iff, prefix_app, IH. split.
    + intros [(post & H) | (pre & post & ->)].
      * exists EmptyString, post. exact H.
      * exists (String c pre), post. reflexivity.
    + intros (pre & post & H). destruct pre as [|c' pre].
      * left. exists post. exact H.
      * right. injection H as -> ->. exists pre, post. reflexivity.
Qed.

(** X16: the scenarios run by ScenarioRunner's [main].  Without an
    argument all the scenarios of the table are run.  With arguments the
    scenarios run are those whose id has one of the arguments as a
    substring, in the order of the table and each once, however many
    arguments match it; an empty argument matches every scenario; and
    when no scenario matches, [main] returns after two lines without
    running any. *)
Theorem main_runs_the_matching_scenarios :
  (forall SCENARIOS program,
      Harness.main_scenarios SCENARIOS [program] = inr SCENARIOS) /\
  (forall SCENARIOS program arg args,
      let test_ids := arg :: args in
      let wanted := fun s =>
        exists tid pre post,
          In tid test_ids /\ Harness.id s = (pre ++ tid ++ post)%string in
      match Harness.main_scenarios SCENARIOS (program :: test_ids) with
      | inr scenarios =>
          scenarios <> [] /\
          scenarios = filter (Harness.matches test_ids) SCENARIOS /\
          (forall s, In s scenarios <-> In s SCENARIOS /\ wanted s) /\
          (NoDup SCENARIOS -> NoDup scenarios)
      | inl printed =>
          List.length printed = 2%nat /\ forall s, In s SCENARIOS -> ~ wanted s
      end) /\
  (forall SCENARIOS program args,
      SCENARIOS <> [] ->
      In EmptyString args ->
      Harness.main_scenarios SCENARIOS (program :: args) = inr SCENARIOS).
Proof.
  assert (W : forall test_ids s,
             Harness.matches test_ids s = true <->
             exists tid pre post,
               In tid test_ids /\ Harness.id s = (pre ++ tid ++ post)%string).
  { intros test_ids s. unfold Harness.matches. rewrite existsb_exists. split.
    - intros (tid & Hin & Hc). apply contains_app in Hc.
      destruct Hc as (pre & post & Hc). eauto.
    - intros (tid & pre & post & Hin & Hc). exists tid. split; [exact Hin|].
      apply contains_app. eauto. }
  repeat apply conj.
  - reflexivity.
  - intros SCENARIOS program arg args test_ids wanted.
    unfold Harness.main_scenarios. cbn [tl List.length Nat.ltb Nat.leb].
    fold test_ids.
    destruct (filter (Harness.matches test_ids) SCENARIOS) as [|x l] eqn:Ef;
      cbn [nilb]; cbv beta iota.
    + split; [reflexivity|]. intros s Hin Hw.
      assert (Hx : In s (filter (Harness.matches test_ids) SCENARIOS)).
      { apply filter_In. split; [exact Hin|]. now apply W. }
      rewrite Ef in Hx. contradiction.
    + split; [discriminate|]. split; [reflexivity|]. split.
      * intros s. rewrite <- Ef, filter_In, W. reflexivity.
      * intros Hn. rewrite <- Ef. now apply NoDup_filter.
  - intros SCENARIOS program args Hn Hin.
    unfold Harness.main_scenarios.
    destruct args as [|a args]; [contradiction|]. cbn [tl List.length Nat.ltb Nat.leb].
    assert (E : filter (Harness.matches (a :: args)) SCENARIOS = SCENARIOS).
    { apply forallb_filter_id. apply forallb_forall. intros s _.
      apply W. exists EmptyString, EmptyString, (Harness.id s). auto. }
    rewrite E. destruct SCENARIOS; [contradiction|reflexivity].
Qed.

(** An empty argument selects the sample scenario, whatever the others. *)
Lemma main_runs_witness :
  Harness.main_scenarios [scenario_h] ["test.py"; "T9"; ""] = inr [scenario_h].
Proof.
  apply (proj2 (proj2 main_runs_the_matching_scenarios) [scenario_h] "test.py"
           ["T9"; ""]).
  - discriminate.
  - right. left. reflexivity.
Defined.

Module HarnessReport.
Import Harness HarnessFacts HarnessCases HarnessInv.





End HarnessReport.


Module DemoSummary.
Import Demo DemoFacts DemoCases DemoInv.

(** The entries of the transcript are those built by the runner. *)
Lemma d_entries_step s e :
  Forall (fun x => (exists role content, x = text_entry role content) \/
                   (exists label text, x = turn_entry label text))
         (conversation (self s)) ->
  Forall (fun x => (exists role content, x = text_entry role content) \/
                   (exists label text, x = turn_entry label text))
         (conversation (self (step s e))).
Proof.
  intros H. d_cases s e; d_unfold.
  all: try assumption.
  all: apply Forall_app; (split; [assumption|]); (constructor; [|constructor]).
  all: try (left; eexists _, _; reflexivity).
  all: right; eexists _, _; reflexivity.
Qed.

Lemma d_entries e sc sch :
  Forall (fun x => (exists role content, x = text_entry role content) \/
                   (exists label text, x = turn_entry label text))
         (conversation (self (run (boot e sc) sch))).
Proof.
  apply d_reach.
  - constructor.
  - intros s ev. apply d_entries_step.
Qed.

Lemma each_some A (body : A -> option (list line)) (keep : A -> bool) (l : list A) :
  Forall (fun x => exists a, body x = Some (if keep x then [a] else [])) l ->
  exists ls, each body l = Some ls /\
             List.length ls = List.length (filter keep l).
Proof.
  induction 1 as [|x l (a & Hx) _ (ls & Hl & Hn)]; cbn.
  - exists []. auto.
  - rewrite Hx, Hl. destruct (keep x).
    + exists (a :: ls). cbn. auto.
    + exists ls. auto.
Qed.

End DemoSummary.

(** X18: the summary of a session.  On the transcript and the errors of
    any DemoRunner session [print_summary] raises nowhere.  It prints one
    line for each entry of the transcript whose role is "user" or
    "assistant" and none for an entry of another role, then the line of
    the errors exactly when the list of errors is not empty. *)
Theorem summary_of_a_session :
  forall e sc sch,
    let s := Demo.run (Demo.boot e sc) sch in
    let shown := fun x => match item "role" x with
                          | Some role => eq_str role "user" || eq_str role "assistant"
                          | None => false
                          end in
    exists msgs,
      each Demo.summary_message (Demo.conversation (Demo.self s)) = Some msgs /\
      List.length msgs
      = List.length (filter shown (Demo.conversation (Demo.self s))) /\
      Demo.print_summary (Demo.conversation (Demo.self s)) (Demo._errors (Demo.self s))
      = Some ([Demo.Line [FS nl; FS "  "; FS (times "─" 60)];
               Demo.Line [FS "  CONVERSATION SUMMARY"];
               Demo.Line [FS "  "; FS (times "─" 60)]]
              ++ map Demo.Line msgs
              ++ match Demo._errors (Demo.self s) with
                 | [] => []
                 | _ :: _ => [Demo.ErrorsLine (Demo._errors (Demo.self s))]
                 end
              ++ [Demo.Line []]).
Proof.
  intros e sc sch s shown.
  destruct (@DemoSummary.each_some _ Demo.summary_message shown
              (Demo.conversation (Demo.self s))) as (msgs & H1 & H2).
  { eapply Forall_impl; [|apply DemoSummary.d_entries].
    intros x [(role & content & ->) | (label & text & ->)].
    - unfold shown. cbn.
      destruct (eq_str role "user"); cbn; [eexists; reflexivity|].
      destruct (eq_str role "assistant"); [eexists; reflexivity|].
      exists []. reflexivity.
    - unfold shown. cbn. eexists. reflexivity. }
  exists msgs. repeat split; auto.
  unfold Demo.print_summary. rewrite H1.
  destruct (Demo._errors (Demo.self s)); reflexivity.
Qed.

(** X19: the settings of the two runners.  Both put the prompt, the voice
    id and the Cartesia key of the environment in the settings, which do
    not depend on the Deepgram key.  A listen language, a greeting or (in
    ScenarioRunner) a Cartesia language that is absent or empty is left
    out, not sent empty; DemoRunner never sends a language for the voice.
    When the scenario has no agent language ScenarioRunner sends "en" and
    DemoRunner "multi".  For scenarios with the same agent language,
    listen language, prompt and greeting, and no Cartesia language, the
    two runners send the same settings. *)
Theorem settings_of_the_two_runners :
  (forall e s,
      let j := Harness.build_settings e s in
      at_path ["type"] j = Some (JStr "Settings") /\
      at_path ["agent"; "think"; "prompt"] j = Some (JStr (Harness.prompt s)) /\
      at_path ["agent"; "speak"; "provider"; "voice"; "id"] j
      = Some (JStr (CARTESIA_VOICE_ID e)) /\
      at_path ["agent"; "speak"; "endpoint"; "headers"; "X-API-Key"] j
      = Some (JStr (CARTESIA_API_KEY e)) /\
      at_path ["agent"; "language"] j
      = Some (JStr (match Harness.agent_language s with
                    | Some l => l
                    | None => "en"
                    end)) /\
      at_path ["agent"; "listen"; "provider"; "language"] j
      = (if truthy (Harness.listen_language s)
         then Some (of_opt (Harness.listen_language s)) else None) /\
      at_path ["agent"; "speak"; "provider"; "language"] j
      = (if truthy (Harness.cartesia_language s)
         then Some (of_opt (Harness.cartesia_language s)) else None) /\
      at_path ["agent"; "greeting"] j
      = (if truthy (Harness.greeting s)
         then Some (of_opt (Harness.greeting s)) else None)) /\
  (forall e s,
      let j := Demo._build_settings e s in
      at_path ["type"] j = Some (JStr "Settings") /\
      at_path ["agent"; "think"; "prompt"] j = Some (JStr (Demo.prompt s)) /\
      at_path ["agent"; "speak"; "provider"; "voice"; "id"] j
      = Some (JStr (CARTESIA_VOICE_ID e)) /\
      at_path ["agent"; "speak"; "endpoint"; "headers"; "X-API-Key"] j
      = Some (JStr (CARTESIA_API_KEY e)) /\
      at_path ["agent"; "language"] j
      = Some (JStr (match Demo.agent_language s with
                    | Some l => l
                    | None => "multi"
                    end)) /\
      at_path ["agent"; "listen"; "provider"; "language"] j
      = (if truthy (Demo.listen_language s)
         then Some (of_opt (Demo.listen_language s)) else None) /\
      at_path ["agent"; "speak"; "provider"; "language"] j = None /\
      at_path ["agent"; "greeting"] j
      = (if truthy (Demo.greeting s)
         then Some (of_opt (Demo.greeting s)) else None)) /\
  (forall k1 k2 ca voice h d,
      Harness.build_settings (Environ k1 ca voice) h
      = Harness.build_settings (Environ k2 ca voice) h /\
      Demo._build_settings (Environ k1 ca voice) d
      = Demo._build_settings (Environ k2 ca voice) d) /\
  (forall e h d l,
      Harness.agent_language h = Some l ->
      Demo.agent_language d = Some l ->
      Harness.listen_language h = Demo.listen_language d ->
      Harness.prompt h = Demo.prompt d ->
      Harness.greeting h = Demo.greeting d ->
      truthy (Harness.cartesia_language h) = false ->
      Harness.build_settings e h = Demo._build_settings e d).
Proof.
  repeat apply conj.
  - intros e s j. subst j. unfold Harness.build_settings.
    destruct (Harness.agent_language s), (truthy (Harness.listen_language s)),
      (truthy (Harness.cartesia_language s)), (truthy (Harness.greeting s));
      repeat split.
  - intros e s j. subst j. unfold Demo._build_settings.
    destruct (Demo.agent_language s), (truthy (Demo.listen_language s)),
      (truthy (Demo.greeting s)); repeat split.
  - intros k1 k2 ca voice h d. split; reflexivity.
  - intros e h d l H1 H2 H3 H4 H5 H6.
    unfold Harness.build_settings, Demo._build_settings.
    rewrite H1, H2, H3, H4, H5, H6. rewrite app_nil_r. reflexivity.
Qed.

(** The sample scenarios of the two runners give the same settings. *)
Lemma settings_witness :
  Harness.build_settings env0 scenario_h = Demo._build_settings env0 scenario_d.
Proof.
  apply (proj2 (proj2 (proj2 settings_of_the_two_runners))
           env0 scenario_h scenario_d "multi"); reflexivity.
Defined.

Lemma elapsed_app l1 l2 : elapsed (l1 ++ l2) = elapsed l1 + elapsed l2.
Proof.
  induction l1 as [|e l1 IH]; [reflexivity|].
  destruct e; cbn; rewrite IH; lia.
Qed.

Lemma elapsed_deliver k first turns :
  elapsed (deliver k first turns)
  <= seconds first + seconds BETWEEN_TURNS * N.of_nat (List.length turns) + seconds 8.
Proof.
  revert first. induction turns as [|t turns IH]; intros first.
  - cbn. lia.
  - cbn [deliver]. rewrite elapsed_app. specialize (IH BETWEEN_TURNS).
    cbn [elapsed List.length]. rewrite Nat2N.inj_succ.
    unfold seconds in *. lia.
Qed.

Module HarnessSession.
Import Harness HarnessFacts HarnessCases HarnessInv.

#[local] Arguments seconds : simpl never.
#[local] Arguments N.add : simpl never.
#[local] Arguments N.mul : simpl never.

(** The clock moves with the ticks alone. *)
Lemma h_now_step s e :
  now (w (step s e)) = now (w s) + elapsed [e].
Proof.
  h_cases s e; h_unfold; rewrite ?now_w_close; cbn [elapsed]; lia.
Qed.

Lemma h_now_run s sch : now (w (run s sch)) = now (w s) + elapsed sch.
Proof.
  revert s. induction sch as [|e sch IH]; intros s.
  - cbn. lia.
  - rewrite h_run_cons, IH, h_now_step. change (e :: sch) with ([e] ++ sch).
    rewrite elapsed_app. lia.
Qed.

(** [run] moves with its own steps alone. *)
Lemma h_main_step s e : e <> EvMain -> main (step s e) = main s.
Proof. intros H. h_cases s e; h_unfold; try reflexivity; congruence. Qed.

Lemma h_main_run s sch : ~ In EvMain sch -> main (run s sch) = main s.
Proof.
  revert s. induction sch as [|e sch IH]; intros s H; [reflexivity|].
  rewrite h_run_cons, IH, h_main_step; auto.
  - intros ->. apply H. now left.
  - intros Hin. apply H. now right.
Qed.

(** A thread that has run to its end has closed the socket. *)
Lemma h_exit_step s e :
  Forall (fun t => t_pc t = TExit -> closed (conn (w s)) = true) (turn_threads s) ->
  Forall (fun t => t_pc t = TExit -> closed (conn (w (step s e))) = true)
         (turn_threads (step s e)).
Proof.
  intros H.
  assert (Hc : closed (conn (w s)) = true -> closed (conn (w (step s e))) = true)
    by (intros Hx; now apply h_closed_step).
  assert (G : Forall (fun t => t_pc t = TExit -> closed (conn (w (step s e))) = true)
                (turn_threads s)).
  { eapply Forall_impl; [|exact H]. intros t Ht Hp. auto. }
  clear H. revert G Hc.
  h_cases s e; h_unfold; rewrite ?closed_w_close; intros G0 Hcl.
  all: try assumption.
  all: try (apply Forall_app; split; [assumption|repeat constructor; discriminate]).
  all: try (apply Forall_set_nth; [assumption|cbn; try discriminate; auto]).
  all: intros _; apply Hcl;
       exact (@Forall_nth_error _ _ _ _ _ G0 Ek eq_refl).
Qed.

Lemma h_exit e sc sch :
  let s := run (boot e sc) sch in
  Forall (fun t => t_pc t = TExit -> closed (conn (w s)) = true) (turn_threads s).
Proof.
  cbv zeta. apply h_reach; [constructor|]. intros s ev. apply h_exit_step.
Qed.

(** With one thread at its end the user turns of the log are the turns of
    the scenario. *)
Lemma h_single_frames e sc sch born :
  let s := run (boot e sc) sch in
  turn_threads s = [TurnThread born TExit] ->
  map sent_msg (user_turns (outbox (w s)))
  = map (fun x => InjectUserMessage (snd x)) (turns sc).
Proof.
  intros s Hp.
  assert (HI : TInv 3 (turns sc) (tview_of s))
    by apply (@HarnessRuns.h_run_TInv (boot e sc) sch), HarnessRuns.h_boot_TInv.
  assert (Hv : tv_pool (tview_of s) = [(born, PTail)])
    by (simpl; now rewrite Hp).
  pose proof (user_turns_single HI Hv) as E. simpl in E. rewrite E.
  pose proof (proj2 HI 0%nat) as H. rewrite Hv in H. simpl in H.
  now apply tok_tail in H.
Qed.

End HarnessSession.

Module DemoSession.
Import Demo DemoFacts DemoCases DemoInv.

#[local] Arguments seconds : simpl never.
#[local] Arguments N.add : simpl never.
#[local] Arguments N.mul : simpl never.

(** The clock moves with the ticks alone. *)
Lemma d_now_step s e :
  now (w (step s e)) = now (w s) + elapsed [e].
Proof.
  d_cases s e; d_unfold; rewrite ?now_w_close; cbn [elapsed]; lia.
Qed.

Lemma d_now_run s sch : now (w (run s sch)) = now (w s) + elapsed sch.
Proof.
  revert s. induction sch as [|e sch IH]; intros s.
  - cbn. lia.
  - rewrite d_run_cons, IH, d_now_step. change (e :: sch) with ([e] ++ sch).
    rewrite elapsed_app. lia.
Qed.

(** [run] moves with its own steps alone. *)
Lemma d_main_step s e : e <> EvMain -> main (step s e) = main s.
Proof. intros H. d_cases s e; d_unfold; try reflexivity; congruence. Qed.

Lemma d_main_run s sch : ~ In EvMain sch -> main (run s sch) = main s.
Proof.
  revert s. induction sch as [|e sch IH]; intros s H; [reflexivity|].
  rewrite d_run_cons, IH, d_main_step; auto.
  - intros ->. apply H. now left.
  - intros Hin. apply H. now right.
Qed.

(** A thread that has run to its end has closed the socket. *)
Lemma d_exit_step s e :
  Forall (fun t => t_pc t = TExit -> closed (conn (w s)) = true) (turn_threads s) ->
  Forall (fun t => t_pc t = TExit -> closed (conn (w (step s e))) = true)
         (turn_threads (step s e)).
Proof.
  intros H.
  assert (Hc : closed (conn (w s)) = true -> closed (conn (w (step s e))) = true)
    by (intros Hx; now apply d_closed_step).
  assert (G : Forall (fun t => t_pc t = TExit -> closed (conn (w (step s e))) = true)
                (turn_threads s)).
  { eapply Forall_impl; [|exact H]. intros t Ht Hp. auto. }
  clear H. revert G Hc.
  d_cases s e; d_unfold; rewrite ?closed_w_close; intros G0 Hcl.
  all: try assumption.
  all: try (apply Forall_app; split; [assumption|repeat constructor; discriminate]).
  all: try (apply Forall_set_nth; [assumption|cbn; try discriminate; auto]).
  all: intros _; apply Hcl;
       exact (@Forall_nth_error _ _ _ _ _ G0 Ek eq_refl).
Qed.

Lemma d_exit e sc sch :
  let s := run (boot e sc) sch in
  Forall (fun t => t_pc t = TExit -> closed (conn (w s)) = true) (turn_threads s).
Proof.
  cbv zeta. apply d_reach; [constructor|]. intros s ev. apply d_exit_step.
Qed.

(** With one thread at its end the user turns of the log are the turns of
    the scenario. *)
Lemma d_single_frames e sc l sch born :
  turns sc = Some l ->
  let s := run (boot e sc) sch in
  turn_threads s = [TurnThread born TExit] ->
  map sent_msg (user_turns (outbox (w s)))
  = map (fun x => InjectUserMessage (snd x)) l.
Proof.
  intros Hl s Hp.
  assert (HI : TInv 4 l (tview_of s))
    by apply (@DemoRuns.d_run_TInv (boot e sc) sch l Hl), DemoRuns.d_boot_TInv.
  assert (Hv : tv_pool (tview_of s) = [(born, PTail)])
    by (simpl; now rewrite Hp).
  pose proof (user_turns_single HI Hv) as E. simpl in E. rewrite E.
  pose proof (proj2 HI 0%nat) as H. rewrite Hv in H. simpl in H.
  now apply tok_tail in H.
Qed.

End DemoSession.

Lemma deliver_no_main k first turns : ~ In EvMain (deliver k first turns).
Proof.
  revert first. induction turns as [|t turns IH]; intros first; cbn [deliver].
  - cbn. intuition discriminate.
  - intros H. apply in_app_or in H. destruct H as [H | H].
    + cbn in H. intuition discriminate.
    + now apply (IH BETWEEN_TURNS).
Qed.

Lemma h_run_returns s :
  Harness.main s = Harness.MWaitCall ->
  Harness.done_event (Harness.self s) = true ->
  conn (Harness.w s) = CClosed ->
  Harness.run s [EvMain; EvMain; EvMain] = Harness.with_main Harness.MReturned s.
Proof.
  intros Hm Hd Hc.
  rewrite !HarnessFacts.h_run_cons, HarnessFacts.h_run_nil.
  unfold Harness.step at 3. unfold Harness.run_step. rewrite Hm.
  unfold Harness.step at 2. unfold Harness.run_step. cbn [Harness.main Harness.with_main].
  cbn [Harness.self Harness.with_main]. rewrite Hd. cbn [orb].
  unfold Harness.step, Harness.run_step. cbn. rewrite Hc. reflexivity.
Qed.

Lemma d_run_returns s :
  Demo.main s = Demo.MWaitCall ->
  Demo.done (Demo.self s) = true ->
  conn (Demo.w s) = CClosed ->
  Demo.run s [EvMain; EvMain; EvMain] = Demo.with_main Demo.MReturned s.
Proof.
  intros Hm Hd Hc.
  rewrite !DemoFacts.d_run_cons, DemoFacts.d_run_nil.
  unfold Demo.step at 3. unfold Demo.run_step. rewrite Hm.
  destruct (Demo.turns (Demo.scenario (Demo.self s))) as [l|].
  - unfold Demo.step at 2. unfold Demo.run_step. cbn [Demo.main Demo.with_main].
    cbn [Demo.self Demo.with_main]. rewrite Hd. cbn [orb].
    unfold Demo.step, Demo.run_step. cbn. rewrite Hc. reflexivity.
  - unfold Demo.step at 2. unfold Demo.run_step. cbn [Demo.main Demo.with_main].
    cbn [Demo.self Demo.with_main]. rewrite Hd. cbn [orb].
    unfold Demo.step, Demo.run_step. cbn. rewrite Hc. reflexivity.
Qed.

(** X20: a scripted session ends by itself.  When the socket opens, the
    configuration is acknowledged and the socket stays open, a session on
    the schedule [deliver] runs to its end without the timeout of [run]:
    the turn thread sends all the turns and closes the socket, the close
    callback sets the completion signal and [run] returns; the user turns
    of the log and the labelled entries of the transcript are those of
    the scenario, in its order, and the time passed is below the timeout
    of [run]. *)
Theorem a_scripted_session_ends_by_itself :
  (forall e sc,
      let s := Harness.run (Harness.boot e sc)
                 (handshake ++ deliver 0 3 (Harness.turns sc)
                  ++ [EvClose; EvMain; EvMain; EvMain]) in
      Harness.main s = Harness.MReturned /\
      conn (Harness.w s) = CClosed /\
      map sent_msg (user_turns (outbox (Harness.w s)))
      = map (fun x => InjectUserMessage (snd x)) (Harness.turns sc) /\
      filter labelled (Harness.conversation (Harness.results (Harness.self s)))
      = map (fun x => turn_entry (fst x) (snd x)) (Harness.turns sc) /\
      now (Harness.w s)
      < seconds (20 + N.of_nat (List.length (Harness.turns sc)) * 10)) /\
  (forall e sc l,
      Demo.turns sc = Some l ->
      let s := Demo.run (Demo.boot e sc)
                 (handshake ++ deliver 0 4 l ++ [EvClose; EvMain; EvMain; EvMain]) in
      Demo.main s = Demo.MReturned /\
      conn (Demo.w s) = CClosed /\
      map sent_msg (user_turns (outbox (Demo.w s)))
      = map (fun x => InjectUserMessage (snd x)) l /\
      filter labelled (Demo.conversation (Demo.self s))
      = map (fun x => turn_entry (fst x) (snd x)) l /\
      now (Demo.w s) < seconds (30 + N.of_nat (List.length l) * 10)).
Proof.
  split.
  - intros e sc s.
    set (sch1 := handshake ++ deliver 0 3 (Harness.turns sc) ++ [EvClose]).
    set (s2 := Harness.run (Harness.boot e sc) sch1).
    assert (Es : s = Harness.run s2 [EvMain; EvMain; EvMain]).
    { unfold s, s2, sch1. rewrite <- HarnessFacts.h_run_app.
      f_equal. rewrite <- !app_assoc. reflexivity. }
    (* the thread has run to its end *)
    set (s0 := Harness.run (Harness.boot e sc) handshake).
    set (s1 := Harness.run s0 (deliver 0 3 (Harness.turns sc))).
    assert (E1 : s1 = Harness.run (Harness.boot e sc)
                        (handshake ++ deliver 0 3 (Harness.turns sc)))
      by (unfold s1, s0; now rewrite HarnessFacts.h_run_app).
    assert (T1 : Harness.turn_threads s1 = [Harness.TurnThread 0 Harness.TExit]).
    { assert (H0 : Harness.turn_threads s0
                   = [Harness.TurnThread 0 (Harness.TLoop 0)]) by reflexivity.
      destruct (@HarnessDelivery.h_deliver 0 0 (Harness.turns sc) 0 s0) as [H1 H2];
        try reflexivity.
      apply singleton_nth; [|exact H1]. etransitivity; [exact H2|]. now rewrite H0. }
    assert (C1 : closed (conn (Harness.w s1)) = true).
    { pose proof (HarnessSession.h_exit e sc
                    (handshake ++ deliver 0 3 (Harness.turns sc))) as X.
      cbv zeta in X. rewrite <- E1, T1 in X.
      inversion X as [|? ? X1 _]. now apply X1. }
    assert (E2 : s2 = Harness.step s1 EvClose).
    { unfold s2, sch1. rewrite E1, app_assoc, HarnessFacts.h_run_app. reflexivity. }
    assert (C2 : conn (Harness.w s2) = CClosed /\
                 Harness.turn_threads s2 = Harness.turn_threads s1).
    { rewrite E2. destruct (conn (Harness.w s1)) eqn:Ec; try discriminate C1.
      - rewrite HarnessCases.h_step_close by auto. unfold Harness.shut.
        destruct (nilb _); split; reflexivity.
      - rewrite HarnessCases.h_step_close_other by auto. auto. }
    destruct C2 as [C2 T2].
    assert (M2 : Harness.main s2 = Harness.MWaitCall).
    { rewrite E2, HarnessSession.h_main_step by discriminate.
      unfold s1. rewrite HarnessSession.h_main_run by apply deliver_no_main.
      reflexivity. }
    assert (D2 : Harness.done_event (Harness.self s2) = true)
      by (now apply (HarnessInv.h_closed_flags e sc sch1)).
    pose proof (@h_run_returns _ M2 D2 C2) as R. rewrite <- Es in R.
    assert (T : Harness.turn_threads s = [Harness.TurnThread 0 Harness.TExit])
      by (rewrite R; unfold Harness.with_main; cbn [Harness.turn_threads];
          rewrite T2; exact T1).
    repeat apply conj.
    + rewrite R. reflexivity.
    + rewrite R. exact C2.
    + now apply (@HarnessSession.h_single_frames e sc _ 0).
    + destruct (HarnessTranscript.h_transcript e sc
                  (handshake ++ deliver 0 3 (Harness.turns sc)
                   ++ [EvClose; EvMain; EvMain; EvMain])) as (_ & _ & _ & H4).
      fold s in H4. rewrite T in H4. rewrite H4. cbn. now rewrite firstn_all.
    + unfold s. rewrite HarnessSession.h_now_run, !elapsed_app.
      pose proof (elapsed_deliver 0 3 (Harness.turns sc)) as B.
      cbn [elapsed handshake]. cbn [Harness.boot Harness.w now world0].
      unfold seconds, BETWEEN_TURNS in *. lia.
  - intros e sc l Hl s.
    set (sch1 := handshake ++ deliver 0 4 l ++ [EvClose]).
    set (s2 := Demo.run (Demo.boot e sc) sch1).
    assert (Es : s = Demo.run s2 [EvMain; EvMain; EvMain]).
    { unfold s, s2, sch1. rewrite <- DemoFacts.d_run_app.
      f_equal. rewrite <- !app_assoc. reflexivity. }
    set (s0 := Demo.run (Demo.boot e sc) handshake).
    set (s1 := Demo.run s0 (deliver 0 4 l)).
    assert (E1 : s1 = Demo.run (Demo.boot e sc) (handshake ++ deliver 0 4 l))
      by (unfold s1, s0; now rewrite DemoFacts.d_run_app).
    assert (H0 : Demo.turn_threads s0 = [Demo.TurnThread 0 (Demo.TLoop 0)] /\
                 Demo.turns (Demo.scenario (Demo.self s0)) = Some l /\
                 conn (Demo.w s0) = COpen /\
                 Demo._ws (Demo.self s0) = true /\
                 Demo.main s0 = Demo.MWaitCall).
    { unfold s0. destruct sc as [n sub al ll p g t]. simpl in Hl. subst t.
      repeat split. }
    destruct H0 as (H0 & H1 & H2 & H3 & H4).
    assert (T1 : Demo.turn_threads s1 = [Demo.TurnThread 0 Demo.TExit]).
    { destruct (@DemoDelivery.d_deliver 0 0 l l 0 s0) as [H5 H6]; auto.
      - rewrite H0. reflexivity.
      - apply singleton_nth; [|exact H5]. etransitivity; [exact H6|].
        now rewrite H0. }
    assert (C1 : closed (conn (Demo.w s1)) = true).
    { pose proof (DemoSession.d_exit e sc (handshake ++ deliver 0 4 l)) as X.
      cbv zeta in X. rewrite <- E1, T1 in X.
      inversion X as [|? ? X1 _]. now apply X1. }
    assert (E2 : s2 = Demo.step s1 EvClose).
    { unfold s2, sch1. rewrite E1, app_assoc, DemoFacts.d_run_app. reflexivity. }
    assert (C2 : conn (Demo.w s2) = CClosed /\
                 Demo.turn_threads s2 = Demo.turn_threads s1).
    { rewrite E2. destruct (conn (Demo.w s1)) eqn:Ec; try discriminate C1.
      - rewrite DemoCases.d_step_close by auto. unfold Demo.shut.
        destruct (nilb _); split; reflexivity.
      - rewrite DemoCases.d_step_close_other by auto. auto. }
    destruct C2 as [C2 T2].
    assert (M2 : Demo.main s2 = Demo.MWaitCall).
    { rewrite E2, DemoSession.d_main_step by discriminate.
      unfold s1. rewrite DemoSession.d_main_run by apply deliver_no_main.
      exact H4. }
    assert (D2 : Demo.done (Demo.self s2) = true)
      by (now apply (DemoInv.d_closed_flags e sc sch1)).
    pose proof (@d_run_returns _ M2 D2 C2) as R. rewrite <- Es in R.
    assert (T : Demo.turn_threads s = [Demo.TurnThread 0 Demo.TExit])
      by (rewrite R; unfold Demo.with_main; cbn [Demo.turn_threads];
          rewrite T2; exact T1).
    repeat apply conj.
    + rewrite R. reflexivity.
    + rewrite R. exact C2.
    + now apply (@DemoSession.d_single_frames e sc l _ 0 Hl).
    + destruct (DemoTranscript.d_transcript e sc
                  (handshake ++ deliver 0 4 l
                   ++ [EvClose; EvMain; EvMain; EvMain])) as (_ & _ & _ & G4).
      unfold Demo.is_interactive, Demo.scripted_turns in G4.
      rewrite DemoRuns.d_run_scenario in G4.
      cbn [Demo.boot Demo.self Demo.scenario Demo.__init__] in G4.
      rewrite Hl in G4. specialize (G4 eq_refl). fold s in G4.
      rewrite T in G4. cbn [Demo.progress Demo.t_pc] in G4.
      rewrite G4. now rewrite firstn_all.
    + unfold s. rewrite DemoSession.d_now_run, !elapsed_app.
      pose proof (elapsed_deliver 0 4 l) as B.
      cbn [elapsed handshake]. cbn [Demo.boot Demo.w now world0].
      unfold seconds, BETWEEN_TURNS in *. lia.
Qed.

(** The sample session of DemoRunner. *)
Lemma scripted_session_witness :
  let s := Demo.run (Demo.boot env0 scenario_d)
             (handshake ++ deliver 0 4 [("English", "Hello"); ("Spanish", "Hola")]
              ++ [EvClose; EvMain; EvMain; EvMain]) in
  Demo.main s = Demo.MReturned /\
  filter labelled (Demo.conversation (Demo.self s))
  = [turn_entry "English" "Hello"; turn_entry "Spanish" "Hola"].
Proof.
  intros s.
  destruct (proj2 a_scripted_session_ends_by_itself env0 scenario_d
              [("English", "Hello"); ("Spanish", "Hola")] eq_refl)
    as (H1 & _ & _ & H4 & _).
  split; [exact H1 | exact H4].
Defined.

Lemma extends_refl A (l : list A) : extends l l.
Proof. exists []. now rewrite app_nil_r. Qed.

Lemma extends_snoc A (l : list A) x : extends l (l ++ [x]).
Proof. now exists [x]. Qed.

Lemma extends_trans A (l1 l2 l3 : list A) :
  extends l1 l2 -> extends l2 l3 -> extends l1 l3.
Proof. intros (a & ->) (b & ->). exists (a ++ b). now rewrite app_assoc. Qed.

Lemma console_w_close w0 : console (w_close w0) = console w0.
Proof. unfold w_close. now destruct (conn w0). Qed.

Create HintDb grow.
#[local] Hint Resolve extends_refl extends_snoc : grow.

Module HarnessGrowth.
Import Harness HarnessFacts HarnessCases HarnessInv.

Lemma h_grown_step s e : grown s (step s e).
Proof.
  unfold grown. h_cases s e; h_unfold;
    rewrite ?outbox_w_close, ?now_w_close, ?files_w_close, ?console_w_close.
  all: repeat split; auto with grow; try lia; try congruence.
Qed.

Lemma h_grown_trans s1 s2 s3 : grown s1 s2 -> grown s2 s3 -> grown s1 s3.
Proof.
  unfold grown.
  intros (A1 & A2 & A3 & A4 & A5 & A6 & A7 & A8 & A9 & A10 & A11 & A12 & A13)
         (B1 & B2 & B3 & B4 & B5 & B6 & B7 & B8 & B9 & B10 & B11 & B12 & B13).
  repeat split; eauto using extends_trans; lia.
Qed.

Lemma h_grown_run s sch : grown s (run s sch).
Proof.
  revert s. induction sch as [|e sch IH]; intros s.
  - unfold grown. cbn. repeat split; auto with grow; lia.
  - rewrite h_run_cons. eapply h_grown_trans; [apply h_grown_step | apply IH].
Qed.
End HarnessGrowth.

Module DemoGrowth.
Import Demo DemoFacts DemoCases DemoInv.

Lemma d_grown_step s e : grown s (step s e).
Proof.
  unfold grown. d_cases s e; d_unfold;
    rewrite ?outbox_w_close, ?now_w_close, ?files_w_close, ?console_w_close.
  all: repeat split; auto with grow; try lia; try congruence.
Qed.

Lemma d_grown_trans s1 s2 s3 : grown s1 s2 -> grown s2 s3 -> grown s1 s3.
Proof.
  unfold grown.
  intros (A1 & A2 & A3 & A4 & A5 & A6 & A7 & A8 & A9 & A10 & A11)
         (B1 & B2 & B3 & B4 & B5 & B6 & B7 & B8 & B9 & B10 & B11).
  repeat split; eauto using extends_trans; lia.
Qed.

Lemma d_grown_run s sch : grown s (run s sch).
Proof.
  revert s. induction sch as [|e sch IH]; intros s.
  - unfold grown. cbn. repeat split; auto with grow; lia.
  - rewrite d_run_cons. eapply d_grown_trans; [apply d_grown_step | apply IH].
Qed.
End DemoGrowth.

(** X21: a session only adds to its records.  In both runners, over any
    schedule from any state, the transcript, the lists of errors (and in
    ScenarioRunner of warnings and of audio files), the files written, the
    log of the socket and the console only grow at their end; the stop
    flag, the completion signal, the acknowledgement and the socket
    reference, once set, stay set; the clock and the turn counter never
    go back. *)
Theorem a_session_only_adds_to_its_records :
  (forall s sch,
      let s' := Harness.run s sch in
      extends (Harness.conversation (Harness.results (Harness.self s)))
              (Harness.conversation (Harness.results (Harness.self s'))) /\
      extends (Harness.errors (Harness.results (Harness.self s)))
              (Harness.errors (Harness.results (Harness.self s'))) /\
      extends (Harness.warnings (Harness.results (Harness.self s)))
              (Harness.warnings (Harness.results (Harness.self s'))) /\
      extends (Harness.audio_files (Harness.results (Harness.self s)))
              (Harness.audio_files (Harness.results (Harness.self s'))) /\
      extends (files (Harness.w s)) (files (Harness.w s')) /\
      extends (outbox (Harness.w s)) (outbox (Harness.w s')) /\
      extends (console (Harness.w s)) (console (Harness.w s')) /\
      (Harness._keepalive_stop (Harness.self s) = true ->
       Harness._keepalive_stop (Harness.self s') = true) /\
      (Harness.done_event (Harness.self s) = true ->
       Harness.done_event (Harness.self s') = true) /\
      (Harness.settings_applied (Harness.results (Harness.self s)) = true ->
       Harness.settings_applied (Harness.results (Harness.self s')) = true) /\
      (Harness._ws_ref (Harness.self s) = true ->
       Harness._ws_ref (Harness.self s') = true) /\
      now (Harness.w s) <= now (Harness.w s') /\
      (Harness.audio_turn (Harness.self s) <= Harness.audio_turn (Harness.self s'))%nat) /\
  (forall s sch,
      let s' := Demo.run s sch in
      extends (Demo.conversation (Demo.self s)) (Demo.conversation (Demo.self s')) /\
      extends (Demo._errors (Demo.self s)) (Demo._errors (Demo.self s')) /\
      extends (files (Demo.w s)) (files (Demo.w s')) /\
      extends (outbox (Demo.w s)) (outbox (Demo.w s')) /\
      extends (console (Demo.w s)) (console (Demo.w s')) /\
      (Demo._keepalive_stop (Demo.self s) = true ->
       Demo._keepalive_stop (Demo.self s') = true) /\
      (Demo.done (Demo.self s) = true -> Demo.done (Demo.self s') = true) /\
      (Demo._settings_applied (Demo.self s) = true ->
       Demo._settings_applied (Demo.self s') = true) /\
      (Demo._ws (Demo.self s) = true -> Demo._ws (Demo.self s') = true) /\
      now (Demo.w s) <= now (Demo.w s') /\
      (Demo.audio_turn (Demo.self s) <= Demo.audio_turn (Demo.self s'))%nat).
Proof.
  split; intros s sch.
  - exact (HarnessGrowth.h_grown_run s sch).
  - exact (DemoGrowth.d_grown_run s sch).
Qed.

(** The stop flag set by a fatal error is still set after the turns. *)
Lemma records_witness :
  let s := Harness.run (Harness.boot env0 scenario_h)
             (handshake ++ [EvFrame (Error "INVALID_SETTINGS" "bad")]) in
  Harness._keepalive_stop
    (Harness.self (Harness.run s (deliver 0 3 (Harness.turns scenario_h)))) = true.
Proof.
  intros s.
  destruct (proj1 a_session_only_adds_to_its_records s
              (deliver 0 3 (Harness.turns scenario_h)))
    as (_ & _ & _ & _ & _ & _ & _ & H & _).
  apply H. vm_compute. reflexivity.
Defined.

Lemma d_turn_step k born pc s :
  nth_error (Demo.turn_threads s) k = Some (Demo.TurnThread born pc) ->
  Demo.step s (EvTurns k)
  = Demo.with_turn_threads
      (set_nth k (Demo.TurnThread born (fst (Demo._send_turns_step k pc s)))
               (Demo.turn_threads (snd (Demo._send_turns_step k pc s))))
      (snd (Demo._send_turns_step k pc s)).
Proof.
  intros H. unfold Demo.step. rewrite H. cbn [Demo.t_pc Demo.t_born].
  now destruct (Demo._send_turns_step k pc s).
Qed.



Lemma stdin_w_close w0 : stdin (w_close w0) = stdin w0.
Proof. unfold w_close. destruct (conn w0); reflexivity. Qed.

Module DemoWaiting.
Import Demo DemoFacts DemoCases DemoInv.

(** A frame that does not wake leaves the flag, the threads, the log of
    the socket and the input as they are. *)
Lemma d_frame_asleep s m :
  wakes (EvFrame m) = false ->
  _ready_for_input (self (step s (EvFrame m))) = _ready_for_input (self s) /\
  turn_threads (step s (EvFrame m)) = turn_threads s /\
  outbox (w (step s (EvFrame m))) = outbox (w s) /\
  stdin (w (step s (EvFrame m))) = stdin (w s).
Proof.
  intros Hq. unfold step.
  destruct (conn (w s)) eqn:Hc; try (repeat split; reflexivity).
  destruct m as [[ev|]|bytes].
  - unfold callback at 2. simpl _on_data. unfold ret.
    destruct ev; try (repeat split; reflexivity).
    cbn [wakes] in Hq. apply orb_false_elim in Hq. destruct Hq as [Q1 Q2].
    unfold callback, _on_message, bind. rewrite get_field, Q1.
    destruct (eq_str (field "type" d) "ConversationText").
    { rewrite !get_field. unfold conversation_append, modify.
      destruct (eq_str (field "role" d) "assistant"); repeat split; reflexivity. }
    rewrite Q2.
    destruct (eq_str (field "type" d) "Error").
    { rewrite !get_field. unfold modify.
      destruct (eq_str (field "code" d) "CLIENT_MESSAGE_TIMEOUT");
        repeat split; reflexivity. }
    repeat split; reflexivity.
  - repeat split; reflexivity.
  - unfold callback, _on_data, _on_message.
    destruct (0 <? List.length bytes)%nat; repeat split; reflexivity.
Qed.

Lemma d_waits_step s e :
  wakes e = false ->
  _ready_for_input (self s) = false ->
  Forall waits (turn_threads s) ->
  _ready_for_input (self (step s e)) = false /\
  turn_threads (step s e) = turn_threads s /\
  user_turns (outbox (w (step s e))) = user_turns (outbox (w s)) /\
  extends (stdin (w s)) (stdin (w (step s e))).
Proof.
  intros Hq Hr Hw.
  destruct e as [| |m| |d|l|k|k].
  3: { destruct (@d_frame_asleep s _ Hq) as (A & B & C & D).
       rewrite A, B, C, D. repeat split; auto using extends_refl. }
  3: discriminate Hq.
  all: clear Hq.
  - d_main_cases s; d_unfold; rewrite ?outbox_w_close, ?stdin_w_close;
      repeat split; auto using extends_refl.
  - d_open_cases s; d_unfold; repeat split; auto using extends_refl.
    unfold user_turns; rewrite ?filter_app; cbn; rewrite ?app_nil_r; auto.
  - unfold step. cbn. repeat split; auto using extends_refl.
  - unfold step. cbn. repeat split; auto. now exists [l].
  - d_keepalive_cases s k; d_unfold; repeat split; auto using extends_refl.
    all: unfold user_turns; rewrite ?filter_app; cbn; rewrite ?app_nil_r; auto.
  - unfold step.
    destruct (nth_error (turn_threads s) k) as [[born pc]|] eqn:Ek;
      [|repeat split; auto using extends_refl].
    pose proof (@Forall_nth_error _ _ _ _ _ Hw Ek) as Hp.
    unfold waits in Hp. cbn in Hp. subst pc.
    cbn [t_pc t_born _send_turns_step]. rewrite Hr.
    cbn. rewrite (@set_nth_same _ _ _ _ Ek).
    repeat split; auto using extends_refl.
Qed.

(** While nothing wakes it, a session whose threads all wait stays as it
    is. *)
Lemma d_waits s sch :
  forallb (fun e => negb (wakes e)) sch = true ->
  _ready_for_input (self s) = false ->
  Forall waits (turn_threads s) ->
  _ready_for_input (self (run s sch)) = false /\
  turn_threads (run s sch) = turn_threads s /\
  user_turns (outbox (w (run s sch))) = user_turns (outbox (w s)) /\
  extends (stdin (w s)) (stdin (w (run s sch))).
Proof.
  revert s. induction sch as [|e sch IH]; intros s Hq Hr Hw.
  - repeat split; auto using extends_refl.
  - cbn [forallb] in Hq. apply andb_prop in Hq. destruct Hq as [Q1 Q2].
    apply negb_true_iff in Q1.
    destruct (@d_waits_step s e Q1 Hr Hw) as (A & B & C & D).
    rewrite d_run_cons.
    destruct (IH (step s e) Q2 A) as (A' & B' & C' & D').
    { now rewrite B. }
    rewrite A', B', C', B, C. repeat split; auto.
    eapply extends_trans; eauto.
Qed.
End DemoWaiting.

(** X23: the interactive thread waits for its turn.  While the readiness
    flag is clear and every turn thread is suspended in the wait for it,
    no schedule without a close of the socket and without a frame of type
    SettingsApplied or AgentAudioDone moves a thread, sets the flag, sends
    a user turn or takes a typed line; a frame of type AgentAudioDone on
    the open socket sets the flag in interactive mode and only there; and
    with the flag set the waiting thread clears it, prints the prompt and
    reads, sending nothing. *)
Theorem interactive_thread_waits_for_its_turn :
  (forall s sch,
      forallb (fun e => negb (Demo.wakes e)) sch = true ->
      Demo._ready_for_input (Demo.self s) = false ->
      Forall Demo.waits (Demo.turn_threads s) ->
      let s1 := Demo.run s sch in
      Demo._ready_for_input (Demo.self s1) = false /\
      Demo.turn_threads s1 = Demo.turn_threads s /\
      user_turns (outbox (Demo.w s1)) = user_turns (outbox (Demo.w s)) /\
      extends (stdin (Demo.w s)) (stdin (Demo.w s1))) /\
  (forall s d,
      conn (Demo.w s) = COpen ->
      eq_str (field "type" d) "AgentAudioDone" = true ->
      Demo._ready_for_input (Demo.self (Demo.step s (EvFrame (MText (Some (JDict d))))))
      = Demo.is_interactive s || Demo._ready_for_input (Demo.self s)) /\
  (forall s k born,
      nth_error (Demo.turn_threads s) k = Some (Demo.TurnThread born Demo.IWaitReady) ->
      Demo._ready_for_input (Demo.self s) = true ->
      let s1 := Demo.run s [EvTurns k; EvTurns k; EvTurns k] in
      Demo._ready_for_input (Demo.self s1) = false /\
      nth_error (Demo.turn_threads s1) k = Some (Demo.TurnThread born Demo.IInput) /\
      console (Demo.w s1) = console (Demo.w s) ++ [[FS "  YOU: "]] /\
      outbox (Demo.w s1) = outbox (Demo.w s) /\
      stdin (Demo.w s1) = stdin (Demo.w s)).
Proof.
  repeat apply conj.
  - intros s sch Hq Hr Hw s1. exact (@DemoWaiting.d_waits s sch Hq Hr Hw).
  - intros s d Hc Ht. unfold Demo.step. rewrite Hc.
    unfold Demo.callback at 2. simpl Demo._on_data. unfold ret.
    unfold Demo.callback, Demo._on_message, bind. rewrite get_field.
    destruct (eq_str (field "type" d) "SettingsApplied") eqn:E1.
    { destruct (field "type" d) as [| | | |t| |]; try discriminate.
      cbn in E1, Ht. apply String.eqb_eq in E1, Ht. congruence. }
    destruct (eq_str (field "type" d) "ConversationText") eqn:E2.
    { destruct (field "type" d) as [| | | |t| |]; try discriminate.
      cbn in E2, Ht. apply String.eqb_eq in E2, Ht. congruence. }
    rewrite Ht.
    destruct (Demo.audio_buffer (Demo.self s)) eqn:Eb.
    + rewrite DemoFacts.d_save_audio_empty by exact Eb. cbn.
      unfold gets. unfold Demo.is_interactive.
      destruct (Demo.turns (Demo.scenario (Demo.self s))); reflexivity.
    + rewrite DemoFacts.d_save_audio_flush by congruence. cbn.
      unfold gets. unfold Demo.is_interactive. cbn.
      destruct (Demo.turns (Demo.scenario (Demo.self s))); reflexivity.
  - intros s k born Hk Hr s1. unfold s1.
    rewrite DemoFacts.d_run_cons, (@d_turn_step _ _ _ _ Hk).
    cbn [Demo._send_turns_step]. rewrite Hr. cbn [fst snd].
    rewrite DemoFacts.d_run_cons; erewrite d_turn_step
      by (cbn -[Demo.run Demo.step]; apply (@nth_error_set_nth_same _ _ _ _ _ Hk)).
    cbn -[Demo.run Demo.step]. rewrite ?set_nth_set_nth.
    rewrite DemoFacts.d_run_cons; erewrite d_turn_step
      by (cbn -[Demo.run Demo.step]; apply (@nth_error_set_nth_same _ _ _ _ _ Hk)).
    rewrite DemoFacts.d_run_nil.
    cbn -[Demo.run Demo.step]. rewrite ?set_nth_set_nth.
    repeat split; try reflexivity.
    apply (@nth_error_set_nth_same _ _ _ _ _ Hk).
Qed.


(** The interactive thread of the sample session after its first line,
    while the agent's reply is printed. *)
Lemma waits_witness :
  let s := Demo.run (Demo.boot env0 scenario_i)
             (handshake ++ [EvStdin (Some " hello ")]
              ++ repeat (EvTurns 0) 10
              ++ [EvTurns 0; EvTick 500; EvTurns 0; EvTurns 0]) in
  let sch := [EvTurns 0; EvKeepalive 0; EvTick 1000; EvTurns 0;
              EvFrame (MText (Some (JDict [("type", JStr "ConversationText");
                                           ("role", JStr "assistant");
                                           ("content", JStr "Hi")])));
              EvStdin (Some "next"); EvMain; EvTurns 0] in
  Forall Demo.waits (Demo.turn_threads s) /\
  Demo.turn_threads (Demo.run s sch) = Demo.turn_threads s /\
  user_turns (outbox (Demo.w (Demo.run s sch))) = user_turns (outbox (Demo.w s)).
Proof.
  intros s sch.
  assert (Hw : Forall Demo.waits (Demo.turn_threads s)).
  { vm_compute. repeat constructor. }
  split; [exact Hw|].
  pose proof (proj1 interactive_thread_waits_for_its_turn s sch
                eq_refl eq_refl Hw) as H.
  cbv zeta in H. split; apply H.
Defined.


(** ** White space around an answer *)

Lemma lstrip_blank_app pad s : blank pad = true -> lstrip (pad ++ s) = lstrip s.
Proof.
  induction pad as [|c pad IH]; cbn; intros H; [reflexivity|].
  apply andb_prop in H. destruct H as [H1 H2]. rewrite H1. auto.
Qed.

Lemma rstrip_blank pad : blank pad = true -> rstrip pad = "".
Proof.
  induction pad as [|c pad IH]; cbn; intros H; [reflexivity|].
  apply andb_prop in H. destruct H as [H1 H2]. rewrite IH, H1; auto.
Qed.

Lemma rstrip_app_blank s pad : blank pad = true -> rstrip (s ++ pad) = rstrip s.
Proof.
  intros H. induction s as [|c s IH]; cbn.
  - now apply rstrip_blank.
  - now rewrite IH.
Qed.

Lemma strip_app_blank s pad : blank pad = true -> strip (s ++ pad) = strip s.
Proof.
  intros H. unfold strip. induction s as [|c s IH]; cbn.
  - rewrite rstrip_blank; [reflexivity|].
    clear - H. induction pad as [|c pad IH]; cbn in *; [reflexivity|].
    apply andb_prop in H. destruct H as [H1 H2]. rewrite H1. auto.
  - destruct (isspace c); [exact IH|].
    exact (@rstrip_app_blank (String c s) pad H).
Qed.

Lemma strip_padded pad s pad' :
  blank pad = true -> blank pad' = true -> strip (pad ++ s ++ pad') = strip s.
Proof.
  intros H H'. unfold strip. rewrite lstrip_blank_app by exact H.
  exact (@strip_app_blank s pad' H').
Qed.

Lemma length_rstrip s : (String.length (rstrip s) <= String.length s)%nat.
Proof.
  induction s as [|c s IH]; cbn; [lia|].
  destruct (rstrip s); [destruct (isspace c)|]; cbn in *; lia.
Qed.

Lemma length_lstrip s : (String.length (lstrip s) <= String.length s)%nat.
Proof.
  induction s as [|c s IH]; cbn; [lia|].
  destruct (isspace c); cbn; lia.
Qed.

Lemma length_strip s : (String.length (strip s) <= String.length s)%nat.
Proof.
  unfold strip. pose proof (length_rstrip (lstrip s)). pose proof (length_lstrip s). lia.
Qed.

Lemma length_append s t :
  String.length (s ++ t) = (String.length s + String.length t)%nat.
Proof. induction s as [|c s IH]; cbn; [reflexivity|now rewrite IH]. Qed.

Lemma scenario_of_Some SCENARIOS choice sc :
  Demo.scenario_of SCENARIOS choice = Some sc -> In (choice, sc) SCENARIOS.
Proof.
  induction SCENARIOS as [|[k v] rest IH]; cbn; [discriminate|].
  destruct (String.eqb k choice) eqn:E.
  - apply String.eqb_eq in E. intros [= ->]. left. now subst.
  - intros H. right. auto.
Qed.

Lemma scenario_of_None SCENARIOS choice :
  ~ In choice (map fst SCENARIOS) -> Demo.scenario_of SCENARIOS choice = None.
Proof.
  induction SCENARIOS as [|[k v] rest IH]; cbn; [reflexivity|].
  intros H. destruct (String.eqb k choice) eqn:E.
  - apply String.eqb_eq in E. tauto.
  - apply IH. tauto.
Qed.

(** X24: how main() of the demo chooses its scenario.  With an argument on
    the command line the input is not read; the argument is looked up as
    it stands, so with keys free of surrounding white space an argument
    followed by white space is unknown.  Without an argument the answer
    typed is stripped first: white space around it does not change the
    choice; the end of the input ends the program.  A scenario that is
    chosen is the one stored under the choice. *)
Theorem main_chooses_the_scenario :
  (forall SCENARIOS prog choice more typed typed',
      Demo.main_choice SCENARIOS (prog :: choice :: more) typed
      = Demo.main_choice SCENARIOS (prog :: choice :: more) typed') /\
  (forall SCENARIOS prog choice pad more typed,
      Forall (fun key => strip key = key) (map fst SCENARIOS) ->
      blank pad = true -> pad <> "" ->
      Demo.main_choice SCENARIOS (prog :: (choice ++ pad)%string :: more) typed
      = Demo.Unknown (choice ++ pad)%string true) /\
  (forall SCENARIOS argv pad answer pad',
      (List.length argv <= 1)%nat ->
      blank pad = true -> blank pad' = true ->
      Demo.main_choice SCENARIOS argv (Some (pad ++ answer ++ pad')%string)
      = Demo.main_choice SCENARIOS argv (Some answer)) /\
  (forall SCENARIOS argv,
      (List.length argv <= 1)%nat ->
      Demo.main_choice SCENARIOS argv None = Demo.Bye) /\
  (forall SCENARIOS argv typed choice sc,
      Demo.main_choice SCENARIOS argv typed = Demo.Chosen choice sc ->
      In (choice, sc) SCENARIOS /\
      (nth_error argv 1 = Some choice \/
       (List.length argv <= 1)%nat /\
       exists answer, typed = Some answer /\ choice = strip answer)).
Proof.
  repeat apply conj.
  - reflexivity.
  - intros SC prog choice pad more typed Hk Hb Hp.
    unfold Demo.main_choice. cbn [tl].
    rewrite scenario_of_None; [reflexivity|].
    intros Hin. rewrite Forall_forall in Hk. specialize (Hk _ Hin).
    rewrite strip_app_blank in Hk by exact Hb.
    pose proof (length_strip choice) as L. rewrite Hk, length_append in L.
    destruct pad; [congruence|]. cbn in L. lia.
  - intros SC argv pad answer pad' Ha Hb Hb'.
    unfold Demo.main_choice.
    destruct argv as [|prog [|c more]]; cbn [tl]; cbn in Ha; try lia.
    all: now rewrite strip_padded.
  - intros SC argv Ha. unfold Demo.main_choice.
    destruct argv as [|prog [|c more]]; cbn [tl]; cbn in Ha; try lia; reflexivity.
  - intros SC argv typed choice sc. unfold Demo.main_choice.
    destruct argv as [|prog [|c more]]; cbn [tl].
    3: { destruct (Demo.scenario_of SC c) eqn:E; [|discriminate].
         intros [= <- <-]. split; [now apply scenario_of_Some|]. left. reflexivity. }
    all: destruct typed as [answer|]; [|discriminate].
    all: destruct (Demo.scenario_of SC (strip answer)) eqn:E; [|discriminate].
    all: intros [= <- <-]; split; [now apply scenario_of_Some|].
    all: right; split; [cbn; lia|]; eauto.
Qed.

(** The answer "3" typed between blanks, and the argument "3 ". *)
Lemma main_chooses_witness :
  let SCENARIOS := [("1", scenario_d); ("3", scenario_i)] in
  Demo.main_choice SCENARIOS ["demo.py"] (Some ("  " ++ "3" ++ " ")%string)
  = Demo.Chosen "3" scenario_i /\
  Demo.main_choice SCENARIOS ["demo.py"; ("3" ++ " ")%string] None
  = Demo.Unknown "3 " true.
Proof.
  intros SCENARIOS. split.
  - rewrite (proj1 (proj2 (proj2 main_chooses_the_scenario))
               SCENARIOS ["demo.py"] "  " "3" " ");
      [reflexivity|cbn; lia|reflexivity|reflexivity].
  - apply (proj1 (proj2 main_chooses_the_scenario)
             SCENARIOS "demo.py" "3" " " [] None);
      [repeat constructor|reflexivity|discriminate].
Defined.

